(** * Size-balanced tree (sb_tree.h): a pointer-level model and its properties

    The container of [sb_tree.h] is a graph of heap nodes linked by
    [parent], [left] and [right] pointers and anchored at a header node.
    The model keeps that shape: a heap is a finite map from addresses to
    node records, a null pointer is [None], and every member function is
    a function on heaps in the option monad, where [None] stands for
    undefined behaviour (a null or dangling dereference) or for a loop
    that did not finish within its fuel.  [size_t] is a 64-bit integer:
    sizes are [Z] and every addition or subtraction is wrapped. *)

From stdpp Require Import base option list gmap.
From Stdlib Require Import ZArith Lia Sorted.

Open Scope Z_scope.

(** ** Machine integers *)

Definition size_max : Z := 2 ^ 64 - 1.

Definition wrap64 (x : Z) : Z := x mod 2 ^ 64.

(** ** Nodes and heaps *)

Definition ptr := positive.

(** Sequencing in the option monad: [let* p := m in k] runs [m] and
    continues with [k] when it succeeded. *)
Notation "'let*' p := m 'in' k" :=
  (match m with Some p => k | None => None end)
  (at level 10, p pattern, m at level 100, k at level 200, only parsing).

Section Model.

Context {T : Type}.

(** [struct sb_tree_node]: three links, the subtree size, the payload. *)
Record node := Node {
  parent : option ptr;
  left : option ptr;
  right : option ptr;
  size : Z;
  data : T
}.

Abbreviation heap := (gmap ptr node).

Definition with_parent (n : node) (v : option ptr) : node :=
  Node v (left n) (right n) (size n) (data n).
Definition with_left (n : node) (v : option ptr) : node :=
  Node (parent n) v (right n) (size n) (data n).
Definition with_right (n : node) (v : option ptr) : node :=
  Node (parent n) (left n) v (size n) (data n).
Definition with_size (n : node) (v : Z) : node :=
  Node (parent n) (left n) (right n) v (data n).

(** Field reads [p->f] and writes [p->f = v]; both fail on an address
    that holds no node. *)
Definition get_parent (h : heap) (p : ptr) : option (option ptr) := parent <$> h !! p.
Definition get_left (h : heap) (p : ptr) : option (option ptr) := left <$> h !! p.
Definition get_right (h : heap) (p : ptr) : option (option ptr) := right <$> h !! p.
Definition get_size (h : heap) (p : ptr) : option Z := size <$> h !! p.
Definition get_data (h : heap) (p : ptr) : option T := data <$> h !! p.

Definition set_parent (h : heap) (p : ptr) (v : option ptr) : option heap :=
  let* n := h !! p in Some (<[p := with_parent n v]> h).
Definition set_left (h : heap) (p : ptr) (v : option ptr) : option heap :=
  let* n := h !! p in Some (<[p := with_left n v]> h).
Definition set_right (h : heap) (p : ptr) (v : option ptr) : option heap :=
  let* n := h !! p in Some (<[p := with_right n v]> h).
Definition set_size (h : heap) (p : ptr) (v : Z) : option heap :=
  let* n := h !! p in Some (<[p := with_size n v]> h).

(** Dereferencing a pointer variable that may be null. *)
Definition nonnull (p : option ptr) : option ptr := p.

(** The recurring expression [p ? p->size : 0]. *)
Definition size_or_zero (h : heap) (p : option ptr) : option Z :=
  match p with
  | Some a => get_size h a
  | None => Some 0
  end.

(** ** The tree object

    [header] is the address of the sentinel; [next] is the next address
    the allocator hands out. *)
Record sb_tree := Tree {
  mem : heap;
  header : ptr;
  next : ptr
}.

Variable comp : T → T → bool.
Variable dflt : T.

(** Loops run on fuel; every member function passes the number of
    allocated nodes plus one, which bounds the height of any tree that
    lives in the heap. *)
Definition fuel_of (h : heap) : nat := S (base.size h).

(** [create_header]: a node with a default payload that is its own
    leftmost and rightmost element, with no root. *)
Definition create_header (a : ptr) : heap :=
  {[ a := Node None (Some a) (Some a) 0 dflt ]}.

Definition empty_tree : sb_tree := Tree (create_header 1%positive) 1%positive 2%positive.

(** [empty] and [size]. *)
Definition empty (s : sb_tree) : option bool :=
  let* r := get_parent (mem s) (header s) in
  Some (match r with Some _ => false | None => true end).

Definition tree_size (s : sb_tree) : option Z :=
  let* r := get_parent (mem s) (header s) in
  size_or_zero (mem s) r.

(** [root], [leftmost], [rightmost]. *)
Fixpoint leftmost (fuel : nat) (h : heap) (t : ptr) : option ptr :=
  match fuel with
  | O => None
  | S f =>
      let* l := get_left h t in
      match l with
      | Some a => leftmost f h a
      | None => Some t
      end
  end.

Fixpoint rightmost (fuel : nat) (h : heap) (t : ptr) : option ptr :=
  match fuel with
  | O => None
  | S f =>
      let* r := get_right h t in
      match r with
      | Some a => rightmost f h a
      | None => Some t
      end
  end.

(** ** Rotations *)

(** The three-way relinking shared by rotations and erasure:
    [if (t == header->parent) header->parent = x;
     else if (t == t->parent->left) t->parent->left = x;
     else t->parent->right = x;] *)
Definition relink_left_first (hdr : ptr) (h : heap) (t : ptr) (x : option ptr) : option heap :=
  let* root := get_parent h hdr in
  if decide (Some t = root) then set_parent h hdr x
  else
    let* tp := get_parent h t in
    let* p := nonnull tp in
    let* pl := get_left h p in
    if decide (Some t = pl) then set_left h p x else set_right h p x.

(** The same with the right child tested first, as [right_rotate] does. *)
Definition relink_right_first (hdr : ptr) (h : heap) (t : ptr) (x : option ptr) : option heap :=
  let* root := get_parent h hdr in
  if decide (Some t = root) then set_parent h hdr x
  else
    let* tp := get_parent h t in
    let* p := nonnull tp in
    let* pr := get_right h p in
    if decide (Some t = pr) then set_right h p x else set_left h p x.

(** [t->size = (t->left ? t->left->size : 0) + (t->right ? t->right->size : 0) + 1] *)
Definition recompute_size (h : heap) (t : ptr) : option heap :=
  let* tl := get_left h t in
  let* ls := size_or_zero h tl in
  let* tr := get_right h t in
  let* rs := size_or_zero h tr in
  set_size h t (wrap64 (wrap64 (ls + rs) + 1)).

Definition left_rotate (hdr : ptr) (h : heap) (t : ptr) : option (heap * ptr) :=
  let* tr := get_right h t in
  let* r := nonnull tr in
  let* rl := get_left h r in
  let* h := set_right h t rl in
  let* rl := get_left h r in
  let* h := match rl with
       | Some a => set_parent h a (Some t)
       | None => Some h
       end in
  let* tp := get_parent h t in
  let* h := set_parent h r tp in
  let* h := relink_left_first hdr h t (Some r) in
  let* h := set_left h r (Some t) in
  let* ts := get_size h t in
  let* h := set_size h r ts in
  let* h := set_parent h t (Some r) in
  let* h := recompute_size h t in
  Some (h, r).

Definition right_rotate (hdr : ptr) (h : heap) (t : ptr) : option (heap * ptr) :=
  let* tl := get_left h t in
  let* l := nonnull tl in
  let* lr := get_right h l in
  let* h := set_left h t lr in
  let* lr := get_right h l in
  let* h := match lr with
       | Some a => set_parent h a (Some t)
       | None => Some h
       end in
  let* tp := get_parent h t in
  let* h := set_parent h l tp in
  let* h := relink_right_first hdr h t (Some l) in
  let* h := set_right h l (Some t) in
  let* ts := get_size h t in
  let* h := set_size h l ts in
  let* h := set_parent h t (Some l) in
  let* h := recompute_size h t in
  Some (h, l).


(** ** Rebalancing *)

(** The guard [c && bound < c->size] on a child pointer [c]. *)
Definition exceeds (h : heap) (c : option ptr) (bound : Z) : option bool :=
  match c with
  | Some a => let* s := get_size h a in Some (bound <? s)
  | None => Some false
  end.

Fixpoint insert_rebalance (fuel : nat) (hdr : ptr) (h : heap) (t : ptr) (flag : bool)
    : option (heap * ptr) :=
  match fuel with
  | O => None
  | S f =>
    if flag then
      let* tr := get_right h t in
      match tr with
      | None => Some (h, t)
      | Some r =>
        let* tl := get_left h t in
        let* left_size := size_or_zero h tl in
        let* rl := get_left h r in
        let* case1 := exceeds h rl left_size in
        if case1 then
          let* (h, x) := right_rotate hdr h r in
          let* h := set_right h t (Some x) in
          let* (h, t) := left_rotate hdr h t in
          let* tl := get_left h t in let* a := nonnull tl in
          let* (h, x) := insert_rebalance f hdr h a false in
          let* h := set_left h t (Some x) in
          let* tr := get_right h t in let* b := nonnull tr in
          let* (h, x) := insert_rebalance f hdr h b true in
          let* h := set_right h t (Some x) in
          insert_rebalance f hdr h t true
        else
          let* rr := get_right h r in
          let* case2 := exceeds h rr left_size in
          if case2 then
            let* (h, t) := left_rotate hdr h t in
            let* tl := get_left h t in let* a := nonnull tl in
            let* (h, x) := insert_rebalance f hdr h a false in
            let* h := set_left h t (Some x) in
            insert_rebalance f hdr h t true
          else Some (h, t)
      end
    else
      let* tl := get_left h t in
      match tl with
      | None => Some (h, t)
      | Some l =>
        let* tr := get_right h t in
        let* right_size := size_or_zero h tr in
        let* lr := get_right h l in
        let* case3 := exceeds h lr right_size in
        if case3 then
          let* (h, x) := left_rotate hdr h l in
          let* h := set_left h t (Some x) in
          let* (h, t) := right_rotate hdr h t in
          let* tl := get_left h t in let* a := nonnull tl in
          let* (h, x) := insert_rebalance f hdr h a false in
          let* h := set_left h t (Some x) in
          let* tr := get_right h t in let* b := nonnull tr in
          let* (h, x) := insert_rebalance f hdr h b true in
          let* h := set_right h t (Some x) in
          insert_rebalance f hdr h t false
        else
          let* ll := get_left h l in
          let* case4 := exceeds h ll right_size in
          if case4 then
            let* (h, t) := right_rotate hdr h t in
            let* tr := get_right h t in let* b := nonnull tr in
            let* (h, x) := insert_rebalance f hdr h b true in
            let* h := set_right h t (Some x) in
            insert_rebalance f hdr h t false
          else Some (h, t)
      end
  end.

Fixpoint erase_rebalance (fuel : nat) (hdr : ptr) (h : heap) (t : ptr) (flag : bool)
    : option (heap * ptr) :=
  match fuel with
  | O => None
  | S f =>
    if negb flag then
      let* tr := get_right h t in
      match tr with
      | None => Some (h, t)
      | Some r =>
        let* tl := get_left h t in
        let* left_size := size_or_zero h tl in
        let* rl := get_left h r in
        let* case1 := exceeds h rl left_size in
        if case1 then
          let* (h, x) := right_rotate hdr h r in
          let* h := set_right h t (Some x) in
          let* (h, t) := left_rotate hdr h t in
          let* tl := get_left h t in let* a := nonnull tl in
          let* (h, x) := erase_rebalance f hdr h a true in
          let* h := set_left h t (Some x) in
          let* tr := get_right h t in let* b := nonnull tr in
          let* (h, x) := erase_rebalance f hdr h b false in
          let* h := set_right h t (Some x) in
          erase_rebalance f hdr h t false
        else
          let* rr := get_right h r in
          let* case2 := exceeds h rr left_size in
          if case2 then
            let* (h, t) := left_rotate hdr h t in
            let* tl := get_left h t in let* a := nonnull tl in
            let* (h, x) := erase_rebalance f hdr h a true in
            let* h := set_left h t (Some x) in
            erase_rebalance f hdr h t false
          else Some (h, t)
      end
    else
      let* tl := get_left h t in
      match tl with
      | None => Some (h, t)
      | Some l =>
        let* tr := get_right h t in
        let* right_size := size_or_zero h tr in
        let* lr := get_right h l in
        let* case3 := exceeds h lr right_size in
        if case3 then
          let* (h, x) := left_rotate hdr h l in
          let* h := set_left h t (Some x) in
          let* (h, t) := right_rotate hdr h t in
          let* tl := get_left h t in let* a := nonnull tl in
          let* (h, x) := erase_rebalance f hdr h a true in
          let* h := set_left h t (Some x) in
          let* tr := get_right h t in let* b := nonnull tr in
          let* (h, x) := erase_rebalance f hdr h b false in
          let* h := set_right h t (Some x) in
          erase_rebalance f hdr h t true
        else
          let* ll := get_left h l in
          let* case4 := exceeds h ll right_size in
          if case4 then
            let* (h, t) := right_rotate hdr h t in
            let* tr := get_right h t in let* b := nonnull tr in
            let* (h, x) := erase_rebalance f hdr h b false in
            let* h := set_right h t (Some x) in
            erase_rebalance f hdr h t true
          else Some (h, t)
      end
  end.

(** ** Insertion *)

(** [create_node] followed by [n->left = nullptr; n->right = nullptr;
    n->size = 1]; the parent link is written by the caller before it is
    read. *)
Definition create_node (s : sb_tree) (v : T) : sb_tree * ptr :=
  (Tree (<[next s := Node None None None 1 v]> (mem s)) (header s) (Pos.succ (next s)), next s).

(** [do t = insert_rebalance(t->parent, t == t->parent->right);
     while (t->parent != header);] *)
Fixpoint insert_climb (fuel rfuel : nat) (hdr : ptr) (h : heap) (t : ptr) : option heap :=
  match fuel with
  | O => None
  | S f =>
    let* tp := get_parent h t in let* p := nonnull tp in
    let* pr := get_right h p in
    let* (h, t) := insert_rebalance rfuel hdr h p (bool_decide (Some t = pr)) in
    let* tp := get_parent h t in
    if decide (tp = Some hdr) then Some h else insert_climb f rfuel hdr h t
  end.

(** [if (t == header->left) header->left = n] and its mirror image. *)
Definition extend_min (hdr : ptr) (h : heap) (t n : ptr) : option heap :=
  let* hl := get_left h hdr in
  if decide (Some t = hl) then set_left h hdr (Some n) else Some h.

Definition extend_max (hdr : ptr) (h : heap) (t n : ptr) : option heap :=
  let* hr := get_right h hdr in
  if decide (Some t = hr) then set_right h hdr (Some n) else Some h.

Fixpoint insert_equal_loop (fuel rfuel : nat) (hdr : ptr) (h : heap) (n t : ptr) : option heap :=
  match fuel with
  | O => None
  | S f =>
    let* ts := get_size h t in
    let* h := set_size h t (wrap64 (ts + 1)) in
    let* nd := get_data h n in
    let* td := get_data h t in
    if comp nd td then
      let* tl := get_left h t in
      match tl with
      | Some a => insert_equal_loop f rfuel hdr h n a
      | None =>
        let* h := set_parent h n (Some t) in
        let* h := set_left h t (Some n) in
        let* h := extend_min hdr h t n in
        insert_climb rfuel rfuel hdr h t
      end
    else
      let* tr := get_right h t in
      match tr with
      | Some a => insert_equal_loop f rfuel hdr h n a
      | None =>
        let* h := set_parent h n (Some t) in
        let* h := set_right h t (Some n) in
        let* h := extend_max hdr h t n in
        insert_climb rfuel rfuel hdr h t
      end
  end.

(** Attaching the first node below the header. *)
Definition attach_root (hdr : ptr) (h : heap) (n : ptr) : option heap :=
  let* h := set_parent h n (Some hdr) in
  let* h := set_parent h hdr (Some n) in
  let* h := set_left h hdr (Some n) in
  set_right h hdr (Some n).

Definition with_mem (s : sb_tree) (h : heap) : sb_tree := Tree h (header s) (next s).

Definition insert_equal_node (s : sb_tree) (v : T) : option (sb_tree * ptr) :=
  let (s, n) := create_node s v in
  let hdr := header s in
  let* root := get_parent (mem s) hdr in
  let* h := match root with
       | Some t => insert_equal_loop (fuel_of (mem s)) (fuel_of (mem s)) hdr (mem s) n t
       | None => attach_root hdr (mem s) n
       end in
  Some (with_mem s h, n).

(** [for (p = t; p != header; p = p->parent) ++p->size;] *)
Fixpoint grow_sizes (fuel : nat) (hdr : ptr) (h : heap) (p : ptr) : option heap :=
  if decide (p = hdr) then Some h
  else
    match fuel with
    | O => None
    | S f =>
      let* ps := get_size h p in
      let* h := set_size h p (wrap64 (ps + 1)) in
      let* pp := get_parent h p in let* q := nonnull pp in
      grow_sizes f hdr h q
    end.

Fixpoint insert_unique_loop (fuel : nat) (s : sb_tree) (val : T) (t : ptr)
    : option (sb_tree * ptr * bool) :=
  match fuel with
  | O => None
  | S f =>
    let hdr := header s in
    let* td := get_data (mem s) t in
    if comp val td then
      let* tl := get_left (mem s) t in
      match tl with
      | Some a => insert_unique_loop f s val a
      | None =>
        let (s, n) := create_node s val in
        let rfuel := fuel_of (mem s) in
        let* h := set_parent (mem s) n (Some t) in
        let* h := set_left h t (Some n) in
        let* h := extend_min hdr h t n in
        let* h := grow_sizes rfuel hdr h t in
        let* h := insert_climb rfuel rfuel hdr h t in
        Some (with_mem s h, n, true)
      end
    else
      if negb (comp td val) then Some (s, t, false)
      else
        let* tr := get_right (mem s) t in
        match tr with
        | Some a => insert_unique_loop f s val a
        | None =>
          let (s, n) := create_node s val in
          let rfuel := fuel_of (mem s) in
          let* h := set_parent (mem s) n (Some t) in
          let* h := set_right h t (Some n) in
          let* h := extend_max hdr h t n in
          let* h := grow_sizes rfuel hdr h t in
          let* h := insert_climb rfuel rfuel hdr h t in
          Some (with_mem s h, n, true)
        end
  end.

Definition insert_unique_node (s : sb_tree) (val : T) : option (sb_tree * ptr * bool) :=
  let* root := get_parent (mem s) (header s) in
  match root with
  | Some t => insert_unique_loop (fuel_of (mem s)) s val t
  | None =>
    let (s, n) := create_node s val in
    let* h := attach_root (header s) (mem s) n in
    Some (with_mem s h, n, true)
  end.


(** [insert_unique(first, last)] and [insert_equal(first, last)]: one
    node insertion per element of the range, in order. *)
Fixpoint insert_unique_range (s : sb_tree) (l : list T) : option sb_tree :=
  match l with
  | [] => Some s
  | v :: l => let* (s, _, _) := insert_unique_node s v in insert_unique_range s l
  end.

Fixpoint insert_equal_range (s : sb_tree) (l : list T) : option sb_tree :=
  match l with
  | [] => Some s
  | v :: l => let* (s, _) := insert_equal_node s v in insert_equal_range s l
  end.

(** ** Erasure *)

(** [for (p = start; p != header; p = p->parent) --p->size;] *)
Fixpoint shrink_sizes (fuel : nat) (hdr : ptr) (h : heap) (p : ptr) : option heap :=
  if decide (p = hdr) then Some h
  else
    match fuel with
    | O => None
    | S f =>
      let* ps := get_size h p in
      let* h := set_size h p (wrap64 (ps - 1)) in
      let* pp := get_parent h p in let* q := nonnull pp in
      shrink_sizes f hdr h q
    end.

(** [while (p != header) p = erase_rebalance(p->parent, p == p->parent->right);] *)
Fixpoint erase_climb (fuel rfuel : nat) (hdr : ptr) (h : heap) (p : ptr) : option heap :=
  if decide (p = hdr) then Some h
  else
    match fuel with
    | O => None
    | S f =>
      let* pp := get_parent h p in let* q := nonnull pp in
      let* qr := get_right h q in
      let* (h, p) := erase_rebalance rfuel hdr h q (bool_decide (Some p = qr)) in
      erase_climb f rfuel hdr h p
    end.

(** Case 1 of [erase_node]: [t] has at most one child [x]. *)
Definition erase_simple (fuel : nat) (hdr : ptr) (h : heap) (t : ptr) (x : option ptr)
    : option heap :=
  let* tp := get_parent h t in let* p := nonnull tp in
  let* pr := get_right h p in
  let flag := bool_decide (Some t = pr) in
  let* h := match x with
            | Some a => let* tp := get_parent h t in set_parent h a tp
            | None => Some h
            end in
  let* h := relink_left_first hdr h t x in
  let* hl := get_left h hdr in
  let* h := if decide (Some t = hl) then
              match x with
              | Some a => let* m := leftmost fuel h a in set_left h hdr (Some m)
              | None => let* tp := get_parent h t in set_left h hdr tp
              end
            else Some h in
  let* hr := get_right h hdr in
  let* h := if decide (Some t = hr) then
              match x with
              | Some a => let* m := rightmost fuel h a in set_right h hdr (Some m)
              | None => let* tp := get_parent h t in set_right h hdr tp
              end
            else Some h in
  let* tp := get_parent h t in let* p := nonnull tp in
  let* h := shrink_sizes fuel hdr h p in
  if decide (t = hdr) then Some h
  else
    let* tp := get_parent h t in let* p := nonnull tp in
    let* (h, p) := erase_rebalance fuel hdr h p flag in
    erase_climb fuel fuel hdr h p.

(** Case 2, first branch: the replacement [x] is the leftmost node of
    the right subtree.  Returns the heap after the splice together with
    [x], the node where rebalancing starts and the rebalance flag. *)
Definition splice_successor (fuel : nat) (hdr : ptr) (h : heap) (t : ptr)
    : option (heap * ptr * ptr * bool) :=
  let* tr := get_right h t in let* r := nonnull tr in
  let* x := leftmost fuel h r in
  let* xp := get_parent h x in let* q := nonnull xp in
  let* qr := get_right h q in
  let flag := bool_decide (Some x = qr) in
  let* h := shrink_sizes fuel hdr h q in
  let* tl := get_left h t in let* l := nonnull tl in
  let* h := set_parent h l (Some x) in
  let* tl := get_left h t in
  let* h := set_left h x tl in
  let* tr := get_right h t in
  let* (h, parent) :=
    if decide (Some x = tr) then Some (h, x)
    else
      let* xp := get_parent h x in let* q := nonnull xp in
      let* xr := get_right h x in
      let* h := set_left h q xr in
      let* xr := get_right h x in
      let* h := match xr with
                | Some c => let* xp := get_parent h x in set_parent h c xp
                | None => Some h
                end in
      let* tr := get_right h t in let* r := nonnull tr in
      let* h := set_parent h r (Some x) in
      let* tr := get_right h t in
      let* h := set_right h x tr in
      let* xp := get_parent h x in let* q := nonnull xp in
      Some (h, q) in
  let* h := relink_left_first hdr h t (Some x) in
  let* tp := get_parent h t in
  let* h := set_parent h x tp in
  let* ts := get_size h t in
  let* h := set_size h x ts in
  Some (h, x, parent, flag).

(** Case 2, second branch: the replacement is the rightmost node of the
    left subtree. *)
Definition splice_predecessor (fuel : nat) (hdr : ptr) (h : heap) (t : ptr)
    : option (heap * ptr * ptr * bool) :=
  let* tl := get_left h t in let* l := nonnull tl in
  let* x := rightmost fuel h l in
  let* xp := get_parent h x in let* q := nonnull xp in
  let* qr := get_right h q in
  let flag := bool_decide (Some x = qr) in
  let* h := shrink_sizes fuel hdr h q in
  let* tr := get_right h t in let* r := nonnull tr in
  let* h := set_parent h r (Some x) in
  let* tr := get_right h t in
  let* h := set_right h x tr in
  let* tl := get_left h t in
  let* (h, parent) :=
    if decide (Some x = tl) then Some (h, x)
    else
      let* xp := get_parent h x in let* q := nonnull xp in
      let* xl := get_left h x in
      let* h := set_right h q xl in
      let* xl := get_left h x in
      let* h := match xl with
                | Some c => let* xp := get_parent h x in set_parent h c xp
                | None => Some h
                end in
      let* tl := get_left h t in let* l := nonnull tl in
      let* h := set_parent h l (Some x) in
      let* tl := get_left h t in
      let* h := set_left h x tl in
      let* xp := get_parent h x in let* q := nonnull xp in
      Some (h, q) in
  let* h := relink_left_first hdr h t (Some x) in
  let* tp := get_parent h t in
  let* h := set_parent h x tp in
  let* ts := get_size h t in
  let* h := set_size h x ts in
  Some (h, x, parent, flag).

(** The choice made by case 2: [if (t->left->size < t->right->size)]. *)
Definition splice (fuel : nat) (hdr : ptr) (h : heap) (t l r : ptr)
    : option (heap * ptr * ptr * bool) :=
  let* ls := get_size h l in
  let* rs := get_size h r in
  if ls <? rs then splice_successor fuel hdr h t else splice_predecessor fuel hdr h t.

Definition erase_node (s : sb_tree) (t : ptr) : option sb_tree :=
  let hdr := header s in
  let h := mem s in
  let fuel := fuel_of h in
  let* tl := get_left h t in
  let* tr := get_right h t in
  let* h :=
    match tl, tr with
    | Some l, Some r =>
      let* (h, x, parent, flag) := splice fuel hdr h t l r in
      let* (h, p) := erase_rebalance fuel hdr h parent flag in
      erase_climb fuel fuel hdr h p
    | Some l, None => erase_simple fuel hdr h t (Some l)
    | None, _ => erase_simple fuel hdr h t tr
    end in
  Some (with_mem s (delete t h)).

(** ** The in-order iterator *)

(** [while (node->left) node = node->left] is [leftmost]; the climbing
    loop [while (node == p->right) { node = p; p = p->parent; }] returns
    the final pair. *)
Fixpoint climb_from_right (fuel : nat) (h : heap) (node p : ptr) : option (ptr * ptr) :=
  match fuel with
  | O => None
  | S f =>
    let* pr := get_right h p in
    if decide (Some node = pr) then
      let* pp := get_parent h p in let* q := nonnull pp in
      climb_from_right f h p q
    else Some (node, p)
  end.

Fixpoint climb_from_left (fuel : nat) (h : heap) (node p : ptr) : option (ptr * ptr) :=
  match fuel with
  | O => None
  | S f =>
    let* pl := get_left h p in
    if decide (Some node = pl) then
      let* pp := get_parent h p in let* q := nonnull pp in
      climb_from_left f h p q
    else Some (node, p)
  end.

(** [operator++] *)
Definition increment (h : heap) (node : ptr) : option ptr :=
  let* nr := get_right h node in
  match nr with
  | Some r => leftmost (fuel_of h) h r
  | None =>
    let* np := get_parent h node in let* p := nonnull np in
    let* (node, p) := climb_from_right (fuel_of h) h node p in
    let* nr := get_right h node in
    if decide (nr = Some p) then Some node else Some p
  end.

(** [operator--]; the result may be the null pointer. *)
Definition decrement (h : heap) (node : ptr) : option (option ptr) :=
  let* np := get_parent h node in
  let* special :=
    match np with
    | None => Some true
    | Some p => let* pp := get_parent h p in Some (bool_decide (pp = Some node))
    end in
  if special : bool then get_right h node
  else
    let* nl := get_left h node in
    match nl with
    | Some l => let* p := rightmost (fuel_of h) h l in Some (Some p)
    | None =>
      let* p := nonnull np in
      let* (node, p) := climb_from_left (fuel_of h) h node p in
      Some (Some p)
    end.

Definition begin_ (s : sb_tree) : option ptr :=
  let* l := get_left (mem s) (header s) in nonnull l.

Definition end_ (s : sb_tree) : ptr := header s.

(** ** Queries *)

Fixpoint lower_bound_loop (fuel : nat) (h : heap) (key : T) (pre : ptr) (cur : option ptr)
    : option ptr :=
  match cur with
  | None => Some pre
  | Some c =>
    match fuel with
    | O => None
    | S f =>
      let* n := h !! c in
      if negb (comp (data n) key) then lower_bound_loop f h key c (left n)
      else lower_bound_loop f h key pre (right n)
    end
  end.

Definition lower_bound_node (s : sb_tree) (key : T) : option ptr :=
  let* root := get_parent (mem s) (header s) in
  lower_bound_loop (fuel_of (mem s)) (mem s) key (header s) root.

Fixpoint upper_bound_loop (fuel : nat) (h : heap) (key : T) (pre : ptr) (cur : option ptr)
    : option ptr :=
  match cur with
  | None => Some pre
  | Some c =>
    match fuel with
    | O => None
    | S f =>
      let* n := h !! c in
      if comp key (data n) then upper_bound_loop f h key c (left n)
      else upper_bound_loop f h key pre (right n)
    end
  end.

Definition upper_bound_node (s : sb_tree) (key : T) : option ptr :=
  let* root := get_parent (mem s) (header s) in
  upper_bound_loop (fuel_of (mem s)) (mem s) key (header s) root.

(** [find_node] runs the loop of [lower_bound_node] and then compares
    the key with the candidate's payload (the header's when the loop
    found no candidate). *)
Definition find_node (s : sb_tree) (key : T) : option ptr :=
  let* root := get_parent (mem s) (header s) in
  let* pre := lower_bound_loop (fuel_of (mem s)) (mem s) key (header s) root in
  let* d := get_data (mem s) pre in
  if comp key d then Some (header s) else Some pre.

Fixpoint select_loop (fuel : nat) (h : heap) (hdr : ptr) (t : option ptr) (k : Z)
    : option ptr :=
  match t with
  | None => Some hdr
  | Some a =>
    match fuel with
    | O => None
    | S f =>
      let* n := h !! a in
      let* left_size := size_or_zero h (left n) in
      if left_size <? k then select_loop f h hdr (right n) (wrap64 (k - wrap64 (left_size + 1)))
      else if k <? left_size then select_loop f h hdr (left n) k
      else Some a
    end
  end.

Definition select_node (s : sb_tree) (k : Z) : option ptr :=
  let* root := get_parent (mem s) (header s) in
  select_loop (fuel_of (mem s)) (mem s) (header s) root k.

(** The loop of [rank_node] returns the candidate and the counter. *)
Fixpoint rank_loop (fuel : nat) (h : heap) (key : T) (rank : Z) (pre : ptr) (cur : option ptr)
    : option (Z * ptr) :=
  match cur with
  | None => Some (rank, pre)
  | Some c =>
    match fuel with
    | O => None
    | S f =>
      let* n := h !! c in
      if negb (comp (data n) key) then rank_loop f h key rank c (left n)
      else
        let* step := match left n with
                     | Some l => let* ls := get_size h l in Some (wrap64 (ls + 1))
                     | None => Some 1
                     end in
        rank_loop f h key (wrap64 (rank + step)) pre (right n)
    end
  end.

Definition rank_node (s : sb_tree) (key : T) : option Z :=
  let* root := get_parent (mem s) (header s) in
  let* (rank, pre) := rank_loop (fuel_of (mem s)) (mem s) key 0 (header s) root in
  if decide (pre = header s) then Some size_max
  else
    let* d := get_data (mem s) pre in
    if comp key d then Some size_max else Some rank.

(** ** Public members built on the above *)

(** [erase(const_iterator pos)] *)
Definition erase (s : sb_tree) (pos : ptr) : option (sb_tree * ptr) :=
  if decide (pos = end_ s) then Some (s, pos)
  else
    let* next := increment (mem s) pos in
    let* s := erase_node s pos in
    Some (s, next).

(** ** [erase(const KeyType& key)]

    [lower_bound], [upper_bound] and this [erase] are member templates
    over the type of the key.  In the loop of [erase(const KeyType&)]
    the argument [first++] is an [iterator].  [erase(const_iterator)]
    takes an [iterator] only through its conversion to
    [const_iterator]; the template takes it as it is, so the call names
    the template again, with the iterator type for [KeyType]: the
    iterator is looked up as a key, and [erase_node] is never reached.
    The comparator is then applied to a payload and an iterator.  What
    it answers there is a parameter of the model (it may read the
    memory through the iterator); with a comparator that accepts no
    iterator the function is ill-formed. *)
Section erase_by_key.

Variable comp_payload_iter : heap → T → ptr → bool.
Variable comp_iter_payload : heap → ptr → T → bool.

(** [lower_bound_node] and [upper_bound_node] with an iterator for the
    key. *)
Fixpoint lower_bound_loop_iter (fuel : nat) (h : heap) (key : ptr) (pre : ptr)
    (cur : option ptr) : option ptr :=
  match cur with
  | None => Some pre
  | Some c =>
    match fuel with
    | O => None
    | S f =>
      let* n := h !! c in
      if negb (comp_payload_iter h (data n) key) then lower_bound_loop_iter f h key c (left n)
      else lower_bound_loop_iter f h key pre (right n)
    end
  end.

Definition lower_bound_node_iter (s : sb_tree) (key : ptr) : option ptr :=
  let* root := get_parent (mem s) (header s) in
  lower_bound_loop_iter (fuel_of (mem s)) (mem s) key (header s) root.

Fixpoint upper_bound_loop_iter (fuel : nat) (h : heap) (key : ptr) (pre : ptr)
    (cur : option ptr) : option ptr :=
  match cur with
  | None => Some pre
  | Some c =>
    match fuel with
    | O => None
    | S f =>
      let* n := h !! c in
      if comp_iter_payload h key (data n) then upper_bound_loop_iter f h key c (left n)
      else upper_bound_loop_iter f h key pre (right n)
    end
  end.

Definition upper_bound_node_iter (s : sb_tree) (key : ptr) : option ptr :=
  let* root := get_parent (mem s) (header s) in
  upper_bound_loop_iter (fuel_of (mem s)) (mem s) key (header s) root.

(** [while (first != last) { ++n; erase(first++); }]: [first] is
    copied and moved on, then the function that [erase] names there,
    [call], gets the copy; what it returns is dropped. *)
Fixpoint erase_key_loop (call : sb_tree → ptr → option (sb_tree * Z)) (fuel : nat)
    (s : sb_tree) (first last : ptr) (n : Z) : option (sb_tree * Z) :=
  if decide (first = last) then Some (s, n)
  else
    match fuel with
    | O => None
    | S f =>
      let n := wrap64 (n + 1) in
      let old := first in
      let* first := increment (mem s) first in
      let* (s, _) := call s old in
      erase_key_loop call f s first last n
    end.

(** [erase(const KeyType&)] with an iterator for the key.  The calls
    nest; [depth] bounds the nesting, and [None] says that it was not
    enough. *)
Fixpoint erase_key_iter (depth : nat) (s : sb_tree) (key : ptr) : option (sb_tree * Z) :=
  match depth with
  | O => None
  | S depth =>
    let* first := lower_bound_node_iter s key in
    let* last := upper_bound_node_iter s key in
    erase_key_loop (erase_key_iter depth) (fuel_of (mem s)) s first last 0
  end.

(** [erase(const KeyType&)] with a payload for the key. *)
Definition erase_key (depth : nat) (s : sb_tree) (key : T) : option (sb_tree * Z) :=
  let* first := lower_bound_node s key in
  let* last := upper_bound_node s key in
  erase_key_loop (erase_key_iter depth) (fuel_of (mem s)) s first last 0.

End erase_by_key.

(** The objects that an expression of type [reference] names here: the
    payload [p->data] of a node, which is the stored element, or the
    member named [data] of such an object. *)
Inductive object :=
  | payload (p : ptr)
  | member_data (x : object).

(** [operator*] of the iterator: [return node->data;].  [operator->]
    returns the address of that object, so [itr->m] is the member [m]
    of the payload. *)
Definition deref (itr : ptr) : object := payload itr.

(** [at]: the two exceptions, or the object that [return itr->data;]
    names.  With [operator->] as above this is the member [data] of the
    payload of the node found, not the payload; for an element type
    without a member of that name the function is ill-formed. *)
Inductive at_result :=
  | domain_error
  | out_of_range
  | at_ref (x : object).

Definition at_ (s : sb_tree) (key : T) : option at_result :=
  let* e := empty s in
  if e : bool then Some domain_error
  else
    let* itr := find_node s key in
    if decide (itr = end_ s) then Some out_of_range
    else Some (at_ref (member_data (deref itr))).

(** ** [clear] *)

(** [erase_root]: each round of the [do ... while (cur != header)] loop
    runs down the left links, and then either steps to the right child,
    or unlinks the node from its parent, destroys it and steps to the
    parent. *)
Fixpoint erase_root_loop (fuel : nat) (hdr : ptr) (h : heap) (cur : ptr) : option heap :=
  match fuel with
  | O => None
  | S f =>
    let* cur := leftmost (fuel_of h) h cur in
    let* cr := get_right h cur in
    match cr with
    | Some r => if decide (r = hdr) then Some h else erase_root_loop f hdr h r
    | None =>
      let* np := get_parent h cur in
      let* next := nonnull np in
      let* nl := get_left h next in
      let* h := if decide (nl = Some cur) then set_left h next None
                else set_right h next None in
      let h := delete cur h in
      if decide (next = hdr) then Some h else erase_root_loop f hdr h next
    end
  end.

Definition erase_root (s : sb_tree) : option heap :=
  let* root := get_parent (mem s) (header s) in
  let* cur := nonnull root in
  erase_root_loop (2 * base.size (mem s)) (header s) (mem s) cur.

Definition clear (s : sb_tree) : option sb_tree :=
  let* root := get_parent (mem s) (header s) in
  match root with
  | None => Some s
  | Some _ =>
    let* h := erase_root s in
    let* h := set_parent h (header s) None in
    let* h := set_left h (header s) (Some (header s)) in
    let* h := set_right h (header s) (Some (header s)) in
    Some (with_mem s h)
  end.

(** [erase(first, last)]: the whole range is cleared at once, any other
    range is erased node by node. *)
Fixpoint erase_range_loop (fuel : nat) (s : sb_tree) (first last : ptr) : option sb_tree :=
  if decide (first = last) then Some s
  else
    match fuel with
    | O => None
    | S f =>
      let old := first in
      let* first := increment (mem s) first in
      let* (s, _) := erase s old in
      erase_range_loop f s first last
    end.

Definition erase_range (s : sb_tree) (first last : ptr) : option (sb_tree * ptr) :=
  let* b := begin_ s in
  if decide (first = b ∧ last = end_ s) then
    let* s := clear s in Some (s, last)
  else
    let* s := erase_range_loop (fuel_of (mem s)) s first last in Some (s, last).

(** ** The primitive iterator

    A primitive iterator is a node pointer and a state that tells how
    the pointer was reached.  The states are the [signed char]
    constants of the source. *)
Definition sb_tree_state_root : Z := 0.
Definition sb_tree_state_parent : Z := -15.
Definition sb_tree_state_left : Z := 18.
Definition sb_tree_state_right : Z := 19.
Definition sb_tree_state_sibling : Z := 4.

Record primitive_iterator := PIter {
  pnode : ptr;
  pstate : Z
}.

(** [get_depth]: [state >> 4], the change of depth of the last move. *)
Definition get_depth (it : primitive_iterator) : Z := Z.shiftr (pstate it) 4.

(** [operator==] compares the node pointers only. *)
Definition piter_eqb (x y : primitive_iterator) : bool := bool_decide (pnode x = pnode y).

(** [root()]: [header->parent ? header->parent : header]. *)
Definition root (s : sb_tree) : option ptr :=
  let* r := get_parent (mem s) (header s) in
  Some (match r with Some t => t | None => header s end).

Definition pbegin (s : sb_tree) : option primitive_iterator :=
  let* r := root s in Some (PIter r sb_tree_state_root).

Definition pend (s : sb_tree) : primitive_iterator := PIter (header s) sb_tree_state_root.

(** [operator++] of the primitive iterator.  The conditions are
    evaluated left to right and stop at the first false one, as [&&]
    does. *)
Definition pincrement (h : heap) (it : primitive_iterator) : option primitive_iterator :=
  let node := pnode it in
  let* l := if decide (pstate it ≠ sb_tree_state_parent) then get_left h node else Some None in
  match l with
  | Some c => Some (PIter c sb_tree_state_left)
  | None =>
    let* r := if decide (pstate it ≠ sb_tree_state_parent) then get_right h node
              else Some None in
    match r with
    | Some c => Some (PIter c sb_tree_state_right)
    | None =>
      let* np := get_parent h node in
      let* p := nonnull np in
      let* pp := get_parent h p in
      let* sib := if decide (Some node ≠ pp) then get_right h p else Some None in
      match sib with
      | Some c =>
        if decide (node ≠ c) then Some (PIter c sb_tree_state_sibling)
        else Some (PIter p sb_tree_state_parent)
      | None => Some (PIter p sb_tree_state_parent)
      end
    end
  end.

(** [operator--] of the primitive iterator: the mirror image. *)
Definition pdecrement (h : heap) (it : primitive_iterator) : option primitive_iterator :=
  let node := pnode it in
  let* r := if decide (pstate it ≠ sb_tree_state_parent) then get_right h node else Some None in
  match r with
  | Some c => Some (PIter c sb_tree_state_right)
  | None =>
    let* l := if decide (pstate it ≠ sb_tree_state_parent) then get_left h node
              else Some None in
    match l with
    | Some c => Some (PIter c sb_tree_state_left)
    | None =>
      let* np := get_parent h node in
      let* p := nonnull np in
      let* pp := get_parent h p in
      let* sib := if decide (Some node ≠ pp) then get_left h p else Some None in
      match sib with
      | Some c =>
        if decide (node ≠ c) then Some (PIter c sb_tree_state_sibling)
        else Some (PIter p sb_tree_state_parent)
      | None => Some (PIter p sb_tree_state_parent)
      end
    end
  end.

(** ** Copying a tree *)

(** [n = create_node(src->data); n->parent = ...; n->left = nullptr;
    n->right = nullptr; n->size = src->size;]: a fresh node that holds
    a copy of the payload and of the size of [src].  The parent link is
    an expression that is evaluated after the allocation. *)
Definition copy_cell (s : sb_tree) (src : ptr) (par : heap → option (option ptr))
    : option (sb_tree * ptr) :=
  let* d := get_data (mem s) src in
  let (s1, n) := create_node s d in
  let* v := par (mem s1) in
  let* g := set_parent (mem s1) n v in
  let* g := set_left g n None in
  let* g := set_right g n None in
  let* sz := get_size g src in
  let* g := set_size g n sz in
  Some (with_mem s1 g, n).

(** One round of the loop of [copy_node]: down to the left child, down
    to the right child, over to the right sibling, or up to the parent.
    Returns the new values of [flag], [src] and [dst]. *)
Definition copy_step (s : sb_tree) (flag : bool) (src dst : ptr)
    : option (sb_tree * bool * ptr * option ptr) :=
  let* sl := if flag then get_left (mem s) src else Some None in
  match sl with
  | Some c =>
    let* (s, n) := copy_cell s c (λ _, Some (Some dst)) in
    let* g := set_left (mem s) dst (Some n) in
    Some (with_mem s g, flag, c, Some n)
  | None =>
    let* sr := if flag then get_right (mem s) src else Some None in
    match sr with
    | Some c =>
      let* (s, n) := copy_cell s c (λ _, Some (Some dst)) in
      let* g := set_right (mem s) dst (Some n) in
      Some (with_mem s g, flag, c, Some n)
    | None =>
      let* sp := get_parent (mem s) src in
      let* p := nonnull sp in
      let* pr := get_right (mem s) p in
      match (match pr with
             | Some c => if decide (src ≠ c) then Some c else None
             | None => None
             end) with
      | Some c =>
        let* (s, n) := copy_cell s c (λ g, get_parent g dst) in
        let* dp := get_parent (mem s) dst in
        let* q := nonnull dp in
        let* g := set_right (mem s) q (Some n) in
        Some (with_mem s g, true, c, Some n)
      | None =>
        let* dp := get_parent (mem s) dst in
        Some (s, false, p, dp)
      end
    end
  end.

(** [do { ... } while (src != t);] *)
Fixpoint copy_loop (fuel : nat) (s : sb_tree) (t : ptr) (flag : bool) (src dst : ptr)
    : option sb_tree :=
  match fuel with
  | O => None
  | S f =>
    let* (s, flag, src, dst) := copy_step s flag src dst in
    if decide (src = t) then Some s
    else let* d := nonnull dst in copy_loop f s t flag src d
  end.

(** [copy_node(t)]: the copy of the root goes below the header, the
    loop copies the rest, and the header gets its first and last node. *)
Definition copy_node (s : sb_tree) (t : ptr) : option sb_tree :=
  let hdr := header s in
  let fuel := (2 * base.size (mem s))%nat in
  let* (s, n) := copy_cell s t (λ _, Some (Some hdr)) in
  let* g := set_parent (mem s) hdr (Some n) in
  let* s := copy_loop fuel (with_mem s g) t true t n in
  let* root := get_parent (mem s) hdr in
  let* r := nonnull root in
  let* lm := leftmost (fuel_of (mem s)) (mem s) r in
  let* g := set_left (mem s) hdr (Some lm) in
  let* root := get_parent g hdr in
  let* r := nonnull root in
  let* rm := rightmost (fuel_of g) g r in
  let* g := set_right g hdr (Some rm) in
  Some (with_mem s g).

(** The copy constructor: [create_header(); if (other.header->parent)
    copy_node(other.header->parent);].  The new container lives in the
    heap of the other one, on a header of its own. *)
Definition copy_construct (other : sb_tree) : option sb_tree :=
  let hdr := next other in
  let s := Tree (<[hdr := Node None (Some hdr) (Some hdr) 0 dflt]> (mem other))
             hdr (Pos.succ hdr) in
  let* root := get_parent (mem s) (header other) in
  match root with
  | Some t => copy_node s t
  | None => Some s
  end.

End Model.

(** ** The tree a heap represents

    For the proofs a heap is read back as a binary tree whose nodes carry
    their address and their record.  [rep h par t] says that the records
    of [t] are the ones stored in [h] and that their links are those of
    the tree shape: children point down, parents point up. *)

Section Abstraction.

Context {T : Type}.

Inductive tree :=
  | Leaf
  | Br (l : tree) (a : ptr) (n : @node T) (r : tree).

Definition root_of (t : tree) : option ptr :=
  match t with
  | Leaf => None
  | Br _ a _ _ => Some a
  end.

(** In-order listings: addresses, payloads. *)
Fixpoint addrs (t : tree) : list ptr :=
  match t with
  | Leaf => []
  | Br l a _ r => addrs l ++ a :: addrs r
  end.

Fixpoint elems (t : tree) : list T :=
  match t with
  | Leaf => []
  | Br l _ n r => elems l ++ data n :: elems r
  end.

Fixpoint card (t : tree) : nat :=
  match t with
  | Leaf => O
  | Br l _ _ r => S (card l + card r)
  end.

Fixpoint height (t : tree) : nat :=
  match t with
  | Leaf => O
  | Br l _ _ r => S (Nat.max (height l) (height r))
  end.

Fixpoint rep (h : gmap ptr (@node T)) (par : option ptr) (t : tree) : Prop :=
  match t with
  | Leaf => True
  | Br l a n r =>
      h !! a = Some n ∧ parent n = par ∧ left n = root_of l ∧ right n = root_of r ∧
      rep h (Some a) l ∧ rep h (Some a) r
  end.

(** The stored size of a subtree, [0] for the empty one. *)
Definition size_of (t : tree) : Z :=
  match t with
  | Leaf => 0
  | Br _ _ n _ => size n
  end.

(** Every [size] field counts the nodes of its subtree. *)
Fixpoint sized (t : tree) : Prop :=
  match t with
  | Leaf => True
  | Br l _ n r => size n = Z.of_nat (card t) ∧ sized l ∧ sized r
  end.

(** The weight-balance inequalities of a size-balanced tree. *)
Definition left_of (t : tree) : tree :=
  match t with
  | Leaf => Leaf
  | Br l _ _ _ => l
  end.

Definition right_of (t : tree) : tree :=
  match t with
  | Leaf => Leaf
  | Br _ _ _ r => r
  end.

Fixpoint balanced (t : tree) : Prop :=
  match t with
  | Leaf => True
  | Br l _ _ r =>
      size_of (left_of r) <= size_of l ∧ size_of (right_of r) <= size_of l ∧
      size_of (left_of l) <= size_of r ∧ size_of (right_of l) <= size_of r ∧
      balanced l ∧ balanced r
  end.

(** The two invariants as checks that evaluate. *)
Fixpoint is_sized (t : tree) : bool :=
  match t with
  | Leaf => true
  | Br l _ n r => (size n =? Z.of_nat (card t)) && is_sized l && is_sized r
  end.

Fixpoint is_balanced (t : tree) : bool :=
  match t with
  | Leaf => true
  | Br l _ _ r =>
      (size_of (left_of r) <=? size_of l) && (size_of (right_of r) <=? size_of l) &&
      (size_of (left_of l) <=? size_of r) && (size_of (right_of l) <=? size_of r) &&
      is_balanced l && is_balanced r
  end.

(** Search-tree order under a comparator: nothing in the left subtree
    is above the node, nothing in the right subtree is below it. *)
Fixpoint ordered (comp : T → T → bool) (t : tree) : Prop :=
  match t with
  | Leaf => True
  | Br l _ n r =>
      Forall (λ d, comp (data n) d = false) (elems l) ∧
      Forall (λ d, comp d (data n) = false) (elems r) ∧
      ordered comp l ∧ ordered comp r
  end.

(** The header convention: [parent] is the root, [left] and [right] are
    the first and last node, or the header itself in an empty tree. *)
Definition header_ok (hn : @node T) (hdr : ptr) (t : tree) : Prop :=
  parent hn = root_of t ∧
  left hn = Some (hd hdr (addrs t)) ∧
  right hn = Some (List.last (addrs t) hdr) ∧
  size hn = 0.

(** A well-formed container: the header and the nodes of [t] are
    distinct cells of the heap, linked as [t] prescribes, with exact
    sizes that fit a [size_t]. *)
Record wf (s : @sb_tree T) (t : tree) : Prop := {
  wf_header : ∃ hn, mem s !! header s = Some hn ∧ header_ok hn (header s) t;
  wf_rep : rep (mem s) (Some (header s)) t;
  wf_nodup : NoDup (header s :: addrs t);
  wf_sized : sized t;
  wf_fits : Z.of_nat (card t) <= size_max
}.

(** Two payloads are equivalent when neither is ordered before the other. *)
Definition equiv_under (comp : T → T → bool) (x y : T) : Prop :=
  comp x y = false ∧ comp y x = false.

(** The number of payloads ordered strictly before [key]. *)
Definition count_less (comp : T → T → bool) (key : T) (l : list T) : nat :=
  length (filter (λ d, comp d key = true) l).

(** No two positions of a listing hold equivalent payloads. *)
Definition distinct_keys (comp : T → T → bool) (l : list T) : Prop :=
  ∀ i j x y, l !! i = Some x → l !! j = Some y → equiv_under comp x y → i = j.

(** A listing in which no payload is ordered before an earlier one. *)
Definition non_decreasing (comp : T → T → bool) : list T → Prop :=
  StronglySorted (λ x y, comp y x = false).

(** What the descent of [lower_bound_node] computes on a tree. *)
Fixpoint lower_bound_of (comp : T → T → bool) (key : T) (pre : ptr) (t : tree) : ptr :=
  match t with
  | Leaf => pre
  | Br l a n r =>
      if negb (comp (data n) key) then lower_bound_of comp key a l
      else lower_bound_of comp key pre r
  end.

(** What the descent of [upper_bound_node] computes on a tree. *)
Fixpoint upper_bound_of (comp : T → T → bool) (key : T) (pre : ptr) (t : tree) : ptr :=
  match t with
  | Leaf => pre
  | Br l a n r =>
      if comp key (data n) then upper_bound_of comp key a l
      else upper_bound_of comp key pre r
  end.

(** The number of payloads that [key] is not ordered before. *)
Definition count_not_above (comp : T → T → bool) (key : T) (l : list T) : nat :=
  length (filter (λ d, comp key d = false) l).

(** All subtrees of a tree, itself included. *)
Fixpoint subtrees (t : tree) : list tree :=
  match t with
  | Leaf => [Leaf]
  | Br l _ _ r => t :: subtrees l ++ subtrees r
  end.

(** Two heaps with the same cells that differ at most in [size] fields. *)
Definition same_links (h h' : gmap ptr (@node T)) : Prop :=
  ∀ q, get_parent h' q = get_parent h q ∧ get_left h' q = get_left h q ∧
       get_right h' q = get_right h q ∧ get_data h' q = get_data h q.

(** [chain h hdr q k]: following [parent] links from [q] reaches the
    header in [k] steps. *)
Inductive chain (h : gmap ptr (@node T)) (hdr : ptr) : ptr → nat → Prop :=
  | chain_here : chain h hdr hdr O
  | chain_up q p k :
      q ≠ hdr → get_parent h q = Some (Some p) → chain h hdr p k → chain h hdr q (S k).

(** [x] stands where [a] stood: it has the parent that the record [n]
    of [a] names, and the link of that parent (or of the header) that
    led to [a] leads to [x]. *)
Definition takes_place (s : @sb_tree T) (t : tree) (a : ptr) (n : @node T) (x : ptr)
    (h' : gmap ptr (@node T)) : Prop :=
  get_parent h' x = Some (parent n) ∧
  (root_of t = Some a → get_parent h' (header s) = Some (Some x)) ∧
  (∀ tp, parent n = Some tp → tp ≠ header s →
     (get_left (mem s) tp = Some (Some a) → get_left h' tp = Some (Some x)) ∧
     (get_left (mem s) tp ≠ Some (Some a) → get_right h' tp = Some (Some x))).

(** The same shape with the records read again from a heap. *)
Fixpoint refresh (h : gmap ptr (@node T)) (t : tree) : tree :=
  match t with
  | Leaf => Leaf
  | Br l a n r => Br (refresh h l) a (default n (h !! a)) (refresh h r)
  end.

(** The shape after a rotation at the root, and a change of shape at
    the node with a given address. *)
Definition rotate_left_root (t : tree) : tree :=
  match t with
  | Br l a n (Br rl b m rr) => Br (Br l a n rl) b m rr
  | _ => t
  end.

Definition rotate_right_root (t : tree) : tree :=
  match t with
  | Br (Br ll b m lr) a n r => Br ll b m (Br lr a n r)
  | _ => t
  end.

Fixpoint at_node (f : tree → tree) (a : ptr) (t : tree) : tree :=
  match t with
  | Leaf => Leaf
  | Br l b n r => if decide (b = a) then f t else Br (at_node f a l) b n (at_node f a r)
  end.

(** The number of rounds [erase_root] spends on a subtree: one to
    destroy each node, one more for each step to a right child. *)
Fixpoint erase_steps (t : tree) : nat :=
  match t with
  | Leaf => O
  | Br l _ _ r =>
      (erase_steps l + match r with Leaf => O | Br _ _ _ _ => S (erase_steps r) end + 1)%nat
  end.

(** A parent record with its link to the child [a] set to null, as
    [erase_root] does: the left link if it is [a], else the right one. *)
Definition unlink (pn : @node T) (a : ptr) : @node T :=
  if decide (left pn = Some a) then with_left pn None else with_right pn None.

(** A heap with the cells of a list freed. *)
Definition wipe (l : list ptr) (h : gmap ptr (@node T)) : gmap ptr (@node T) :=
  foldr delete h l.

(** Reading the tree below a pointer back from the heap. *)
Fixpoint reify (fuel : nat) (h : gmap ptr (@node T)) (p : option ptr) : tree :=
  match fuel, p with
  | S f, Some a =>
      match h !! a with
      | Some n => Br (reify f h (left n)) a n (reify f h (right n))
      | None => Leaf
      end
  | _, _ => Leaf
  end.

Definition shape (s : @sb_tree T) : tree :=
  match mem s !! header s with
  | Some hn => reify (fuel_of (mem s)) (mem s) (parent hn)
  | None => Leaf
  end.

(** The walk of the primitive iterator over a subtree entered in state
    [st]: the root, then the walk of the left subtree, then the walk of
    the right subtree, then the root once more, in state
    [sb_tree_state_parent], unless it has no children. *)
Fixpoint ptour (st : Z) (t : tree) : list primitive_iterator :=
  match t with
  | Leaf => []
  | Br l a _ r =>
    PIter a st ::
    match l, r with
    | Leaf, Leaf => []
    | _, _ =>
      ptour sb_tree_state_left l ++
      ptour (match l with Leaf => sb_tree_state_right | _ => sb_tree_state_sibling end) r ++
      [PIter a sb_tree_state_parent]
    end
  end.

(** The depth of the node at each position of that walk, for a subtree
    whose root is at depth [d]. *)
Fixpoint pdepths (d : Z) (t : tree) : list Z :=
  match t with
  | Leaf => []
  | Br l _ _ r =>
    d ::
    match l, r with
    | Leaf, Leaf => []
    | _, _ => pdepths (d + 1) l ++ pdepths (d + 1) r ++ [d]
    end
  end.

(** The running sums of a list of integers, starting from [c]. *)
Fixpoint running (c : Z) (l : list Z) : list Z :=
  match l with
  | [] => []
  | x :: l => (c + x) :: running (c + x) l
  end.

(** [walks step L exit]: the step function leads from each iterator of
    [L] to the next one, and from the last one to [exit]. *)
Definition walks (step : primitive_iterator → option primitive_iterator)
    (L : list primitive_iterator) (exit : primitive_iterator) : Prop :=
  ∀ i it, L !! i = Some it → step it = Some (nth (S i) L exit).

(** The walk of [operator--]: the mirror image of [ptour]. *)
Fixpoint ptour_back (st : Z) (t : tree) : list primitive_iterator :=
  match t with
  | Leaf => []
  | Br l a _ r =>
    PIter a st ::
    match r, l with
    | Leaf, Leaf => []
    | _, _ =>
      ptour_back sb_tree_state_right r ++
      ptour_back (match r with Leaf => sb_tree_state_left | _ => sb_tree_state_sibling end) l ++
      [PIter a sb_tree_state_parent]
    end
  end.

(** [k] applications of [operator++] from [it]: the iterator reached,
    and [c] plus the sum of [get_depth()] over the iterators passed,
    the first and the last one included. *)
Fixpoint psteps (k : nat) (h : gmap ptr (@node T)) (it : primitive_iterator) (c : Z)
    : option (primitive_iterator * Z) :=
  match k with
  | O => Some (it, c + get_depth it)
  | S k => let* it' := pincrement h it in psteps k h it' (c + get_depth it)
  end.

(** The depth of the node [a] in a tree whose root is at depth [d]:
    the number of [parent] links from [a] to that root, plus [d]. *)
Fixpoint depth_of (d : Z) (t : tree) (a : ptr) : option Z :=
  match t with
  | Leaf => None
  | Br l b _ r =>
    if decide (a = b) then Some d
    else match depth_of (d + 1) l a with
         | Some x => Some x
         | None => depth_of (d + 1) r a
         end
  end.

(** ** Rebalancing, seen from one subtree

    The internal path length of a tree: the sum of the depths of its
    nodes.  Every rotation that the rebalancing functions perform
    lowers it. *)
Fixpoint depth_sum (t : tree) : nat :=
  match t with
  | Leaf => O
  | Br l _ _ r => (depth_sum l + depth_sum r + card l + card r)%nat
  end.

(** The record of a parent whose link to the child [a] is redirected to
    [a']: the header names the root in its [parent] field. *)
Definition relink (hdr par a : ptr) (pn : @node T) (a' : ptr) : @node T :=
  if decide (par = hdr) then with_parent pn (Some a')
  else if decide (left pn = Some a) then with_left pn (Some a')
  else with_right pn (Some a').

(** The subtree with the addresses [xs] and the root [a] hangs below
    [par]: as the root below the header, or as the left or the right
    child of a node; no other link of the header or of [par] leads into
    it. *)
Definition hangs (hdr : ptr) (h : gmap ptr (@node T)) (xs : list ptr) (par a : ptr) : Prop :=
  a ∈ xs ∧ (hdr ∉ xs) ∧ (par ∉ xs) ∧
  ∃ hn pn, h !! hdr = Some hn ∧ h !! par = Some pn ∧
    ((par = hdr ∧ parent hn = Some a) ∨
     (par ≠ hdr ∧ (∀ x, x ∈ xs → parent hn ≠ Some x) ∧
        ((left pn = Some a ∧ (∀ x, x ∈ xs → right pn ≠ Some x)) ∨
         ((∀ x, x ∈ xs → left pn ≠ Some x) ∧ right pn = Some a)))).

(** A subtree [u] with root [a], well linked below [par], with exact
    sizes. *)
Definition local (hdr : ptr) (h : gmap ptr (@node T)) (par : ptr) (u : tree) (a : ptr) : Prop :=
  root_of u = Some a ∧ rep h (Some par) u ∧ sized u ∧ NoDup (addrs u) ∧
  Z.of_nat (card u) <= size_max ∧ hangs hdr h (addrs u) par a.

(** A change of the heap that turns the subtree [u] below [par] into
    [u'], with the same nodes and payloads in the same in-order
    sequence, redirects the link of [par] and touches nothing else. *)
Definition evolves (comp : T → T → bool) (hdr par : ptr)
    (h : gmap ptr (@node T)) (u : tree) (a : ptr)
    (h' : gmap ptr (@node T)) (u' : tree) (a' : ptr) : Prop :=
  local hdr h' par u' a' ∧ addrs u' = addrs u ∧ elems u' = elems u ∧
  (ordered comp u → ordered comp u') ∧
  (∀ pn, h !! par = Some pn → h' !! par = Some (relink hdr par a pn a')) ∧
  (∀ q, q ∉ addrs u → q ≠ par → h' !! q = h !! q).

(** [insert_rebalance] with fuel [f] succeeds on every subtree of
    internal path length below [K], and keeps its contents. *)
Definition rebalances (comp : T → T → bool) (hdr : ptr) (f K : nat) : Prop :=
  ∀ (u : tree) h par a flag,
    (depth_sum u < K)%nat → local hdr h par u a →
    ∃ h' u' a', insert_rebalance f hdr h a flag = Some (h', a') ∧
      evolves comp hdr par h u a h' u' a' ∧ (depth_sum u' ≤ depth_sum u)%nat.

(** ** Copies

    The allocator hands out the addresses [next], [next + 1], ...; all
    of them are free. *)
Definition fresh (s : @sb_tree T) : Prop :=
  ∀ q, (next s ≤ q)%positive → mem s !! q = None.

Definition shift (k : nat) (p : positive) : positive := Pos.of_nat (Pos.to_nat p + k).

(** The copy that [copy_node] makes of a subtree: its root at the
    address [d] below [par], the other nodes at the addresses from [nx]
    on, in pre-order. *)
Fixpoint copy_at (t : tree) (par : option ptr) (d : ptr) (nx : positive) : tree :=
  match t with
  | Leaf => Leaf
  | Br l _ n r =>
    let dr := shift (card l) nx in
    Br (copy_at l (Some d) nx (Pos.succ nx)) d
       (Node par (match l with Leaf => None | _ => Some nx end)
                 (match r with Leaf => None | _ => Some dr end) (size n) (data n))
       (copy_at r (Some d) dr (Pos.succ dr))
  end.

(** The rounds the loop of [copy_node] spends below a node, until it
    is back at the node. *)
Fixpoint copy_iters (t : tree) : nat :=
  match t with
  | Leaf => O
  | Br l _ _ r =>
    match l, r with
    | Leaf, Leaf => O
    | Leaf, _ => (copy_iters r + 2)%nat
    | _, Leaf => (copy_iters l + 2)%nat
    | _, _ => (copy_iters l + copy_iters r + 3)%nat
    end
  end.

(** Two trees of the same shape with the same sizes and payloads. *)
Fixpoint similar (t t' : tree) : Prop :=
  match t, t' with
  | Leaf, Leaf => True
  | Br l _ n r, Br l' _ n' r' =>
      size n' = size n ∧ data n' = data n ∧ similar l l' ∧ similar r r'
  | _, _ => False
  end.

(** What the loop of [copy_node] has done once it is back at the copy
    [d] of the root of [sub]: the copy is complete, allocated from the
    old [next] on, and nothing else below the old [next] has changed. *)
Definition copied (s s' : @sb_tree T) (sub : tree) (par : option ptr) (d : ptr) : Prop :=
  header s' = header s ∧ next s' = shift (card sub - 1) (next s) ∧ fresh s' ∧
  rep (mem s') par (copy_at sub par d (next s)) ∧
  (∀ q, (q < next s)%positive → q ≠ d → mem s' !! q = mem s !! q).

End Abstraction.

Arguments tree T : clear implicits.

(** ** Sample containers of integers under [<] *)

Module Samples.

Definition build_unique (l : list Z) : option (@sb_tree Z) :=
  insert_unique_range Z.ltb (empty_tree 0) l.

Definition build_equal (l : list Z) : option (@sb_tree Z) :=
  insert_equal_range Z.ltb (empty_tree 0) l.

(** Scenario 1 of the specification: unique-insert 5, 3, 8, 1, 4, 7, 9. *)
Definition seven : @sb_tree Z :=
  Eval vm_compute in default (empty_tree 0) (build_unique [5; 3; 8; 1; 4; 7; 9]).

Definition seven_shape : tree Z := Eval vm_compute in shape seven.

(** Unique-insert 2 and then 1: the root holds 2, its left child 1. *)
Definition two_one : @sb_tree Z :=
  Eval vm_compute in default (empty_tree 0) (build_unique [2; 1]).

Definition two_one_shape : tree Z := Eval vm_compute in shape two_one.

(** Unique-insert 2, 1, 3: a root with two leaves. *)
Definition three : @sb_tree Z :=
  Eval vm_compute in default (empty_tree 0) (build_unique [2; 1; 3]).

Definition three_shape : tree Z := Eval vm_compute in shape three.

(** A single element. *)
Definition single : @sb_tree Z :=
  Eval vm_compute in default (empty_tree 0) (build_unique [5]).

Definition single_shape : tree Z := Eval vm_compute in shape single.

(** [<] on integers with an iterator on one side: the iterator stands
    for the element that it points at. *)
Definition ltb_payload_iter (h : gmap ptr (@node Z)) (d : Z) (it : ptr) : bool :=
  match get_data h it with
  | Some x => d <? x
  | None => false
  end.

Definition ltb_iter_payload (h : gmap ptr (@node Z)) (it : ptr) (d : Z) : bool :=
  match get_data h it with
  | Some x => x <? d
  | None => false
  end.

(** Scenario 3: equal-insert 2, 2, 2. *)
Definition twos : @sb_tree Z :=
  Eval vm_compute in default (empty_tree 0) (build_equal [2; 2; 2]).

Definition twos_shape : tree Z := Eval vm_compute in shape twos.

(** A sequence of 104 distinct keys.  The first 103 build a tree that
    meets every size and balance condition; the last one, 54, goes into
    the right subtree of the root. *)
Definition skew_prefix : list Z :=
  [38; 78; 23; 91; 28; 52; 8; 25; 97; 84; 3; 33; 45; 14; 65; 58; 87; 100; 1; 81;
   94; 26; 71; 5; 35; 41; 30; 11; 48; 24; 17; 6; 102; 92; 27; 50; 34; 55; 9; 79;
   36; 12; 98; 15; 20; 29; 39; 89; 68; 46; 4; 2; 0; 61; 82; 74; 43; 85; 95; 31;
   49; 76; 59; 53; 47; 7; 32; 90; 21; 83; 18; 40; 51; 96; 86; 72; 10; 63; 44; 37;
   88; 93; 56; 42; 103; 99; 101; 66; 69; 13; 80; 16; 67; 73; 64; 19; 70; 77; 57; 22;
   60; 62; 75].

Definition skew_last : Z := 54.

Definition skew_before : @sb_tree Z :=
  Eval vm_compute in default (empty_tree 0) (build_unique skew_prefix).

Definition skew_after : @sb_tree Z :=
  Eval vm_compute in default (empty_tree 0) (build_unique (skew_prefix ++ [skew_last])).

End Samples.

(** * Properties *)

Section Facts.

Context {T : Type}.
Implicit Types (h : gmap ptr (@node T)) (t : tree T) (a p : ptr).

Lemma wrap64_small x : 0 <= x <= size_max → wrap64 x = x.
Proof. unfold wrap64, size_max. intros. apply Z.mod_small. lia. Qed.

Lemma is_sized_spec t : is_sized t = true ↔ sized t.
Proof.
  induction t as [|l IHl a n r IHr]; [done|].
  cbn [is_sized sized]. rewrite !andb_true_iff, Z.eqb_eq, IHl, IHr. tauto.
Qed.

Lemma is_balanced_spec t : is_balanced t = true ↔ balanced t.
Proof.
  induction t as [|l IHl a n r IHr]; [done|].
  cbn [is_balanced balanced]. rewrite !andb_true_iff, !Z.leb_le, IHl, IHr. tauto.
Qed.

Lemma length_addrs t : length (addrs t) = card t.
Proof. induction t; simpl; [done|]. rewrite length_app. simpl. lia. Qed.

Lemma length_elems t : length (elems t) = card t.
Proof. induction t; simpl; [done|]. rewrite length_app. simpl. lia. Qed.

Lemma height_le_card t : (height t ≤ card t)%nat.
Proof. induction t; simpl; lia. Qed.

Lemma rep_lookup h par t a : rep h par t → a ∈ addrs t → is_Some (h !! a).
Proof.
  revert par. induction t as [|l IHl b n r IHr]; simpl; intros par Hrep Hin.
  - by apply elem_of_nil in Hin.
  - destruct Hrep as (Hb & _ & _ & _ & Hl & Hr).
    apply elem_of_app in Hin as [Hin|Hin]; [by eapply IHl|].
    apply elem_of_cons in Hin as [->|Hin]; [by eexists|by eapply IHr].
Qed.

(** A tree that lives in a heap has no more nodes than the heap has cells. *)
Lemma rep_card_le h par t : rep h par t → NoDup (addrs t) → (card t ≤ base.size h)%nat.
Proof.
  intros Hrep Hnd. rewrite <- length_addrs, <- size_dom.
  rewrite <- (size_list_to_set (C := gset ptr) (addrs t)) by done.
  apply subseteq_size. intros a Ha. apply elem_of_list_to_set in Ha.
  apply elem_of_dom. by eapply rep_lookup.
Qed.

Lemma wf_fuel (s : @sb_tree T) t : wf s t → (height t < fuel_of (mem s))%nat.
Proof.
  intros [_ Hrep Hnd _ _]. apply NoDup_cons in Hnd as [_ Hnd].
  pose proof (rep_card_le _ _ _ Hrep Hnd). pose proof (height_le_card t).
  unfold fuel_of. lia.
Qed.

Lemma size_or_zero_rep h par t : rep h par t → size_or_zero h (root_of t) = Some (size_of t).
Proof.
  destruct t; simpl; [done|]. intros (Ha & _). unfold get_size. by rewrite Ha.
Qed.

Lemma sized_size_of t : sized t → size_of t = Z.of_nat (card t).
Proof. destruct t; simpl; [done|]. by intros [-> _]. Qed.

(** ** Reading fields after a write

    A write changes one field of one cell; every other field of every
    cell reads as before. *)

Ltac field_after_write :=
  intros; unfold set_parent, set_left, set_right, set_size,
    get_parent, get_left, get_right, get_size, get_data in *;
  repeat match goal with
  | H : match ?h !! ?p with Some _ => _ | None => _ end = _ |- _ =>
      destruct (h !! p) eqn:?; simplify_eq
  end;
  try case_decide; subst;
  rewrite ?lookup_insert_eq, ?lookup_insert_ne by done;
  try match goal with H : ?h !! ?p = Some _ |- context [?h !! ?p] => rewrite H end;
  try done.

Lemma get_parent_set_parent h p v h' q :
  set_parent h p v = Some h' →
  get_parent h' q = if decide (q = p) then Some v else get_parent h q.
Proof. field_after_write. Qed.
Lemma get_left_set_parent h p v h' q :
  set_parent h p v = Some h' → get_left h' q = get_left h q.
Proof. destruct (decide (q = p)); field_after_write. Qed.
Lemma get_right_set_parent h p v h' q :
  set_parent h p v = Some h' → get_right h' q = get_right h q.
Proof. destruct (decide (q = p)); field_after_write. Qed.
Lemma get_size_set_parent h p v h' q :
  set_parent h p v = Some h' → get_size h' q = get_size h q.
Proof. destruct (decide (q = p)); field_after_write. Qed.
Lemma get_data_set_parent h p v h' q :
  set_parent h p v = Some h' → get_data h' q = get_data h q.
Proof. destruct (decide (q = p)); field_after_write. Qed.

Lemma get_left_set_left h p v h' q :
  set_left h p v = Some h' →
  get_left h' q = if decide (q = p) then Some v else get_left h q.
Proof. field_after_write. Qed.
Lemma get_parent_set_left h p v h' q :
  set_left h p v = Some h' → get_parent h' q = get_parent h q.
Proof. destruct (decide (q = p)); field_after_write. Qed.
Lemma get_right_set_left h p v h' q :
  set_left h p v = Some h' → get_right h' q = get_right h q.
Proof. destruct (decide (q = p)); field_after_write. Qed.
Lemma get_size_set_left h p v h' q :
  set_left h p v = Some h' → get_size h' q = get_size h q.
Proof. destruct (decide (q = p)); field_after_write. Qed.
Lemma get_data_set_left h p v h' q :
  set_left h p v = Some h' → get_data h' q = get_data h q.
Proof. destruct (decide (q = p)); field_after_write. Qed.

Lemma get_right_set_right h p v h' q :
  set_right h p v = Some h' →
  get_right h' q = if decide (q = p) then Some v else get_right h q.
Proof. field_after_write. Qed.
Lemma get_parent_set_right h p v h' q :
  set_right h p v = Some h' → get_parent h' q = get_parent h q.
Proof. destruct (decide (q = p)); field_after_write. Qed.
Lemma get_left_set_right h p v h' q :
  set_right h p v = Some h' → get_left h' q = get_left h q.
Proof. destruct (decide (q = p)); field_after_write. Qed.
Lemma get_size_set_right h p v h' q :
  set_right h p v = Some h' → get_size h' q = get_size h q.
Proof. destruct (decide (q = p)); field_after_write. Qed.
Lemma get_data_set_right h p v h' q :
  set_right h p v = Some h' → get_data h' q = get_data h q.
Proof. destruct (decide (q = p)); field_after_write. Qed.

Lemma get_size_set_size h p v h' q :
  set_size h p v = Some h' →
  get_size h' q = if decide (q = p) then Some v else get_size h q.
Proof. field_after_write. Qed.
Lemma get_parent_set_size h p v h' q :
  set_size h p v = Some h' → get_parent h' q = get_parent h q.
Proof. destruct (decide (q = p)); field_after_write. Qed.
Lemma get_left_set_size h p v h' q :
  set_size h p v = Some h' → get_left h' q = get_left h q.
Proof. destruct (decide (q = p)); field_after_write. Qed.
Lemma get_right_set_size h p v h' q :
  set_size h p v = Some h' → get_right h' q = get_right h q.
Proof. destruct (decide (q = p)); field_after_write. Qed.
Lemma get_data_set_size h p v h' q :
  set_size h p v = Some h' → get_data h' q = get_data h q.
Proof. destruct (decide (q = p)); field_after_write. Qed.

(** A write fails only on a cell that is not there. *)
Lemma set_parent_None h p v : set_parent h p v = None → h !! p = None.
Proof. unfold set_parent. by destruct (h !! p). Qed.
Lemma set_left_None h p v : set_left h p v = None → h !! p = None.
Proof. unfold set_left. by destruct (h !! p). Qed.
Lemma set_right_None h p v : set_right h p v = None → h !! p = None.
Proof. unfold set_right. by destruct (h !! p). Qed.
Lemma set_size_None h p v : set_size h p v = None → h !! p = None.
Proof. unfold set_size. by destruct (h !! p). Qed.

Lemma get_parent_None h p : h !! p = None → get_parent h p = None.
Proof. unfold get_parent. by intros ->. Qed.

(** ** Extremal nodes, subtrees and parent chains *)

Lemma hd_app_nonempty {A} (l1 l2 : list A) d d' : l1 ≠ [] → hd d (l1 ++ l2) = hd d' l1.
Proof. by destruct l1. Qed.

Lemma hd_indep {A} (l : list A) d d' : l ≠ [] → hd d l = hd d' l.
Proof. by destruct l. Qed.

Lemma last_indep {A} (l : list A) d d' : l ≠ [] → List.last l d = List.last l d'.
Proof.
  induction l as [|x l IH]; [done|]. intros _. destruct l as [|y l]; [done|].
  change (List.last (y :: l) d = List.last (y :: l) d'). by apply IH.
Qed.

Lemma addrs_nonempty t : t ≠ Leaf → addrs t ≠ [].
Proof. destruct t as [|l a n r]; [done|]. intros _. simpl. by destruct (addrs l). Qed.

Lemma leftmost_spec h t : ∀ par fuel a,
  rep h par t → root_of t = Some a → (height t ≤ fuel)%nat →
  leftmost fuel h a = Some (hd a (addrs t)).
Proof.
  induction t as [|l IHl b n r _]; intros par fuel a Hrep Hroot Hfuel; [done|].
  simpl in *. simplify_eq. destruct Hrep as (Ha & _ & Hl & _ & Hrl & _).
  destruct fuel as [|fuel]; [lia|]. simpl. unfold get_left. rewrite Ha. simpl. rewrite Hl.
  destruct l as [|ll la ln lr]; [done|]. simpl root_of. cbv beta iota.
  rewrite (IHl (Some a) fuel la Hrl eq_refl) by lia.
  f_equal. symmetry. apply hd_app_nonempty. by apply addrs_nonempty.
Qed.

Lemma last_app_cons {A} (l1 l2 : list A) x d d' : List.last (l1 ++ x :: l2) d = List.last (x :: l2) d'.
Proof.
  induction l1 as [|y l1 IH]; simpl.
  - revert x. induction l2 as [|z l2 IH2]; intros x; [done|]. simpl in *. apply IH2.
  - rewrite IH. by destruct l1.
Qed.

Lemma rightmost_spec h t : ∀ par fuel a,
  rep h par t → root_of t = Some a → (height t ≤ fuel)%nat →
  rightmost fuel h a = Some (List.last (addrs t) a).
Proof.
  induction t as [|l _ b n r IHr]; intros par fuel a Hrep Hroot Hfuel; [done|].
  simpl in *. simplify_eq. destruct Hrep as (Ha & _ & _ & Hr & _ & Hrr).
  destruct fuel as [|fuel]; [lia|]. simpl. unfold get_right. rewrite Ha. simpl. rewrite Hr.
  rewrite (last_app_cons _ _ _ _ a).
  destruct r as [|rl ra rn rr]; [done|]. simpl root_of. cbv beta iota.
  rewrite (IHr (Some a) fuel ra Hrr eq_refl) by lia.
  f_equal. simpl addrs. rewrite (last_app_cons _ _ _ _ a).
  change (a :: addrs rl ++ ra :: addrs rr) with ([a] ++ addrs rl ++ ra :: addrs rr).
  rewrite app_assoc. by rewrite (last_app_cons _ _ _ _ a).
Qed.

Lemma subtrees_left (l r : tree T) a n t : t ∈ subtrees l → t ∈ subtrees (Br l a n r).
Proof. intros Hin. cbn [subtrees]. right. apply elem_of_app. by left. Qed.

Lemma subtrees_right (l r : tree T) a n t : t ∈ subtrees r → t ∈ subtrees (Br l a n r).
Proof. intros Hin. cbn [subtrees]. right. apply elem_of_app. by right. Qed.

Lemma subtrees_here (l r : tree T) a n : Br l a n r ∈ subtrees (Br l a n r).
Proof. cbn [subtrees]. by left. Qed.

(** Shapes at the two ends of the in-order listing: the first node is
    the root with no left child, or the left child (itself without a
    left child) of a node of the tree; symmetrically for the last. *)
Lemma first_spine t d :
  t ≠ Leaf →
  ∃ x xn xr, hd d (addrs t) = x ∧
    (t = Br Leaf x xn xr ∨ ∃ q qn qr, Br (Br Leaf x xn xr) q qn qr ∈ subtrees t).
Proof.
  induction t as [|l IHl a n r _]; [done|]. intros _.
  destruct l as [|ll la ln lr].
  - exists a, n, r. split; [done|]. by left.
  - destruct (IHl ltac:(done)) as (x & xn & xr & Hx & Hcases).
    exists x, xn, xr. split.
    { rewrite <- Hx. simpl addrs at 1. apply hd_app_nonempty. by apply addrs_nonempty. }
    right. destruct Hcases as [Heq|(q & qn & qr & Hin)].
    + exists a, n, r. rewrite Heq. apply subtrees_here.
    + exists q, qn, qr. by apply subtrees_left.
Qed.

Lemma last_spine t d :
  t ≠ Leaf →
  ∃ x xn xl, List.last (addrs t) d = x ∧
    (t = Br xl x xn Leaf ∨ ∃ q qn ql, Br ql q qn (Br xl x xn Leaf) ∈ subtrees t).
Proof.
  induction t as [|l _ a n r IHr]; [done|]. intros _.
  destruct r as [|rl ra rn rr].
  - exists a, n, l. split; [|by left]. simpl. by rewrite (last_app_cons _ _ _ _ d).
  - destruct (IHr ltac:(done)) as (x & xn & xl & Hx & Hcases).
    exists x, xn, xl. split.
    { rewrite <- Hx. simpl addrs at 1. rewrite (last_app_cons _ _ _ _ d).
      simpl addrs. change (a :: addrs rl ++ ra :: addrs rr) with ([a] ++ addrs rl ++ ra :: addrs rr).
      rewrite app_assoc. rewrite (last_app_cons _ _ _ _ d). by rewrite (last_app_cons _ _ _ _ d). }
    right. destruct Hcases as [Heq|(q & qn & ql & Hin)].
    + exists a, n, l. rewrite Heq. apply subtrees_here.
    + exists q, qn, ql. by apply subtrees_right.
Qed.

Lemma subtrees_refl t : t ∈ subtrees t.
Proof. destruct t; simpl; by left. Qed.

Lemma subtree_rep h w t : ∀ par, rep h par w → t ∈ subtrees w → ∃ par', rep h par' t.
Proof.
  induction w as [|l IHl a n r IHr]; intros par Hrep Hin; simpl in Hin.
  - apply list_elem_of_singleton in Hin as ->. by exists par.
  - apply elem_of_cons in Hin as [->|Hin]; [by exists par|].
    simpl in Hrep. destruct Hrep as (_ & _ & _ & _ & Hl & Hr).
    apply elem_of_app in Hin as [Hin|Hin]; [by eapply IHl|by eapply IHr].
Qed.

Lemma subtree_addrs w t : t ∈ subtrees w → ∃ pre post, addrs w = pre ++ addrs t ++ post.
Proof.
  induction w as [|l IHl a n r IHr]; intros Hin; simpl in Hin.
  - apply list_elem_of_singleton in Hin as ->. by exists [], [].
  - apply elem_of_cons in Hin as [->|Hin]; [exists [], []; by rewrite app_nil_r|].
    apply elem_of_app in Hin as [Hin|Hin].
    + destruct (IHl Hin) as (pre & post & Heq). exists pre, (post ++ a :: addrs r).
      simpl. rewrite Heq. by rewrite <- !app_assoc.
    + destruct (IHr Hin) as (pre & post & Heq). exists (addrs l ++ a :: pre), post.
      simpl. rewrite Heq. by rewrite <- !app_assoc.
Qed.

Lemma subtree_elem w t a : t ∈ subtrees w → a ∈ addrs t → a ∈ addrs w.
Proof.
  intros Hin Ha. destruct (subtree_addrs _ _ Hin) as (pre & post & ->).
  apply elem_of_app. right. apply elem_of_app. by left.
Qed.

Lemma subtree_NoDup w t : t ∈ subtrees w → NoDup (addrs w) → NoDup (addrs t).
Proof.
  intros Hin Hnd. destruct (subtree_addrs _ _ Hin) as (pre & post & Heq).
  rewrite Heq in Hnd. apply NoDup_app in Hnd as (_ & _ & Hnd).
  by apply NoDup_app in Hnd as (Hnd & _ & _).
Qed.

(** A subtree is the whole tree or a child of a node of the tree. *)
Lemma subtree_parent w t :
  t ∈ subtrees w →
  t = w ∨ ∃ tl tp pn tr, Br tl tp pn tr ∈ subtrees w ∧ (tl = t ∨ tr = t).
Proof.
  induction w as [|l IHl a n r IHr]; intros Hin; simpl in Hin.
  - apply list_elem_of_singleton in Hin. by left.
  - apply elem_of_cons in Hin as [->|Hin]; [by left|]. right.
    apply elem_of_app in Hin as [Hin|Hin].
    + destruct (IHl Hin) as [->|(tl & tp & pn & tr & Hsub & Hc)].
      * exists l, a, n, r. split; [simpl; by left|by left].
      * exists tl, tp, pn, tr. split; [|done]. simpl. right. apply elem_of_app. by left.
    + destruct (IHr Hin) as [->|(tl & tp & pn & tr & Hsub & Hc)].
      * exists l, a, n, r. split; [simpl; by left|by right].
      * exists tl, tp, pn, tr. split; [|done]. simpl. right. apply elem_of_app. by right.
Qed.

(** ** Parent chains and the size loops *)

Lemma rep_chain h hdr t : ∀ par p k,
  rep h par t → par = Some p → chain h hdr p k → hdr ∉ addrs t →
  ∀ q, q ∈ addrs t → ∃ k', chain h hdr q k' ∧ (k' ≤ k + height t)%nat.
Proof.
  induction t as [|l IHl a n r IHr]; intros par p k Hrep Hpar Hch Hh q Hq; simpl in *.
  - by apply elem_of_nil in Hq.
  - destruct Hrep as (Ha & Hp & _ & _ & Hrl & Hrr).
    assert (chain h hdr a (S k)) as Hca.
    { apply (chain_up h hdr a p k); [| |exact Hch].
      - intros ->. apply Hh. apply elem_of_app. right. by left.
      - unfold get_parent. rewrite Ha. simpl. congruence. }
    apply elem_of_app in Hq as [Hq|Hq]; [|apply elem_of_cons in Hq as [->|Hq]].
    + assert (hdr ∉ addrs l) as Hhl by (intros ?; apply Hh, elem_of_app; by left).
      destruct (IHl _ _ _ Hrl eq_refl Hca Hhl q Hq) as (k' & Hk & Hle).
      exists k'. split; [done|lia].
    + exists (S k). split; [done|lia].
    + assert (hdr ∉ addrs r) as Hhr by (intros ?; apply Hh, elem_of_app; right; by right).
      destruct (IHr _ _ _ Hrr eq_refl Hca Hhr q Hq) as (k' & Hk & Hle).
      exists k'. split; [done|lia].
Qed.

Lemma wf_chain (s : @sb_tree T) t q :
  wf s t → q ∈ addrs t → ∃ k, chain (mem s) (header s) q k ∧ (k ≤ height t)%nat.
Proof.
  intros [_ Hrep Hnd _ _] Hq. apply NoDup_cons in Hnd as [Hh _].
  destruct (rep_chain _ _ _ _ _ O Hrep eq_refl (chain_here _ _) Hh q Hq) as (k & Hk & Hle).
  exists k. split; [done|lia].
Qed.

Lemma same_links_refl h : same_links h h.
Proof. by intros q. Qed.

Lemma same_links_set_size h h1 h2 p v :
  same_links h h1 → set_size h1 p v = Some h2 → same_links h h2.
Proof.
  intros Hs Hset q. destruct (Hs q) as (H1 & H2 & H3 & H4).
  rewrite (get_parent_set_size _ _ _ _ q Hset), (get_left_set_size _ _ _ _ q Hset),
    (get_right_set_size _ _ _ _ q Hset), (get_data_set_size _ _ _ _ q Hset). done.
Qed.

Lemma get_size_is_Some h p x : get_parent h p = Some x → is_Some (get_size h p).
Proof. unfold get_parent, get_size. destruct (h !! p); [by eexists|done]. Qed.

Lemma shrink_sizes_chain h hdr q k : chain h hdr q k →
  ∀ h1 fuel, same_links h h1 → (k ≤ fuel)%nat →
  ∃ h2, shrink_sizes fuel hdr h1 q = Some h2 ∧ same_links h h2.
Proof.
  induction 1 as [|q p k Hne Hpar Hch IH]; intros h1 fuel Hs Hfuel.
  - exists h1. destruct fuel; simpl; by rewrite decide_True.
  - destruct fuel as [|fuel]; [lia|]. simpl. rewrite decide_False by done.
    destruct (Hs q) as (Hp1 & _). rewrite Hpar in Hp1.
    destruct (get_size_is_Some _ _ _ Hp1) as [sz Hsz]. rewrite Hsz.
    destruct (set_size h1 q (wrap64 (sz - 1))) as [h2|] eqn:Hset.
    2:{ apply set_size_None in Hset. apply get_parent_None in Hset. congruence. }
    rewrite (get_parent_set_size _ _ _ _ q Hset), Hp1. simpl.
    apply IH; [by eapply same_links_set_size|lia].
Qed.

Lemma lookup_fields h p n :
  h !! p = Some n →
  get_parent h p = Some (parent n) ∧ get_left h p = Some (left n) ∧
  get_right h p = Some (right n) ∧ get_size h p = Some (size n) ∧
  get_data h p = Some (data n).
Proof. intros H. unfold get_parent, get_left, get_right, get_size, get_data. by rewrite H. Qed.

Lemma get_size_None h p : get_size h p = None → get_parent h p = None.
Proof. unfold get_size, get_parent. by destruct (h !! p). Qed.

Lemma subtree_height w t : t ∈ subtrees w → (height t ≤ height w)%nat.
Proof.
  induction w as [|l IHl a n r IHr]; intros Hin; simpl in Hin.
  - by apply list_elem_of_singleton in Hin as ->.
  - apply elem_of_cons in Hin as [->|Hin]; [done|].
    apply elem_of_app in Hin as [Hin|Hin]; simpl; [specialize (IHl Hin)|specialize (IHr Hin)]; lia.
Qed.

Lemma NoDup_app_ne {A} (l1 l2 : list A) x y : NoDup (l1 ++ l2) → x ∈ l1 → y ∈ l2 → x ≠ y.
Proof. intros Hnd Hx Hy ->. apply NoDup_app in Hnd as (_ & Hd & _). by eapply Hd. Qed.

Lemma same_links_parent h h' q : same_links h h' → get_parent h' q = get_parent h q.
Proof. intros Hs. apply Hs. Qed.
Lemma same_links_left h h' q : same_links h h' → get_left h' q = get_left h q.
Proof. intros Hs. apply Hs. Qed.
Lemma same_links_right h h' q : same_links h h' → get_right h' q = get_right h q.
Proof. intros Hs. apply Hs. Qed.
Lemma same_links_data h h' q : same_links h h' → get_data h' q = get_data h q.
Proof. intros Hs. apply Hs. Qed.

(** Symbolic reads: push a field read through the writes recorded in
    the context, down to a heap whose fields are known. *)
Ltac hread1 :=
  match goal with
  | E : set_parent ?h ?p ?v = Some ?h' |- context [get_parent ?h' ?q] =>
      rewrite (get_parent_set_parent h p v h' q E)
  | E : set_parent ?h ?p ?v = Some ?h' |- context [get_left ?h' ?q] =>
      rewrite (get_left_set_parent h p v h' q E)
  | E : set_parent ?h ?p ?v = Some ?h' |- context [get_right ?h' ?q] =>
      rewrite (get_right_set_parent h p v h' q E)
  | E : set_parent ?h ?p ?v = Some ?h' |- context [get_size ?h' ?q] =>
      rewrite (get_size_set_parent h p v h' q E)
  | E : set_parent ?h ?p ?v = Some ?h' |- context [get_data ?h' ?q] =>
      rewrite (get_data_set_parent h p v h' q E)
  | E : set_left ?h ?p ?v = Some ?h' |- context [get_parent ?h' ?q] =>
      rewrite (get_parent_set_left h p v h' q E)
  | E : set_left ?h ?p ?v = Some ?h' |- context [get_left ?h' ?q] =>
      rewrite (get_left_set_left h p v h' q E)
  | E : set_left ?h ?p ?v = Some ?h' |- context [get_right ?h' ?q] =>
      rewrite (get_right_set_left h p v h' q E)
  | E : set_left ?h ?p ?v = Some ?h' |- context [get_size ?h' ?q] =>
      rewrite (get_size_set_left h p v h' q E)
  | E : set_left ?h ?p ?v = Some ?h' |- context [get_data ?h' ?q] =>
      rewrite (get_data_set_left h p v h' q E)
  | E : set_right ?h ?p ?v = Some ?h' |- context [get_parent ?h' ?q] =>
      rewrite (get_parent_set_right h p v h' q E)
  | E : set_right ?h ?p ?v = Some ?h' |- context [get_left ?h' ?q] =>
      rewrite (get_left_set_right h p v h' q E)
  | E : set_right ?h ?p ?v = Some ?h' |- context [get_right ?h' ?q] =>
      rewrite (get_right_set_right h p v h' q E)
  | E : set_right ?h ?p ?v = Some ?h' |- context [get_size ?h' ?q] =>
      rewrite (get_size_set_right h p v h' q E)
  | E : set_right ?h ?p ?v = Some ?h' |- context [get_data ?h' ?q] =>
      rewrite (get_data_set_right h p v h' q E)
  | E : set_size ?h ?p ?v = Some ?h' |- context [get_parent ?h' ?q] =>
      rewrite (get_parent_set_size h p v h' q E)
  | E : set_size ?h ?p ?v = Some ?h' |- context [get_left ?h' ?q] =>
      rewrite (get_left_set_size h p v h' q E)
  | E : set_size ?h ?p ?v = Some ?h' |- context [get_right ?h' ?q] =>
      rewrite (get_right_set_size h p v h' q E)
  | E : set_size ?h ?p ?v = Some ?h' |- context [get_size ?h' ?q] =>
      rewrite (get_size_set_size h p v h' q E)
  | E : set_size ?h ?p ?v = Some ?h' |- context [get_data ?h' ?q] =>
      rewrite (get_data_set_size h p v h' q E)
  | Hs : same_links ?h ?h' |- context [get_parent ?h' ?q] =>
      rewrite (same_links_parent h h' q Hs)
  | Hs : same_links ?h ?h' |- context [get_left ?h' ?q] =>
      rewrite (same_links_left h h' q Hs)
  | Hs : same_links ?h ?h' |- context [get_right ?h' ?q] =>
      rewrite (same_links_right h h' q Hs)
  | Hs : same_links ?h ?h' |- context [get_data ?h' ?q] =>
      rewrite (same_links_data h h' q Hs)
  | H : get_parent ?h ?p = Some _ |- context [get_parent ?h ?p] => rewrite H
  | H : get_left ?h ?p = Some _ |- context [get_left ?h ?p] => rewrite H
  | H : get_right ?h ?p = Some _ |- context [get_right ?h ?p] => rewrite H
  | H : get_size ?h ?p = Some _ |- context [get_size ?h ?p] => rewrite H
  | H : get_data ?h ?p = Some _ |- context [get_data ?h ?p] => rewrite H
  | H : leftmost ?f ?h ?p = Some _ |- context [leftmost ?f ?h ?p] => rewrite H
  | H : rightmost ?f ?h ?p = Some _ |- context [rightmost ?f ?h ?p] => rewrite H
  | H : shrink_sizes ?f ?d ?h ?p = Some _ |- context [shrink_sizes ?f ?d ?h ?p] => rewrite H
  end.

Ltac hread :=
  repeat first
    [ hread1
    | rewrite decide_True by congruence
    | rewrite decide_False by congruence
    | progress (unfold nonnull; cbn [root_of]; cbv beta iota) ].

(** Symbolic writes: name the heap after the write; a write fails only
    on a missing cell, which the reads so far exclude. *)
Ltac hwrite_fail E :=
  exfalso; apply get_parent_None in E; revert E; hread; congruence.

Ltac hwrite :=
  let E := fresh "E" in
  let h' := fresh "h" in
  match goal with
  | |- context [set_parent ?h ?p ?v] =>
      destruct (set_parent h p v) as [h'|] eqn:E;
      [|apply set_parent_None in E; hwrite_fail E]
  | |- context [set_left ?h ?p ?v] =>
      destruct (set_left h p v) as [h'|] eqn:E;
      [|apply set_left_None in E; hwrite_fail E]
  | |- context [set_right ?h ?p ?v] =>
      destruct (set_right h p v) as [h'|] eqn:E;
      [|apply set_right_None in E; hwrite_fail E]
  | |- context [set_size ?h ?p ?v] =>
      destruct (set_size h p v) as [h'|] eqn:E;
      [|apply set_size_None in E; hwrite_fail E]
  end.

(** ** [select_node] *)

Lemma select_loop_spec h hdr t : ∀ par fuel k,
  rep h par t → sized t → Z.of_nat (card t) <= size_max →
  (height t ≤ fuel)%nat → 0 <= k <= size_max →
  select_loop fuel h hdr (root_of t) k = Some (nth (Z.to_nat k) (addrs t) hdr).
Proof.
  induction t as [|l IHl a n r IHr]; intros par fuel k Hrep Hsz Hfit Hfuel Hk.
  - destruct fuel; simpl; by destruct (Z.to_nat k).
  - simpl in Hrep. destruct Hrep as (Ha & _ & Hl & Hr & Hrl & Hrr).
    destruct Hsz as (Hn & Hsl & Hsr). simpl in Hfuel, Hfit.
    destruct fuel as [|fuel]; [lia|]. simpl. rewrite Ha, Hl.
    rewrite (size_or_zero_rep _ _ _ Hrl), (sized_size_of _ Hsl).
    destruct (Z.ltb_spec (Z.of_nat (card l)) k) as [Hlt|Hge].
    + rewrite Hr. rewrite (wrap64_small (Z.of_nat (card l) + 1)) by lia.
      rewrite wrap64_small by lia.
      rewrite (IHr (Some a)); [|done|done|lia|lia|lia].
      f_equal. rewrite app_nth2; rewrite length_addrs; [|lia].
      replace (Z.to_nat k - card l)%nat with (S (Z.to_nat (k - (Z.of_nat (card l) + 1)))) by lia.
      done.
    + destruct (Z.ltb_spec k (Z.of_nat (card l))) as [Hlt|Hge'].
      * rewrite (IHl (Some a)); [|done|done|lia|lia|lia].
        f_equal. rewrite app_nth1; [done|]. rewrite length_addrs. lia.
      * f_equal. rewrite app_nth2; rewrite length_addrs; [|lia].
        replace (Z.to_nat k - card l)%nat with O by lia. done.
Qed.

(** ** Nodes by in-order position *)

Lemma rep_nth h par t i a :
  rep h par t → addrs t !! i = Some a →
  ∃ n, h !! a = Some n ∧ elems t !! i = Some (data n).
Proof.
  revert par i. induction t as [|l IHl b n r IHr]; simpl; intros par i Hrep Hi; [done|].
  destruct Hrep as (Hb & _ & _ & _ & Hl & Hr).
  destruct (decide (i < card l)%nat) as [Hlt|Hge].
  - rewrite lookup_app_l in Hi by (rewrite length_addrs; lia).
    destruct (IHl _ _ Hl Hi) as (m & Hm & He). exists m. split; [done|].
    rewrite lookup_app_l by (rewrite length_elems; lia). done.
  - rewrite lookup_app_r in Hi by (rewrite length_addrs; lia).
    rewrite lookup_app_r by (rewrite length_elems; lia).
    rewrite length_addrs in Hi. rewrite length_elems.
    destruct (i - card l)%nat as [|j]; simpl in *.
    + exists n. by simplify_eq.
    + by eapply IHr.
Qed.

Lemma nth_lookup_Some {A} (l : list A) i d x : l !! i = Some x → nth i l d = x.
Proof. revert i. induction l; intros [|i]; simpl; intros; simplify_eq; eauto. Qed.

Lemma nth_overflow' {A} (l : list A) i d : (length l ≤ i)%nat → nth i l d = d.
Proof. apply nth_overflow. Qed.

(** ** Order *)

Section Order.

Variable comp : T → T → bool.

(** The comparator is a strict weak order. *)
Hypothesis comp_irrefl : ∀ x, comp x x = false.
Hypothesis comp_trans : ∀ x y z, comp x y = true → comp y z = true → comp x z = true.
Hypothesis comp_neg_trans : ∀ x y z, comp x y = false → comp y z = false → comp x z = false.

Lemma comp_below x y z : comp x y = false → comp x z = true → comp y z = true.
Proof.
  intros Hxy Hxz. destruct (comp y z) eqn:Hyz; [done|].
  by rewrite (comp_neg_trans _ _ _ Hxy Hyz) in Hxz.
Qed.

Lemma comp_above x y z : comp y z = false → comp x z = true → comp x y = true.
Proof.
  intros Hyz Hxz. destruct (comp x y) eqn:Hxy; [done|].
  by rewrite (comp_neg_trans _ _ _ Hxy Hyz) in Hxz.
Qed.

Lemma non_decreasing_app l1 l2 :
  non_decreasing comp l1 → non_decreasing comp l2 →
  (∀ x y, x ∈ l1 → y ∈ l2 → comp y x = false) →
  non_decreasing comp (l1 ++ l2).
Proof.
  unfold non_decreasing. induction l1 as [|x l1 IH]; simpl; intros H1 H2 H12; [done|].
  apply StronglySorted_inv in H1 as [H1 Hx]. constructor.
  - apply IH; [done..|]. intros ? ? ? ?; apply H12; [by right|done].
  - apply Forall_app. split; [done|]. apply Forall_forall. intros y Hy.
    apply H12; [by left|done].
Qed.

Lemma ordered_non_decreasing t : ordered comp t → non_decreasing comp (elems t).
Proof.
  induction t as [|l IHl a n r IHr]; simpl; [constructor|].
  intros (Hl & Hr & Hol & Hor). rewrite Forall_forall in Hl, Hr.
  apply non_decreasing_app; [by apply IHl| |].
  - constructor; [by apply IHr|]. by apply Forall_forall.
  - intros x y Hx Hy. apply elem_of_cons in Hy as [->|Hy]; [by apply Hl|].
    eapply comp_neg_trans; [by apply Hr|by apply Hl].
Qed.

Lemma non_decreasing_lookup l i j x y :
  non_decreasing comp l → (i ≤ j)%nat → l !! i = Some x → l !! j = Some y → comp y x = false.
Proof.
  intros Hs. revert i j. induction Hs as [|z l Hs IH Hz]; intros i j Hij Hi Hj; [done|].
  destruct i as [|i], j as [|j]; simpl in *; simplify_eq.
  - apply comp_irrefl.
  - rewrite Forall_forall in Hz. apply Hz. by eapply list_elem_of_lookup_2.
  - lia.
  - eapply IH; [|done..]. lia.
Qed.

(** ** [lower_bound_node], [find_node], [rank_node] *)

Lemma count_less_app key l1 l2 :
  count_less comp key (l1 ++ l2) = (count_less comp key l1 + count_less comp key l2)%nat.
Proof. unfold count_less. by rewrite filter_app, length_app. Qed.

Lemma count_less_all key l :
  Forall (λ d, comp d key = true) l → count_less comp key l = length l.
Proof.
  unfold count_less. induction 1 as [|x l Hx _ IH]; [done|].
  rewrite filter_cons_True by done. simpl. by rewrite IH.
Qed.

Lemma count_less_none key l :
  Forall (λ d, comp d key = false) l → count_less comp key l = O.
Proof.
  unfold count_less. induction 1 as [|x l Hx _ IH]; [done|].
  rewrite filter_cons_False by (by rewrite Hx). done.
Qed.

Lemma count_less_le key l : (count_less comp key l ≤ length l)%nat.
Proof. unfold count_less. apply length_filter. Qed.

Lemma lower_bound_loop_spec h key t : ∀ par fuel pre,
  rep h par t → (height t ≤ fuel)%nat →
  lower_bound_loop comp fuel h key pre (root_of t) = Some (lower_bound_of comp key pre t).
Proof.
  induction t as [|l IHl a n r IHr]; intros par fuel pre Hrep Hfuel.
  - by destruct fuel.
  - simpl in Hrep, Hfuel. destruct Hrep as (Ha & _ & Hl & Hr & Hrl & Hrr).
    destruct fuel as [|fuel]; [lia|]. simpl. rewrite Ha.
    destruct (comp (data n) key); simpl.
    + rewrite Hr. eapply IHr; [done|lia].
    + rewrite Hl. eapply IHl; [done|lia].
Qed.

(** On an ordered tree the descent stops at the node whose in-order
    position is the number of payloads below the key. *)
Lemma lower_bound_of_index key t : ∀ pre,
  ordered comp t →
  lower_bound_of comp key pre t = nth (count_less comp key (elems t)) (addrs t) pre.
Proof.
  induction t as [|l IHl a n r IHr]; intros pre; simpl; [done|].
  intros (Hl & Hr & Hol & Hor). rewrite count_less_app.
  destruct (comp (data n) key) eqn:Hn; simpl.
  - rewrite (count_less_all key (elems l)).
    2:{ eapply Forall_impl; [exact Hl|]. intros d Hd. simpl in Hd. by eapply comp_below. }
    unfold count_less at 1. rewrite filter_cons_True by done. simpl.
    rewrite app_nth2 by (rewrite length_addrs, length_elems; lia).
    rewrite length_addrs, length_elems.
    replace (card l + S _ - card l)%nat with (S (count_less comp key (elems r))) by (unfold count_less; lia).
    simpl. by apply IHr.
  - assert (count_less comp key (data n :: elems r) = O) as ->.
    { apply count_less_none. constructor; [done|].
      eapply Forall_impl; [exact Hr|]. intros d Hd. simpl in Hd. by eapply comp_neg_trans. }
    rewrite Nat.add_0_r. rewrite IHl by done.
    pose proof (count_less_le key (elems l)) as Hle. rewrite length_elems in Hle.
    destruct (decide (count_less comp key (elems l) < card l)%nat).
    + rewrite app_nth1 by (rewrite length_addrs; lia).
      apply nth_indep. rewrite length_addrs. lia.
    + rewrite app_nth2 by (rewrite length_addrs; lia).
      rewrite nth_overflow by (rewrite length_addrs; lia).
      rewrite length_addrs.
      by replace (count_less comp key (elems l) - card l)%nat with O by lia.
Qed.

(** The payloads below the key form a prefix of the in-order listing. *)
Lemma non_decreasing_prefix key l i x :
  non_decreasing comp l → l !! i = Some x →
  (comp x key = true → (i < count_less comp key l)%nat) ∧
  (comp x key = false → (count_less comp key l ≤ i)%nat).
Proof.
  intros Hs. revert i. induction Hs as [|z l Hs IH Hz]; intros i Hi; [done|].
  rewrite Forall_forall in Hz. unfold count_less in *.
  destruct (comp z key) eqn:Hzk.
  - rewrite filter_cons_True by done. simpl.
    destruct i as [|i]; simpl in Hi; simplify_eq; [split; [lia|congruence]|].
    destruct (IH _ Hi) as [IH1 IH2]. split; intros; [apply IH1 in H|apply IH2 in H]; lia.
  - rewrite filter_cons_False by (by rewrite Hzk).
    assert (Forall (λ d, comp d key = false) l) as Hall.
    { apply Forall_forall. intros y Hy. eapply comp_neg_trans; [|exact Hzk]. by apply Hz. }
    pose proof (count_less_none key l Hall) as Hnil. unfold count_less in Hnil.
    apply nil_length_inv in Hnil.
    rewrite Hnil. simpl. split; [|lia].
    intros Hx. destruct i as [|i]; simpl in Hi; simplify_eq; [congruence|].
    assert (comp x key = false); [|congruence].
    eapply comp_neg_trans; [|exact Hzk]. apply Hz. by eapply list_elem_of_lookup_2.
Qed.

Lemma count_less_node_true key l a n r :
  ordered comp (Br l a n r) → comp (data n) key = true →
  count_less comp key (elems (Br l a n r)) = (card l + 1 + count_less comp key (elems r))%nat.
Proof.
  simpl. intros (Hl & Hr & _) Hn. rewrite count_less_app.
  rewrite (count_less_all key (elems l)).
  2:{ eapply Forall_impl; [exact Hl|]. intros d Hd. simpl in Hd. by eapply comp_below. }
  rewrite length_elems. unfold count_less at 1. rewrite filter_cons_True by done.
  simpl. unfold count_less. lia.
Qed.

Lemma count_less_node_false key l a n r :
  ordered comp (Br l a n r) → comp (data n) key = false →
  count_less comp key (elems (Br l a n r)) = count_less comp key (elems l).
Proof.
  simpl. intros (Hl & Hr & _) Hn. rewrite count_less_app.
  rewrite (count_less_none key (data n :: elems r)); [lia|].
  constructor; [done|].
  eapply Forall_impl; [exact Hr|]. intros d Hd. simpl in Hd. by eapply comp_neg_trans.
Qed.

Lemma rank_loop_spec h key t : ∀ par fuel acc pre,
  rep h par t → sized t → ordered comp t → (height t ≤ fuel)%nat →
  0 <= acc → acc + Z.of_nat (card t) <= size_max →
  rank_loop comp fuel h key acc pre (root_of t) =
    Some (acc + Z.of_nat (count_less comp key (elems t)), lower_bound_of comp key pre t).
Proof.
  induction t as [|l IHl a n r IHr]; intros par fuel acc pre Hrep Hsz Hord Hfuel Hacc Hfit.
  - destruct fuel; simpl; do 2 f_equal; unfold count_less; simpl; lia.
  - pose proof Hord as (_ & _ & Hol & Hor).
    simpl in Hrep, Hfuel, Hfit. destruct Hrep as (Ha & _ & Hl & Hr & Hrl & Hrr).
    destruct Hsz as (Hn & Hsl & Hsr).
    destruct fuel as [|fuel]; [lia|]. cbn [rank_loop root_of lower_bound_of]. rewrite Ha.
    destruct (comp (data n) key) eqn:Hnk; cbn [negb].
    + rewrite (count_less_node_true _ _ _ _ _ Hord Hnk).
      assert ((match left n with
               | Some l0 => match get_size h l0 with
                            | Some ls => Some (wrap64 (ls + 1))
                            | None => None
                            end
               | None => Some 1
               end) = Some (Z.of_nat (card l) + 1)) as ->.
      { rewrite Hl. destruct l as [|ll la ln lr]; simpl; [done|].
        simpl in Hrl. destruct Hrl as (Hla & _). unfold get_size. rewrite Hla. simpl.
        destruct Hsl as (-> & _). simpl. rewrite wrap64_small; [done|]. simpl in Hfit. lia. }
      rewrite wrap64_small by lia. rewrite Hr.
      rewrite (IHr (Some a)); [|done|done|done|lia|lia|lia].
      do 2 f_equal. lia.
    + rewrite (count_less_node_false _ _ _ _ _ Hord Hnk). rewrite Hl.
      rewrite (IHl (Some a)); [done|done|done|done|lia|lia|lia].
Qed.

Lemma wf_not_header (s : @sb_tree T) t a : wf s t → a ∈ addrs t → a ≠ header s.
Proof.
  intros [_ _ Hnd _ _] Ha ->. apply NoDup_cons in Hnd as [Hnd _]. done.
Qed.

Lemma wf_root (s : @sb_tree T) t : wf s t → get_parent (mem s) (header s) = Some (root_of t).
Proof.
  intros [(hn & Hh & Hp & _) _ _ _ _]. unfold get_parent. rewrite Hh. simpl. by rewrite Hp.
Qed.

Lemma nth_lookup_or_default {A} (l : list A) i d :
  (∃ x, l !! i = Some x ∧ nth i l d = x ∧ (i < length l)%nat) ∨
  (l !! i = None ∧ nth i l d = d ∧ (length l ≤ i)%nat).
Proof.
  destruct (l !! i) as [x|] eqn:Hi.
  - left. exists x. split; [done|]. split; [by apply nth_lookup_Some|].
    by eapply lookup_lt_Some.
  - right. apply lookup_ge_None in Hi. split; [done|]. split; [by apply nth_overflow|done].
Qed.

(** The node [lower_bound_node] lands on, by cases: either every
    payload is below the key and the result is the header, or the
    result is the first node whose payload is not below the key. *)
Lemma lower_bound_node_spec (s : @sb_tree T) t key :
  wf s t → ordered comp t →
  let c := count_less comp key (elems t) in
  lower_bound_node comp s key = Some (nth c (addrs t) (header s)) ∧
  ((c = card t ∧ Forall (λ d, comp d key = true) (elems t)) ∨
   (∃ a n, addrs t !! c = Some a ∧ mem s !! a = Some n ∧ elems t !! c = Some (data n) ∧
           comp (data n) key = false)).
Proof.
  intros Hwf Hord c. split.
  - unfold lower_bound_node. rewrite (wf_root _ _ Hwf).
    pose proof (wf_fuel _ _ Hwf). destruct Hwf as [_ Hrep _ _ _].
    rewrite (lower_bound_loop_spec _ _ _ _ _ _ Hrep) by lia.
    by rewrite lower_bound_of_index.
  - pose proof (ordered_non_decreasing _ Hord) as Hnd.
    destruct (nth_lookup_or_default (addrs t) c (header s)) as [(a & Ha & _ & Hlt)|(Hnone & _ & Hge)].
    + right. destruct Hwf as [_ Hrep _ _ _].
      destruct (rep_nth _ _ _ _ _ Hrep Ha) as (n & Hn & He). exists a, n.
      repeat split; [done..|].
      destruct (non_decreasing_prefix key _ _ _ Hnd He) as [H1 _].
      destruct (comp (data n) key); [|done]. specialize (H1 eq_refl). unfold c in H1. lia.
    + left. rewrite length_addrs in Hge.
      pose proof (count_less_le key (elems t)) as Hle. rewrite length_elems in Hle.
      split; [unfold c in *; lia|]. apply Forall_lookup. intros i x Hi.
      destruct (non_decreasing_prefix key _ _ _ Hnd Hi) as [_ H2].
      destruct (comp x key); [done|]. specialize (H2 eq_refl).
      apply lookup_lt_Some in Hi. rewrite length_elems in Hi. unfold c in *. lia.
Qed.

(** ** [find_node] *)

Lemma find_node_spec (s : @sb_tree T) t key :
  wf s t → ordered comp t →
  (Exists (λ d, equiv_under comp d key) (elems t) ∧
   ∃ a n, find_node comp s key = Some a ∧ a ∈ addrs t ∧ a ≠ header s ∧
          mem s !! a = Some n ∧ equiv_under comp (data n) key) ∨
  (Forall (λ d, ¬ equiv_under comp d key) (elems t) ∧
   find_node comp s key = Some (header s)).
Proof.
  intros Hwf Hord.
  destruct (lower_bound_node_spec s t key Hwf Hord) as [Hlb Hcases].
  pose proof (ordered_non_decreasing _ Hord) as Hnd.
  unfold lower_bound_node in Hlb. unfold find_node.
  destruct (get_parent (mem s) (header s)) as [root|]; [|done]. rewrite Hlb.
  destruct Hcases as [(Hc & Hall)|(a & n & Ha & Hn & He & Hge)].
  - right. split.
    + eapply Forall_impl; [exact Hall|]. intros d Hd [Hd' _]. simpl in Hd. congruence.
    + rewrite nth_overflow by (rewrite length_addrs; lia).
      destruct Hwf as [(hn & Hh & _) _ _ _ _]. unfold get_data. rewrite Hh. simpl.
      by destruct (comp key (data hn)).
  - rewrite (nth_lookup_Some _ _ _ _ Ha). unfold get_data. rewrite Hn. simpl.
    destruct (comp key (data n)) eqn:Hkn.
    + right. split; [|done]. apply Forall_lookup. intros i x Hi [Hx1 Hx2].
      destruct (non_decreasing_prefix key _ _ _ Hnd Hi) as [_ H2].
      specialize (H2 Hx1).
      pose proof (non_decreasing_lookup _ _ _ _ _ Hnd H2 He Hi) as Hxn.
      pose proof (comp_above _ _ _ Hxn Hkn). congruence.
    + left. assert (a ∈ addrs t) as Hin by (by eapply list_elem_of_lookup_2).
      split.
      * apply Exists_exists. exists (data n). split; [|done].
        by eapply list_elem_of_lookup_2.
      * exists a, n. repeat split; try done. by eapply wf_not_header.
Qed.

(** ** [insert_unique_node] on a key that is present *)

Lemma insert_unique_loop_present (s : @sb_tree T) val t : ∀ par fuel,
  rep (mem s) par t → ordered comp t → (height t ≤ fuel)%nat →
  Exists (λ d, equiv_under comp d val) (elems t) →
  ∃ a e n, root_of t = Some a ∧
    insert_unique_loop comp fuel s val a = Some (s, e, false) ∧
    e ∈ addrs t ∧ mem s !! e = Some n ∧ equiv_under comp (data n) val.
Proof.
  induction t as [|l IHl a n r IHr]; intros par fuel Hrep Hord Hfuel Hex.
  - by apply Exists_nil in Hex.
  - simpl in Hrep, Hord, Hfuel. destruct Hrep as (Ha & _ & Hl & Hr & Hrl & Hrr).
    destruct Hord as (Hbl & Hbr & Hol & Hor). rewrite Forall_forall in Hbl, Hbr.
    destruct fuel as [|fuel]; [lia|]. exists a. simpl. unfold get_data, get_left, get_right.
    rewrite Ha. simpl.
    simpl in Hex. apply Exists_app in Hex. rewrite Exists_cons in Hex.
    destruct (comp val (data n)) eqn:Hvn.
    + assert (Exists (λ d, equiv_under comp d val) (elems l)) as Hexl.
      { destruct Hex as [Hex|[[Hex1 Hex2]|Hex]]; [done|congruence|].
        apply Exists_exists in Hex as (d & Hd & Hd1 & Hd2).
        assert (comp val d = true); [|congruence].
        eapply comp_above; [|exact Hvn]. by apply Hbr. }
      destruct (IHl (Some a) fuel Hrl Hol ltac:(lia) Hexl) as (b & e & m & Hb & Hrun & He & Hm & Heq).
      rewrite Hl, Hb. exists e, m. split_and!; try done.
      apply elem_of_app. by left.
    + destruct (comp (data n) val) eqn:Hnv; simpl.
      * assert (Exists (λ d, equiv_under comp d val) (elems r)) as Hexr.
        { destruct Hex as [Hex|[[Hex1 Hex2]|Hex]]; [|congruence|done].
          apply Exists_exists in Hex as (d & Hd & Hd1 & Hd2).
          assert (comp (data n) val = false); [|congruence].
          eapply comp_neg_trans; [|exact Hd1]. by apply Hbl. }
        destruct (IHr (Some a) fuel Hrr Hor ltac:(lia) Hexr) as (b & e & m & Hb & Hrun & He & Hm & Heq).
        rewrite Hr, Hb. exists e, m. split_and!; try done.
        apply elem_of_app. right. by right.
      * exists a, n. split_and!; try done.
        apply elem_of_app. right. by left.
Qed.

(** ** Order statistics and lookup: the claims *)

(** C4. On a well-formed ordered tree, [rank] of a stored payload is
    the number of payloads strictly below it, which is the in-order
    position of the first payload equivalent to it; when no two stored
    payloads are equivalent, then for every [k < size] [select(k)]
    returns the node at in-order position [k], reading its payload
    succeeds, and the rank of that payload is [k]. *)
Theorem rank_select_round_trip (s : @sb_tree T) t :
  wf s t → ordered comp t →
  (∀ i d, elems t !! i = Some d →
     ∃ c, rank_node comp s d = Some (Z.of_nat c) ∧
          c = count_less comp d (elems t) ∧
          (∃ d', elems t !! c = Some d' ∧ equiv_under comp d' d) ∧
          (∀ j y, (j < c)%nat → elems t !! j = Some y → comp y d = true)) ∧
  (distinct_keys comp (elems t) →
   ∀ k, 0 <= k < Z.of_nat (card t) →
     ∃ a d, select_node s k = Some a ∧ addrs t !! Z.to_nat k = Some a ∧
            get_data (mem s) a = Some d ∧ elems t !! Z.to_nat k = Some d ∧
            rank_node comp s d = Some k).
Proof.
  intros Hwf Hord.
  pose proof (ordered_non_decreasing _ Hord) as Hnd.
  assert (∀ i d, elems t !! i = Some d →
     ∃ c, rank_node comp s d = Some (Z.of_nat c) ∧
          c = count_less comp d (elems t) ∧
          (∃ d', elems t !! c = Some d' ∧ equiv_under comp d' d) ∧
          (∀ j y, (j < c)%nat → elems t !! j = Some y → comp y d = true)) as Hrank.
  { intros i d Hi. exists (count_less comp d (elems t)).
    destruct (non_decreasing_prefix d _ _ _ Hnd Hi) as [_ Hci]. specialize (Hci (comp_irrefl d)).
    destruct (lower_bound_node_spec s t d Hwf Hord) as [_ [(Hc & _)|(a & n & Ha & Hn & He & Hge)]].
    { apply lookup_lt_Some in Hi. rewrite length_elems in Hi. lia. }
    pose proof (non_decreasing_lookup _ _ _ _ _ Hnd Hci He Hi) as Hdn.
    split_and!; [|done| |].
    - unfold rank_node. rewrite (wf_root _ _ Hwf). pose proof (wf_fuel _ _ Hwf).
      pose proof (wf_not_header s t a Hwf ltac:(by eapply list_elem_of_lookup_2)) as Hne.
      destruct Hwf as [_ Hrep _ Hsz Hfit].
      rewrite (rank_loop_spec _ _ _ _ _ _ _ Hrep Hsz Hord) by lia.
      rewrite lower_bound_of_index by done. rewrite (nth_lookup_Some _ _ _ _ Ha).
      rewrite decide_False by done. unfold get_data. rewrite Hn. simpl. by rewrite Hdn.
    - exists (data n). by split.
    - intros j y Hj Hy. destruct (non_decreasing_prefix d _ _ _ Hnd Hy) as [_ H2].
      destruct (comp y d); [done|]. specialize (H2 eq_refl). lia. }
  split; [done|].
  intros Hdist k Hk.
  pose proof Hwf as [_ Hrep _ Hsz Hfit]. pose proof (wf_fuel _ _ Hwf).
  destruct (lookup_lt_is_Some_2 (addrs t) (Z.to_nat k)) as [b Hb]; [rewrite length_addrs; lia|].
  destruct (rep_nth _ _ _ _ _ Hrep Hb) as (n & Hn & He).
  exists b, (data n). split_and!; [|done| |done|].
  - unfold select_node. rewrite (wf_root _ _ Hwf).
    rewrite (select_loop_spec _ _ _ _ _ _ Hrep Hsz Hfit) by lia.
    by rewrite (nth_lookup_Some _ _ _ _ Hb).
  - unfold get_data. by rewrite Hn.
  - destruct (Hrank _ _ He) as (c & Hr & _ & (d' & Hd' & Heq) & _).
    rewrite Hr. f_equal. rewrite (Hdist _ _ _ _ Hd' He Heq). lia.
Qed.

(** C5. When the tree already holds a payload equivalent to [v],
    [insert_unique] hands back an existing equivalent node with the
    flag [false] and returns the very same container: no cell of the
    heap changes, so every size, every link and the in-order sequence
    are as before.  In particular, inserting one key twice into a new
    tree fails the second time and leaves [size()] at 1. *)
Theorem insert_unique_present (dflt : T) (s : @sb_tree T) t v :
  wf s t → ordered comp t →
  Exists (λ d, equiv_under comp d v) (elems t) →
  (∃ e n, insert_unique_node comp s v = Some (s, e, false) ∧
          e ∈ addrs t ∧ mem s !! e = Some n ∧ equiv_under comp (data n) v) ∧
  (∃ s1 e, insert_unique_node comp (empty_tree dflt) v = Some (s1, e, true) ∧
           tree_size s1 = Some 1 ∧
           insert_unique_node comp s1 v = Some (s1, e, false) ∧
           tree_size s1 = Some 1).
Proof.
  intros Hwf Hord Hex. split.
  - unfold insert_unique_node. rewrite (wf_root _ _ Hwf).
    pose proof (wf_fuel _ _ Hwf). destruct Hwf as [_ Hrep _ _ _].
    destruct (insert_unique_loop_present s v t _ (fuel_of (mem s)) Hrep Hord ltac:(lia) Hex)
      as (a & e & n & -> & Hrun & He & Hn & Heq).
    rewrite Hrun. by exists e, n.
  - eexists _, _. split; [reflexivity|]. split; [reflexivity|]. split; [|reflexivity].
    vm_compute. by rewrite comp_irrefl.
Qed.

(** [at] on a well-formed ordered tree: [domain_error] exactly when
    the tree is empty, [out_of_range] exactly when it is not empty and
    holds no payload equivalent to the key.  Otherwise it finds a
    stored node whose payload is equivalent to the key, and what it
    returns is the member [data] of that payload: it never returns a
    stored element. *)
Theorem at_spec (s : @sb_tree T) t key :
  wf s t → ordered comp t →
  (at_ comp s key = Some domain_error ↔ t = Leaf) ∧
  (at_ comp s key = Some out_of_range ↔
     t ≠ Leaf ∧ Forall (λ d, ¬ equiv_under comp d key) (elems t)) ∧
  (t ≠ Leaf → Exists (λ d, equiv_under comp d key) (elems t) →
     ∃ a n, at_ comp s key = Some (at_ref (member_data (payload a))) ∧ a ∈ addrs t ∧
            mem s !! a = Some n ∧ equiv_under comp (data n) key) ∧
  (∀ a, at_ comp s key ≠ Some (at_ref (payload a))).
Proof.
  intros Hwf Hord.
  assert (∀ a, at_ comp s key ≠ Some (at_ref (payload a))) as Hnever.
  { intros a. unfold at_. destruct (empty s) as [[|]|]; cbn; try done.
    destruct (find_node comp s key) as [itr|]; cbn; [|done].
    by destruct (decide (itr = end_ s)). }
  enough ((at_ comp s key = Some domain_error ↔ t = Leaf) ∧
          (at_ comp s key = Some out_of_range ↔
             t ≠ Leaf ∧ Forall (λ d, ¬ equiv_under comp d key) (elems t)) ∧
          (t ≠ Leaf → Exists (λ d, equiv_under comp d key) (elems t) →
             ∃ a n, at_ comp s key = Some (at_ref (member_data (payload a))) ∧ a ∈ addrs t ∧
                    mem s !! a = Some n ∧ equiv_under comp (data n) key))
    as (H1 & H2 & H3) by done.
  clear Hnever. unfold at_, empty. rewrite (wf_root _ _ Hwf).
  destruct t as [|l a n r] eqn:Ht.
  - simpl. split; [done|]. split; [|done]. split; [done|]. by intros [? _].
  - rewrite <- Ht in *. assert (t ≠ Leaf) as Hne by (by rewrite Ht).
    replace (root_of t) with (Some a) by (by rewrite Ht). cbn match.
    destruct (find_node_spec s t key Hwf Hord)
      as [(Hex & b & m & Hf & Hb & Hbh & Hm & Heq)|(Hall & Hf)]; rewrite Hf.
    + unfold end_. rewrite decide_False by done. split; [done|]. split.
      * split; [done|]. intros [_ Hall]. exfalso.
        apply Exists_exists in Hex as (d & Hd & Hd').
        rewrite Forall_forall in Hall. by eapply Hall.
      * intros _ _. by exists b, m.
    + unfold end_. rewrite decide_True by done. split; [done|]. split; [done|].
      intros _ Hex. exfalso. apply Exists_exists in Hex as (d & Hd & Hd').
      rewrite Forall_forall in Hall. by eapply Hall.
Qed.

End Order.

(** C3. [select(k)] on a well-formed tree with [n] nodes: the node at
    in-order position [k] when [k < n], the header (that is [end()])
    when [k >= n]; [select(0)] on an empty tree is [end()]. *)
Theorem select_node_correct (s : @sb_tree T) t k :
  wf s t → 0 <= k <= size_max →
  (∀ a, addrs t !! Z.to_nat k = Some a → select_node s k = Some a) ∧
  (Z.of_nat (card t) <= k → select_node s k = Some (end_ s)) ∧
  (t = Leaf → select_node s 0 = Some (end_ s)).
Proof.
  intros Hwf Hk. pose proof (wf_fuel _ _ Hwf). pose proof (wf_root _ _ Hwf) as Hroot.
  destruct Hwf as [_ Hrep _ Hsz Hfit].
  assert (∀ k, 0 <= k <= size_max →
    select_node s k = Some (nth (Z.to_nat k) (addrs t) (header s))) as Hsel.
  { intros k' Hk'. unfold select_node. rewrite Hroot.
    by rewrite (select_loop_spec _ _ _ _ _ _ Hrep Hsz Hfit) by lia. }
  split_and!.
  - intros a Ha. rewrite Hsel by done. by rewrite (nth_lookup_Some _ _ _ _ Ha).
  - intros Hge. rewrite Hsel by done. rewrite nth_overflow; [done|].
    rewrite length_addrs. lia.
  - intros ->. rewrite Hsel; [done|]. unfold size_max. lia.
Qed.

(** ** [operator--] at the root

    The test [node->parent->parent == node] of [operator--] holds for the
    header of a non-empty tree, and it holds for the root as well, since
    the root's parent is the header and the header's parent is the root.
    So on the root the operator takes the first branch and moves to the
    root's right child. *)
Lemma decrement_root (s : @sb_tree T) l a n r :
  wf s (Br l a n r) → decrement (mem s) a = Some (right n).
Proof.
  intros [(hn & Hh & Hp & _) Hrep _ _ _]. simpl in Hrep, Hp.
  destruct Hrep as (Ha & Hpar & _).
  unfold decrement, get_parent, get_right. rewrite Ha. simpl. rewrite Hpar, Hh. simpl.
  rewrite Hp. by rewrite bool_decide_eq_true_2.
Qed.

(** Decrementing [end()] of a non-empty tree yields the last node. *)
Lemma decrement_end (s : @sb_tree T) t :
  wf s t → t ≠ Leaf → decrement (mem s) (end_ s) = Some (Some (List.last (addrs t) (header s))).
Proof.
  intros [(hn & Hh & Hp & _ & Hr & _) Hrep _ _ _] Hne.
  destruct t as [|l a n r]; [done|]. simpl in Hrep, Hp.
  destruct Hrep as (Ha & Hpar & _).
  unfold decrement, end_, get_parent, get_right. rewrite Hh. simpl. rewrite Hp, Ha. simpl.
  rewrite bool_decide_eq_true_2 by done. by rewrite Hr.
Qed.

(** C10. Erasing at [end()] does nothing: the call returns [end()] and
    the container, hence every node, size and the in-order sequence,
    is the one passed in. *)
Theorem erase_end_noop (s : @sb_tree T) : erase s (end_ s) = Some (s, end_ s).
Proof. unfold erase. by rewrite decide_True. Qed.

(** ** The replacement chosen by [erase_node] *)

Lemma elem_of_addrs_root (l r : tree T) a n : a ∈ addrs (Br l a n r).
Proof. simpl. apply elem_of_app. right. by left. Qed.

Lemma elem_of_addrs_left (l r : tree T) a n b : b ∈ addrs l → b ∈ addrs (Br l a n r).
Proof. intros. simpl. apply elem_of_app. by left. Qed.

Lemma elem_of_addrs_right (l r : tree T) a n b : b ∈ addrs r → b ∈ addrs (Br l a n r).
Proof. intros. simpl. apply elem_of_app. right. by right. Qed.

Lemma elem_of_addrs_root_of t a : root_of t = Some a → a ∈ addrs t.
Proof. destruct t as [|l b n r]; simpl; [done|]. intros ?; simplify_eq. apply (elem_of_addrs_root l r a n). Qed.

Lemma NoDup_addrs_inv (l r : tree T) a n :
  NoDup (addrs (Br l a n r)) →
  NoDup (addrs l) ∧ NoDup (addrs r) ∧ (a ∉ addrs l) ∧ (a ∉ addrs r) ∧
  (∀ b, b ∈ addrs l → (b ∉ addrs r)).
Proof.
  simpl. intros Hnd. apply NoDup_app in Hnd as (Hl & Hd & Hr).
  apply NoDup_cons in Hr as [Har Hr]. split_and!; try done.
  - intros Hin. apply (Hd a Hin). by left.
  - intros b Hb Hb'. apply (Hd b Hb). by right.
Qed.

(** Only the whole tree contains the root address. *)
Lemma subtree_root w t a :
  NoDup (addrs w) → t ∈ subtrees w → root_of w = Some a → a ∈ addrs t → t = w.
Proof.
  intros Hnd Hin Hroot Ha. destruct w as [|wl wa wn wr]; [done|].
  simpl in Hroot. simplify_eq.
  destruct (NoDup_addrs_inv _ _ _ _ Hnd) as (_ & _ & Hal & Har & _).
  cbn [subtrees] in Hin. apply elem_of_cons in Hin as [->|Hin]; [done|].
  exfalso. apply elem_of_app in Hin as [Hin|Hin].
  - apply Hal. by eapply subtree_elem.
  - apply Har. by eapply subtree_elem.
Qed.

(** What a well-formed container knows about an inner node: where its
    record, its children and its parent are. *)
Lemma node_facts (s : @sb_tree T) w l a n r :
  wf s w → Br l a n r ∈ subtrees w →
  mem s !! a = Some n ∧ left n = root_of l ∧ right n = root_of r ∧
  rep (mem s) (Some a) l ∧ rep (mem s) (Some a) r ∧
  NoDup (addrs (Br l a n r)) ∧
  (header s ∉ addrs (Br l a n r)) ∧
  (height (Br l a n r) < fuel_of (mem s))%nat ∧
  ((root_of w = Some a ∧ parent n = Some (header s)) ∨
   (root_of w ≠ Some a ∧ ∃ tp pn, parent n = Some tp ∧ mem s !! tp = Some pn ∧
      tp ≠ header s ∧ (tp ∉ addrs (Br l a n r)) ∧
      (left pn = Some a ∨ (left pn ≠ Some a ∧ right pn = Some a)))).
Proof.
  intros Hwf Hsub. pose proof (wf_fuel _ _ Hwf) as Hfuel.
  pose proof (subtree_height _ _ Hsub) as Hh.
  destruct Hwf as [(hn & Hh0 & Hroot & _) Hrep Hnd _ _].
  apply NoDup_cons in Hnd as [Hhdr Hnd].
  pose proof (subtree_NoDup _ _ Hsub Hnd) as Hnds.
  assert (header s ∉ addrs (Br l a n r)) as Hhs.
  { intros Hin. apply Hhdr. by eapply subtree_elem. }
  destruct (subtree_rep _ _ _ _ Hrep Hsub) as (par' & Hreps).
  pose proof Hreps as (Ha & Hpa & Hl & Hr & Hrl & Hrr).
  split_and!; try done; [lia|].
  destruct (subtree_parent _ _ Hsub) as [Heq|(tl & tp & pn & tr & Hp & Hc)].
  - left. subst w. simpl in Hrep. destruct Hrep as (Ha' & Hpa' & _). simplify_eq. done.
  - right.
    destruct (subtree_rep _ _ _ _ Hrep Hp) as (par2 & Hrepp).
    pose proof (subtree_NoDup _ _ Hp Hnd) as Hndp.
    destruct (NoDup_addrs_inv _ _ _ _ Hndp) as (_ & _ & Htpl & Htpr & Hlr).
    assert (tp ∈ addrs w) as Htpw.
    { eapply subtree_elem; [exact Hp|]. apply elem_of_addrs_root. }
    assert (tp ≠ header s) as Htph by (by intros ->).
    cbn [rep] in Hrepp. destruct Hrepp as (Htp & _ & Hpl & Hpr & Hrpl & Hrpr).
    assert (a ∈ addrs (Br tl tp pn tr) ∧ (tp ∉ addrs (Br l a n r)) ∧ tp ≠ a) as (Hap & Htps & Htpa).
    { destruct Hc as [->| ->].
      - split; [apply elem_of_addrs_left, elem_of_addrs_root|]. split; [done|].
        intros ->. apply Htpl, elem_of_addrs_root.
      - split; [apply elem_of_addrs_right, elem_of_addrs_root|]. split; [done|].
        intros ->. apply Htpr, elem_of_addrs_root. }
    split.
    { intros Hra. pose proof (subtree_root _ _ _ Hnd Hp Hra Hap) as <-.
      simpl in Hra. by simplify_eq. }
    exists tp, pn. split_and!; try done.
    + destruct Hc as [->| ->]; cbn [rep] in Hrpl, Hrpr.
      * destruct Hrpl as (Ha' & Hpa' & _). by simplify_eq.
      * destruct Hrpr as (Ha' & Hpa' & _). by simplify_eq.
    + destruct Hc as [->| ->]; simpl in Hpl, Hpr; [by left|right].
      split; [|done]. rewrite Hpl. intros Heq.
      apply elem_of_addrs_root_of in Heq. apply (Hlr a Heq), elem_of_addrs_root.
Qed.

Ltac hsize :=
  let E := fresh "E" in
  let ts := fresh "ts" in
  match goal with
  | |- context [get_size ?h ?p] =>
      destruct (get_size h p) as [ts|] eqn:E;
      [|exfalso; apply get_size_None in E; revert E; hread; congruence]
  end.

Ltac hrun := repeat first [progress hread | hwrite | hsize].

Ltac fields H :=
  pose proof (lookup_fields _ _ _ H) as (? & ? & ? & ? & ?);
  cbn [parent left right size data] in *.
Ltac open_node n :=
  destruct n as [? ? ? ? ?]; cbn [parent left right size data] in *; subst.

(** The two ways the symbolic run of a splice ends: the erased node
    was the root, or it hung below a node [tp]. *)
Ltac splice_at_root :=
  hrun; unfold relink_left_first; hrun;
  eexists _, _, _; split; [reflexivity|]; split_and!;
  [ hread; done
  | intros _; hread; done
  | intros ? ? ?; by simplify_eq ].

Ltac splice_below Hside :=
  hrun; unfold relink_left_first; hrun;
  destruct Hside as [Hside|[? ?]]; simplify_eq;
  hrun; (eexists _, _, _); (split; [reflexivity|]); split_and!;
  [ hread; done
  | intros ?; congruence
  | intros ? ? ?; simplify_eq; split; intros; first [congruence | hread; done]
  | hread; done
  | intros ?; congruence
  | intros ? ? ?; simplify_eq; split; intros; first [congruence | hread; done] ].

Lemma splice_successor_spec (s : @sb_tree T) w l a n r :
  wf s w → Br l a n r ∈ subtrees w → l ≠ Leaf → r ≠ Leaf →
  ∃ h' p f,
    splice_successor (fuel_of (mem s)) (header s) (mem s) a =
      Some (h', hd a (addrs r), p, f) ∧
    takes_place s w a n (hd a (addrs r)) h'.
Proof.
  intros Hwf Hsub Hl0 Hr0.
  destruct (node_facts s w l a n r Hwf Hsub)
    as (Ha & Hl & Hr & Hrl & Hrr & Hnd & Hhdr & Hfuel & Hpar).
  destruct (NoDup_addrs_inv _ _ _ _ Hnd) as (Hndl & Hndr & Hal & Har & Hlr).
  pose proof Hwf as [(hn & Hh0 & Hroot & _) _ _ _ _].
  assert (a ≠ header s) as Hah.
  { intros ->. apply Hhdr, elem_of_addrs_root. }
  assert (∀ b, b ∈ addrs r → b ≠ header s ∧ b ≠ a ∧ b ∈ addrs w) as Hinr.
  { intros b Hb. split_and!.
    - intros ->. by apply Hhdr, elem_of_addrs_right.
    - by intros ->.
    - eapply subtree_elem; [exact Hsub|]. by apply elem_of_addrs_right. }
  assert (∀ b, b ∈ addrs l → b ≠ header s ∧ b ≠ a ∧ (b ∉ addrs r)) as Hinl.
  { intros b Hb. split_and!.
    - intros ->. by apply Hhdr, elem_of_addrs_left.
    - by intros ->.
    - by apply Hlr. }
  destruct l as [|ll la ln lr]; [done|]. destruct r as [|rl ra rn rr]; [done|].
  clear Hl0 Hr0. pose proof Hrl as (Hla & Hlap & _). pose proof Hrr as (Hra & Hrap & _).
  destruct (Hinl la (elem_of_addrs_root _ _ _ _)) as (Hlah & Hlaa & Hlar).
  destruct (Hinr ra (elem_of_addrs_root _ _ _ _)) as (Hrah & Hraa & Hraw).
  simpl in Hl, Hr.
  destruct (first_spine (Br rl ra rn rr) a ltac:(done)) as (x & xn & xr & Hx & Hcases).
  rewrite Hx.
  assert (x ∈ addrs (Br rl ra rn rr)) as Hxin.
  { rewrite <- Hx. simpl. destruct (addrs rl); simpl; [by left|by left]. }
  destruct (Hinr x Hxin) as (Hxh & Hxa & Hxw).
  assert (x ≠ la) as Hxla by (intros ->; by apply Hlar).
  assert (ra ≠ la) as Hrala by (intros ->; apply Hlar, elem_of_addrs_root).
  pose proof (leftmost_spec _ _ _ (fuel_of (mem s)) ra Hrr eq_refl) as Hlm.
  rewrite (hd_indep _ ra a) in Hlm by (by apply addrs_nonempty).
  rewrite Hx in Hlm. specialize (Hlm ltac:(simpl in *; lia)). clear Hx.
  unfold takes_place, splice_successor.
  destruct Hcases as [Heq|(q & qn & qr & Hq)].
  - (* the replacement is the right child *)
    simplify_eq. open_node n. open_node ln. open_node xn. open_node hn.
    fields Ha. fields Hla. fields Hh0. fields Hra.
    destruct (wf_chain s w a Hwf) as (k & Hk & Hkle).
    { eapply subtree_elem; [exact Hsub|]. apply elem_of_addrs_root. }
    pose proof (wf_fuel _ _ Hwf) as Hfw.
    destruct (shrink_sizes_chain _ _ _ _ Hk (mem s) (fuel_of (mem s)) (same_links_refl _))
      as (h1 & Hshr & Hs1); [lia|].
    destruct Hpar as [(Hrw & Hp)|(Hrw & tp & pn & Hp & Htp & Htph & Htps & Hside)];
      simplify_eq.
    + splice_at_root.
    + assert (tp ≠ a ∧ tp ≠ la ∧ tp ≠ x) as (Htpa & Htpla & Htpx).
      { split_and!; intros ->; apply Htps.
        - apply elem_of_addrs_root.
        - apply elem_of_addrs_left, elem_of_addrs_root.
        - by apply elem_of_addrs_right. }
      open_node pn. fields Htp.
      splice_below Hside.
  - (* the replacement lies deeper in the right subtree *)
    destruct (subtree_rep _ _ _ _ Hrr Hq) as (par' & Hrq).
    pose proof (subtree_NoDup _ _ Hq Hndr) as Hndq.
    destruct (NoDup_addrs_inv _ _ _ _ Hndq) as (Hndx & _ & Hqx & _ & _).
    destruct (NoDup_addrs_inv _ _ _ _ Hndx) as (_ & Hndxr & _ & Hxxr & _).
    cbn [rep root_of] in Hrq.
    destruct Hrq as (Hqq & _ & Hql & _ & (Hxx & Hxp & Hxl & Hxr & _ & Hrxr) & _).
    assert (q ∈ addrs (Br rl ra rn rr)) as Hqin.
    { eapply subtree_elem; [exact Hq|]. apply elem_of_addrs_root. }
    destruct (Hinr q Hqin) as (Hqh & Hqa & Hqw).
    assert (q ≠ la) as Hqla by (intros ->; by apply Hlar).
    assert (x ≠ q) as Hxq.
    { intros ->. apply Hqx, elem_of_addrs_root. }
    assert (x ≠ ra) as Hxra.
    { intros ->. rewrite Hra in Hxx. simplify_eq; congruence. }
    assert (∀ c, c ∈ addrs xr → c ≠ x ∧ c ≠ q ∧ c ≠ la ∧ c ≠ a ∧ c ≠ header s ∧
                               c ∈ addrs (Br rl ra rn rr)) as Hinx.
    { intros c Hc.
      assert (c ∈ addrs (Br rl ra rn rr)) as Hcr.
      { eapply subtree_elem; [exact Hq|]. by apply elem_of_addrs_left, elem_of_addrs_right. }
      destruct (Hinr c Hcr) as (? & ? & ?). split_and!; try done.
      - by intros ->.
      - intros ->. by apply Hqx, elem_of_addrs_right.
      - intros ->. by apply Hlar. }
    destruct (wf_chain s w q Hwf Hqw) as (k & Hk & Hkle).
    pose proof (wf_fuel _ _ Hwf) as Hfw.
    destruct (shrink_sizes_chain _ _ _ _ Hk (mem s) (fuel_of (mem s)) (same_links_refl _))
      as (h1 & Hshr & Hs1); [lia|].
    assert (∀ tp, (tp ∉ addrs (Br (Br ll la ln lr) a n (Br rl ra rn rr))) →
              tp ≠ a ∧ tp ≠ la ∧ tp ≠ x ∧ tp ≠ q ∧ tp ≠ ra) as Hout.
    { intros tp Htps. split_and!; intros ->; apply Htps.
      - apply elem_of_addrs_root.
      - apply elem_of_addrs_left, elem_of_addrs_root.
      - by apply elem_of_addrs_right.
      - by apply elem_of_addrs_right.
      - apply elem_of_addrs_right, elem_of_addrs_root. }
    open_node n. open_node ln. open_node xn. open_node hn. open_node qn. open_node rn.
    fields Ha. fields Hla. fields Hh0. fields Hra. fields Hxx. fields Hqq.
    destruct xr as [|cl c cn cr].
    + destruct Hpar as [(Hrw & Hp)|(Hrw & tp & pn & Hp & Htp & Htph & Htps & Hside)];
        simplify_eq.
      * splice_at_root.
      * destruct (Hout tp Htps) as (? & ? & ? & ? & ?).
        open_node pn. fields Htp.
        splice_below Hside.
    + cbn [rep] in Hrxr. destruct Hrxr as (Hcc & Hcp & _).
      destruct (Hinx c (elem_of_addrs_root _ _ _ _)) as (Hcx & Hcq & Hcla & Hca & Hch & Hcr).
      assert (c ≠ ra) as Hcra.
      { intros ->. rewrite Hra in Hcc. simplify_eq. cbn [parent] in Hcp. congruence. }
      open_node cn. fields Hcc.
      destruct Hpar as [(Hrw & Hp)|(Hrw & tp & pn & Hp & Htp & Htph & Htps & Hside)];
        simplify_eq.
      * splice_at_root.
      * destruct (Hout tp Htps) as (? & ? & ? & ? & ?).
        assert (tp ≠ c) by (intros ->; by apply Htps, elem_of_addrs_right).
        open_node pn. fields Htp.
        splice_below Hside.
Qed.

Lemma last_elem {A} (l : list A) d : l ≠ [] → List.last l d ∈ l.
Proof.
  induction l as [|x l IH]; [done|]. intros _. destruct l as [|y l]; [by left|].
  right. change (List.last (y :: l) d ∈ y :: l). by apply IH.
Qed.

Lemma splice_predecessor_spec (s : @sb_tree T) w l a n r :
  wf s w → Br l a n r ∈ subtrees w → l ≠ Leaf → r ≠ Leaf →
  ∃ h' p f,
    splice_predecessor (fuel_of (mem s)) (header s) (mem s) a =
      Some (h', List.last (addrs l) a, p, f) ∧
    takes_place s w a n (List.last (addrs l) a) h'.
Proof.
  intros Hwf Hsub Hl0 Hr0.
  destruct (node_facts s w l a n r Hwf Hsub)
    as (Ha & Hl & Hr & Hrl & Hrr & Hnd & Hhdr & Hfuel & Hpar).
  destruct (NoDup_addrs_inv _ _ _ _ Hnd) as (Hndl & Hndr & Hal & Har & Hlr).
  pose proof Hwf as [(hn & Hh0 & Hroot & _) _ _ _ _].
  assert (a ≠ header s) as Hah.
  { intros ->. apply Hhdr, elem_of_addrs_root. }
  assert (∀ b, b ∈ addrs l → b ≠ header s ∧ b ≠ a ∧ b ∈ addrs w) as Hinl.
  { intros b Hb. split_and!.
    - intros ->. by apply Hhdr, elem_of_addrs_left.
    - by intros ->.
    - eapply subtree_elem; [exact Hsub|]. by apply elem_of_addrs_left. }
  assert (∀ b, b ∈ addrs r → b ≠ header s ∧ b ≠ a ∧ (b ∉ addrs l)) as Hinr.
  { intros b Hb. split_and!.
    - intros ->. by apply Hhdr, elem_of_addrs_right.
    - by intros ->.
    - intros Hb'. by apply (Hlr b Hb'). }
  destruct l as [|ll la ln lr]; [done|]. destruct r as [|rl ra rn rr]; [done|].
  clear Hl0 Hr0. pose proof Hrl as (Hla & Hlap & _). pose proof Hrr as (Hra & Hrap & _).
  destruct (Hinl la (elem_of_addrs_root _ _ _ _)) as (Hlah & Hlaa & Hlaw).
  destruct (Hinr ra (elem_of_addrs_root _ _ _ _)) as (Hrah & Hraa & Hral).
  simpl in Hl, Hr.
  destruct (last_spine (Br ll la ln lr) a ltac:(done)) as (x & xn & xl & Hx & Hcases).
  rewrite Hx.
  assert (x ∈ addrs (Br ll la ln lr)) as Hxin.
  { rewrite <- Hx. apply last_elem. by apply addrs_nonempty. }
  destruct (Hinl x Hxin) as (Hxh & Hxa & Hxw).
  assert (x ≠ ra) as Hxra by (intros ->; by apply Hral).
  assert (la ≠ ra) as Hlara by (intros ->; apply Hral, elem_of_addrs_root).
  pose proof (rightmost_spec _ _ _ (fuel_of (mem s)) la Hrl eq_refl) as Hrm.
  rewrite (last_indep _ la a) in Hrm by (by apply addrs_nonempty).
  rewrite Hx in Hrm. specialize (Hrm ltac:(simpl in *; lia)). clear Hx.
  unfold takes_place, splice_predecessor.
  destruct Hcases as [Heq|(q & qn & ql & Hq)].
  - (* the replacement is the left child *)
    simplify_eq. open_node n. open_node rn. open_node xn. open_node hn.
    fields Ha. fields Hla. fields Hh0. fields Hra.
    destruct (wf_chain s w a Hwf) as (k & Hk & Hkle).
    { eapply subtree_elem; [exact Hsub|]. apply elem_of_addrs_root. }
    pose proof (wf_fuel _ _ Hwf) as Hfw.
    destruct (shrink_sizes_chain _ _ _ _ Hk (mem s) (fuel_of (mem s)) (same_links_refl _))
      as (h1 & Hshr & Hs1); [lia|].
    destruct Hpar as [(Hrw & Hp)|(Hrw & tp & pn & Hp & Htp & Htph & Htps & Hside)];
      simplify_eq.
    + splice_at_root.
    + assert (tp ≠ a ∧ tp ≠ ra ∧ tp ≠ x) as (Htpa & Htpra & Htpx).
      { split_and!; intros ->; apply Htps.
        - apply elem_of_addrs_root.
        - apply elem_of_addrs_right, elem_of_addrs_root.
        - by apply elem_of_addrs_left. }
      open_node pn. fields Htp.
      splice_below Hside.
  - (* the replacement lies deeper in the left subtree *)
    destruct (subtree_rep _ _ _ _ Hrl Hq) as (par' & Hrq).
    pose proof (subtree_NoDup _ _ Hq Hndl) as Hndq.
    destruct (NoDup_addrs_inv _ _ _ _ Hndq) as (_ & Hndx & _ & Hqx & _).
    destruct (NoDup_addrs_inv _ _ _ _ Hndx) as (Hndxl & _ & Hxxl & _ & _).
    cbn [rep root_of] in Hrq.
    destruct Hrq as (Hqq & _ & _ & Hqr & _ & (Hxx & Hxp & Hxl & Hxr & Hrxl & _)).
    assert (q ∈ addrs (Br ll la ln lr)) as Hqin.
    { eapply subtree_elem; [exact Hq|]. apply elem_of_addrs_root. }
    destruct (Hinl q Hqin) as (Hqh & Hqa & Hqw).
    assert (q ≠ ra) as Hqra by (intros ->; by apply Hral).
    assert (x ≠ q) as Hxq.
    { intros ->. apply Hqx, elem_of_addrs_root. }
    assert (x ≠ la) as Hxla.
    { intros ->. rewrite Hla in Hxx. simplify_eq; congruence. }
    assert (∀ c, c ∈ addrs xl → c ≠ x ∧ c ≠ q ∧ c ≠ ra ∧ c ≠ a ∧ c ≠ header s ∧
                               c ∈ addrs (Br ll la ln lr)) as Hinx.
    { intros c Hc.
      assert (c ∈ addrs (Br ll la ln lr)) as Hcl.
      { eapply subtree_elem; [exact Hq|]. by apply elem_of_addrs_right, elem_of_addrs_left. }
      destruct (Hinl c Hcl) as (? & ? & ?). split_and!; try done.
      - by intros ->.
      - intros ->. by apply Hqx, elem_of_addrs_left.
      - intros ->. by apply Hral. }
    destruct (wf_chain s w q Hwf Hqw) as (k & Hk & Hkle).
    pose proof (wf_fuel _ _ Hwf) as Hfw.
    destruct (shrink_sizes_chain _ _ _ _ Hk (mem s) (fuel_of (mem s)) (same_links_refl _))
      as (h1 & Hshr & Hs1); [lia|].
    assert (∀ tp, (tp ∉ addrs (Br (Br ll la ln lr) a n (Br rl ra rn rr))) →
              tp ≠ a ∧ tp ≠ la ∧ tp ≠ x ∧ tp ≠ q ∧ tp ≠ ra) as Hout.
    { intros tp Htps. split_and!; intros ->; apply Htps.
      - apply elem_of_addrs_root.
      - apply elem_of_addrs_left, elem_of_addrs_root.
      - by apply elem_of_addrs_left.
      - by apply elem_of_addrs_left.
      - apply elem_of_addrs_right, elem_of_addrs_root. }
    open_node n. open_node ln. open_node xn. open_node hn. open_node qn. open_node rn.
    fields Ha. fields Hla. fields Hh0. fields Hra. fields Hxx. fields Hqq.
    destruct xl as [|cl c cn cr].
    + destruct Hpar as [(Hrw & Hp)|(Hrw & tp & pn & Hp & Htp & Htph & Htps & Hside)];
        simplify_eq.
      * splice_at_root.
      * destruct (Hout tp Htps) as (? & ? & ? & ? & ?).
        open_node pn. fields Htp.
        splice_below Hside.
    + cbn [rep] in Hrxl. destruct Hrxl as (Hcc & Hcp & _).
      destruct (Hinx c (elem_of_addrs_root _ _ _ _)) as (Hcx & Hcq & Hcra & Hca & Hch & Hcl).
      assert (c ≠ la) as Hcla.
      { intros ->. rewrite Hla in Hcc. simplify_eq. cbn [parent] in Hcp. congruence. }
      open_node cn. fields Hcc.
      destruct Hpar as [(Hrw & Hp)|(Hrw & tp & pn & Hp & Htp & Htph & Htps & Hside)];
        simplify_eq.
      * splice_at_root.
      * destruct (Hout tp Htps) as (? & ? & ? & ? & ?).
        assert (tp ≠ c) by (intros ->; by apply Htps, elem_of_addrs_left).
        open_node pn. fields Htp.
        splice_below Hside.
Qed.

(** C6, amended.  When [erase_node] removes a node [a] with two children,
    the node spliced into its place is the leftmost node of the right
    subtree when [size(left) < size(right)], and the rightmost node of
    the left subtree otherwise: the replacement comes from the side that
    is not the smaller one.  After the splice the replacement has the
    parent [a] had, and the link that led to [a] leads to it. *)
Theorem erase_replacement (s : @sb_tree T) w l a n r :
  wf s w → Br l a n r ∈ subtrees w → l ≠ Leaf → r ≠ Leaf →
  let x := if size_of l <? size_of r then hd a (addrs r) else List.last (addrs l) a in
  ∃ la ra h' p f,
    get_left (mem s) a = Some (Some la) ∧ get_right (mem s) a = Some (Some ra) ∧
    get_size (mem s) la = Some (size_of l) ∧ get_size (mem s) ra = Some (size_of r) ∧
    splice (fuel_of (mem s)) (header s) (mem s) a la ra = Some (h', x, p, f) ∧
    takes_place s w a n x h'.
Proof.
  intros Hwf Hsub Hl0 Hr0 x.
  destruct (node_facts s w l a n r Hwf Hsub) as (Ha & Hl & Hr & Hrl & Hrr & _).
  destruct (splice_successor_spec s w l a n r Hwf Hsub Hl0 Hr0) as (h1 & p1 & f1 & Hs1 & Ht1).
  destruct (splice_predecessor_spec s w l a n r Hwf Hsub Hl0 Hr0) as (h2 & p2 & f2 & Hs2 & Ht2).
  destruct l as [|ll la ln lr]; [done|]. destruct r as [|rl ra rn rr]; [done|].
  pose proof Hrl as (Hla & _). pose proof Hrr as (Hra & _).
  simpl in Hl, Hr. fields Ha. fields Hla. fields Hra.
  assert (get_left (mem s) a = Some (Some la)) as Hgl by congruence.
  assert (get_right (mem s) a = Some (Some ra)) as Hgr by congruence.
  unfold splice. subst x. cbn [size_of].
  destruct (size ln <? size rn) eqn:Hcmp.
  - exists la, ra, h1, p1, f1. split_and!; try done. hread. by rewrite Hcmp.
  - exists la, ra, h2, p2, f2. split_and!; try done. hread. by rewrite Hcmp.
Qed.

(** * The in-order iterator on a well-formed tree *)

Lemma wf_card_lt (s : @sb_tree T) t : wf s t → (card t < base.size (mem s))%nat.
Proof.
  intros [(hn & Hh & _) Hrep Hnd _ _].
  assert (length (header s :: addrs t) ≤ base.size (mem s))%nat as Hle.
  { rewrite <- size_dom.
    rewrite <- (size_list_to_set (C := gset ptr) (header s :: addrs t)) by done.
    apply subseteq_size. intros a Ha. apply elem_of_list_to_set in Ha. apply elem_of_dom.
    apply elem_of_cons in Ha as [->|Ha]; [by eexists|]. by eapply rep_lookup. }
  simpl in Hle. rewrite length_addrs in Hle. lia.
Qed.

Lemma climb_from_right_mono h : ∀ f f' node p res,
  climb_from_right f h node p = Some res → (f ≤ f')%nat →
  climb_from_right f' h node p = Some res.
Proof.
  induction f as [|f IH]; intros f' node p res Hc Hle; [done|].
  destruct f' as [|f']; [lia|]. simpl in *.
  destruct (get_right h p) as [pr|]; [|done].
  case_decide; [|done].
  destruct (get_parent h p) as [pp|]; [|done]. unfold nonnull in *.
  destruct pp as [q|]; [|done]. apply IH; [done|lia].
Qed.

Lemma climb_from_left_mono h : ∀ f f' node p res,
  climb_from_left f h node p = Some res → (f ≤ f')%nat →
  climb_from_left f' h node p = Some res.
Proof.
  induction f as [|f IH]; intros f' node p res Hc Hle; [done|].
  destruct f' as [|f']; [lia|]. simpl in *.
  destruct (get_left h p) as [pr|]; [|done].
  case_decide; [|done].
  destruct (get_parent h p) as [pp|]; [|done]. unfold nonnull in *.
  destruct pp as [q|]; [|done]. apply IH; [done|lia].
Qed.

Lemma root_of_elem t a : root_of t = Some a → a ∈ addrs t.
Proof.
  destruct t as [|l b n r]; [done|]. simpl. intros [= ->].
  apply elem_of_app. right. by left.
Qed.

Lemma nth_app_cons_left {A} (l1 l2 : list A) x d i :
  (i < length l1)%nat → nth (S i) (l1 ++ x :: l2) d = nth (S i) l1 x.
Proof.
  intros Hi. destruct (decide (S i < length l1)%nat).
  - rewrite app_nth1 by done. by apply nth_indep.
  - rewrite app_nth2 by lia. rewrite (nth_overflow l1) by lia.
    by replace (S i - length l1)%nat with O by lia.
Qed.

Lemma nth_app_cons_right {A} (l1 l2 : list A) x d i :
  nth (length l1 + S i) (l1 ++ x :: l2) d = nth i l2 d.
Proof.
  rewrite app_nth2 by lia. by replace (length l1 + S i - length l1)%nat with (S i) by lia.
Qed.

(** [operator++] inside a subtree: every node but the last moves to the
    next node of the subtree; the last one climbs out of the subtree,
    to wherever the climb from the subtree's root ends. *)
Lemma increment_subtree h t : ∀ par nxt f,
  rep h (Some par) t → NoDup (addrs t) → par ∉ addrs t →
  (∀ a, root_of t = Some a →
     ∃ node p nr, climb_from_right f h a par = Some (node, p) ∧
       get_right h node = Some nr ∧ (if decide (nr = Some p) then node else p) = nxt) →
  (f + height t ≤ fuel_of h)%nat →
  ∀ i x, addrs t !! i = Some x → increment h x = Some (nth (S i) (addrs t) nxt).
Proof.
  induction t as [|l IHl a n r IHr]; intros par nxt f Hrep Hnd Hpar Hclimb Hfuel i x Hx; [done|].
  simpl in Hrep. destruct Hrep as (Ha & Hp & Hl & Hr & Hrl & Hrr).
  simpl in Hnd, Hpar, Hfuel, Hx.
  apply NoDup_app in Hnd as (Hndl & Hlr & Hnd').
  apply NoDup_cons in Hnd' as (Har & Hndr).
  assert (a ∉ addrs l) as Hal.
  { intros Hin. apply (Hlr a Hin). by left. }
  destruct (Hclimb a eq_refl) as (node & p & nr & Hc & Hnr & Hres).
  destruct (decide (i < card l)%nat) as [Hlt|Hge].
  - rewrite lookup_app_l in Hx by (rewrite length_addrs; lia).
    rewrite (IHl a a 1%nat Hrl Hndl Hal) with (i := i); [| |lia|done].
    + simpl. f_equal. symmetry. apply nth_app_cons_left. rewrite length_addrs. lia.
    + intros b Hb. exists b, a.
      assert (b ∈ addrs l) as Hbl by (by apply root_of_elem).
      destruct (rep_lookup _ _ _ _ Hrl Hbl) as (bn & Hbn).
      exists (right bn). simpl. unfold get_right at 1. rewrite Ha. simpl.
      rewrite decide_False.
      2:{ rewrite Hr. intros Heq. symmetry in Heq. apply root_of_elem in Heq.
          apply (Hlr b Hbl). by right. }
      split; [done|]. unfold get_right. rewrite Hbn. simpl. split; [done|].
      rewrite decide_False; [done|].
      destruct l as [|ll lb ln lr]; [done|]. simpl in Hb, Hrl. simplify_eq.
      destruct Hrl as (Hb' & _ & _ & Hrr' & _). simplify_eq. rewrite Hrr'.
      intros Heq. apply root_of_elem in Heq. apply Hal. simpl.
      apply elem_of_app. right. by right.
  - rewrite lookup_app_r in Hx by (rewrite length_addrs; lia).
    rewrite length_addrs in Hx.
    destruct (i - card l)%nat as [|j] eqn:Hj; simpl in Hx.
    + simplify_eq. replace i with (card l) by lia.
      assert (get_right h x = Some (root_of r)) as Hgr.
      { unfold get_right. rewrite Ha. simpl. by rewrite Hr. }
      assert (get_parent h x = Some (Some par)) as Hgp.
      { unfold get_parent. rewrite Ha. simpl. by rewrite Hp. }
      unfold increment. rewrite Hgr. cbv beta iota.
      destruct r as [|rl rb rn rr].
      * cbn [root_of]. rewrite Hgp. unfold nonnull. cbv beta iota.
        rewrite (climb_from_right_mono _ _ _ _ _ _ Hc) by lia. cbv beta iota.
        rewrite Hnr. cbv beta iota.
        rewrite nth_overflow by (rewrite length_addrs; simpl; lia).
        by case_decide.
      * cbn [root_of]. rewrite (leftmost_spec _ _ _ _ _ Hrr eq_refl) by (simpl in *; lia).
        f_equal. cbn [addrs]. rewrite <- (length_addrs l).
        replace (S (length (addrs l))) with (length (addrs l) + 1)%nat by lia.
        rewrite app_nth2 by lia.
        replace (length (addrs l) + 1 - length (addrs l))%nat with 1%nat by lia.
        simpl. by destruct (addrs rl).
    + rewrite (IHr a nxt (S f) Hrr Hndr Har) with (i := j); [| |lia|done].
      * f_equal. replace (S i) with (length (addrs l) + S (S j))%nat
          by (rewrite length_addrs; lia).
        cbn [addrs]. by rewrite nth_app_cons_right.
      * intros b Hb. exists node, p, nr. split; [|done].
        simpl. unfold get_right at 1. rewrite Ha. simpl. rewrite Hr, Hb.
        rewrite decide_True by done. unfold get_parent. rewrite Ha. simpl. rewrite Hp.
        by unfold nonnull.
Qed.

(** [begin()] is the first node of the in-order listing, and
    [operator++] moves from the node at position [i] to the node at
    position [i + 1], from the last node to [end()]. *)
Theorem increment_successor (s : @sb_tree T) t :
  wf s t →
  begin_ s = Some (nth 0 (addrs t) (end_ s)) ∧
  ∀ i a, addrs t !! i = Some a → increment (mem s) a = Some (nth (S i) (addrs t) (end_ s)).
Proof.
  intros Hwf. pose proof (wf_card_lt _ _ Hwf) as Hcard.
  pose proof (height_le_card t) as Hh.
  destruct Hwf as [(hn & Hhd & Hp & Hl & Hr & _) Hrep Hnd _ _].
  apply NoDup_cons in Hnd as (Hhdr & Hnd). split.
  - unfold begin_, get_left. rewrite Hhd. simpl. rewrite Hl. unfold nonnull, end_.
    by destruct (addrs t).
  - intros i a Hi. unfold end_.
    apply (increment_subtree (mem s) t (header s) (header s) 2%nat Hrep Hnd Hhdr);
      [|unfold fuel_of; lia|done].
    intros b Hb. destruct t as [|l b' n r]; [done|]. simpl in Hb. simplify_eq.
    simpl in Hrep. destruct Hrep as (Hbn & _ & _ & Hbr & _).
    assert (get_right (mem s) (header s) =
            Some (Some (List.last (addrs (Br l b n r)) (header s)))) as Hhr.
    { unfold get_right. rewrite Hhd. simpl. by rewrite Hr. }
    assert (get_right (mem s) b = Some (root_of r)) as Hgr.
    { unfold get_right. rewrite Hbn. simpl. by rewrite Hbr. }
    assert (root_of r ≠ Some (header s)) as Hne.
    { intros Heq. apply root_of_elem in Heq. apply Hhdr. simpl.
      apply elem_of_app. right. by right. }
    cbn [climb_from_right]. rewrite Hhr. cbv beta iota.
    destruct (decide (Some b = Some (List.last (addrs (Br l b n r)) (header s)))) as [Heq|Hneq].
    + exists (header s), b, (Some (List.last (addrs (Br l b n r)) (header s))).
      unfold get_parent. rewrite Hhd. simpl. rewrite Hp. unfold nonnull. simpl.
      rewrite Hgr. cbv beta iota. rewrite decide_False by (intros ?; by apply Hne).
      split; [done|]. split; [done|]. by rewrite decide_True.
    + exists b, (header s), (root_of r). split; [done|]. split; [done|].
      by rewrite decide_False.
Qed.

Lemma last_as_nth {A} (l : list A) d : List.last l d = nth (length l - 1) l d.
Proof.
  induction l as [|x l IH]; [done|]. destruct l as [|y l]; [done|].
  change (List.last (y :: l) d = nth (length l) (y :: l) d).
  rewrite IH. simpl. by rewrite Nat.sub_0_r.
Qed.

(** [operator--] inside a subtree whose root does not pass the test
    meant for the header: every node but the first moves to the previous
    node of the subtree; the first one climbs out of the subtree. *)
Lemma decrement_subtree h t : ∀ par prv f,
  rep h (Some par) t → NoDup (addrs t) → par ∉ addrs t →
  (∃ g, get_parent h par = Some g ∧ ∀ a, root_of t = Some a → g ≠ Some a) →
  (∀ a, root_of t = Some a → ∃ node, climb_from_left f h a par = Some (node, prv)) →
  (f + height t ≤ fuel_of h)%nat →
  ∀ i x, addrs t !! i = Some x →
    decrement h x = Some (Some (match i with O => prv | S j => nth j (addrs t) prv end)).
Proof.
  induction t as [|l IHl a n r IHr];
    intros par prv f Hrep Hnd Hpar (g & Hg & Hga) Hclimb Hfuel i x Hx; [done|].
  simpl in Hrep. destruct Hrep as (Ha & Hp & Hl & Hr & Hrl & Hrr).
  simpl in Hnd, Hpar, Hfuel, Hx.
  apply NoDup_app in Hnd as (Hndl & Hlr & Hnd').
  apply NoDup_cons in Hnd' as (Har & Hndr).
  assert (a ∉ addrs l) as Hal.
  { intros Hin. apply (Hlr a Hin). by left. }
  destruct (Hclimb a eq_refl) as (node & Hc).
  assert (get_parent h a = Some (Some par)) as Hgp.
  { unfold get_parent. rewrite Ha. simpl. by rewrite Hp. }
  assert (get_left h a = Some (root_of l)) as Hgl.
  { unfold get_left. rewrite Ha. simpl. by rewrite Hl. }
  destruct (decide (i < card l)%nat) as [Hlt|Hge].
  - rewrite lookup_app_l in Hx by (rewrite length_addrs; lia).
    rewrite (IHl a prv (S f) Hrl Hndl Hal) with (i := i); [| | |lia|done].
    + do 2 f_equal. destruct i as [|j]; [done|]. cbn [addrs].
      rewrite app_nth1 by (rewrite length_addrs; lia). done.
    + exists (Some par). split; [done|]. intros b Hb [= ->].
      apply root_of_elem in Hb. apply Hpar. apply elem_of_app. by left.
    + intros b Hb. exists node. cbn [climb_from_left]. rewrite Hgl. cbv beta iota.
      rewrite Hb. rewrite decide_True by done. rewrite Hgp. by unfold nonnull.
  - rewrite lookup_app_r in Hx by (rewrite length_addrs; lia).
    rewrite length_addrs in Hx.
    destruct (i - card l)%nat as [|j] eqn:Hj; simpl in Hx.
    + simplify_eq. replace i with (card l) by lia.
      unfold decrement. rewrite Hgp. cbv beta iota. rewrite Hg. cbv beta iota.
      rewrite bool_decide_eq_false_2 by (by apply Hga). rewrite Hgl. cbv beta iota.
      destruct l as [|ll lb ln lr].
      * cbn [root_of card]. unfold nonnull. cbv beta iota.
        rewrite (climb_from_left_mono _ _ _ _ _ _ Hc) by lia. done.
      * cbn [root_of]. rewrite (rightmost_spec _ _ _ _ _ Hrl eq_refl) by (simpl in *; lia).
        do 2 f_equal. rewrite last_as_nth. rewrite length_addrs.
        set (L := Br ll lb ln lr) in *.
        assert (∃ k, card L = S k) as [k Hk] by (eexists; reflexivity).
        rewrite Hk. replace (S k - 1)%nat with k by lia. cbn [addrs].
        rewrite app_nth1 by (rewrite length_addrs; lia).
        apply nth_indep. rewrite length_addrs. lia.
    + rewrite (IHr a a 1%nat Hrr Hndr Har) with (i := j); [| | |lia|done].
      * do 2 f_equal. replace i with (S (card l + j)) by lia. cbn [addrs].
        rewrite <- (length_addrs l). rewrite app_nth2 by lia.
        replace (length (addrs l) + j - length (addrs l))%nat with j by lia.
        destruct j as [|k]; [done|]. simpl. apply nth_indep.
        apply lookup_lt_Some in Hx. simpl in Hx. lia.
      * exists (Some par). split; [done|]. intros b Hb [= ->].
        apply root_of_elem in Hb. apply Hpar. apply elem_of_app. right. by right.
      * intros b Hb. exists b. cbn [climb_from_left]. rewrite Hgl. cbv beta iota.
        rewrite decide_False; [done|].
        intros Heq. symmetry in Heq. apply root_of_elem in Heq.
        apply root_of_elem in Hb. apply (Hlr b Heq). by right.
Qed.

(** Away from the root, [operator--] moves from the node at position
    [i + 1] to the node at position [i]; from the first node it moves to
    [end()]; and from [end()] of a non-empty tree to the last node. *)
Theorem decrement_predecessor (s : @sb_tree T) t :
  wf s t →
  (∀ i a, addrs t !! i = Some a → root_of t ≠ Some a →
     decrement (mem s) a =
       Some (Some (match i with O => end_ s | S j => nth j (addrs t) (end_ s) end))) ∧
  (t ≠ Leaf → decrement (mem s) (end_ s) = Some (Some (List.last (addrs t) (end_ s)))).
Proof.
  intros Hwf. split; [|by apply decrement_end].
  pose proof (wf_card_lt _ _ Hwf) as Hcard.
  destruct Hwf as [(hn & Hhd & Hp & Hl & _) Hrep Hnd _ _].
  apply NoDup_cons in Hnd as (Hhdr & Hnd).
  intros i a Hi Hroot. unfold end_.
  destruct t as [|l b n r]; [done|].
  simpl in Hrep. destruct Hrep as (Hbn & Hbp & Hbl & Hbr & Hrl & Hrr).
  simpl in Hnd, Hhdr, Hi, Hp, Hl.
  pose proof (height_le_card l) as Hhl. pose proof (height_le_card r) as Hhr.
  simpl in Hcard.
  apply NoDup_app in Hnd as (Hndl & Hlr & Hnd').
  apply NoDup_cons in Hnd' as (Hbr' & Hndr).
  assert (b ∉ addrs l) as Hbl'.
  { intros Hin. apply (Hlr b Hin). by left. }
  assert (get_parent (mem s) b = Some (Some (header s))) as Hgp.
  { unfold get_parent. rewrite Hbn. simpl. by rewrite Hbp. }
  assert (get_left (mem s) b = Some (root_of l)) as Hgl.
  { unfold get_left. rewrite Hbn. simpl. by rewrite Hbl. }
  destruct (decide (i < card l)%nat) as [Hlt|Hge].
  - rewrite lookup_app_l in Hi by (rewrite length_addrs; lia).
    rewrite (decrement_subtree (mem s) l b (header s) 2%nat Hrl Hndl Hbl') with (i := i);
      [| | |unfold fuel_of; lia|done].
    + do 2 f_equal. destruct i as [|j]; [done|]. cbn [addrs].
      rewrite app_nth1 by (rewrite length_addrs; lia). done.
    + exists (Some (header s)). split; [done|]. intros c Hc [= <-].
      apply root_of_elem in Hc. apply Hhdr. apply elem_of_app. by left.
    + intros c Hc. exists b. cbn [climb_from_left]. rewrite Hgl. cbv beta iota.
      rewrite Hc. rewrite decide_True by done. rewrite Hgp. unfold nonnull. cbv beta iota.
      unfold get_left at 1. rewrite Hhd. simpl. rewrite Hl.
      rewrite decide_False; [done|]. intros [= Heq]. apply Hbl'.
      rewrite Heq. apply root_of_elem in Hc.
      destruct (addrs l) as [|y ys] eqn:E; [by apply elem_of_nil in Hc|]. simpl. by left.
  - rewrite lookup_app_r in Hi by (rewrite length_addrs; lia).
    rewrite length_addrs in Hi.
    destruct (i - card l)%nat as [|j] eqn:Hj; simpl in Hi.
    + exfalso. apply Hroot. simpl. congruence.
    + rewrite (decrement_subtree (mem s) r b b 1%nat Hrr Hndr Hbr') with (i := j);
        [| | |unfold fuel_of; lia|done].
      * do 2 f_equal. replace i with (S (card l + j)) by lia. cbn [addrs].
        rewrite <- (length_addrs l). rewrite app_nth2 by lia.
        replace (length (addrs l) + j - length (addrs l))%nat with j by lia.
        destruct j as [|k]; [done|]. simpl. apply nth_indep.
        apply lookup_lt_Some in Hi. simpl in Hi. lia.
      * exists (Some (header s)). split; [done|]. intros c Hc [= <-].
        apply root_of_elem in Hc. apply Hhdr. apply elem_of_app. right. by right.
      * intros c Hc. exists c. cbn [climb_from_left]. rewrite Hgl. cbv beta iota.
        rewrite decide_False; [done|].
        intros Heq. symmetry in Heq. apply root_of_elem in Heq.
        apply root_of_elem in Hc. apply (Hlr c Heq). by right.
Qed.

(** [leftmost(t)] and [rightmost(t)] are the first and the last node,
    in in-order, of the subtree rooted at [t]; at the root they are the
    nodes that [begin()] and [--end()] name. *)
Theorem leftmost_rightmost_ends (s : @sb_tree T) w l a n r :
  wf s w → Br l a n r ∈ subtrees w →
  leftmost (fuel_of (mem s)) (mem s) a = Some (hd a (addrs (Br l a n r))) ∧
  rightmost (fuel_of (mem s)) (mem s) a = Some (List.last (addrs (Br l a n r)) a).
Proof.
  intros Hwf Hsub. pose proof (wf_fuel _ _ Hwf) as Hfuel.
  pose proof (subtree_height _ _ Hsub) as Hh.
  destruct Hwf as [_ Hrep _ _ _].
  destruct (subtree_rep _ _ _ _ Hrep Hsub) as (par & Hreps).
  split.
  - apply (leftmost_spec _ _ _ _ _ Hreps eq_refl). lia.
  - apply (rightmost_spec _ _ _ _ _ Hreps eq_refl). lia.
Qed.

(** * Rotations *)

Lemma cell_of_fields h q v1 v2 v3 v4 (v5 : T) :
  get_parent h q = Some v1 → get_left h q = Some v2 → get_right h q = Some v3 →
  get_size h q = Some v4 → get_data h q = Some v5 →
  h !! q = Some (Node v1 v2 v3 v4 v5).
Proof.
  unfold get_parent, get_left, get_right, get_size, get_data.
  destruct (h !! q) as [[? ? ? ? ?]|]; simpl; intros; by simplify_eq.
Qed.

Lemma cell_unchanged h h' q :
  get_parent h' q = get_parent h q → get_left h' q = get_left h q →
  get_right h' q = get_right h q → get_size h' q = get_size h q →
  get_data h' q = get_data h q →
  h' !! q = h !! q.
Proof.
  unfold get_parent, get_left, get_right, get_size, get_data.
  destruct (h !! q) as [[? ? ? ? ?]|], (h' !! q) as [[? ? ? ? ?]|];
    simpl; intros; by simplify_eq.
Qed.

Lemma subtree_sized w t : sized w → t ∈ subtrees w → sized t.
Proof.
  induction w as [|l IHl a n r IHr]; intros Hsz Hin.
  - apply list_elem_of_singleton in Hin. by subst.
  - cbn [subtrees] in Hin. apply elem_of_cons in Hin as [->|Hin]; [done|].
    destruct Hsz as (_ & Hl & Hr).
    apply elem_of_app in Hin as [Hin|Hin]; [by apply IHl|by apply IHr].
Qed.

Lemma subtree_card w t : t ∈ subtrees w → (card t ≤ card w)%nat.
Proof.
  intros Hin. destruct (subtree_addrs _ _ Hin) as (pre & post & Heq).
  rewrite <- !length_addrs, Heq, !length_app. lia.
Qed.

(** The symbolic run of a rotation, and the description of a cell of
    the resulting heap by its five fields. *)
Ltac rotate_run :=
  hrun; unfold relink_left_first, relink_right_first; hrun;
  unfold recompute_size, size_or_zero; hrun.

Ltac cell_known := apply cell_of_fields; hread; done.
Ltac cell_same := apply cell_unchanged; hread; done.

(** The cells of the heap after [left_rotate(a)], where [b] is the
    right child of [a]: first for a subtree anywhere in a heap, told
    where it hangs, then for a node of a well-formed container. *)
Lemma left_rotate_cells_at (hdr : ptr) h (hn : @node T) l a n rl b m rr :
  h !! hdr = Some hn →
  h !! a = Some n → left n = root_of l → right n = Some b →
  rep h (Some a) l → rep h (Some a) (Br rl b m rr) →
  NoDup (addrs (Br l a n (Br rl b m rr))) →
  (hdr ∉ addrs (Br l a n (Br rl b m rr))) →
  sized l → sized rl → Z.of_nat (card l + card rl + 1) <= size_max →
  ((parent hn = Some a ∧ parent n = Some hdr) ∨
   (parent hn ≠ Some a ∧ ∃ tp pn, parent n = Some tp ∧ h !! tp = Some pn ∧
      tp ≠ hdr ∧ (tp ∉ addrs (Br l a n (Br rl b m rr))) ∧
      (left pn = Some a ∨ (left pn ≠ Some a ∧ right pn = Some a)))) →
  ∃ h', left_rotate hdr h a = Some (h', b) ∧
    h' !! a = Some (Node (Some b) (left n) (root_of rl)
                      (size_of l + size_of rl + 1) (data n)) ∧
    h' !! b = Some (Node (parent n) (Some a) (right m) (size n) (data m)) ∧
    (∀ c cn, root_of rl = Some c → h !! c = Some cn →
       h' !! c = Some (with_parent cn (Some a))) ∧
    (∀ p pn, parent n = Some p → h !! p = Some pn →
       h' !! p = Some (if decide (p = hdr) then with_parent pn (Some b)
                       else if decide (left pn = Some a) then with_left pn (Some b)
                       else with_right pn (Some b))) ∧
    (∀ q, q ≠ a → q ≠ b → Some q ≠ root_of rl → Some q ≠ parent n →
       h' !! q = h !! q).
Proof.
  intros Hh0 Ha Hl Hr Hrl Hrr Hnd Hhdr Hszl Hszrl Hcard Hpar.
  destruct (NoDup_addrs_inv _ _ _ _ Hnd) as (Hndl & Hndr & Hal & Har & Hlr).
  destruct (NoDup_addrs_inv _ _ _ _ Hndr) as (Hndrl & Hndrr & Hbrl & Hbrr & Hrlrr).
  apply sized_size_of in Hszl, Hszrl.
  assert (wrap64 (wrap64 (size_of l + size_of rl) + 1) = size_of l + size_of rl + 1) as Hwrap.
  { rewrite Hszl, Hszrl.
    rewrite (wrap64_small (Z.of_nat (card l) + Z.of_nat (card rl))) by lia.
    by rewrite wrap64_small by lia. }
  assert (a ≠ hdr) as Hah.
  { intros ->. apply Hhdr, elem_of_addrs_root. }
  assert (b ≠ hdr) as Hbh.
  { intros ->. apply Hhdr, elem_of_addrs_right, elem_of_addrs_root. }
  assert (b ≠ a) as Hba.
  { intros ->. apply Har, elem_of_addrs_root. }
  assert (∀ tp, (tp ∉ addrs (Br l a n (Br rl b m rr))) →
            tp ≠ a ∧ tp ≠ b ∧ Some tp ≠ root_of l ∧ Some tp ≠ root_of rl) as Hout.
  { intros tp Htps. split_and!.
    - intros ->. apply Htps, elem_of_addrs_root.
    - intros ->. apply Htps, elem_of_addrs_right, elem_of_addrs_root.
    - intros Heq. symmetry in Heq. apply elem_of_addrs_root_of in Heq.
      by apply Htps, elem_of_addrs_left.
    - intros Heq. symmetry in Heq. apply elem_of_addrs_root_of in Heq.
      by apply Htps, elem_of_addrs_right, elem_of_addrs_left. }
  assert (Some (hdr) ≠ root_of l ∧ Some (hdr) ≠ root_of rl) as (Hhl & Hhrl).
  { destruct (Hout _ Hhdr) as (_ & _ & ? & ?). done. }
  assert (Some a ≠ root_of l ∧ Some b ≠ root_of l ∧ Some a ≠ root_of rl ∧
          Some b ≠ root_of rl ∧ (∀ c, Some c = root_of rl → Some c ≠ root_of l))
    as (Hal' & Hbl' & Harl' & Hbrl' & Hlrl').
  { split_and!.
    - intros Heq. symmetry in Heq. by apply elem_of_addrs_root_of in Heq.
    - intros Heq. symmetry in Heq. apply elem_of_addrs_root_of in Heq.
      apply (Hlr _ Heq), elem_of_addrs_root.
    - intros Heq. symmetry in Heq. apply elem_of_addrs_root_of in Heq.
      by apply Har, elem_of_addrs_left.
    - intros Heq. symmetry in Heq. by apply elem_of_addrs_root_of in Heq.
    - intros c Hc Heq. symmetry in Hc, Heq. apply elem_of_addrs_root_of in Hc, Heq.
      by apply (Hlr _ Heq), elem_of_addrs_left. }
  cbn [rep root_of] in Hrr. destruct Hrr as (Hb & Hbp & Hbl & Hbr & Hrrl & Hrrr).
  open_node n. open_node m. open_node hn. fields Ha. fields Hb. fields Hh0.
  unfold left_rotate.
  destruct l as [|ll la ln lr];
    [|destruct Hrl as (Hla & _); open_node ln; fields Hla];
    (destruct rl as [|rll c cn rlr];
      [|destruct Hrrl as (Hc & _); open_node cn; fields Hc]);
    cbn [root_of size_of] in *;
    (destruct Hpar as [(Hrw & Hp)|(Hrw & tp & pn & Hp & Htp & Htph & Htps & Hside)];
      simplify_eq;
      [|destruct (Hout tp Htps) as (? & ? & ? & ?); open_node pn; fields Htp;
        destruct Hside as [Hside|[? ?]]; simplify_eq]);
    rotate_run.
  all: repeat match goal with
       | E : get_size ?h _ = Some ?ts |- _ => is_var ts; revert E; hread; intros [= <-]
       end.
  all: cbn [parent left right size data] in *.
  all: eexists; (split; [reflexivity|]); split_and!.
  all: try (apply cell_of_fields; hread; rewrite ?Hwrap; done).
  all: try (intros ? ? ? ?; simplify_eq;
            cbn [parent left right size data];
            repeat first [rewrite decide_True by done | rewrite decide_False by done];
            unfold with_parent, with_left, with_right;
            cbn [parent left right size data];
            apply cell_of_fields; hread; done).
  all: intros q ? ? ? ?; apply cell_unchanged; hread; done.
Qed.


Lemma left_rotate_cells (s : @sb_tree T) w l a n rl b m rr :
  wf s w → Br l a n (Br rl b m rr) ∈ subtrees w →
  ∃ h', left_rotate (header s) (mem s) a = Some (h', b) ∧
    h' !! a = Some (Node (Some b) (left n) (root_of rl)
                      (size_of l + size_of rl + 1) (data n)) ∧
    h' !! b = Some (Node (parent n) (Some a) (right m) (size n) (data m)) ∧
    (∀ c cn, root_of rl = Some c → mem s !! c = Some cn →
       h' !! c = Some (with_parent cn (Some a))) ∧
    (∀ p pn, parent n = Some p → mem s !! p = Some pn →
       h' !! p = Some (if decide (p = header s) then with_parent pn (Some b)
                       else if decide (left pn = Some a) then with_left pn (Some b)
                       else with_right pn (Some b))) ∧
    (∀ q, q ≠ a → q ≠ b → Some q ≠ root_of rl → Some q ≠ parent n →
       h' !! q = mem s !! q).
Proof.
  intros Hwf Hsub.
  destruct (node_facts s w l a n _ Hwf Hsub)
    as (Ha & Hl & Hr & Hrl & Hrr & Hnd & Hhdr & Hfuel & Hpar).
  pose proof Hwf as [(hn & Hh0 & Hroot & _) _ _ Hsz Hfit].
  pose proof (subtree_sized _ _ Hsz Hsub) as (Hna & Hszl & _ & Hszrl & _).
  pose proof (subtree_card _ _ Hsub) as Hcard. cbn [card] in Hcard.
  apply (left_rotate_cells_at (header s) (mem s) hn l a n rl b m rr); try done.
  - lia.
  - rewrite Hroot. destruct Hpar as [Hpar|Hpar]; [by left|by right].
Qed.

(** A node is not both the left and the right child of its parent. *)
Lemma parent_side (s : @sb_tree T) w l a n r tp pn :
  wf s w → Br l a n r ∈ subtrees w →
  parent n = Some tp → mem s !! tp = Some pn → tp ≠ header s →
  ¬ (left pn = Some a ∧ right pn = Some a).
Proof.
  intros Hwf Hsub Hp Htp Hne [Hl Hr].
  destruct Hwf as [_ Hrep Hnd _ _].
  apply NoDup_cons in Hnd as [Hhdr Hnd].
  destruct (subtree_parent _ _ Hsub) as [Heq|(tl & tp' & pn' & tr & Hpsub & Hc)].
  - subst w. simpl in Hrep. destruct Hrep as (_ & Hpa & _). congruence.
  - destruct (subtree_rep _ _ _ _ Hrep Hpsub) as (par2 & Hrepp).
    pose proof (subtree_NoDup _ _ Hpsub Hnd) as Hndp.
    destruct (NoDup_addrs_inv _ _ _ _ Hndp) as (_ & _ & _ & _ & Hlr).
    cbn [rep] in Hrepp. destruct Hrepp as (Htp' & _ & Hpl & Hpr & Hrpl & Hrpr).
    assert (tp' = tp) as ->.
    { destruct Hc as [->| ->]; cbn [rep] in Hrpl, Hrpr.
      - destruct Hrpl as (_ & Hpa & _). congruence.
      - destruct Hrpr as (_ & Hpa & _). congruence. }
    assert (pn' = pn) as -> by congruence.
    rewrite Hpl in Hl. rewrite Hpr in Hr.
    apply elem_of_addrs_root_of in Hl, Hr. by apply (Hlr a).
Qed.

(** The cells of the heap after [right_rotate(a)], where [b] is the
    left child of [a]. *)
Lemma right_rotate_cells_at (hdr : ptr) h (hn : @node T) ll b m lr a n r :
  h !! hdr = Some hn →
  h !! a = Some n → left n = Some b → right n = root_of r →
  rep h (Some a) (Br ll b m lr) → rep h (Some a) r →
  NoDup (addrs (Br (Br ll b m lr) a n r)) →
  (hdr ∉ addrs (Br (Br ll b m lr) a n r)) →
  sized lr → sized r → Z.of_nat (card lr + card r + 1) <= size_max →
  ((parent hn = Some a ∧ parent n = Some hdr) ∨
   (parent hn ≠ Some a ∧ ∃ tp pn, parent n = Some tp ∧ h !! tp = Some pn ∧
      tp ≠ hdr ∧ (tp ∉ addrs (Br (Br ll b m lr) a n r)) ∧
      (left pn = Some a ∨ (left pn ≠ Some a ∧ right pn = Some a)))) →
  (∀ tp pn, parent n = Some tp → h !! tp = Some pn → tp ≠ hdr →
     left pn = Some a → right pn ≠ Some a) →
  ∃ h', right_rotate hdr h a = Some (h', b) ∧
    h' !! a = Some (Node (Some b) (root_of lr) (right n)
                      (size_of lr + size_of r + 1) (data n)) ∧
    h' !! b = Some (Node (parent n) (left m) (Some a) (size n) (data m)) ∧
    (∀ c cn, root_of lr = Some c → h !! c = Some cn →
       h' !! c = Some (with_parent cn (Some a))) ∧
    (∀ p pn, parent n = Some p → h !! p = Some pn →
       h' !! p = Some (if decide (p = hdr) then with_parent pn (Some b)
                       else if decide (right pn = Some a) then with_right pn (Some b)
                       else with_left pn (Some b))) ∧
    (∀ q, q ≠ a → q ≠ b → Some q ≠ root_of lr → Some q ≠ parent n →
       h' !! q = h !! q).
Proof.
  intros Hh0 Ha Hl Hr Hrl Hrr Hnd Hhdr Hszlr Hszr Hcard Hpar Hone.
  destruct (NoDup_addrs_inv _ _ _ _ Hnd) as (Hndl & Hndr & Hal & Har & Hlr).
  destruct (NoDup_addrs_inv _ _ _ _ Hndl) as (Hndll & Hndlr & Hbll & Hblr & Hlllr).
  apply sized_size_of in Hszlr, Hszr.
  assert (wrap64 (wrap64 (size_of lr + size_of r) + 1) = size_of lr + size_of r + 1) as Hwrap.
  { rewrite Hszlr, Hszr.
    rewrite (wrap64_small (Z.of_nat (card lr) + Z.of_nat (card r))) by lia.
    by rewrite wrap64_small by lia. }
  assert (a ≠ hdr) as Hah.
  { intros ->. apply Hhdr, elem_of_addrs_root. }
  assert (b ≠ hdr) as Hbh.
  { intros ->. apply Hhdr, elem_of_addrs_left, elem_of_addrs_root. }
  assert (b ≠ a) as Hba.
  { intros ->. apply Hal, elem_of_addrs_root. }
  assert (∀ tp, (tp ∉ addrs (Br (Br ll b m lr) a n r)) →
            tp ≠ a ∧ tp ≠ b ∧ Some tp ≠ root_of r ∧ Some tp ≠ root_of lr) as Hout.
  { intros tp Htps. split_and!.
    - intros ->. apply Htps, elem_of_addrs_root.
    - intros ->. apply Htps, elem_of_addrs_left, elem_of_addrs_root.
    - intros Heq. symmetry in Heq. apply elem_of_addrs_root_of in Heq.
      by apply Htps, elem_of_addrs_right.
    - intros Heq. symmetry in Heq. apply elem_of_addrs_root_of in Heq.
      by apply Htps, elem_of_addrs_left, elem_of_addrs_right. }
  assert (Some (hdr) ≠ root_of r ∧ Some (hdr) ≠ root_of lr) as (Hhl & Hhrl).
  { destruct (Hout _ Hhdr) as (_ & _ & ? & ?). done. }
  assert (Some a ≠ root_of r ∧ Some b ≠ root_of r ∧ Some a ≠ root_of lr ∧
          Some b ≠ root_of lr ∧ (∀ c, Some c = root_of lr → Some c ≠ root_of r))
    as (Hal' & Hbl' & Harl' & Hbrl' & Hlrl').
  { split_and!.
    - intros Heq. symmetry in Heq. by apply elem_of_addrs_root_of in Heq.
    - intros Heq. symmetry in Heq. apply elem_of_addrs_root_of in Heq.
      apply (Hlr b); [apply elem_of_addrs_root|done].
    - intros Heq. symmetry in Heq. apply elem_of_addrs_root_of in Heq.
      by apply Hal, elem_of_addrs_right.
    - intros Heq. symmetry in Heq. by apply elem_of_addrs_root_of in Heq.
    - intros c Hc Heq. symmetry in Hc, Heq. apply elem_of_addrs_root_of in Hc, Heq.
      apply (Hlr c); [by apply elem_of_addrs_right|done]. }
  cbn [rep root_of] in Hrl. destruct Hrl as (Hb & Hbp & Hbl & Hbr & Hrll & Hrlr).
  open_node n. open_node m. open_node hn. fields Ha. fields Hb. fields Hh0.
  unfold right_rotate.
  destruct r as [|rl ra rn rr];
    [|destruct Hrr as (Hra & _); open_node rn; fields Hra];
    (destruct lr as [|lrl c cn lrr];
      [|destruct Hrlr as (Hc & _); open_node cn; fields Hc]);
    cbn [root_of size_of] in *;
    (destruct Hpar as [(Hrw & Hp)|(Hrw & tp & pn & Hp & Htp & Htph & Htps & Hside)];
      simplify_eq;
      [|destruct (Hout tp Htps) as (? & ? & ? & ?);
        pose proof (Hone tp pn eq_refl Htp Htph) as Hone';
        open_node pn; fields Htp;
        destruct Hside as [Hside|[? ?]]; simplify_eq;
        [specialize (Hone' eq_refl)|]]);
    rotate_run.
  all: repeat match goal with
       | E : get_size ?h _ = Some ?ts |- _ => is_var ts; revert E; hread; intros [= <-]
       end.
  all: cbn [parent left right size data] in *.
  all: eexists; (split; [reflexivity|]); split_and!.
  all: try (apply cell_of_fields; hread; rewrite ?Hwrap; done).
  all: try (intros ? ? ? ?; simplify_eq;
            cbn [parent left right size data];
            repeat first [rewrite decide_True by done | rewrite decide_False by done];
            unfold with_parent, with_left, with_right;
            cbn [parent left right size data];
            apply cell_of_fields; hread; done).
  all: intros q ? ? ? ?; apply cell_unchanged; hread; done.
Qed.


Lemma right_rotate_cells (s : @sb_tree T) w ll b m lr a n r :
  wf s w → Br (Br ll b m lr) a n r ∈ subtrees w →
  ∃ h', right_rotate (header s) (mem s) a = Some (h', b) ∧
    h' !! a = Some (Node (Some b) (root_of lr) (right n)
                      (size_of lr + size_of r + 1) (data n)) ∧
    h' !! b = Some (Node (parent n) (left m) (Some a) (size n) (data m)) ∧
    (∀ c cn, root_of lr = Some c → mem s !! c = Some cn →
       h' !! c = Some (with_parent cn (Some a))) ∧
    (∀ p pn, parent n = Some p → mem s !! p = Some pn →
       h' !! p = Some (if decide (p = header s) then with_parent pn (Some b)
                       else if decide (right pn = Some a) then with_right pn (Some b)
                       else with_left pn (Some b))) ∧
    (∀ q, q ≠ a → q ≠ b → Some q ≠ root_of lr → Some q ≠ parent n →
       h' !! q = mem s !! q).
Proof.
  intros Hwf Hsub.
  destruct (node_facts s w _ a n r Hwf Hsub)
    as (Ha & Hl & Hr & Hrl & Hrr & Hnd & Hhdr & Hfuel & Hpar).
  pose proof Hwf as [(hn & Hh0 & Hroot & _) _ _ Hsz Hfit].
  pose proof (subtree_sized _ _ Hsz Hsub) as (Hna & (_ & _ & Hszlr) & Hszr).
  pose proof (subtree_card _ _ Hsub) as Hcard. cbn [card] in Hcard.
  apply (right_rotate_cells_at (header s) (mem s) hn ll b m lr a n r); try done.
  - lia.
  - rewrite Hroot. destruct Hpar as [Hpar|Hpar]; [by left|by right].
  - intros tp pn H1 H2 H3 H4 H5.
    by apply (parent_side s w _ a n r tp pn Hwf Hsub H1 H2 H3).
Qed.

(** ** A change below one node, seen from the whole tree *)

Lemma addrs_refresh h t : addrs (refresh h t) = addrs t.
Proof. induction t as [|l IHl a n r IHr]; simpl; [done|]. by rewrite IHl, IHr. Qed.

Lemma card_refresh h t : card (refresh h t) = card t.
Proof. by rewrite <- !length_addrs, addrs_refresh. Qed.

Lemma root_of_refresh h t : root_of (refresh h t) = root_of t.
Proof. by destruct t. Qed.

Lemma refresh_id h h' par t :
  rep h par t → (∀ q, q ∈ addrs t → h' !! q = h !! q) → refresh h' t = t.
Proof.
  revert par. induction t as [|l IHl a n r IHr]; intros par Hrep Hsame; [done|].
  simpl in Hrep. destruct Hrep as (Ha & _ & _ & _ & Hl & Hr). simpl.
  rewrite (Hsame a (elem_of_addrs_root _ _ _ _)), Ha. simpl.
  rewrite (IHl _ Hl), (IHr _ Hr); [done| |].
  - intros q Hq. by apply Hsame, elem_of_addrs_right.
  - intros q Hq. by apply Hsame, elem_of_addrs_left.
Qed.

Lemma at_node_absent f a t : a ∉ addrs t → at_node f a t = t.
Proof.
  induction t as [|l IHl b n r IHr]; intros Hin; [done|]. simpl.
  rewrite decide_False.
  2:{ intros ->. apply Hin, elem_of_addrs_root. }
  rewrite IHl, IHr; [done| |].
  - intros Hr. by apply Hin, elem_of_addrs_right.
  - intros Hl. by apply Hin, elem_of_addrs_left.
Qed.

Lemma rep_parent_in h par t a n :
  rep h par t → a ∈ addrs t → h !! a = Some n →
  (root_of t = Some a ∧ parent n = par) ∨ (∃ p, parent n = Some p ∧ p ∈ addrs t).
Proof.
  revert par. induction t as [|l IHl b m r IHr]; intros par Hrep Hin Ha.
  - by apply elem_of_nil in Hin.
  - simpl in Hrep. destruct Hrep as (Hb & Hp & _ & _ & Hl & Hr).
    simpl in Hin. apply elem_of_app in Hin as [Hin|Hin].
    + right. destruct (IHl _ Hl Hin Ha) as [(_ & Hpa)|(p & Hpa & Hpin)].
      * exists b. split; [done|]. apply elem_of_addrs_root.
      * exists p. split; [done|]. by apply elem_of_addrs_left.
    + apply elem_of_cons in Hin as [->|Hin].
      * left. simplify_eq. done.
      * right. destruct (IHr _ Hr Hin Ha) as [(_ & Hpa)|(p & Hpa & Hpin)].
        -- exists b. split; [done|]. apply elem_of_addrs_root.
        -- exists p. split; [done|]. by apply elem_of_addrs_right.
Qed.

Lemma subtrees_elem_of w t b : t ∈ subtrees w → root_of t = Some b → b ∈ addrs w.
Proof.
  intros Hsub Hb. eapply subtree_elem; [exact Hsub|]. by apply elem_of_addrs_root_of.
Qed.

Lemma rep_frame_right h h' x t :
  rep h (Some x) t → (∀ q, q ∈ addrs t → h' !! q = h !! q) → rep h' (Some x) t.
Proof.
  generalize (Some x). induction t as [|l IHl a n r IHr]; intros par Hrep Hsame; [done|].
  simpl in Hrep. destruct Hrep as (Ha & Hp & Hl & Hr & Hrl & Hrr). simpl.
  rewrite (Hsame a (elem_of_addrs_root _ _ _ _)). split_and!; try done.
  - apply (IHl _ Hrl). intros q Hq. by apply Hsame, elem_of_addrs_left.
  - apply (IHr _ Hrr). intros q Hq. by apply Hsame, elem_of_addrs_right.
Qed.

(** When the cells of a heap change only inside one subtree and in the
    link that leads to it, and the changed subtree is again well linked,
    then so is the whole tree, with the same in-order listing. *)
Lemma graft h h' (f : tree T → tree T) a b sub (comp : T → T → bool) n :
  h !! a = Some n → root_of sub = Some a →
  rep h' (parent n) (refresh h' (f sub)) →
  sized (refresh h' (f sub)) →
  root_of (f sub) = Some b → addrs (f sub) = addrs sub →
  elems (refresh h' (f sub)) = elems sub →
  (ordered comp sub → ordered comp (refresh h' (f sub))) →
  ∀ w par,
  rep h par w → sized w → NoDup (addrs w) → sub ∈ subtrees w →
  (∀ p pn, parent n = Some p → p ∈ addrs w → h !! p = Some pn →
      h' !! p = Some (if decide (left pn = Some a) then with_left pn (Some b)
                      else with_right pn (Some b))) →
  (∀ q, q ∈ addrs w → q ∉ addrs sub → Some q ≠ parent n → h' !! q = h !! q) →
  let w' := refresh h' (at_node f a w) in
  rep h' par w' ∧ sized w' ∧ addrs w' = addrs w ∧ elems w' = elems w ∧
  root_of w' = (if decide (root_of w = Some a) then Some b else root_of w) ∧
  (ordered comp w → ordered comp w').
Proof.
  intros Ha Hroot Hrep' Hsz' Hb Haddrs Helems Hord'.
  induction w as [|wl IHl x xn wr IHr]; intros par Hrep Hsz Hnd Hsub Hpcell Hframe.
  { apply list_elem_of_singleton in Hsub. by subst. }
  pose proof Hrep as (Hx & Hxp & Hxl & Hxr & Hrl & Hrr).
  pose proof Hsz as (Hxs & Hszl & Hszr).
  destruct (NoDup_addrs_inv _ _ _ _ Hnd) as (Hndl & Hndr & Hxl' & Hxr' & Hlr).
  assert (a ∈ addrs sub) as Hasub by (by apply elem_of_addrs_root_of).
  cbn [at_node]. destruct (decide (x = a)) as [->|Hxa].
  - assert (sub = Br wl a xn wr) as Hsubw.
    { by apply (subtree_root _ _ a Hnd Hsub). }
    assert (n = xn) as Hn by congruence.
    rewrite <- Hsubw. rewrite <- Hxp, <- Hn.
    split_and!; try done.
    + by rewrite addrs_refresh.
    + rewrite root_of_refresh, Hb, Hroot. by rewrite decide_True.
  - cbn [subtrees] in Hsub. apply elem_of_cons in Hsub as [->|Hsub].
    { simpl in Hroot. congruence. }
    assert (∀ t, sub ∈ subtrees t → (∀ q, q ∈ addrs sub → q ∈ addrs t)) as Hsubin.
    { intros t Ht q Hq. by eapply subtree_elem. }
    assert (card (refresh h' (f sub)) = card sub) as Hcard.
    { by rewrite <- !length_addrs, addrs_refresh, Haddrs. }
    apply elem_of_app in Hsub as [Hsub|Hsub].
    + (* the change is in the left subtree *)
      pose proof (Hsubin _ Hsub) as Hin.
      assert (a ∉ addrs wr) as Har by (by apply Hlr, Hin).
      rewrite (at_node_absent f a wr Har).
      assert (parent n = Some x ∧ root_of wl = Some a ∨
              Some x ≠ parent n ∧ root_of wl ≠ Some a) as Hwhere.
      { destruct (rep_parent_in _ _ _ _ _ Hrl (Hin a Hasub) Ha) as [(? & ?)|(p & Hp & Hpin)].
        - by left.
        - right. split.
          + rewrite Hp. intros [= ->]. done.
          + intros Hr. destruct wl as [|sl a' sn sr]; [done|]. simpl in Hr.
            injection Hr as ->. simpl in Hrl. destruct Hrl as (Ha' & Hpa & _).
            rewrite Ha in Ha'. injection Ha' as <-. rewrite Hp in Hpa.
            injection Hpa as ->. done. }
      assert (refresh h' wr = wr) as Hwr.
      { apply (refresh_id h h' (Some x)); [done|]. intros q Hq. apply Hframe.
        - by apply elem_of_addrs_right.
        - intros Hqs. by apply (Hlr q (Hin q Hqs)).
        - destruct Hwhere as [(-> & _)|(Hne & Hnr)].
          + intros [= ->]. done.
          + destruct (rep_parent_in _ _ _ _ _ Hrl (Hin a Hasub) Ha)
              as [(? & ?)|(p & Hp & Hpin)]; [done|].
            rewrite Hp. intros [= ->]. by apply (Hlr p). }
      destruct (IHl (Some x) Hrl Hszl Hndl Hsub) as (Rl & Sl & Al & El & Rtl & Ol).
      { intros p pn Hp Hpin. apply Hpcell; [done|]. by apply elem_of_addrs_left. }
      { intros q Hq. apply Hframe. by apply elem_of_addrs_left. }
      cbn zeta in Rl, Sl, Al, El, Rtl, Ol.
      assert (∃ xn', h' !! x = Some xn' ∧ parent xn' = par ∧
                left xn' = root_of (refresh h' (at_node f a wl)) ∧
                right xn' = root_of wr ∧ size xn' = size xn ∧ data xn' = data xn)
        as (xn' & Hx' & Hxp' & Hxl'' & Hxr'' & Hxs' & Hxd').
      { destruct Hwhere as [(Hpn & Hrt)|(Hne & Hnr)].
        - rewrite (Hpcell x xn Hpn (elem_of_addrs_root _ _ _ _) Hx).
          rewrite decide_True by congruence. eexists. split; [done|].
          rewrite Rtl. rewrite decide_True by done. by destruct xn.
        - rewrite Hframe; [|apply elem_of_addrs_root| |done].
          2:{ intros Hxsub. by apply Hxl', Hin. }
          exists xn. split; [done|]. rewrite Rtl. rewrite decide_False by done. done. }
      cbn zeta. cbn [refresh]. rewrite Hx', Hwr. cbn [default from_option]. unfold id.
      split_and!.
      * cbn [rep]. split_and!; try done.
        apply (rep_frame_right h h' x wr Hrr).
        intros q Hq. rewrite <- Hwr in Hq. rewrite addrs_refresh in Hq. apply Hframe.
        -- by apply elem_of_addrs_right.
        -- intros Hqs. by apply (Hlr q (Hin q Hqs)).
        -- destruct Hwhere as [(-> & _)|(Hne & Hnr)].
           ++ intros [= ->]. done.
           ++ destruct (rep_parent_in _ _ _ _ _ Hrl (Hin a Hasub) Ha)
                as [(? & ?)|(p & Hp & Hpin)]; [done|].
              rewrite Hp. intros [= ->]. by apply (Hlr p).
      * cbn [sized]. split_and!; try done.
        rewrite Hxs', Hxs. cbn [card]. f_equal.
        rewrite <- !length_addrs, Al. done.
      * cbn [addrs]. by rewrite Al.
      * cbn [elems]. by rewrite El, Hxd'.
      * cbn [root_of]. rewrite decide_False; [done|]. intros [= ?]. done.
      * cbn [ordered]. intros (O1 & O2 & O3 & O4). rewrite El, Hxd'. split_and!; auto.
    + (* the change is in the right subtree *)
      pose proof (Hsubin _ Hsub) as Hin.
      assert (a ∉ addrs wl) as Hal.
      { intros Hal. by apply (Hlr a Hal), Hin. }
      rewrite (at_node_absent f a wl Hal).
      assert (parent n = Some x ∧ root_of wr = Some a ∨
              Some x ≠ parent n ∧ root_of wr ≠ Some a) as Hwhere.
      { destruct (rep_parent_in _ _ _ _ _ Hrr (Hin a Hasub) Ha) as [(? & ?)|(p & Hp & Hpin)].
        - by left.
        - right. split.
          + rewrite Hp. intros [= ->]. done.
          + intros Hr. destruct wr as [|sl a' sn sr]; [done|]. simpl in Hr.
            injection Hr as ->. simpl in Hrr. destruct Hrr as (Ha' & Hpa & _).
            rewrite Ha in Ha'. injection Ha' as <-. rewrite Hp in Hpa.
            injection Hpa as ->. done. }
      assert (∀ q, q ∈ addrs wl → h' !! q = h !! q) as Hsame.
      { intros q Hq. apply Hframe.
        - by apply elem_of_addrs_left.
        - intros Hqs. by apply (Hlr q Hq), Hin.
        - destruct Hwhere as [(-> & _)|(Hne & Hnr)].
          + intros [= ->]. done.
          + destruct (rep_parent_in _ _ _ _ _ Hrr (Hin a Hasub) Ha)
              as [(? & ?)|(p & Hp & Hpin)]; [done|].
            rewrite Hp. intros [= ->]. by apply (Hlr p). }
      assert (refresh h' wl = wl) as Hwl.
      { by apply (refresh_id h h' (Some x)). }
      destruct (IHr (Some x) Hrr Hszr Hndr Hsub) as (Rr & Sr & Ar & Er & Rtr & Or).
      { intros p pn Hp Hpin. apply Hpcell; [done|]. by apply elem_of_addrs_right. }
      { intros q Hq. apply Hframe. by apply elem_of_addrs_right. }
      cbn zeta in Rr, Sr, Ar, Er, Rtr, Or.
      assert (∃ xn', h' !! x = Some xn' ∧ parent xn' = par ∧
                left xn' = root_of wl ∧
                right xn' = root_of (refresh h' (at_node f a wr)) ∧
                size xn' = size xn ∧ data xn' = data xn)
        as (xn' & Hx' & Hxp' & Hxl'' & Hxr'' & Hxs' & Hxd').
      { destruct Hwhere as [(Hpn & Hrt)|(Hne & Hnr)].
        - rewrite (Hpcell x xn Hpn (elem_of_addrs_root _ _ _ _) Hx).
          rewrite decide_False.
          2:{ rewrite Hxl. intros Heq. by apply elem_of_addrs_root_of in Heq. }
          eexists. split; [done|]. rewrite Rtr. rewrite decide_True by done. by destruct xn.
        - rewrite Hframe; [|apply elem_of_addrs_root| |done].
          2:{ intros Hxsub. by apply Hxr', Hin. }
          exists xn. split; [done|]. rewrite Rtr. rewrite decide_False by done. done. }
      cbn zeta. cbn [refresh]. rewrite Hx', Hwl. cbn [default from_option]. unfold id.
      split_and!.
      * cbn [rep]. split_and!; try done.
        by apply (rep_frame_right h h' x wl Hrl).
      * cbn [sized]. split_and!; try done.
        rewrite Hxs', Hxs. cbn [card]. f_equal.
        rewrite <- !length_addrs, Ar. done.
      * cbn [addrs]. by rewrite Ar.
      * cbn [elems]. by rewrite Er, Hxd'.
      * cbn [root_of]. rewrite decide_False; [done|]. intros [= ?]. done.
      * cbn [ordered]. intros (O1 & O2 & O3 & O4). rewrite Er, Hxd'. split_and!; auto.
Qed.

(** A subtree whose root gets a new parent and whose other cells stay. *)
Lemma rep_reparent h h' (comp : T → T → bool) par par' t :
  rep h par t → NoDup (addrs t) →
  (∀ c cn, root_of t = Some c → h !! c = Some cn → h' !! c = Some (with_parent cn par')) →
  (∀ q, q ∈ addrs t → Some q ≠ root_of t → h' !! q = h !! q) →
  rep h' par' (refresh h' t) ∧ (sized t → sized (refresh h' t)) ∧
  elems (refresh h' t) = elems t ∧ size_of (refresh h' t) = size_of t ∧
  (ordered comp t → ordered comp (refresh h' t)).
Proof.
  intros Hrep Hnd Hroot Hsame. destruct t as [|l c cn r]; [done|].
  simpl in Hrep. destruct Hrep as (Hc & Hp & Hl & Hr & Hrl & Hrr).
  destruct (NoDup_addrs_inv _ _ _ _ Hnd) as (_ & _ & Hcl & Hcr & _).
  assert (∀ q, q ∈ addrs l → h' !! q = h !! q) as Hsl.
  { intros q Hq. apply Hsame; [by apply elem_of_addrs_left|].
    simpl. intros [= ->]. done. }
  assert (∀ q, q ∈ addrs r → h' !! q = h !! q) as Hsr.
  { intros q Hq. apply Hsame; [by apply elem_of_addrs_right|].
    simpl. intros [= ->]. done. }
  cbn [refresh]. rewrite (Hroot c cn eq_refl Hc).
  rewrite (refresh_id h h' _ l Hrl Hsl), (refresh_id h h' _ r Hrr Hsr).
  cbn [default from_option]. unfold id. split_and!; try done.
  cbn [rep]. split_and!; try done; try (by apply Hroot).
  - by apply (rep_frame_right h h' c l).
  - by apply (rep_frame_right h h' c r).
Qed.

Lemma ordered_rotate_left (comp : T → T → bool) l a n rl b m rr n' rl' m' :
  (∀ x y z, comp x y = false → comp y z = false → comp x z = false) →
  ordered comp (Br l a n (Br rl b m rr)) →
  elems rl' = elems rl → data n' = data n → data m' = data m →
  (ordered comp rl → ordered comp rl') →
  ordered comp (Br (Br l a n' rl') b m' rr).
Proof.
  intros Hnt (Hl & Hr & Hol & Hrb & Hrr & Horl & Horr) Hel Hn Hm Horl'.
  cbn [elems] in Hr. apply Forall_app in Hr as (Hr1 & Hr2).
  apply Forall_cons in Hr2 as (Hba & Hr2).
  cbn [ordered elems]. rewrite Hel, Hn, Hm. split_and!; auto.
  apply Forall_app. split.
  - eapply Forall_impl; [exact Hl|]. intros d Hd. simpl in Hd. by eapply Hnt.
  - by constructor.
Qed.

Lemma ordered_rotate_right (comp : T → T → bool) ll b m lr a n r n' lr' m' :
  (∀ x y z, comp x y = false → comp y z = false → comp x z = false) →
  ordered comp (Br (Br ll b m lr) a n r) →
  elems lr' = elems lr → data n' = data n → data m' = data m →
  (ordered comp lr → ordered comp lr') →
  ordered comp (Br ll b m' (Br lr' a n' r)).
Proof.
  intros Hnt (Hl & Hr & (Hlb & Hbr & Holl & Holr) & Hor) Hel Hn Hm Holr'.
  cbn [elems] in Hl. apply Forall_app in Hl as (Hl1 & Hl2).
  apply Forall_cons in Hl2 as (Hab & Hl2).
  cbn [ordered elems]. rewrite Hel, Hn, Hm. split_and!; auto.
  apply Forall_app. split; [done|]. constructor; [done|].
  eapply Forall_impl; [exact Hr|]. intros d Hd. simpl in Hd. by eapply Hnt.
Qed.

(** After a change of the kind [graft] describes, the container is
    well formed again: the header still names the root, the first and
    the last node. *)
Lemma wf_after_graft (s : @sb_tree T) w h' w' a b n hn :
  wf s w → mem s !! header s = Some hn → mem s !! a = Some n →
  rep h' (Some (header s)) w' → sized w' → addrs w' = addrs w →
  root_of w' = (if decide (root_of w = Some a) then Some b else root_of w) →
  (root_of w = Some a → h' !! header s = Some (with_parent hn (Some b))) →
  (root_of w ≠ Some a → h' !! header s = Some hn) →
  wf (with_mem s h') w'.
Proof.
  intros [(hn0 & Hh0 & Hroot & Hfirst & Hlast & Hhsz) Hrep Hnd Hsz Hfit] Hhn Ha R S A Rt H1 H2.
  assert (hn0 = hn) as -> by congruence.
  constructor; cbn [mem header with_mem].
  - destruct (decide (root_of w = Some a)) as [Hra|Hra].
    + exists (with_parent hn (Some b)). split; [by apply H1|].
      unfold header_ok. rewrite A, Rt. by destruct hn.
    + exists hn. split; [by apply H2|]. unfold header_ok. by rewrite A, Rt.
  - done.
  - by rewrite A.
  - done.
  - by rewrite <- length_addrs, A, length_addrs.
Qed.

Lemma subtrees_at_node h' (f : tree T → tree T) a sub w :
  NoDup (addrs w) → sub ∈ subtrees w → root_of sub = Some a →
  refresh h' (f sub) ∈ subtrees (refresh h' (at_node f a w)).
Proof.
  intros Hnd Hsub Hroot. assert (a ∈ addrs sub) as Hasub by (by apply elem_of_addrs_root_of).
  induction w as [|wl IHl x xn wr IHr].
  { apply list_elem_of_singleton in Hsub. by subst. }
  destruct (NoDup_addrs_inv _ _ _ _ Hnd) as (Hndl & Hndr & _).
  cbn [at_node]. destruct (decide (x = a)) as [->|Hxa].
  - rewrite (subtree_root _ _ a Hnd Hsub eq_refl Hasub). apply subtrees_refl.
  - cbn [subtrees] in Hsub. apply elem_of_cons in Hsub as [->|Hsub].
    { simpl in Hroot. congruence. }
    cbn [refresh]. apply elem_of_app in Hsub as [Hsub|Hsub].
    + apply subtrees_left. by apply IHl.
    + apply subtrees_right. by apply IHr.
Qed.

Lemma left_rotate_graft (comp : T → T → bool) (s : @sb_tree T) w l a n rl b m rr h' :
  (∀ x y z, comp x y = false → comp y z = false → comp x z = false) →
  wf s w → Br l a n (Br rl b m rr) ∈ subtrees w →
  left_rotate (header s) (mem s) a = Some (h', b) →
  let w' := refresh h' (at_node rotate_left_root a w) in
  wf (with_mem s h') w' ∧ addrs w' = addrs w ∧ elems w' = elems w ∧
  (ordered comp w → ordered comp w') ∧
  Br (Br l a (Node (Some b) (left n) (root_of rl)
                (size_of l + size_of rl + 1) (data n)) (refresh h' rl))
     b (Node (parent n) (Some a) (right m) (size n) (data m)) rr ∈ subtrees w'.
Proof.
  intros Hnt Hwf Hsub Hrun.
  destruct (left_rotate_cells s w l a n rl b m rr Hwf Hsub)
    as (h0 & Hrot & Hca & Hcb & Hcc & Hcp & Hfr).
  rewrite Hrun in Hrot. injection Hrot as <-.
  destruct (node_facts s w l a n _ Hwf Hsub)
    as (Ha & Hl & Hr & Hrl & Hrr & Hnd & Hhdr & Hfuel & Hpar).
  destruct (NoDup_addrs_inv _ _ _ _ Hnd) as (Hndl & Hndr & Hal & Har & Hlr).
  destruct (NoDup_addrs_inv _ _ _ _ Hndr) as (Hndrl & Hndrr & Hbrl & Hbrr & Hrlrr).
  pose proof Hwf as [(hn & Hh0 & Hroot & _) Hrep Hndw Hsz Hfit].
  apply NoDup_cons in Hndw as (Hhw & Hndw).
  pose proof (subtree_sized _ _ Hsz Hsub) as (Hna & Hszl & Hmb & Hszrl & Hszrr).
  cbn [rep root_of] in Hrr. destruct Hrr as (Hb & Hbp & Hbl & Hbr & Hrrl & Hrrr).
  assert (∀ q, q ∈ addrs (Br l a n (Br rl b m rr)) → Some q ≠ parent n) as Hparout.
  { intros q Hq. destruct Hpar as [(_ & ->)|(_ & tp & pn & -> & _ & _ & Htps & _)].
    - intros [= ->]. done.
    - intros [= ->]. done. }
  assert (∀ q, q ∈ addrs l → h' !! q = mem s !! q) as Hfl.
  { intros q Hq. apply Hfr.
    - by intros ->.
    - intros ->. apply (Hlr b Hq), elem_of_addrs_root.
    - intros Heq. symmetry in Heq. apply elem_of_addrs_root_of in Heq.
      by apply (Hlr q Hq), elem_of_addrs_left.
    - by apply Hparout, elem_of_addrs_left. }
  assert (∀ q, q ∈ addrs rr → h' !! q = mem s !! q) as Hfrr.
  { intros q Hq. apply Hfr.
    - intros ->. by apply Har, elem_of_addrs_right.
    - by intros ->.
    - intros Heq. symmetry in Heq. apply elem_of_addrs_root_of in Heq.
      by apply (Hrlrr q Heq).
    - by apply Hparout, elem_of_addrs_right, elem_of_addrs_right. }
  assert (∀ q, q ∈ addrs rl → Some q ≠ root_of rl → h' !! q = mem s !! q) as Hfrl.
  { intros q Hq Hne. apply Hfr; [| |done|].
    - intros ->. by apply Har, elem_of_addrs_left.
    - by intros ->.
    - by apply Hparout, elem_of_addrs_right, elem_of_addrs_left. }
  destruct (rep_reparent (mem s) h' comp (Some b) (Some a) rl Hrrl Hndrl Hcc Hfrl)
    as (Rrl & Srl & Erl & Zrl & Orl).
  assert (refresh h' (rotate_left_root (Br l a n (Br rl b m rr))) =
          Br (Br l a (Node (Some b) (left n) (root_of rl)
                        (size_of l + size_of rl + 1) (data n)) (refresh h' rl))
             b (Node (parent n) (Some a) (right m) (size n) (data m)) rr) as Hsub'.
  { cbn [rotate_left_root refresh]. rewrite Hca, Hcb. cbn [default from_option]. unfold id.
    by rewrite (refresh_id (mem s) h' (Some a) l Hrl Hfl),
      (refresh_id (mem s) h' (Some b) rr Hrrr Hfrr). }
  destruct (graft (mem s) h' rotate_left_root a b (Br l a n (Br rl b m rr)) comp n Ha eq_refl)
    with (w := w) (par := Some (header s)) as (R & S & A & E & Rt & O); try done.
  - rewrite Hsub'. cbn [rep root_of parent left right]. rewrite root_of_refresh.
    split_and!; try done.
    + by apply (rep_frame_right (mem s) h' a l).
    + by apply (rep_frame_right (mem s) h' b rr).
  - rewrite Hsub'. cbn [sized card size]. rewrite card_refresh.
    apply sized_size_of in Hszl as Hszl'. apply sized_size_of in Hszrl as Hszrl'.
    split_and!; auto.
    + rewrite Hna. cbn [card]. lia.
    + rewrite Hszl', Hszrl'. lia.
  - cbn [rotate_left_root addrs]. by rewrite <- app_assoc.
  - rewrite Hsub'. cbn [elems data]. rewrite Erl. by rewrite <- app_assoc.
  - intros Hord. rewrite Hsub'.
    by apply (ordered_rotate_left comp l a n rl b m rr _ (refresh h' rl) _ Hnt Hord).
  - intros p pn Hp Hpin Hpn. rewrite (Hcp p pn Hp Hpn).
    rewrite decide_False; [done|]. by intros ->.
  - intros q Hq Hqs Hqp. apply Hfr; [| | |done].
    + intros ->. apply Hqs, elem_of_addrs_root.
    + intros ->. apply Hqs, elem_of_addrs_right, elem_of_addrs_root.
    + intros Heq. symmetry in Heq. apply elem_of_addrs_root_of in Heq.
      by apply Hqs, elem_of_addrs_right, elem_of_addrs_left.
  - cbn zeta. split_and!; try done.
    2:{ rewrite <- Hsub'. by apply subtrees_at_node. }
    apply (wf_after_graft s w h' _ a b n hn Hwf Hh0 Ha R S A Rt).
    + intros Hra. destruct Hpar as [(_ & Hp)|(Hnr & _)]; [|done].
      rewrite (Hcp (header s) hn Hp Hh0). by rewrite decide_True.
    + intros Hra. destruct Hpar as [(Hra' & _)|(_ & tp & pn & Hp & _ & Htph & _)]; [done|].
      rewrite Hfr; [done| | | |].
      * intros Heq. apply Hhdr. rewrite Heq. apply elem_of_addrs_root.
      * intros Heq. apply Hhdr. rewrite Heq. apply elem_of_addrs_right, elem_of_addrs_root.
      * intros Heq. symmetry in Heq. apply elem_of_addrs_root_of in Heq.
        by apply Hhdr, elem_of_addrs_right, elem_of_addrs_left.
      * rewrite Hp. intros [= Heq]. by apply Htph.
Qed.

(** [left_rotate] at any node [a] with a right child [b] of a well-formed
    tree lifts [b] above [a]; the container stays well formed, with
    exact sizes, the in-order listing of nodes and payloads is the one
    before the rotation, and the search-tree order is kept. *)
Theorem left_rotate_preserves (comp : T → T → bool) (s : @sb_tree T) w l a n rl b m rr :
  (∀ x y z, comp x y = false → comp y z = false → comp x z = false) →
  wf s w → Br l a n (Br rl b m rr) ∈ subtrees w →
  ∃ h', left_rotate (header s) (mem s) a = Some (h', b) ∧
    let w' := refresh h' (at_node rotate_left_root a w) in
    wf (with_mem s h') w' ∧ addrs w' = addrs w ∧ elems w' = elems w ∧
    (ordered comp w → ordered comp w').
Proof.
  intros Hnt Hwf Hsub.
  destruct (left_rotate_cells s w l a n rl b m rr Hwf Hsub) as (h' & Hrot & _).
  exists h'. split; [done|].
  destruct (left_rotate_graft comp s w l a n rl b m rr h' Hnt Hwf Hsub Hrot)
    as (H1 & H2 & H3 & H4 & _).
  done.
Qed.

Lemma right_rotate_graft (comp : T → T → bool) (s : @sb_tree T) w ll b m lr a n r h' :
  (∀ x y z, comp x y = false → comp y z = false → comp x z = false) →
  wf s w → Br (Br ll b m lr) a n r ∈ subtrees w →
  right_rotate (header s) (mem s) a = Some (h', b) →
  let w' := refresh h' (at_node rotate_right_root a w) in
  wf (with_mem s h') w' ∧ addrs w' = addrs w ∧ elems w' = elems w ∧
  (ordered comp w → ordered comp w') ∧
  Br ll b (Node (parent n) (left m) (Some a) (size n) (data m))
     (Br (refresh h' lr) a
        (Node (Some b) (root_of lr) (right n) (size_of lr + size_of r + 1) (data n)) r)
    ∈ subtrees w'.
Proof.
  intros Hnt Hwf Hsub Hrun.
  destruct (right_rotate_cells s w ll b m lr a n r Hwf Hsub)
    as (h0 & Hrot & Hca & Hcb & Hcc & Hcp & Hfr).
  rewrite Hrun in Hrot. injection Hrot as <-.
  destruct (node_facts s w _ a n r Hwf Hsub)
    as (Ha & Hl & Hr & Hrl & Hrr & Hnd & Hhdr & Hfuel & Hpar).
  destruct (NoDup_addrs_inv _ _ _ _ Hnd) as (Hndl & Hndr & Hal & Har & Hlr).
  destruct (NoDup_addrs_inv _ _ _ _ Hndl) as (Hndll & Hndlr & Hbll & Hblr & Hlllr).
  pose proof Hwf as [(hn & Hh0 & Hroot & _) Hrep Hndw Hsz Hfit].
  apply NoDup_cons in Hndw as (Hhw & Hndw).
  pose proof (subtree_sized _ _ Hsz Hsub) as (Hna & (Hmb & Hszll & Hszlr) & Hszr).
  cbn [rep root_of] in Hrl. destruct Hrl as (Hb & Hbp & Hbl & Hbr & Hrll & Hrlr).
  assert (∀ q, q ∈ addrs (Br (Br ll b m lr) a n r) → Some q ≠ parent n) as Hparout.
  { intros q Hq. destruct Hpar as [(_ & ->)|(_ & tp & pn & -> & _ & _ & Htps & _)].
    - intros [= ->]. done.
    - intros [= ->]. done. }
  assert (∀ q, q ∈ addrs r → h' !! q = mem s !! q) as Hfrr.
  { intros q Hq. apply Hfr.
    - by intros ->.
    - intros ->. apply (Hlr b); [apply elem_of_addrs_root|done].
    - intros Heq. symmetry in Heq. apply elem_of_addrs_root_of in Heq.
      apply (Hlr q); [by apply elem_of_addrs_right|done].
    - by apply Hparout, elem_of_addrs_right. }
  assert (∀ q, q ∈ addrs ll → h' !! q = mem s !! q) as Hfll.
  { intros q Hq. apply Hfr.
    - intros ->. by apply Hal, elem_of_addrs_left.
    - by intros ->.
    - intros Heq. symmetry in Heq. apply elem_of_addrs_root_of in Heq.
      by apply (Hlllr q Hq).
    - by apply Hparout, elem_of_addrs_left, elem_of_addrs_left. }
  assert (∀ q, q ∈ addrs lr → Some q ≠ root_of lr → h' !! q = mem s !! q) as Hflr.
  { intros q Hq Hne. apply Hfr; [| |done|].
    - intros ->. by apply Hal, elem_of_addrs_right.
    - by intros ->.
    - by apply Hparout, elem_of_addrs_left, elem_of_addrs_right. }
  destruct (rep_reparent (mem s) h' comp (Some b) (Some a) lr Hrlr Hndlr Hcc Hflr)
    as (Rlr & Slr & Elr & Zlr & Olr).
  assert (refresh h' (rotate_right_root (Br (Br ll b m lr) a n r)) =
          Br ll b (Node (parent n) (left m) (Some a) (size n) (data m))
             (Br (refresh h' lr) a
                (Node (Some b) (root_of lr) (right n)
                   (size_of lr + size_of r + 1) (data n)) r)) as Hsub'.
  { cbn [rotate_right_root refresh]. rewrite Hca, Hcb. cbn [default from_option]. unfold id.
    by rewrite (refresh_id (mem s) h' (Some b) ll Hrll Hfll),
      (refresh_id (mem s) h' (Some a) r Hrr Hfrr). }
  destruct (graft (mem s) h' rotate_right_root a b (Br (Br ll b m lr) a n r) comp n Ha eq_refl)
    with (w := w) (par := Some (header s)) as (R & S & A & E & Rt & O); try done.
  - rewrite Hsub'. cbn [rep root_of parent left right]. rewrite root_of_refresh.
    split_and!; try done.
    + by apply (rep_frame_right (mem s) h' b ll).
    + by apply (rep_frame_right (mem s) h' a r).
  - rewrite Hsub'. cbn [sized card size]. rewrite card_refresh.
    apply sized_size_of in Hszr as Hszr'. apply sized_size_of in Hszlr as Hszlr'.
    split_and!; auto.
    + rewrite Hna. cbn [card]. lia.
    + rewrite Hszr', Hszlr'. lia.
  - cbn [rotate_right_root addrs]. by rewrite <- app_assoc.
  - rewrite Hsub'. cbn [elems data]. rewrite Elr. by rewrite <- app_assoc.
  - intros Hord. rewrite Hsub'.
    by apply (ordered_rotate_right comp ll b m lr a n r _ (refresh h' lr) _ Hnt Hord).
  - intros p pn Hp Hpin Hpn. rewrite (Hcp p pn Hp Hpn).
    rewrite decide_False by (by intros ->).
    destruct Hpar as [(_ & Hp')|(_ & tp & pn' & Hp' & Hpn' & Htph & _ & Hside)].
    { rewrite Hp in Hp'. injection Hp' as ->. done. }
    rewrite Hp in Hp'. injection Hp' as <-. rewrite Hpn in Hpn'. injection Hpn' as <-.
    pose proof (parent_side s w _ a n r p pn Hwf Hsub Hp Hpn Htph) as Hone.
    destruct Hside as [Hside|[Hnl Hside]].
    + rewrite decide_False by (intros ?; by apply Hone). by rewrite decide_True.
    + rewrite decide_True by done. by rewrite decide_False.
  - intros q Hq Hqs Hqp. apply Hfr; [| | |done].
    + intros ->. apply Hqs, elem_of_addrs_root.
    + intros ->. apply Hqs, elem_of_addrs_left, elem_of_addrs_root.
    + intros Heq. symmetry in Heq. apply elem_of_addrs_root_of in Heq.
      by apply Hqs, elem_of_addrs_left, elem_of_addrs_right.
  - cbn zeta. split_and!; try done.
    2:{ rewrite <- Hsub'. by apply subtrees_at_node. }
    apply (wf_after_graft s w h' _ a b n hn Hwf Hh0 Ha R S A Rt).
    + intros Hra. destruct Hpar as [(_ & Hp)|(Hnr & _)]; [|done].
      rewrite (Hcp (header s) hn Hp Hh0). by rewrite decide_True.
    + intros Hra. destruct Hpar as [(Hra' & _)|(_ & tp & pn & Hp & _ & Htph & _)]; [done|].
      rewrite Hfr; [done| | | |].
      * intros Heq. apply Hhdr. rewrite Heq. apply elem_of_addrs_root.
      * intros Heq. apply Hhdr. rewrite Heq. apply elem_of_addrs_left, elem_of_addrs_root.
      * intros Heq. symmetry in Heq. apply elem_of_addrs_root_of in Heq.
        by apply Hhdr, elem_of_addrs_left, elem_of_addrs_right.
      * rewrite Hp. intros [= Heq]. by apply Htph.
Qed.

(** [right_rotate] at any node [a] with a left child [b] of a
    well-formed tree lifts [b] above [a]; the container stays well
    formed, with exact sizes, the in-order listing of nodes and payloads
    is the one before the rotation, and the search-tree order is kept. *)
Theorem right_rotate_preserves (comp : T → T → bool) (s : @sb_tree T) w ll b m lr a n r :
  (∀ x y z, comp x y = false → comp y z = false → comp x z = false) →
  wf s w → Br (Br ll b m lr) a n r ∈ subtrees w →
  ∃ h', right_rotate (header s) (mem s) a = Some (h', b) ∧
    let w' := refresh h' (at_node rotate_right_root a w) in
    wf (with_mem s h') w' ∧ addrs w' = addrs w ∧ elems w' = elems w ∧
    (ordered comp w → ordered comp w').
Proof.
  intros Hnt Hwf Hsub.
  destruct (right_rotate_cells s w ll b m lr a n r Hwf Hsub) as (h' & Hrot & _).
  exists h'. split; [done|].
  destruct (right_rotate_graft comp s w ll b m lr a n r h' Hnt Hwf Hsub Hrot)
    as (H1 & H2 & H3 & H4 & _).
  done.
Qed.

(** A left rotation followed by the right rotation at the lifted node
    gives back the heap it started from, cell by cell. *)
Theorem rotate_round_trip (s : @sb_tree T) w l a n rl b m rr :
  wf s w → Br l a n (Br rl b m rr) ∈ subtrees w →
  ∃ h', left_rotate (header s) (mem s) a = Some (h', b) ∧
        right_rotate (header s) h' b = Some (mem s, a).
Proof.
  intros Hwf Hsub.
  destruct (left_rotate_cells s w l a n rl b m rr Hwf Hsub)
    as (h' & Hrot & Hca & Hcb & Hcc & Hcp & Hfr).
  exists h'. split; [done|].
  destruct (left_rotate_graft (λ _ _, false) s w l a n rl b m rr h'
              ltac:(done) Hwf Hsub Hrot) as (Hwf' & _ & _ & _ & Hsub').
  cbn zeta in Hwf', Hsub'.
  destruct (right_rotate_cells _ _ _ _ _ _ _ _ _ Hwf' Hsub')
    as (h'' & Hrot2 & Hca2 & Hcb2 & Hcc2 & Hcp2 & Hfr2).
  cbn [mem header with_mem parent left right size data] in *.
  rewrite Hrot2. do 2 f_equal.
  destruct (node_facts s w l a n _ Hwf Hsub)
    as (Ha & Hl & Hr & Hrl & Hrr & Hnd & Hhdr & Hfuel & Hpar).
  destruct (NoDup_addrs_inv _ _ _ _ Hnd) as (Hndl & Hndr & Hal & Har & Hlr).
  destruct (NoDup_addrs_inv _ _ _ _ Hndr) as (Hndrl & Hndrr & Hbrl & Hbrr & Hrlrr).
  pose proof Hwf as [(hn & Hh0 & Hroot & _) Hrep Hndw Hsz Hfit].
  pose proof (subtree_sized _ _ Hsz Hsub) as (Hna & Hszl & Hmb & Hszrl & Hszrr).
  cbn [rep root_of] in Hrr. destruct Hrr as (Hb & Hbp & Hbl & Hbr & Hrrl & Hrrr).
  apply sized_size_of in Hszrl, Hszrr.
  assert (size_of (refresh h' rl) = size_of rl) as Hzrl.
  { destruct rl as [|rll c cn rlr]; [done|]. cbn [refresh size_of].
    destruct Hrrl as (Hc & _). rewrite (Hcc c cn eq_refl Hc). done. }
  rewrite root_of_refresh in *.
  apply map_eq. intros q.
  destruct (decide (q = a)) as [->|Hqa].
  { rewrite Hcb2, Ha. destruct n. cbn in *. by subst. }
  destruct (decide (q = b)) as [->|Hqb].
  { rewrite Hca2, Hb, Hzrl. destruct m. cbn in *. subst. do 2 f_equal.
    rewrite Hszrl, Hszrr. lia. }
  destruct (decide (Some q = root_of rl)) as [Hqc|Hqc].
  { destruct rl as [|rll c cn rlr]; [done|]. cbn [root_of] in *. injection Hqc as ->.
    destruct Hrrl as (Hc & Hcpar & _).
    rewrite (Hcc2 c _ eq_refl (Hcc c cn eq_refl Hc)), Hc.
    destruct cn. cbn in *. by subst. }
  destruct (decide (Some q = parent n)) as [Hqp|Hqp].
  { symmetry in Hqp.
    destruct Hpar as [(Hrw & Hp)|(Hrw & tp & pn & Hp & Htp & Htph & Htps & Hside)].
    - rewrite Hp in Hqp. injection Hqp as <-.
      rewrite (Hcp2 _ _ Hp (Hcp _ _ Hp Hh0)), Hh0.
      rewrite !decide_True by done. rewrite Hrw in Hroot.
      destruct hn. cbn in *. by subst.
    - rewrite Hp in Hqp. injection Hqp as <-.
      pose proof (Hcp _ _ Hp Htp) as Hp'. rewrite decide_False in Hp' by done.
      destruct Hside as [Hside|[Hnl Hside]].
      + rewrite decide_True in Hp' by done.
        pose proof (parent_side _ _ _ _ _ _ tp _ Hwf' Hsub' Hp Hp' Htph) as Hone.
        rewrite (Hcp2 _ _ Hp Hp'), Htp. rewrite decide_False by done.
        destruct pn. cbn in *. subst.
        rewrite decide_False by (intros ?; by apply Hone). done.
      + rewrite decide_False in Hp' by done.
        rewrite (Hcp2 _ _ Hp Hp'), Htp. rewrite decide_False by done.
        destruct pn. cbn in *. subst. by rewrite decide_True. }
  rewrite Hfr2 by done. by apply Hfr.
Qed.

(** * Rebalancing a balanced tree *)

Lemma subtree_balanced (w : tree T) t : balanced w → t ∈ subtrees w → balanced t.
Proof.
  induction w as [|l IHl a n r IHr]; intros Hb Hin.
  - apply list_elem_of_singleton in Hin. by subst.
  - cbn [subtrees] in Hin. apply elem_of_cons in Hin as [->|Hin]; [done|].
    destruct Hb as (_ & _ & _ & _ & Hl & Hr).
    apply elem_of_app in Hin as [Hin|Hin]; [by apply IHl|by apply IHr].
Qed.

Lemma subtree_at (w : tree T) a : a ∈ addrs w → ∃ l n r, Br l a n r ∈ subtrees w.
Proof.
  induction w as [|l IHl b n r IHr]; intros Hin.
  - by apply elem_of_nil in Hin.
  - simpl in Hin. apply elem_of_app in Hin as [Hin|Hin].
    + destruct (IHl Hin) as (l' & n' & r' & H). exists l', n', r'. by apply subtrees_left.
    + apply elem_of_cons in Hin as [->|Hin].
      * exists l, n, r. apply subtrees_here.
      * destruct (IHr Hin) as (l' & n' & r' & H). exists l', n', r'. by apply subtrees_right.
Qed.

Lemma subtrees_trans (w : tree T) t u : t ∈ subtrees w → u ∈ subtrees t → u ∈ subtrees w.
Proof.
  induction w as [|l IHl a n r IHr]; intros Ht Hu.
  - apply list_elem_of_singleton in Ht. by subst.
  - cbn [subtrees] in Ht. apply elem_of_cons in Ht as [->|Ht]; [done|].
    apply elem_of_app in Ht as [Ht|Ht].
    + apply subtrees_left. by apply IHl.
    + apply subtrees_right. by apply IHr.
Qed.

Lemma exceeds_le h par t bound :
  rep h par t → size_of t <= bound → exceeds h (root_of t) bound = Some false.
Proof.
  destruct t as [|l a n r]; [done|]. simpl. intros (Ha & _) Hle.
  unfold get_size. rewrite Ha. simpl. f_equal. apply Z.ltb_ge. lia.
Qed.

Lemma right_check_noop h hdr (x : ptr) f tl ls r rl rr :
  get_right h x = Some (Some r) → get_left h x = Some tl → size_or_zero h tl = Some ls →
  get_left h r = Some rl → exceeds h rl ls = Some false →
  get_right h r = Some rr → exceeds h rr ls = Some false →
  insert_rebalance (S f) hdr h x true = Some (h, x) ∧
  erase_rebalance (S f) hdr h x false = Some (h, x).
Proof.
  intros H1 H2 H3 H4 H5 H6 H7. cbn [insert_rebalance erase_rebalance negb].
  rewrite H1. cbv beta iota. rewrite H2. cbv beta iota. rewrite H3. cbv beta iota.
  rewrite H4. cbv beta iota. rewrite H5. cbv beta iota. rewrite H6. cbv beta iota.
  by rewrite H7.
Qed.

Lemma left_check_noop h hdr (x : ptr) f tr rs l lr ll :
  get_left h x = Some (Some l) → get_right h x = Some tr → size_or_zero h tr = Some rs →
  get_right h l = Some lr → exceeds h lr rs = Some false →
  get_left h l = Some ll → exceeds h ll rs = Some false →
  insert_rebalance (S f) hdr h x false = Some (h, x) ∧
  erase_rebalance (S f) hdr h x true = Some (h, x).
Proof.
  intros H1 H2 H3 H4 H5 H6 H7. cbn [insert_rebalance erase_rebalance negb].
  rewrite H1. cbv beta iota. rewrite H2. cbv beta iota. rewrite H3. cbv beta iota.
  rewrite H4. cbv beta iota. rewrite H5. cbv beta iota. rewrite H6. cbv beta iota.
  by rewrite H7.
Qed.

(** On a tree that meets the balance inequalities, rebalancing at any
    node is the identity: whatever the flag, [insert_rebalance] and
    [erase_rebalance] return the node they were given and write
    nothing. *)
Theorem rebalance_balanced_noop (s : @sb_tree T) w a flag f :
  wf s w → balanced w → a ∈ addrs w →
  insert_rebalance (S f) (header s) (mem s) a flag = Some (mem s, a) ∧
  erase_rebalance (S f) (header s) (mem s) a flag = Some (mem s, a).
Proof.
  intros Hwf Hbal Ha. destruct (subtree_at _ _ Ha) as (l & n & r & Hsub).
  destruct (node_facts s w l a n r Hwf Hsub)
    as (Hn & Hl & Hr & Hrl & Hrr & _).
  pose proof (subtree_balanced _ _ Hbal Hsub) as (B1 & B2 & B3 & B4 & _).
  destruct (lookup_fields _ _ _ Hn) as (_ & Hgl & Hgr & _). rewrite Hl in Hgl. rewrite Hr in Hgr.
  assert (insert_rebalance (S f) (header s) (mem s) a true = Some (mem s, a) ∧
          erase_rebalance (S f) (header s) (mem s) a false = Some (mem s, a)) as [R1 R2].
  { destruct r as [|rl b m rr].
    - cbn [insert_rebalance erase_rebalance negb]. by rewrite Hgr.
    - cbn [rep root_of left_of right_of] in *. destruct Hrr as (Hb & _ & Hbl & Hbr & Hrrl & Hrrr).
      destruct (lookup_fields _ _ _ Hb) as (_ & Hbgl & Hbgr & _).
      eapply right_check_noop; try done.
      + by apply (size_or_zero_rep _ _ _ Hrl).
      + rewrite Hbl. by eapply exceeds_le.
      + rewrite Hbr. by eapply exceeds_le. }
  assert (insert_rebalance (S f) (header s) (mem s) a false = Some (mem s, a) ∧
          erase_rebalance (S f) (header s) (mem s) a true = Some (mem s, a)) as [L1 L2].
  { destruct l as [|ll b m lr].
    - cbn [insert_rebalance erase_rebalance negb]. by rewrite Hgl.
    - cbn [rep root_of left_of right_of] in *. destruct Hrl as (Hb & _ & Hbl & Hbr & Hrll & Hrlr).
      destruct (lookup_fields _ _ _ Hb) as (_ & Hbgl & Hbgr & _).
      eapply left_check_noop; try done.
      + by apply (size_or_zero_rep _ _ _ Hrr).
      + rewrite Hbr. by eapply exceeds_le.
      + rewrite Hbl. by eapply exceeds_le. }
  by destruct flag.
Qed.

Lemma small_side t :
  sized t → size_of (left_of t) <= 0 → size_of (right_of t) <= 0 → size_of t <= 1.
Proof.
  destruct t as [|l a n r]; [simpl; lia|]. intros (Hn & Hl & Hr). simpl.
  rewrite (sized_size_of _ Hl), (sized_size_of _ Hr), Hn. simpl. lia.
Qed.

(** The header is passed to the rebalancing functions too: at the end
    of every erasure, and by an insertion below the root.  On a tree
    that meets the balance inequalities these calls return the header
    and write nothing, whatever the flag. *)
Theorem rebalance_header_noop (s : @sb_tree T) w flag f :
  wf s w → balanced w →
  insert_rebalance (S f) (header s) (mem s) (header s) flag = Some (mem s, header s) ∧
  erase_rebalance (S f) (header s) (mem s) (header s) flag = Some (mem s, header s).
Proof.
  intros Hwf Hbal.
  pose proof Hwf as [(hn & Hh0 & Hroot & Hfirst & Hlast & Hhsz) Hrep Hnd Hsz Hfit].
  destruct (lookup_fields _ _ _ Hh0) as (_ & Hgl & Hgr & Hgs & _).
  rewrite Hfirst in Hgl. rewrite Hlast in Hgr. rewrite Hhsz in Hgs.
  assert ((insert_rebalance (S f) (header s) (mem s) (header s) true = Some (mem s, header s) ∧
           erase_rebalance (S f) (header s) (mem s) (header s) false = Some (mem s, header s)) ∧
          (insert_rebalance (S f) (header s) (mem s) (header s) false = Some (mem s, header s) ∧
           erase_rebalance (S f) (header s) (mem s) (header s) true = Some (mem s, header s)))
    as [[R1 R2] [L1 L2]]; [|by destruct flag].
  assert (w = Leaf ∨ w ≠ Leaf) as [->|Hne] by (destruct w; [by left|by right]).
  - cbn [addrs hd List.last] in Hgl, Hgr. split.
    + eapply right_check_noop; try done; cbn [size_or_zero exceeds]; by rewrite Hgs.
    + eapply left_check_noop; try done; cbn [size_or_zero exceeds]; by rewrite Hgs.
  - destruct (last_spine w (header s) Hne) as (x & xn & xl & Hx & Hxs).
    destruct (first_spine w (header s) Hne) as (y & yn & yr & Hy & Hys).
    rewrite Hx in Hgr. rewrite Hy in Hgl.
    assert (Br xl x xn Leaf ∈ subtrees w) as Hxsub.
    { destruct Hxs as [->|(q & qn & ql & Hq)]; [apply subtrees_refl|].
      eapply subtrees_trans; [exact Hq|]. apply subtrees_right, subtrees_here. }
    assert (Br Leaf y yn yr ∈ subtrees w) as Hysub.
    { destruct Hys as [->|(q & qn & qr & Hq)]; [apply subtrees_refl|].
      eapply subtrees_trans; [exact Hq|]. apply subtrees_left, subtrees_here. }
    destruct (node_facts s w _ x xn _ Hwf Hxsub) as (Hxn & Hxl & Hxr & Hrxl & _).
    destruct (node_facts s w _ y yn _ Hwf Hysub) as (Hyn & Hyl & Hyr & _ & Hryr & _).
    pose proof (subtree_balanced _ _ Hbal Hxsub) as (_ & _ & Bx1 & Bx2 & _).
    pose proof (subtree_balanced _ _ Hbal Hysub) as (By1 & By2 & _).
    pose proof (subtree_sized _ _ Hsz Hxsub) as (Sx & Sxl & _).
    pose proof (subtree_sized _ _ Hsz Hysub) as (Sy & _ & Syr).
    cbn [size_of] in Bx1, Bx2, By1, By2.
    pose proof (small_side _ Sxl Bx1 Bx2) as Hxl1.
    pose proof (small_side _ Syr By1 By2) as Hyr1.
    assert (1 <= size xn ∧ 1 <= size yn) as (Hx1 & Hy1).
    { rewrite Sx, Sy. simpl. lia. }
    destruct (lookup_fields _ _ _ Hxn) as (_ & Hxgl & Hxgr & Hxgs & _).
    destruct (lookup_fields _ _ _ Hyn) as (_ & Hygl & Hygr & Hygs & _).
    cbn [root_of] in Hxr, Hyl. rewrite Hxl in Hxgl. rewrite Hxr in Hxgr.
    rewrite Hyl in Hygl. rewrite Hyr in Hygr.
    split.
    + eapply right_check_noop; try done. eapply exceeds_le; [done|lia].
    + eapply left_check_noop; try done. eapply exceeds_le; [done|lia].
Qed.

Lemma erase_rebalance_eq (fuel : nat) (hdr : ptr) (h : gmap ptr (@node T)) (x : ptr)
    (flag : bool) :
  erase_rebalance fuel hdr h x flag = insert_rebalance fuel hdr h x (negb flag).
Proof.
  revert h x flag. induction fuel as [|f IH]; intros h x flag; [done|].
  destruct flag; cbn [erase_rebalance insert_rebalance negb];
    repeat first
      [ progress rewrite IH
      | progress cbn [negb]
      | reflexivity
      | match goal with
        | |- match ?e with _ => _ end = match ?e with _ => _ end => destruct e
        | |- (if ?e then _ else _) = (if ?e then _ else _) => destruct e
        | |- (let (_, _) := ?e in _) = (let (_, _) := ?e in _) => destruct e
        end ].
Qed.

(** [erase_rebalance(t, flag)] is [insert_rebalance(t, !flag)], and the
    other way round: the two functions differ in the sense of the flag
    only. *)
Theorem erase_rebalance_flips (fuel : nat) (hdr : ptr) (h : gmap ptr (@node T)) (x : ptr)
    (flag : bool) :
  erase_rebalance fuel hdr h x flag = insert_rebalance fuel hdr h x (negb flag) ∧
  insert_rebalance fuel hdr h x flag = erase_rebalance fuel hdr h x (negb flag).
Proof.
  split; [apply erase_rebalance_eq|]. by rewrite erase_rebalance_eq, negb_involutive.
Qed.

(** * Rebalancing terminates and keeps the contents *)

Lemma set_left_insert h p pn v : h !! p = Some pn → set_left h p v = Some (<[p := with_left pn v]> h).
Proof. intros H. unfold set_left. by rewrite H. Qed.

Lemma set_right_insert h p pn v : h !! p = Some pn → set_right h p v = Some (<[p := with_right pn v]> h).
Proof. intros H. unfold set_right. by rewrite H. Qed.

Lemma set_size_insert h p pn v : h !! p = Some pn → set_size h p v = Some (<[p := with_size pn v]> h).
Proof. intros H. unfold set_size. by rewrite H. Qed.

Lemma set_parent_insert h p pn v : h !! p = Some pn → set_parent h p v = Some (<[p := with_parent pn v]> h).
Proof. intros H. unfold set_parent. by rewrite H. Qed.

Lemma depth_sum_refresh h (t : tree T) : depth_sum (refresh h t) = depth_sum t.
Proof.
  induction t as [|l IHl a n r IHr]; [done|]. cbn [refresh depth_sum].
  by rewrite IHl, IHr, !card_refresh.
Qed.

Lemma relink_same hdr h xs par a pn :
  hangs hdr h xs par a → h !! par = Some pn → relink hdr par a pn a = pn.
Proof.
  intros (Ha & _ & _ & hn & pn' & Hh & Hp & Hcase) Hpn. assert (pn' = pn) as -> by congruence.
  unfold relink. destruct (decide (par = hdr)) as [->|Hne].
  - destruct Hcase as [(_ & Hr)|(? & _)]; [|done].
    assert (hn = pn) as -> by congruence. destruct pn; simpl in *. by subst.
  - destruct Hcase as [(? & _)|(_ & _ & [(Hl & _)|(Hl & Hr)])]; [done| |].
    + rewrite decide_True by done. destruct pn; simpl in *. by subst.
    + rewrite decide_False by (by apply Hl). destruct pn; simpl in *. by subst.
Qed.

Lemma relink_relink hdr h xs par a pn a1 a2 :
  hangs hdr h xs par a → h !! par = Some pn → a1 ∈ xs →
  relink hdr par a1 (relink hdr par a pn a1) a2 = relink hdr par a pn a2.
Proof.
  intros (Ha & _ & _ & hn & pn' & Hh & Hp & Hcase) Hpn Ha1.
  assert (pn' = pn) as -> by congruence.
  unfold relink. destruct (decide (par = hdr)) as [->|Hne]; [by destruct pn|].
  destruct Hcase as [(? & _)|(_ & _ & [(Hl & _)|(Hl & Hr)])]; [done| |].
  - destruct (decide (left pn = Some a)) as [_|?]; [|done].
    rewrite decide_True by (by destruct pn). by destruct pn.
  - destruct (decide (left pn = Some a)) as [E|_]; [by apply Hl in E|].
    rewrite decide_False; [by destruct pn|]. destruct pn; simpl in *. by apply Hl.
Qed.

(** The other order of the tests, as [right_rotate] has it. *)
Lemma relink_other_order hdr h xs par a pn a' :
  hangs hdr h xs par a → h !! par = Some pn →
  (if decide (par = hdr) then with_parent pn (Some a')
   else if decide (right pn = Some a) then with_right pn (Some a')
   else with_left pn (Some a')) = relink hdr par a pn a'.
Proof.
  intros (Ha & _ & _ & hn & pn' & Hh & Hp & Hcase) Hpn. assert (pn' = pn) as -> by congruence.
  unfold relink. destruct (decide (par = hdr)) as [->|Hne]; [done|].
  destruct Hcase as [(? & _)|(_ & _ & [(Hl & Hr)|(Hl & Hr)])]; [done| |].
  - rewrite decide_False by (by apply Hr). by rewrite decide_True by done.
  - rewrite decide_True by done. by rewrite decide_False by (by apply Hl).
Qed.

Lemma hangs_next hdr h h' xs par a pn a' :
  hangs hdr h xs par a → h !! par = Some pn → a' ∈ xs →
  h' !! par = Some (relink hdr par a pn a') →
  (par ≠ hdr → h' !! hdr = h !! hdr) →
  hangs hdr h' xs par a'.
Proof.
  intros (Ha & Hhx & Hpx & hn & pn' & Hh & Hp & Hcase) Hpn Ha' Hp' Hh'.
  assert (pn' = pn) as -> by congruence.
  split_and!; try done. unfold relink in Hp'.
  destruct (decide (par = hdr)) as [->|Hne].
  - eexists _, _. split_and!; try done. by left.
  - destruct Hcase as [(? & _)|(_ & Hroot & [(Hl & Hr)|(Hl & Hr)])]; [done| |].
    + rewrite decide_True in Hp' by done.
      exists hn, (with_left pn (Some a')). split_and!; try done.
      * by rewrite Hh'.
      * right. split_and!; try done. left. by destruct pn.
    + rewrite decide_False in Hp' by (by apply Hl).
      exists hn, (with_right pn (Some a')). split_and!; try done.
      * by rewrite Hh'.
      * right. split_and!; try done. right. by destruct pn.
Qed.

Lemma evolves_card comp hdr par h (u : tree T) a h' u' a' :
  evolves comp hdr par h u a h' u' a' → card u' = card u.
Proof. intros (_ & Hadd & _). by rewrite <- !length_addrs, Hadd. Qed.

Lemma evolves_refl comp hdr par h (u : tree T) a :
  local hdr h par u a → evolves comp hdr par h u a h u a.
Proof.
  intros Hloc. split_and!; try done.
  intros pn Hpn. destruct Hloc as (_ & _ & _ & _ & _ & Hhang).
  by rewrite (relink_same _ _ _ _ _ _ Hhang Hpn).
Qed.

Lemma evolves_trans comp hdr par h (u : tree T) a h1 u1 a1 h2 u2 a2 :
  local hdr h par u a →
  evolves comp hdr par h u a h1 u1 a1 → evolves comp hdr par h1 u1 a1 h2 u2 a2 →
  evolves comp hdr par h u a h2 u2 a2.
Proof.
  intros (_ & _ & _ & _ & _ & Hhang) (Hl1 & A1 & E1 & O1 & P1 & F1) (Hl2 & A2 & E2 & O2 & P2 & F2).
  split_and!; try done.
  - by rewrite A2.
  - by rewrite E2.
  - auto.
  - intros pn Hpn. rewrite (P2 _ (P1 _ Hpn)). f_equal.
    apply (relink_relink hdr h (addrs u) par a pn a1 a2 Hhang Hpn).
    rewrite <- A1. destruct Hl1 as (Hr1 & _). by apply elem_of_addrs_root_of.
  - intros q Hq Hqp. rewrite F2, F1; try done. by rewrite A1.
Qed.

Lemma local_left hdr h par ll la ln lr a n (r : tree T) :
  local hdr h par (Br (Br ll la ln lr) a n r) a → local hdr h a (Br ll la ln lr) la.
Proof.
  intros (_ & Hrep & Hsz & Hnd & Hfit & Ha' & Hhx & Hpx & hn & pn & Hh & Hpn & Hcase).
  destruct Hrep as (Ha & Hp & Hl & Hr & Hrl & Hrr). destruct Hsz as (_ & Hszl & _).
  destruct (NoDup_addrs_inv _ _ _ _ Hnd) as (Hndl & Hndr & Hal & Har & Hlr).
  assert (a ≠ hdr) as Hah by (by intros ->).
  unfold local, hangs. split_and!; try done.
  - cbn [card] in Hfit |- *. lia.
  - apply elem_of_addrs_root.
  - intros Hin. by apply Hhx, elem_of_addrs_left.
  - exists hn, n. split_and!; try done. right. split_and!; try done.
    + intros x Hx. destruct Hcase as [(_ & Hr')|(_ & Hr' & _)].
      * rewrite Hr'. intros [= ->]. done.
      * by apply Hr', elem_of_addrs_left.
    + left. split; [done|]. intros x Hx Heq. rewrite Hr in Heq.
      apply elem_of_addrs_root_of in Heq. by apply (Hlr x).
Qed.

Lemma local_right hdr h par (l : tree T) a n rl rb rn rr :
  local hdr h par (Br l a n (Br rl rb rn rr)) a → local hdr h a (Br rl rb rn rr) rb.
Proof.
  intros (_ & Hrep & Hsz & Hnd & Hfit & Ha' & Hhx & Hpx & hn & pn & Hh & Hpn & Hcase).
  destruct Hrep as (Ha & Hp & Hl & Hr & Hrl & Hrr). destruct Hsz as (_ & _ & Hszr).
  destruct (NoDup_addrs_inv _ _ _ _ Hnd) as (Hndl & Hndr & Hal & Har & Hlr).
  assert (a ≠ hdr) as Hah by (by intros ->).
  unfold local, hangs. split_and!; try done.
  - cbn [card] in Hfit |- *. lia.
  - apply elem_of_addrs_root.
  - intros Hin. by apply Hhx, elem_of_addrs_right.
  - exists hn, n. split_and!; try done. right. split_and!; try done.
    + intros x Hx. destruct Hcase as [(_ & Hr')|(_ & Hr' & _)].
      * rewrite Hr'. intros [= ->]. done.
      * by apply Hr', elem_of_addrs_right.
    + right. split; [|done]. intros x Hx Heq. rewrite Hl in Heq.
      apply elem_of_addrs_root_of in Heq. by apply (Hlr x).
Qed.

(** A change inside the left subtree is a change of the whole subtree
    that leaves its root in place. *)
Lemma evolves_in_left comp hdr h par (L : tree T) a n R la h' L' la' :
  local hdr h par (Br L a n R) a → root_of L = Some la →
  evolves comp hdr a h L la h' L' la' →
  evolves comp hdr par h (Br L a n R) a h' (Br L' a (with_left n (Some la')) R) a.
Proof.
  intros Hloc HL ((Hroot' & Hrep' & Hsz' & Hnd' & Hfit' & Hhang') & A & E & O & P & F).
  pose proof Hloc as (_ & Hrep & Hsz & Hnd & Hfit & Hhang).
  pose proof Hhang as (Ha' & Hhx & Hpx & hn & pn & Hh & Hpn & Hcase).
  destruct Hrep as (Ha & Hp & Hl & Hr & Hrl & Hrr). destruct Hsz as (Hn & Hszl & Hszr).
  destruct (NoDup_addrs_inv _ _ _ _ Hnd) as (Hndl & Hndr & Hal & Har & Hlr).
  assert (a ≠ hdr) as Hah by (by intros ->).
  assert (par ≠ a) as Hpa.
  { intros ->. apply Hpx, elem_of_addrs_root. }
  assert (h' !! a = Some (with_left n (Some la'))) as Ha2.
  { rewrite (P n Ha). unfold relink. rewrite decide_False by done.
    rewrite Hl, HL. by rewrite decide_True. }
  assert (∀ q, q ∈ addrs R → h' !! q = h !! q) as FR.
  { intros q Hq. apply F.
    - intros Hq'. by apply (Hlr q).
    - by intros ->. }
  assert (h' !! hdr = h !! hdr) as Fh.
  { apply F; [|done]. intros Hin. by apply Hhx, elem_of_addrs_left. }
  assert (h' !! par = h !! par) as Fp.
  { apply F; [|done]. intros Hin. by apply Hpx, elem_of_addrs_left. }
  assert (card L' = card L) as Hc by (by rewrite <- !length_addrs, A).
  assert (addrs (Br L' a (with_left n (Some la')) R) = addrs (Br L a n R)) as A'.
  { cbn [addrs]. by rewrite A. }
  unfold evolves. split_and!; try done.
  - unfold local. split_and!; try done.
    + cbn [rep]. split_and!; try done; try (by destruct n).
      by apply (rep_frame_right h h' a R).
    + cbn [sized card] in *. split_and!; try done. destruct n; simpl in *. lia.
    + by rewrite A'.
    + cbn [card] in *. lia.
    + rewrite A'. apply (hangs_next hdr h h' _ par a pn a Hhang Hpn Ha').
      * rewrite Fp, Hpn. f_equal. symmetry. by apply (relink_same hdr h _ par a pn Hhang).
      * done.
  - cbn [elems]. rewrite E. by destruct n.
  - cbn [ordered]. intros (O1 & O2 & O3 & O4). rewrite E. destruct n; simpl in *. auto.
  - intros pn' Hpn'. rewrite Fp, Hpn'. f_equal. symmetry.
    by apply (relink_same hdr h _ par a pn' Hhang).
  - intros q Hq Hqp. apply F.
    + intros Hin. by apply Hq, elem_of_addrs_left.
    + intros ->. apply Hq, elem_of_addrs_root.
Qed.

Lemma evolves_in_right comp hdr h par (L : tree T) a n R rb h' R' rb' :
  local hdr h par (Br L a n R) a → root_of R = Some rb →
  evolves comp hdr a h R rb h' R' rb' →
  evolves comp hdr par h (Br L a n R) a h' (Br L a (with_right n (Some rb')) R') a.
Proof.
  intros Hloc HR ((Hroot' & Hrep' & Hsz' & Hnd' & Hfit' & Hhang') & A & E & O & P & F).
  pose proof Hloc as (_ & Hrep & Hsz & Hnd & Hfit & Hhang).
  pose proof Hhang as (Ha' & Hhx & Hpx & hn & pn & Hh & Hpn & Hcase).
  destruct Hrep as (Ha & Hp & Hl & Hr & Hrl & Hrr). destruct Hsz as (Hn & Hszl & Hszr).
  destruct (NoDup_addrs_inv _ _ _ _ Hnd) as (Hndl & Hndr & Hal & Har & Hlr).
  assert (a ≠ hdr) as Hah by (by intros ->).
  assert (par ≠ a) as Hpa.
  { intros ->. apply Hpx, elem_of_addrs_root. }
  assert (h' !! a = Some (with_right n (Some rb'))) as Ha2.
  { rewrite (P n Ha). unfold relink. rewrite decide_False by done.
    rewrite decide_False; [done|]. rewrite Hl. intros Heq.
    apply elem_of_addrs_root_of in Heq. apply (Hlr rb Heq). by apply elem_of_addrs_root_of. }
  assert (∀ q, q ∈ addrs L → h' !! q = h !! q) as FL.
  { intros q Hq. apply F.
    - by apply Hlr.
    - by intros ->. }
  assert (h' !! hdr = h !! hdr) as Fh.
  { apply F; [|done]. intros Hin. by apply Hhx, elem_of_addrs_right. }
  assert (h' !! par = h !! par) as Fp.
  { apply F; [|done]. intros Hin. by apply Hpx, elem_of_addrs_right. }
  assert (card R' = card R) as Hc by (by rewrite <- !length_addrs, A).
  assert (addrs (Br L a (with_right n (Some rb')) R') = addrs (Br L a n R)) as A'.
  { cbn [addrs]. by rewrite A. }
  unfold evolves. split_and!; try done.
  - unfold local. split_and!; try done.
    + cbn [rep]. split_and!; try done; try (by destruct n).
      by apply (rep_frame_right h h' a L).
    + cbn [sized card] in *. split_and!; try done. destruct n; simpl in *. lia.
    + by rewrite A'.
    + cbn [card] in *. lia.
    + rewrite A'. apply (hangs_next hdr h h' _ par a pn a Hhang Hpn Ha').
      * rewrite Fp, Hpn. f_equal. symmetry. by apply (relink_same hdr h _ par a pn Hhang).
      * done.
  - cbn [elems]. rewrite E. by destruct n.
  - cbn [ordered]. intros (O1 & O2 & O3 & O4). rewrite E. destruct n; simpl in *. auto.
  - intros pn' Hpn'. rewrite Fp, Hpn'. f_equal. symmetry.
    by apply (relink_same hdr h _ par a pn' Hhang).
  - intros q Hq Hqp. apply F.
    + intros Hin. by apply Hq, elem_of_addrs_right.
    + intros ->. apply Hq, elem_of_addrs_root.
Qed.

(** What the rotations need to know about the place of a subtree. *)
Lemma hangs_facts hdr h xs par a (n : @node T) :
  hangs hdr h xs par a → parent n = Some par →
  ∃ hn pn, h !! hdr = Some hn ∧ h !! par = Some pn ∧
    ((parent hn = Some a ∧ parent n = Some hdr) ∨
     (parent hn ≠ Some a ∧ ∃ tp pn', parent n = Some tp ∧ h !! tp = Some pn' ∧
        tp ≠ hdr ∧ (tp ∉ xs) ∧
        (left pn' = Some a ∨ (left pn' ≠ Some a ∧ right pn' = Some a)))) ∧
    (∀ tp pn', parent n = Some tp → h !! tp = Some pn' → tp ≠ hdr →
       left pn' = Some a → right pn' ≠ Some a).
Proof.
  intros (Ha & Hhx & Hpx & hn & pn & Hh & Hpn & Hcase) Hp.
  exists hn, pn. split_and!; try done.
  - destruct Hcase as [(-> & Hr)|(Hne & Hr & Hside)]; [by left|right].
    split; [by apply Hr|]. exists par, pn. split_and!; try done.
    destruct Hside as [(Hl & _)|(Hl & Hr')]; [by left|right]. split; [by apply Hl|done].
  - intros tp pn' Htp Hpn' Hne Hl. assert (tp = par) as -> by congruence.
    assert (pn' = pn) as -> by congruence.
    destruct Hcase as [(? & _)|(_ & _ & [(_ & Hr)|(Hl' & _)])]; [done| |].
    + by apply Hr.
    + by apply Hl' in Hl.
Qed.

Lemma left_rotate_evolves comp hdr h par (l : tree T) a n rl b m rr :
  (∀ x y z : T, comp x y = false → comp y z = false → comp x z = false) →
  local hdr h par (Br l a n (Br rl b m rr)) a →
  ∃ h' n' m', left_rotate hdr h a = Some (h', b) ∧
    evolves comp hdr par h (Br l a n (Br rl b m rr)) a h'
      (Br (Br l a n' (refresh h' rl)) b m' rr) b.
Proof.
  intros Hnt (_ & Hrep & Hsz & Hnd & Hfit & Hhang).
  pose proof Hrep as (Ha & Hp & Hl & Hr & Hrl & Hrr).
  pose proof Hsz as (Hna & Hszl & Hmb & Hszrl & Hszrr).
  pose proof Hhang as (Ha' & Hhdr & Hpx & _).
  destruct (hangs_facts hdr h _ par a n Hhang Hp) as (hn & pn & Hh0 & Hpn & Hpar & _).
  destruct (NoDup_addrs_inv _ _ _ _ Hnd) as (Hndl & Hndr & Hal & Har & Hlr).
  destruct (NoDup_addrs_inv _ _ _ _ Hndr) as (Hndrl & Hndrr & Hbrl & Hbrr & Hrlrr).
  destruct (left_rotate_cells_at hdr h hn l a n rl b m rr Hh0 Ha Hl Hr Hrl Hrr Hnd Hhdr
              Hszl Hszrl) as (h' & Hrot & Hca & Hcb & Hcc & Hcp & Hfr); [|done|].
  { cbn [card] in Hfit. lia. }
  cbn [rep root_of] in Hrr. destruct Hrr as (Hb & Hbp & Hbl & Hbr & Hrrl & Hrrr).
  assert (∀ q, q ∈ addrs (Br l a n (Br rl b m rr)) → Some q ≠ parent n) as Hparout.
  { intros q Hq. rewrite Hp. intros [= ->]. done. }
  assert (∀ q, q ∈ addrs l → h' !! q = h !! q) as Hfl.
  { intros q Hq. apply Hfr.
    - by intros ->.
    - intros ->. apply (Hlr b Hq), elem_of_addrs_root.
    - intros Heq. symmetry in Heq. apply elem_of_addrs_root_of in Heq.
      by apply (Hlr q Hq), elem_of_addrs_left.
    - by apply Hparout, elem_of_addrs_left. }
  assert (∀ q, q ∈ addrs rr → h' !! q = h !! q) as Hfrr.
  { intros q Hq. apply Hfr.
    - intros ->. by apply Har, elem_of_addrs_right.
    - by intros ->.
    - intros Heq. symmetry in Heq. apply elem_of_addrs_root_of in Heq.
      by apply (Hrlrr q Heq).
    - by apply Hparout, elem_of_addrs_right, elem_of_addrs_right. }
  assert (∀ q, q ∈ addrs rl → Some q ≠ root_of rl → h' !! q = h !! q) as Hfrl.
  { intros q Hq Hne. apply Hfr; [| |done|].
    - intros ->. by apply Har, elem_of_addrs_left.
    - by intros ->.
    - by apply Hparout, elem_of_addrs_right, elem_of_addrs_left. }
  destruct (rep_reparent h h' comp (Some b) (Some a) rl Hrrl Hndrl Hcc Hfrl)
    as (Rrl & Srl & Erl & Zrl & Orl).
  apply sized_size_of in Hszl as Hszl'. apply sized_size_of in Hszrl as Hszrl'.
  set (n' := Node (Some b) (left n) (root_of rl) (size_of l + size_of rl + 1) (data n)).
  set (m' := Node (parent n) (Some a) (right m) (size n) (data m)).
  assert (addrs (Br (Br l a n' (refresh h' rl)) b m' rr) = addrs (Br l a n (Br rl b m rr)))
    as A.
  { cbn [addrs]. rewrite addrs_refresh. by rewrite <- app_assoc. }
  exists h', n', m'. split; [done|]. subst n' m'. unfold evolves. split_and!.
  - unfold local. split_and!; try done.
    + cbn [rep root_of parent left right]. rewrite root_of_refresh. split_and!; try done.
      * by apply (rep_frame_right h h' a l).
      * by apply (rep_frame_right h h' b rr).
    + cbn [sized card size]. rewrite card_refresh. split_and!; auto.
      * rewrite Hna. cbn [card]. lia.
      * rewrite Hszl', Hszrl'. lia.
    + by rewrite A.
    + rewrite <- length_addrs, A, length_addrs. done.
    + rewrite A. apply (hangs_next hdr h h' _ par a pn b Hhang Hpn).
      * apply elem_of_addrs_right, elem_of_addrs_root.
      * by rewrite (Hcp par pn Hp Hpn).
      * intros Hne. apply Hfr.
        -- intros <-. done.
        -- intros <-. apply Hhdr, elem_of_addrs_right, elem_of_addrs_root.
        -- intros Heq. symmetry in Heq. apply elem_of_addrs_root_of in Heq.
           by apply Hhdr, elem_of_addrs_right, elem_of_addrs_left.
        -- rewrite Hp. intros [= Heq]. done.
  - done.
  - cbn [elems data]. rewrite Erl. by rewrite <- app_assoc.
  - intros Hord.
    by apply (ordered_rotate_left comp l a n rl b m rr _ (refresh h' rl) _ Hnt Hord).
  - intros pn' Hpn'. by rewrite (Hcp par pn' Hp Hpn').
  - intros q Hq Hqp. apply Hfr.
    + intros ->. apply Hq, elem_of_addrs_root.
    + intros ->. apply Hq, elem_of_addrs_right, elem_of_addrs_root.
    + intros Heq. symmetry in Heq. apply elem_of_addrs_root_of in Heq.
      by apply Hq, elem_of_addrs_right, elem_of_addrs_left.
    + rewrite Hp. intros [= Heq]. done.
Qed.

Lemma right_rotate_evolves comp hdr h par (ll : tree T) b m lr a n r :
  (∀ x y z : T, comp x y = false → comp y z = false → comp x z = false) →
  local hdr h par (Br (Br ll b m lr) a n r) a →
  ∃ h' n' m', right_rotate hdr h a = Some (h', b) ∧
    evolves comp hdr par h (Br (Br ll b m lr) a n r) a h'
      (Br ll b m' (Br (refresh h' lr) a n' r)) b.
Proof.
  intros Hnt (_ & Hrep & Hsz & Hnd & Hfit & Hhang).
  pose proof Hrep as (Ha & Hp & Hl & Hr & Hrl & Hrr).
  pose proof Hsz as (Hna & (Hmb & Hszll & Hszlr) & Hszr).
  pose proof Hhang as (Ha' & Hhdr & Hpx & _).
  destruct (hangs_facts hdr h _ par a n Hhang Hp) as (hn & pn & Hh0 & Hpn & Hpar & Hone).
  destruct (NoDup_addrs_inv _ _ _ _ Hnd) as (Hndl & Hndr & Hal & Har & Hlr).
  destruct (NoDup_addrs_inv _ _ _ _ Hndl) as (Hndll & Hndlr & Hbll & Hblr & Hlllr).
  destruct (right_rotate_cells_at hdr h hn ll b m lr a n r Hh0 Ha Hl Hr Hrl Hrr Hnd Hhdr
              Hszlr Hszr) as (h' & Hrot & Hca & Hcb & Hcc & Hcp & Hfr); [|done|done|].
  { cbn [card] in Hfit. lia. }
  cbn [rep root_of] in Hrl. destruct Hrl as (Hb & Hbp & Hbl & Hbr & Hrll & Hrlr).
  assert (∀ q, q ∈ addrs (Br (Br ll b m lr) a n r) → Some q ≠ parent n) as Hparout.
  { intros q Hq. rewrite Hp. intros [= ->]. done. }
  assert (∀ q, q ∈ addrs r → h' !! q = h !! q) as Hfrr.
  { intros q Hq. apply Hfr.
    - by intros ->.
    - intros ->. apply (Hlr b); [apply elem_of_addrs_root|done].
    - intros Heq. symmetry in Heq. apply elem_of_addrs_root_of in Heq.
      apply (Hlr q); [by apply elem_of_addrs_right|done].
    - by apply Hparout, elem_of_addrs_right. }
  assert (∀ q, q ∈ addrs ll → h' !! q = h !! q) as Hfll.
  { intros q Hq. apply Hfr.
    - intros ->. by apply Hal, elem_of_addrs_left.
    - by intros ->.
    - intros Heq. symmetry in Heq. apply elem_of_addrs_root_of in Heq.
      by apply (Hlllr q Hq).
    - by apply Hparout, elem_of_addrs_left, elem_of_addrs_left. }
  assert (∀ q, q ∈ addrs lr → Some q ≠ root_of lr → h' !! q = h !! q) as Hflr.
  { intros q Hq Hne. apply Hfr; [| |done|].
    - intros ->. by apply Hal, elem_of_addrs_right.
    - by intros ->.
    - by apply Hparout, elem_of_addrs_left, elem_of_addrs_right. }
  destruct (rep_reparent h h' comp (Some b) (Some a) lr Hrlr Hndlr Hcc Hflr)
    as (Rlr & Slr & Elr & Zlr & Olr).
  apply sized_size_of in Hszr as Hszr'. apply sized_size_of in Hszlr as Hszlr'.
  assert (addrs (Br ll b (Node (parent n) (left m) (Some a) (size n) (data m))
                  (Br (refresh h' lr) a
                     (Node (Some b) (root_of lr) (right n)
                        (size_of lr + size_of r + 1) (data n)) r)) =
          addrs (Br (Br ll b m lr) a n r)) as A.
  { cbn [addrs]. rewrite addrs_refresh. by rewrite <- app_assoc. }
  assert (h' !! par = Some (relink hdr par a pn b)) as Hpar'.
  { rewrite (Hcp par pn Hp Hpn). f_equal.
    by apply (relink_other_order hdr h _ par a pn b Hhang). }
  eexists h', _, _. split; [done|]. unfold evolves. split_and!.
  - unfold local. split_and!; try done.
    + cbn [rep root_of parent left right]. rewrite root_of_refresh. split_and!; try done.
      * by apply (rep_frame_right h h' b ll).
      * by apply (rep_frame_right h h' a r).
    + cbn [sized card size]. rewrite card_refresh. split_and!; auto.
      * rewrite Hna. cbn [card]. lia.
      * rewrite Hszr', Hszlr'. lia.
    + by rewrite A.
    + rewrite <- length_addrs, A, length_addrs. done.
    + rewrite A. apply (hangs_next hdr h h' _ par a pn b Hhang Hpn).
      * apply elem_of_addrs_left, elem_of_addrs_root.
      * done.
      * intros Hne. apply Hfr.
        -- intros <-. done.
        -- intros <-. apply Hhdr, elem_of_addrs_left, elem_of_addrs_root.
        -- intros Heq. symmetry in Heq. apply elem_of_addrs_root_of in Heq.
           by apply Hhdr, elem_of_addrs_left, elem_of_addrs_right.
        -- rewrite Hp. intros [= Heq]. done.
  - done.
  - cbn [elems data]. rewrite Elr. by rewrite <- app_assoc.
  - intros Hord.
    by apply (ordered_rotate_right comp ll b m lr a n r _ (refresh h' lr) _ Hnt Hord).
  - intros pn' Hpn'. assert (pn' = pn) as -> by congruence. done.
  - intros q Hq Hqp. apply Hfr.
    + intros ->. apply Hq, elem_of_addrs_root.
    + intros ->. apply Hq, elem_of_addrs_left, elem_of_addrs_root.
    + intros Heq. symmetry in Heq. apply elem_of_addrs_root_of in Heq.
      by apply Hq, elem_of_addrs_left, elem_of_addrs_right.
    + rewrite Hp. intros [= Heq]. done.
Qed.

Lemma set_left_same h p (pn : @node T) x :
  h !! p = Some pn → left pn = Some x → set_left h p (Some x) = Some h.
Proof.
  intros Hp Hl. rewrite (set_left_insert h p pn _ Hp). f_equal.
  apply insert_id. rewrite Hp. f_equal. destruct pn; simpl in *. by subst.
Qed.

Lemma set_right_same h p (pn : @node T) x :
  h !! p = Some pn → right pn = Some x → set_right h p (Some x) = Some h.
Proof.
  intros Hp Hl. rewrite (set_right_insert h p pn _ Hp). f_equal.
  apply insert_id. rewrite Hp. f_equal. destruct pn; simpl in *. by subst.
Qed.

Lemma exceeds_rep h par (t : tree T) bound :
  rep h par t → 0 <= bound → exceeds h (root_of t) bound = Some (bound <? size_of t).
Proof.
  destruct t as [|l a n r]; simpl.
  - intros _ Hb. f_equal. symmetry. apply Z.ltb_ge. done.
  - intros (Ha & _) _. unfold get_size. by rewrite Ha.
Qed.

(** The calls that follow a double rotation: the left child, the right
    child, then the node itself. *)
Lemma rebalance_both comp hdr f K h par (L : tree T) c cn R la rb flag :
  rebalances comp hdr f K →
  local hdr h par (Br L c cn R) c → root_of L = Some la → root_of R = Some rb →
  (depth_sum (Br L c cn R) < K)%nat →
  ∃ h' u' a',
    (let* tl := get_left h c in let* y := nonnull tl in
     let* (g1, x) := insert_rebalance f hdr h y false in
     let* g2 := set_left g1 c (Some x) in
     let* tr := get_right g2 c in let* z := nonnull tr in
     let* (g3, x) := insert_rebalance f hdr g2 z true in
     let* g4 := set_right g3 c (Some x) in
     insert_rebalance f hdr g4 c flag) = Some (h', a') ∧
    evolves comp hdr par h (Br L c cn R) c h' u' a' ∧
    (depth_sum u' ≤ depth_sum (Br L c cn R))%nat.
Proof.
  intros IH Hloc HL HR HK.
  destruct L as [|ll la0 ln lr]; [done|]. injection HL as ->.
  destruct R as [|rl rb0 rn rr]; [done|]. injection HR as ->.
  pose proof Hloc as (_ & (Hc & _ & Hl & Hr & _) & _).
  destruct (lookup_fields _ _ _ Hc) as (_ & Hgl & _).
  rewrite Hgl, Hl. cbn [root_of nonnull]. cbv beta iota.
  destruct (IH (Br ll la ln lr) h c la false) as (h1 & L1 & la1 & Hrun1 & Hev1 & Hds1).
  { cbn [depth_sum card] in *. lia. }
  { by apply (local_left hdr h par ll la ln lr c cn (Br rl rb rn rr)). }
  rewrite Hrun1. cbv beta iota.
  pose proof (evolves_in_left comp hdr h par _ c cn _ la h1 L1 la1 Hloc eq_refl Hev1) as Hup1.
  pose proof Hup1 as (Hloc1 & _).
  pose proof Hloc1 as (_ & (Hc1 & _ & Hl1 & Hr1 & _) & _).
  rewrite (set_left_same h1 c _ la1 Hc1) by (by destruct cn).
  cbv beta iota.
  destruct (lookup_fields _ _ _ Hc1) as (_ & _ & Hgr1 & _).
  rewrite Hgr1, Hr1. cbn [root_of nonnull]. cbv beta iota.
  destruct (IH (Br rl rb rn rr) h1 c rb true) as (h2 & R2 & rb2 & Hrun2 & Hev2 & Hds2).
  { cbn [depth_sum card] in *. lia. }
  { eapply local_right, Hloc1. }
  rewrite Hrun2. cbv beta iota.
  pose proof (evolves_in_right comp hdr h1 par _ c _ _ rb h2 R2 rb2 Hloc1 eq_refl Hev2) as Hup2.
  pose proof Hup2 as (Hloc2 & _).
  pose proof Hloc2 as (_ & (Hc2 & _ & Hl2 & Hr2 & _) & _).
  rewrite (set_right_same h2 c _ rb2 Hc2) by (by destruct cn).
  cbv beta iota.
  pose proof (evolves_card _ _ _ _ _ _ _ _ _ Hev1) as Hcard1.
  pose proof (evolves_card _ _ _ _ _ _ _ _ _ Hev2) as Hcard2.
  destruct (IH (Br L1 c (with_right (with_left cn (Some la1)) (Some rb2)) R2) h2 par c flag)
    as (h3 & U3 & a3 & Hrun3 & Hev3 & Hds3); [|exact Hloc2|].
  { cbn [depth_sum card] in *. lia. }
  exists h3, U3, a3. split; [done|]. split.
  - apply (evolves_trans comp hdr par h _ c h1 _ c h3 U3 a3 Hloc Hup1).
    by apply (evolves_trans comp hdr par h1 _ c h2 _ c h3 U3 a3 Hloc1 Hup2).
  - cbn [depth_sum card] in *. lia.
Qed.

(** The calls that follow a single left rotation: the left child, then
    the node itself. *)
Lemma rebalance_left_self comp hdr f K h par (L : tree T) c cn R la flag :
  rebalances comp hdr f K →
  local hdr h par (Br L c cn R) c → root_of L = Some la →
  (depth_sum (Br L c cn R) < K)%nat →
  ∃ h' u' a',
    (let* tl := get_left h c in let* y := nonnull tl in
     let* (g1, x) := insert_rebalance f hdr h y false in
     let* g2 := set_left g1 c (Some x) in
     insert_rebalance f hdr g2 c flag) = Some (h', a') ∧
    evolves comp hdr par h (Br L c cn R) c h' u' a' ∧
    (depth_sum u' ≤ depth_sum (Br L c cn R))%nat.
Proof.
  intros IH Hloc HL HK.
  destruct L as [|ll la0 ln lr]; [done|]. injection HL as ->.
  pose proof Hloc as (_ & (Hc & _ & Hl & Hr & _) & _).
  destruct (lookup_fields _ _ _ Hc) as (_ & Hgl & _).
  rewrite Hgl, Hl. cbn [root_of nonnull]. cbv beta iota.
  destruct (IH (Br ll la ln lr) h c la false) as (h1 & L1 & la1 & Hrun1 & Hev1 & Hds1).
  { cbn [depth_sum card] in *. lia. }
  { by apply (local_left hdr h par ll la ln lr c cn R). }
  rewrite Hrun1. cbv beta iota.
  pose proof (evolves_in_left comp hdr h par _ c cn _ la h1 L1 la1 Hloc eq_refl Hev1) as Hup1.
  pose proof Hup1 as (Hloc1 & _).
  pose proof Hloc1 as (_ & (Hc1 & _ & Hl1 & Hr1 & _) & _).
  rewrite (set_left_same h1 c _ la1 Hc1) by (by destruct cn).
  cbv beta iota.
  pose proof (evolves_card _ _ _ _ _ _ _ _ _ Hev1) as Hcard1.
  destruct (IH (Br L1 c (with_left cn (Some la1)) R) h1 par c flag)
    as (h3 & U3 & a3 & Hrun3 & Hev3 & Hds3); [|exact Hloc1|].
  { cbn [depth_sum card] in *. lia. }
  exists h3, U3, a3. split; [done|]. split.
  - by apply (evolves_trans comp hdr par h _ c h1 _ c h3 U3 a3 Hloc Hup1).
  - cbn [depth_sum card] in *. lia.
Qed.

(** The calls that follow a single right rotation: the right child,
    then the node itself. *)
Lemma rebalance_right_self comp hdr f K h par (L : tree T) c cn R rb flag :
  rebalances comp hdr f K →
  local hdr h par (Br L c cn R) c → root_of R = Some rb →
  (depth_sum (Br L c cn R) < K)%nat →
  ∃ h' u' a',
    (let* tr := get_right h c in let* z := nonnull tr in
     let* (g1, x) := insert_rebalance f hdr h z true in
     let* g2 := set_right g1 c (Some x) in
     insert_rebalance f hdr g2 c flag) = Some (h', a') ∧
    evolves comp hdr par h (Br L c cn R) c h' u' a' ∧
    (depth_sum u' ≤ depth_sum (Br L c cn R))%nat.
Proof.
  intros IH Hloc HR HK.
  destruct R as [|rl rb0 rn rr]; [done|]. injection HR as ->.
  pose proof Hloc as (_ & (Hc & _ & Hl & Hr & _) & _).
  destruct (lookup_fields _ _ _ Hc) as (_ & _ & Hgr & _).
  rewrite Hgr, Hr. cbn [root_of nonnull]. cbv beta iota.
  destruct (IH (Br rl rb rn rr) h c rb true) as (h1 & R1 & rb1 & Hrun1 & Hev1 & Hds1).
  { cbn [depth_sum card] in *. lia. }
  { by apply (local_right hdr h par L c cn rl rb rn rr). }
  rewrite Hrun1. cbv beta iota.
  pose proof (evolves_in_right comp hdr h par _ c cn _ rb h1 R1 rb1 Hloc eq_refl Hev1) as Hup1.
  pose proof Hup1 as (Hloc1 & _).
  pose proof Hloc1 as (_ & (Hc1 & _ & Hl1 & Hr1 & _) & _).
  rewrite (set_right_same h1 c _ rb1 Hc1) by (by destruct cn).
  cbv beta iota.
  pose proof (evolves_card _ _ _ _ _ _ _ _ _ Hev1) as Hcard1.
  destruct (IH (Br L c (with_right cn (Some rb1)) R1) h1 par c flag)
    as (h3 & U3 & a3 & Hrun3 & Hev3 & Hds3); [|exact Hloc1|].
  { cbn [depth_sum card] in *. lia. }
  exists h3, U3, a3. split; [done|]. split.
  - by apply (evolves_trans comp hdr par h _ c h1 _ c h3 U3 a3 Hloc Hup1).
  - cbn [depth_sum card] in *. lia.
Qed.

(** One level of [insert_rebalance]: if the recursive calls succeed
    on every subtree of smaller internal path length, the call succeeds. *)
Lemma insert_rebalance_step comp hdr f K :
  (∀ x y z : T, comp x y = false → comp y z = false → comp x z = false) →
  rebalances comp hdr f K →
  ∀ (u : tree T) h par a flag,
    (depth_sum u ≤ K)%nat → local hdr h par u a →
    ∃ h' u' a', insert_rebalance (S f) hdr h a flag = Some (h', a') ∧
      evolves comp hdr par h u a h' u' a' ∧ (depth_sum u' ≤ depth_sum u)%nat.
Proof.
  intros Hnt IH u h par a flag HK Hloc.
  assert (∃ h' u' a', Some (h, a) = Some (h', a') ∧
            evolves comp hdr par h u a h' u' a' ∧ (depth_sum u' ≤ depth_sum u)%nat) as Hstay.
  { exists h, u, a. split; [done|]. split; [by apply evolves_refl|done]. }
  pose proof Hloc as (Hroot & Hrep & Hsz & Hnd & Hfit & Hhang).
  destruct u as [|l a0 n r]; [done|]. injection Hroot as ->.
  pose proof Hrep as (Ha & Hp & Hl & Hr & Hrl & Hrr).
  pose proof Hsz as (Hna & Hszl & Hszr).
  destruct (lookup_fields _ _ _ Ha) as (_ & Hgl & Hgr & _).
  pose proof (sized_size_of _ Hszl) as Hsl. pose proof (sized_size_of _ Hszr) as Hsr.
  destruct flag; cbn [insert_rebalance].
  - (* the right side may be too heavy *)
    rewrite Hgr, Hr. destruct r as [|rl b m rr]; [done|]. cbn [root_of]. cbv beta iota.
    rewrite Hgl, Hl. cbv beta iota. rewrite (size_or_zero_rep _ _ _ Hrl). cbv beta iota.
    pose proof Hrr as (Hb & Hbp & Hbl & Hbr & Hrrl & Hrrr).
    pose proof Hszr as (Hmb & Hszrl & Hszrr).
    destruct (lookup_fields _ _ _ Hb) as (_ & Hgbl & Hgbr & _).
    rewrite Hgbl, Hbl. cbv beta iota.
    rewrite (exceeds_rep _ _ _ _ Hrrl) by (rewrite Hsl; lia). cbv beta iota.
    destruct (size_of l <? size_of rl) eqn:Hc1.
    + (* case 1 *)
      apply Z.ltb_lt in Hc1. rewrite Hsl, (sized_size_of _ Hszrl) in Hc1.
      destruct rl as [|x c cn y]; [cbn in Hc1; lia|].
      destruct (right_rotate_evolves comp hdr h a x c cn y b m rr Hnt)
        as (h1 & n1 & m1 & Hrot1 & Hev1).
      { eapply local_right, Hloc. }
      rewrite Hrot1. cbv beta iota.
      pose proof (evolves_in_right comp hdr h par l a n _ b h1 _ c Hloc eq_refl Hev1) as Hup1.
      pose proof Hup1 as (Hloc1 & _).
      pose proof Hloc1 as (_ & (Ha1 & _) & _).
      rewrite (set_right_same h1 a _ c Ha1) by (by destruct n).
      cbv beta iota.
      destruct (left_rotate_evolves comp hdr h1 par l a _ x c m1 _ Hnt Hloc1)
        as (h2 & n2 & m2 & Hrot2 & Hev2).
      rewrite Hrot2. cbv beta iota.
      pose proof Hev2 as (Hloc2 & _).
      destruct (rebalance_both comp hdr f K h2 par _ c m2 _ a b true IH Hloc2 eq_refl eq_refl)
        as (h3 & u3 & a3 & Hrun3 & Hev3 & Hds3).
      { cbn [depth_sum card] in *. rewrite ?depth_sum_refresh, ?card_refresh. lia. }
      exists h3, u3, a3. split; [done|]. split.
      * apply (evolves_trans comp hdr par h _ a h1 _ a h3 u3 a3 Hloc Hup1).
        by apply (evolves_trans comp hdr par h1 _ a h2 _ c h3 u3 a3 Hloc1 Hev2).
      * cbn [depth_sum card] in *. rewrite ?depth_sum_refresh, ?card_refresh in Hds3. lia.
    + rewrite Hgbr, Hbr. cbv beta iota.
      rewrite (exceeds_rep _ _ _ _ Hrrr) by (rewrite Hsl; lia). cbv beta iota.
      destruct (size_of l <? size_of rr) eqn:Hc2; [|done].
      (* case 2 *)
      apply Z.ltb_lt in Hc2. rewrite Hsl, (sized_size_of _ Hszrr) in Hc2.
      destruct (left_rotate_evolves comp hdr h par l a n rl b m rr Hnt Hloc)
        as (h1 & n1 & m1 & Hrot1 & Hev1).
      rewrite Hrot1. cbv beta iota.
      pose proof Hev1 as (Hloc1 & _).
      destruct (rebalance_left_self comp hdr f K h1 par _ b m1 rr a true IH Hloc1 eq_refl)
        as (h3 & u3 & a3 & Hrun3 & Hev3 & Hds3).
      { cbn [depth_sum card] in *. rewrite ?depth_sum_refresh, ?card_refresh. lia. }
      exists h3, u3, a3. split; [done|]. split.
      * by apply (evolves_trans comp hdr par h _ a h1 _ b h3 u3 a3 Hloc Hev1).
      * cbn [depth_sum card] in *. rewrite ?depth_sum_refresh, ?card_refresh in Hds3. lia.
  - (* the left side may be too heavy *)
    rewrite Hgl, Hl. destruct l as [|ll b m lr]; [done|]. cbn [root_of]. cbv beta iota.
    rewrite Hgr, Hr. cbv beta iota. rewrite (size_or_zero_rep _ _ _ Hrr). cbv beta iota.
    pose proof Hrl as (Hb & Hbp & Hbl & Hbr & Hrll & Hrlr).
    pose proof Hszl as (Hmb & Hszll & Hszlr).
    destruct (lookup_fields _ _ _ Hb) as (_ & Hgbl & Hgbr & _).
    rewrite Hgbr, Hbr. cbv beta iota.
    rewrite (exceeds_rep _ _ _ _ Hrlr) by (rewrite Hsr; lia). cbv beta iota.
    destruct (size_of r <? size_of lr) eqn:Hc3.
    + (* case 3 *)
      apply Z.ltb_lt in Hc3. rewrite Hsr, (sized_size_of _ Hszlr) in Hc3.
      destruct lr as [|x c cn y]; [cbn in Hc3; lia|].
      destruct (left_rotate_evolves comp hdr h a ll b m x c cn y Hnt)
        as (h1 & n1 & m1 & Hrot1 & Hev1).
      { eapply local_left, Hloc. }
      rewrite Hrot1. cbv beta iota.
      pose proof (evolves_in_left comp hdr h par _ a n r b h1 _ c Hloc eq_refl Hev1) as Hup1.
      pose proof Hup1 as (Hloc1 & _).
      pose proof Hloc1 as (_ & (Ha1 & _) & _).
      rewrite (set_left_same h1 a _ c Ha1) by (by destruct n).
      cbv beta iota.
      destruct (right_rotate_evolves comp hdr h1 par _ c m1 y a _ r Hnt Hloc1)
        as (h2 & n2 & m2 & Hrot2 & Hev2).
      rewrite Hrot2. cbv beta iota.
      pose proof Hev2 as (Hloc2 & _).
      destruct (rebalance_both comp hdr f K h2 par _ c m2 _ b a false IH Hloc2 eq_refl eq_refl)
        as (h3 & u3 & a3 & Hrun3 & Hev3 & Hds3).
      { cbn [depth_sum card] in *. rewrite ?depth_sum_refresh, ?card_refresh. lia. }
      exists h3, u3, a3. split; [done|]. split.
      * apply (evolves_trans comp hdr par h _ a h1 _ a h3 u3 a3 Hloc Hup1).
        by apply (evolves_trans comp hdr par h1 _ a h2 _ c h3 u3 a3 Hloc1 Hev2).
      * cbn [depth_sum card] in *. rewrite ?depth_sum_refresh, ?card_refresh in Hds3. lia.
    + rewrite Hgbl, Hbl. cbv beta iota.
      rewrite (exceeds_rep _ _ _ _ Hrll) by (rewrite Hsr; lia). cbv beta iota.
      destruct (size_of r <? size_of ll) eqn:Hc4; [|done].
      (* case 4 *)
      apply Z.ltb_lt in Hc4. rewrite Hsr, (sized_size_of _ Hszll) in Hc4.
      destruct (right_rotate_evolves comp hdr h par ll b m lr a n r Hnt Hloc)
        as (h1 & n1 & m1 & Hrot1 & Hev1).
      rewrite Hrot1. cbv beta iota.
      pose proof Hev1 as (Hloc1 & _).
      destruct (rebalance_right_self comp hdr f K h1 par ll b m1 _ a false IH Hloc1 eq_refl)
        as (h3 & u3 & a3 & Hrun3 & Hev3 & Hds3).
      { cbn [depth_sum card] in *. rewrite ?depth_sum_refresh, ?card_refresh. lia. }
      exists h3, u3, a3. split; [done|]. split.
      * by apply (evolves_trans comp hdr par h _ a h1 _ b h3 u3 a3 Hloc Hev1).
      * cbn [depth_sum card] in *. rewrite ?depth_sum_refresh, ?card_refresh in Hds3. lia.
Qed.

Lemma insert_rebalance_rebalances comp hdr :
  (∀ x y z : T, comp x y = false → comp y z = false → comp x z = false) →
  ∀ K f, (K ≤ f)%nat → rebalances comp hdr f K.
Proof.
  intros Hnt K. induction K as [|K IH]; intros f Hf u h par a flag Hlt Hloc; [lia|].
  destruct f as [|f]; [lia|].
  apply (insert_rebalance_step comp hdr f K Hnt (IH f ltac:(lia))); [lia|done].
Qed.

Lemma depth_sum_le (t : tree T) : (depth_sum t ≤ card t * card t)%nat.
Proof. induction t as [|l IHl a n r IHr]; cbn [depth_sum card]; nia. Qed.

Lemma wf_local_root (s : @sb_tree T) w a :
  wf s w → root_of w = Some a → local (header s) (mem s) (header s) w a.
Proof.
  intros [(hn & Hh & Hroot & _) Hrep Hnd Hsz Hfit] Hw.
  apply NoDup_cons in Hnd as [Hhdr Hnd].
  unfold local, hangs. split_and!; try done.
  - by apply elem_of_addrs_root_of.
  - exists hn, hn. split_and!; try done. left. split; [done|]. by rewrite Hroot.
Qed.

Lemma local_subtree hdr h (u : tree T) : ∀ par a sub b,
  local hdr h par u a → sub ∈ subtrees u → root_of sub = Some b →
  ∃ par', local hdr h par' sub b.
Proof.
  induction u as [|l IHl c n r IHr]; intros par a sub b Hloc Hsub Hb.
  { apply list_elem_of_singleton in Hsub. by subst. }
  pose proof Hloc as (Hroot & _). injection Hroot as ->.
  cbn [subtrees] in Hsub. apply elem_of_cons in Hsub as [->|Hsub].
  { injection Hb as ->. by exists par. }
  apply elem_of_app in Hsub as [Hsub|Hsub].
  - destruct l as [|ll la ln lr].
    { apply list_elem_of_singleton in Hsub. by subst. }
    apply (IHl a la sub b); [|done|done]. eapply local_left, Hloc.
  - destruct r as [|rl rb rn rr].
    { apply list_elem_of_singleton in Hsub. by subst. }
    apply (IHr a rb sub b); [|done|done]. eapply local_right, Hloc.
Qed.

(** [insert_rebalance] and [erase_rebalance] terminate at every node of
    every well-formed container, balanced or not, and whatever the flag:
    with fuel above the square of the number of nodes they return, and
    the container is well formed again (links, header, exact sizes) with
    the same nodes and payloads in the same in-order sequence; an
    ordered tree stays ordered. *)
Theorem rebalance_terminates comp (s : @sb_tree T) (w : tree T) a flag f :
  (∀ x y z : T, comp x y = false → comp y z = false → comp x z = false) →
  wf s w → a ∈ addrs w → (card w * card w < f)%nat →
  ∃ h' a' w',
    insert_rebalance f (header s) (mem s) a flag = Some (h', a') ∧
    erase_rebalance f (header s) (mem s) a (negb flag) = Some (h', a') ∧
    wf (with_mem s h') w' ∧ addrs w' = addrs w ∧ elems w' = elems w ∧
    (ordered comp w → ordered comp w').
Proof.
  intros Hnt Hwf Ha Hf.
  destruct (subtree_at w a Ha) as (l & n & r & Hsub).
  assert (∃ wa, root_of w = Some wa) as (wa & Hwa).
  { destruct w; [by apply elem_of_nil in Ha|by eexists]. }
  destruct (local_subtree (header s) (mem s) w (header s) wa (Br l a n r) a
              (wf_local_root s w wa Hwf Hwa) Hsub eq_refl) as (par & Hloc).
  pose proof (subtree_card _ _ Hsub) as Hcard.
  pose proof (depth_sum_le (Br l a n r)) as Hds.
  destruct (insert_rebalance_rebalances comp (header s) Hnt (S (depth_sum (Br l a n r))) f
              ltac:(nia) (Br l a n r) (mem s) par a flag ltac:(lia) Hloc)
    as (h' & u' & a' & Hrun & Hev & _).
  destruct Hev as (Hloc' & A & E & O & P & F).
  pose proof Hloc as (_ & Hrep & _ & _ & _ & Hhang).
  pose proof Hrep as (Han & Hp & _).
  pose proof Hloc' as (Hroot' & Hrep' & Hsz' & _).
  pose proof Hhang as (_ & Hhx & Hpx & hn' & pn & Hh' & Hpn & Hcase).
  pose proof Hwf as [(hn & Hh & Hroot & _) Hrepw Hnd Hszw Hfit].
  assert (hn' = hn) as -> by congruence.
  apply NoDup_cons in Hnd as [Hhdr Hnd].
  assert (refresh h' u' = u') as Hfix by (by apply (refresh_id h' h' (Some par) u')).
  destruct (graft (mem s) h' (λ _, u') a a' (Br l a n r) comp n Han eq_refl)
    with (w := w) (par := Some (header s)) as (R & S & A' & E' & Rt & O'); try done.
  - by rewrite Hfix, Hp.
  - by rewrite Hfix.
  - by rewrite Hfix.
  - by rewrite Hfix.
  - intros p pn' Hpp Hpin Hpn'. rewrite Hp in Hpp. injection Hpp as <-.
    rewrite (P pn' Hpn'). unfold relink. rewrite decide_False; [done|]. by intros ->.
  - intros q Hq Hqs Hqp. apply F; [done|]. rewrite Hp in Hqp. by intros ->.
  - exists h', a', (refresh h' (at_node (λ _, u') a w)).
    split; [done|]. split; [by rewrite erase_rebalance_eq, negb_involutive|].
    split_and!; try done.
    apply (wf_after_graft s w h' _ a a' n hn Hwf Hh Han R S A' Rt).
    + intros Hra.
      assert (Br l a n r = w) as <- by (by apply (subtree_root w _ a Hnd Hsub Hra), elem_of_addrs_root).
      destruct Hrepw as (_ & Hpw & _). assert (par = header s) as -> by congruence.
      rewrite (P hn Hh). unfold relink. by rewrite decide_True.
    + intros Hra. rewrite <- Hh. apply F; [done|]. intros <-.
      destruct Hcase as [(_ & Hr)|(Hne & _)]; [|done]. congruence.
Qed.

(** * [clear] *)

Lemma lookup_wipe (l : list ptr) h q :
  wipe l h !! q = if decide (q ∈ l) then None else h !! q.
Proof.
  unfold wipe. induction l as [|x l IH]; cbn [foldr].
  - rewrite decide_False; [done|]. apply not_elem_of_nil.
  - rewrite lookup_delete. destruct (decide (x = q)) as [->|Hne].
    + rewrite decide_True; [done|by left].
    + rewrite IH. destruct (decide (q ∈ l)) as [Hin|Hin].
      * rewrite decide_True; [done|by right].
      * rewrite decide_False; [done|]. intros Hq. apply elem_of_cons in Hq as [?|?]; by simplify_eq.
Qed.

Lemma wipe_split (L R : list ptr) a (x : @node T) h :
  delete a (wipe R (<[a := x]> (wipe L h))) = wipe (L ++ a :: R) h.
Proof.
  apply map_eq. intros q. rewrite lookup_delete, !lookup_wipe.
  destruct (decide (a = q)) as [->|Hne].
  - rewrite decide_True; [done|]. apply elem_of_app. right. by left.
  - rewrite lookup_insert_ne by done. rewrite lookup_wipe.
    destruct (decide (q ∈ R)) as [HR|HR].
    + rewrite decide_True; [done|]. apply elem_of_app. right. by right.
    + destruct (decide (q ∈ L)) as [HL|HL].
      * rewrite decide_True; [done|]. apply elem_of_app. by left.
      * rewrite decide_False; [done|]. intros Hq.
        apply elem_of_app in Hq as [?|Hq]; [done|].
        apply elem_of_cons in Hq as [?|?]; by simplify_eq.
Qed.

(** One round of [erase_root] at a node without children. *)
Lemma erase_root_loop_leaf hdr h cur a n par pn f :
  leftmost (fuel_of h) h cur = Some a →
  h !! a = Some n → left n = None → right n = None → parent n = Some par →
  h !! par = Some pn → par ≠ a →
  erase_root_loop (S f) hdr h cur =
    (if decide (par = hdr) then Some (<[par := unlink pn a]> (delete a h))
     else erase_root_loop f hdr (<[par := unlink pn a]> (delete a h)) par).
Proof.
  intros Hlm Ha Hl Hr Hp Hpar Hne. cbn [erase_root_loop]. rewrite Hlm. cbv beta iota.
  destruct (lookup_fields _ _ _ Ha) as (Hgp & _ & Hgr & _).
  destruct (lookup_fields _ _ _ Hpar) as (_ & Hpl & _).
  rewrite Hgr, Hr. cbv beta iota. rewrite Hgp, Hp. unfold nonnull. cbv beta iota.
  rewrite Hpl. cbv beta iota.
  assert ((if decide (left pn = Some a) then set_left h par None else set_right h par None)
          = Some (<[par := unlink pn a]> h)) as ->.
  { unfold unlink. case_decide.
    - by apply set_left_insert.
    - by apply set_right_insert. }
  cbv beta iota zeta. by rewrite delete_insert_ne by done.
Qed.

(** One round of [erase_root] at a node with a right child. *)
Lemma erase_root_loop_right hdr h cur a n rb f :
  leftmost (fuel_of h) h cur = Some a → h !! a = Some n → right n = Some rb → rb ≠ hdr →
  erase_root_loop (S f) hdr h cur = erase_root_loop f hdr h rb.
Proof.
  intros Hlm Ha Hr Hne. cbn [erase_root_loop]. rewrite Hlm. cbv beta iota.
  destruct (lookup_fields _ _ _ Ha) as (_ & _ & Hgr & _).
  rewrite Hgr, Hr. cbv beta iota. by rewrite decide_False.
Qed.

Lemma leftmost_here h a n f : h !! a = Some n → left n = None → leftmost (S f) h a = Some a.
Proof.
  intros Ha Hl. cbn [leftmost]. destruct (lookup_fields _ _ _ Ha) as (_ & Hgl & _).
  by rewrite Hgl, Hl.
Qed.

(** [erase_root] on a subtree: started anywhere above the first node
    of the subtree [t] on its left spine, the loop frees every cell of
    [t], sets the link of the parent of [t] to null, and goes on at the
    parent (or stops, if that is the header). *)
Lemma erase_root_loop_subtree hdr t : ∀ h cur par pn f a,
  root_of t = Some a → rep h (Some par) t → NoDup (addrs t) →
  (par ∉ addrs t) → (hdr ∉ addrs t) → h !! par = Some pn →
  leftmost (fuel_of h) h cur = Some (hd a (addrs t)) →
  erase_root_loop (erase_steps t + f) hdr h cur =
    (if decide (par = hdr) then Some (<[par := unlink pn a]> (wipe (addrs t) h))
     else erase_root_loop f hdr (<[par := unlink pn a]> (wipe (addrs t) h)) par).
Proof.
  induction t as [|l IHl a0 n r IHr]; intros h cur par pn f a Hroot Hrep Hnd Hpar Hhdr Hpn Hlm;
    [done|].
  simpl in Hroot. injection Hroot as ->.
  cbn [rep] in Hrep. destruct Hrep as (Ha & Hp & Hl & Hr & Hrl & Hrr).
  destruct (NoDup_addrs_inv _ _ _ _ Hnd) as (Hndl & Hndr & Hal & Har & Hlr).
  assert (par ≠ a) as Hpa.
  { intros ->. apply Hpar, elem_of_addrs_root. }
  assert (a ≠ hdr) as Hah.
  { intros ->. apply Hhdr, elem_of_addrs_root. }
  (* the rounds spent once the left subtree is gone *)
  assert (∀ h1 n1 cur1 f1,
    h1 !! a = Some n1 → left n1 = None → right n1 = root_of r → parent n1 = Some par →
    rep h1 (Some a) r → h1 !! par = Some pn →
    leftmost (fuel_of h1) h1 cur1 = Some a →
    erase_root_loop (match r with Leaf => O | Br _ _ _ _ => S (erase_steps r) end + 1 + f1)
      hdr h1 cur1 =
      (if decide (par = hdr) then Some (<[par := unlink pn a]> (delete a (wipe (addrs r) h1)))
       else erase_root_loop f1 hdr (<[par := unlink pn a]> (delete a (wipe (addrs r) h1))) par))
    as Hnode.
  { intros h1 n1 cur1 f1 Ha1 Hl1 Hr1 Hp1 Hrr1 Hpn1 Hlm1.
    destruct r as [|rl rb rn rr].
    - replace (0 + 1 + f1)%nat with (S f1) by lia.
      by apply (erase_root_loop_leaf hdr h1 cur1 a n1 par pn f1).
    - replace (S (erase_steps (Br rl rb rn rr)) + 1 + f1)%nat
        with (S (erase_steps (Br rl rb rn rr) + S f1)) by lia.
      assert (rb ≠ hdr) as Hrbh.
      { intros ->. apply Hhdr, elem_of_addrs_right, elem_of_addrs_root. }
      rewrite (erase_root_loop_right hdr h1 cur1 a n1 rb _ Hlm1 Ha1 Hr1 Hrbh).
      rewrite (IHr h1 rb a n1 (S f1) rb eq_refl Hrr1 Hndr Har); [| |done|].
      2:{ intros Hin. by apply Hhdr, elem_of_addrs_right. }
      2:{ pose proof (rep_card_le _ _ _ Hrr1 Hndr) as Hc.
          pose proof (height_le_card (Br rl rb rn rr)) as Hh.
          apply (leftmost_spec _ _ _ _ _ Hrr1 eq_refl). unfold fuel_of. lia. }
      rewrite decide_False by done.
      assert (unlink n1 rb = with_right n1 None) as ->.
      { unfold unlink. rewrite decide_False; [done|]. by rewrite Hl1. }
      set (h2 := <[a := with_right n1 None]> (wipe (addrs (Br rl rb rn rr)) h1)).
      assert (h2 !! a = Some (with_right n1 None)) as Ha2 by apply lookup_insert_eq.
      assert (h2 !! par = Some pn) as Hpn2.
      { unfold h2. rewrite lookup_insert_ne by done. rewrite lookup_wipe.
        rewrite decide_False; [done|]. intros Hin. by apply Hpar, elem_of_addrs_right. }
      rewrite (erase_root_loop_leaf hdr h2 a a (with_right n1 None) par pn f1); try done.
      + unfold h2. rewrite delete_insert_eq. done.
      + apply (leftmost_here h2 a (with_right n1 None)); [done|by destruct n1]. }
  destruct l as [|ll la ln lr].
  - cbn [erase_steps addrs app hd] in *. rewrite Nat.add_0_l.
    rewrite (Hnode h n cur f); try done.
  - cbn [erase_steps].
    replace (erase_steps ll + match lr with Leaf => O | Br _ _ _ _ => S (erase_steps lr) end + 1 +
             match r with Leaf => O | Br _ _ _ _ => S (erase_steps r) end + 1 + f)%nat
      with (erase_steps (Br ll la ln lr) +
            (match r with Leaf => O | Br _ _ _ _ => S (erase_steps r) end + 1 + f))%nat
      by (cbn [erase_steps]; lia).
    rewrite (IHl h cur a n _ la eq_refl Hrl Hndl Hal); [|  |done|].
    2:{ intros Hin. by apply Hhdr, elem_of_addrs_left. }
    2:{ rewrite Hlm. f_equal. cbn [addrs]. rewrite <- app_assoc.
        by destruct (addrs ll). }
    rewrite decide_False by done.
    assert (unlink n la = with_left n None) as ->.
    { unfold unlink. by rewrite decide_True. }
    set (h1 := <[a := with_left n None]> (wipe (addrs (Br ll la ln lr)) h)).
    assert (∀ q, q ≠ a → (q ∉ addrs (Br ll la ln lr)) → h1 !! q = h !! q) as Hsame.
    { intros q Hqa Hql. unfold h1. rewrite lookup_insert_ne by done.
      rewrite lookup_wipe. by rewrite decide_False. }
    rewrite (Hnode h1 (with_left n None) a f).
    + unfold h1. by rewrite wipe_split.
    + apply lookup_insert_eq.
    + by destruct n.
    + by destruct n.
    + by destruct n.
    + apply (rep_frame_right h h1 a r Hrr). intros q Hq. apply Hsame.
      * by intros ->.
      * intros Hql. by apply (Hlr q Hql).
    + rewrite Hsame; [done|done|]. intros Hin. by apply Hpar, elem_of_addrs_left.
    + apply (leftmost_here h1 a (with_left n None)); [apply lookup_insert_eq|by destruct n].
Qed.

Lemma erase_steps_le (t : tree T) : (erase_steps t ≤ 2 * card t)%nat.
Proof.
  induction t as [|l IHl a n r IHr]; [done|]. cbn [erase_steps card].
  destruct r; cbn [card] in *; lia.
Qed.

Lemma wf_begin (s : @sb_tree T) t : wf s t → begin_ s = Some (nth 0 (addrs t) (end_ s)).
Proof.
  intros [(hn & Hhd & _ & Hl & _) _ _ _ _].
  unfold begin_, get_left. rewrite Hhd. simpl. rewrite Hl. unfold nonnull, end_.
  by destruct (addrs t).
Qed.

(** [clear] frees every node of the container and nothing else: the
    result is a well-formed empty container on the same header, no cell
    of a former node is left in the heap, and every cell that is neither
    a node nor the header is untouched.  [erase(begin(), end())] does
    the same and returns [end()]. *)
Theorem clear_frees_every_node (s : @sb_tree T) (w : tree T) :
  wf s w →
  ∃ s', clear s = Some s' ∧
    erase_range s (nth 0 (addrs w) (end_ s)) (end_ s) = Some (s', end_ s) ∧
    header s' = header s ∧ wf s' Leaf ∧
    (∀ q, q ∈ addrs w → mem s' !! q = None) ∧
    (∀ q, q ∉ addrs w → q ≠ header s → mem s' !! q = mem s !! q).
Proof.
  intros Hwf. pose proof (wf_card_lt _ _ Hwf) as Hcard.
  assert (∀ s', clear s = Some s' →
            erase_range s (nth 0 (addrs w) (end_ s)) (end_ s) = Some (s', end_ s)) as Hrange.
  { intros s' Hs'. unfold erase_range. rewrite (wf_begin _ _ Hwf). cbv beta iota.
    rewrite decide_True by done. by rewrite Hs'. }
  revert Hrange.
  destruct Hwf as [(hn & Hh & Hpar & Hleft & Hright & Hsize) Hrep Hnd Hsz Hfit].
  destruct (lookup_fields _ _ _ Hh) as (Hgp & _).
  unfold clear. rewrite Hgp, Hpar. cbv beta iota.
  destruct w as [|l a n r].
  - cbn [root_of]. intros Hrange. exists s. split_and!; try done.
    + by apply Hrange.
    + split; try done. exists hn. by split_and!.
    + intros q Hq. by apply elem_of_nil in Hq.
  - cbn [root_of]. unfold erase_root. rewrite Hgp, Hpar. cbn [root_of nonnull]. cbv beta iota.
    apply NoDup_cons in Hnd as [Hhdr Hnd].
    pose proof (erase_steps_le (Br l a n r)) as Hsteps.
    replace (2 * base.size (mem s))%nat
      with (erase_steps (Br l a n r) + (2 * base.size (mem s) - erase_steps (Br l a n r)))%nat
      by lia.
    rewrite (erase_root_loop_subtree (header s) (Br l a n r) (mem s) a (header s) hn _ a
               eq_refl Hrep Hnd Hhdr Hhdr Hh).
    2:{ apply (leftmost_spec _ _ _ _ _ Hrep eq_refl).
        pose proof (height_le_card (Br l a n r)). unfold fuel_of. lia. }
    rewrite decide_True by done.
    set (h1 := <[header s := unlink hn a]> (wipe (addrs (Br l a n r)) (mem s))).
    rewrite (set_parent_insert h1 (header s) (unlink hn a)) by apply lookup_insert_eq.
    cbv beta iota.
    rewrite (set_left_insert _ (header s) (with_parent (unlink hn a) None))
      by apply lookup_insert_eq.
    cbv beta iota.
    rewrite (set_right_insert _ (header s)
               (with_left (with_parent (unlink hn a) None) (Some (header s))))
      by apply lookup_insert_eq.
    cbv beta iota. intros Hrange.
    eexists. split; [done|]. split; [by apply Hrange|].
    cbn [with_mem header mem]. split_and!; try done.
    + split; cbn [mem header with_mem]; try done.
      * eexists. split; [apply lookup_insert_eq|].
        unfold header_ok, unlink. by destruct (decide _), hn.
      * apply NoDup_singleton.
    + intros q Hq. rewrite !lookup_insert_ne by (by intros <-).
      unfold h1. rewrite lookup_insert_ne by (by intros <-).
      rewrite lookup_wipe. by rewrite decide_True.
    + intros q Hq Hne. rewrite !lookup_insert_ne by done.
      unfold h1. rewrite lookup_insert_ne by done.
      rewrite lookup_wipe. by rewrite decide_False.
Qed.

(** Erasing an empty range, [erase(pos, pos)], changes nothing and
    returns [pos]. *)
Theorem erase_empty_range (s : @sb_tree T) (w : tree T) (pos : ptr) :
  wf s w → erase_range s pos pos = Some (s, pos).
Proof.
  intros Hwf. unfold erase_range. rewrite (wf_begin _ _ Hwf). cbv beta iota.
  destruct (decide _) as [[-> Hend]|_].
  - assert (w = Leaf) as ->.
    { destruct w as [|l a n r]; [done|]. exfalso.
      destruct Hwf as [_ _ Hnd _ _]. apply NoDup_cons in Hnd as [Hhdr _]. apply Hhdr.
      unfold end_ in Hend. destruct (addrs (Br l a n r)) as [|x xs] eqn:E.
      - cbn [addrs] in E. by destruct (addrs l).
      - simpl in Hend. rewrite <- Hend. by left. }
    unfold clear. rewrite (wf_root _ _ Hwf). done.
  - destruct (fuel_of (mem s)); cbn [erase_range_loop]; by rewrite decide_True.
Qed.

(** * The first and the last element *)

(** Inserting into an empty container, by [insert_equal] or by
    [insert_unique], makes the new node the root, with size 1 and no
    children; the header names it as root, first and last node.  The
    allocator is taken to hand out an address that is not in use. *)
Theorem insert_into_empty (comp : T → T → bool) (s : @sb_tree T) (v : T) :
  wf s Leaf → mem s !! next s = None →
  ∃ s', insert_equal_node comp s v = Some (s', next s) ∧
    insert_unique_node comp s v = Some (s', next s, true) ∧
    header s' = header s ∧
    wf s' (Br Leaf (next s) (Node (Some (header s)) None None 1 v) Leaf) ∧
    (∀ q, q ≠ next s → q ≠ header s → mem s' !! q = mem s !! q).
Proof.
  intros [(hn & Hh & Hpar & Hleft & Hright & Hsize) _ _ _ _] Hfresh.
  assert (header s ≠ next s) as Hne by (intros Heq; rewrite Heq in Hh; congruence).
  set (h1 := <[next s := Node None None None 1 v]> (mem s)).
  assert (get_parent h1 (header s) = Some None) as Hroot.
  { unfold get_parent, h1. rewrite lookup_insert_ne by done. rewrite Hh. cbn. by rewrite Hpar. }
  set (h2 := <[next s := Node (Some (header s)) None None 1 v]> h1).
  assert (attach_root (header s) h1 (next s) =
          Some (<[header s := Node (Some (next s)) (Some (next s)) (Some (next s))
                                (size hn) (data hn)]> h2)) as Hattach.
  { unfold attach_root.
    rewrite (set_parent_insert h1 (next s) (Node None None None 1 v))
      by apply lookup_insert_eq.
    cbv beta iota. fold h2.
    assert (h2 !! header s = Some hn) as Hh2.
    { unfold h2, h1. by rewrite !lookup_insert_ne by done. }
    rewrite (set_parent_insert h2 (header s) hn _ Hh2). cbv beta iota.
    rewrite (set_left_insert _ (header s) (with_parent hn (Some (next s))))
      by apply lookup_insert_eq.
    cbv beta iota.
    rewrite (set_right_insert _ (header s)
               (with_left (with_parent hn (Some (next s))) (Some (next s))))
      by apply lookup_insert_eq.
    f_equal. apply map_eq. intros q.
    destruct (decide (q = header s)) as [->|Hq].
    - by rewrite !lookup_insert_eq.
    - by rewrite !lookup_insert_ne by done. }
  eexists. split_and!.
  - unfold insert_equal_node, create_node. cbn [mem header]. fold h1.
    rewrite Hroot. cbv beta iota. rewrite Hattach. reflexivity.
  - unfold insert_unique_node. unfold get_parent. rewrite Hh. cbn. rewrite Hpar. cbn [root_of].
    unfold create_node. cbn [mem header]. fold h1. rewrite Hattach. reflexivity.
  - done.
  - constructor; cbn [mem header with_mem].
    + eexists. split; [apply lookup_insert_eq|]. by split_and!.
    + cbn [rep root_of]. split_and!; try done.
      rewrite lookup_insert_ne by done. apply lookup_insert_eq.
    + apply NoDup_cons. split; [|apply NoDup_singleton].
      intros Hin. apply list_elem_of_singleton in Hin. done.
    + cbn. done.
    + cbn. unfold size_max. lia.
  - intros q Hq1 Hq2. cbn [mem with_mem].
    rewrite lookup_insert_ne by done. unfold h2, h1. by rewrite !lookup_insert_ne by done.
Qed.

(** Erasing the only element leaves a well-formed empty container: the
    node is freed, the header is its own first and last node again, and
    the iterator returned is [end()]. *)
Theorem erase_only_element (s : @sb_tree T) (a : ptr) (n : @node T) :
  wf s (Br Leaf a n Leaf) →
  ∃ s', erase s a = Some (s', end_ s) ∧ header s' = header s ∧ wf s' Leaf ∧
    mem s' !! a = None ∧
    (∀ q, q ≠ a → q ≠ header s → mem s' !! q = mem s !! q).
Proof.
  intros Hwf. pose proof (wf_card_lt _ _ Hwf) as Hcard. cbn [card] in Hcard.
  destruct Hwf as [(hn & Hh & Hpar & Hleft & Hright & Hsize) Hrep Hnd Hsz _].
  cbn [rep root_of] in Hrep. destruct Hrep as (Ha & Hp & Hl & Hr & _ & _).
  cbn in Hpar, Hleft, Hright. destruct Hsz as (Hn1 & _). cbn in Hn1.
  apply NoDup_cons in Hnd as [Hhdr _].
  assert (a ≠ header s) as Hah.
  { intros ->. apply Hhdr. apply elem_of_addrs_root. }
  open_node n. open_node hn. fields Ha. fields Hh.
  assert (increment (mem s) a = Some (header s)) as Hinc.
  { unfold increment, fuel_of. destruct (base.size (mem s)) as [|k] eqn:Hk; [lia|].
    cbn [climb_from_right]. hread. done. }
  unfold erase, end_. rewrite decide_False by done. rewrite Hinc. cbv beta iota.
  unfold erase_node, erase_simple, relink_left_first, fuel_of.
  hrun. cbn [shrink_sizes]. hrun.
  cbn [erase_rebalance negb]. unfold size_or_zero, exceeds. hrun.
  rewrite bool_decide_eq_true_2 by done. cbn [negb]. change (0 <? 0) with false.
  cbv beta iota. cbn [erase_climb]. hrun.
  eexists. split; [reflexivity|]. cbn [with_mem header mem]. split_and!.
  - done.
  - constructor; cbn [mem header with_mem]; try done.
    + eexists. split.
      * rewrite lookup_delete_ne by done. apply cell_of_fields; hread; done.
      * by split_and!.
    + apply NoDup_singleton.
  - apply lookup_delete_eq.
  - intros q Hq1 Hq2. rewrite lookup_delete_ne by done. apply cell_unchanged; hread; done.
Qed.

(** * The primitive iterator *)

Lemma walks_nil step exit : walks step [] exit.
Proof. intros i it Hi. by rewrite lookup_nil in Hi. Qed.

Lemma walks_cons step x L exit :
  step x = Some (hd exit L) → walks step L exit → walks step (x :: L) exit.
Proof.
  intros Hx HL [|i] it Hi; simpl in Hi.
  - injection Hi as <-. rewrite Hx. by destruct L.
  - by apply HL.
Qed.

Lemma walks_app step L1 L2 exit :
  walks step L1 (hd exit L2) → walks step L2 exit → walks step (L1 ++ L2) exit.
Proof.
  intros H1 H2 i it Hi. apply lookup_app_Some in Hi as [Hi|[Hlen Hi]].
  - rewrite (H1 i it Hi). f_equal. apply lookup_lt_Some in Hi as Hlt.
    destruct (decide (S i < length L1)%nat) as [Hs|Hs].
    + rewrite app_nth1 by done. apply nth_indep. done.
    + rewrite app_nth2 by lia. rewrite nth_overflow by lia.
      replace (S i - length L1)%nat with O by lia. by destruct L2.
  - rewrite (H2 _ it Hi). f_equal. rewrite app_nth2 by lia.
    f_equal. lia.
Qed.

(** A node without children is left as a node that is revisited. *)
Lemma pincrement_childless h a n st :
  h !! a = Some n → left n = None → right n = None →
  pincrement h (PIter a st) = pincrement h (PIter a sb_tree_state_parent).
Proof.
  intros Ha Hl Hr. destruct (lookup_fields _ _ _ Ha) as (_ & Hgl & Hgr & _).
  unfold pincrement. cbn [pnode pstate].
  destruct (decide (sb_tree_state_parent ≠ sb_tree_state_parent)) as [Hn|_]; [done|].
  destruct (decide (st ≠ sb_tree_state_parent)); [|done].
  by rewrite Hgl, Hl, Hgr, Hr.
Qed.

(** Leaving a child [c] of the node [a]: to the right sibling if [c] is
    the left child and there is one, else up to [a]. *)
Lemma pincrement_up h a n c cn par :
  h !! a = Some n → h !! c = Some cn → parent cn = Some a → parent n = Some par → par ≠ c →
  pincrement h (PIter c sb_tree_state_parent) =
    Some (match right n with
          | Some r => if decide (c ≠ r) then PIter r sb_tree_state_sibling
                      else PIter a sb_tree_state_parent
          | None => PIter a sb_tree_state_parent
          end).
Proof.
  intros Ha Hc Hcp Hap Hne.
  destruct (lookup_fields _ _ _ Ha) as (Hgp & _ & Hgr & _).
  destruct (lookup_fields _ _ _ Hc) as (Hcgp & _).
  unfold pincrement. cbn [pnode pstate].
  destruct (decide (sb_tree_state_parent ≠ sb_tree_state_parent)) as [Hn|_]; [done|].
  cbv beta iota. rewrite Hcgp, Hcp. cbn [nonnull]. cbv beta iota. rewrite Hgp, Hap.
  cbv beta iota. rewrite decide_True by congruence. rewrite Hgr.
  destruct (right n) as [r|]; [|done]. by destruct (decide (c ≠ r)).
Qed.

Lemma pincrement_subtree h t : ∀ par st a exit,
  rep h (Some par) t → root_of t = Some a → NoDup (addrs t) → (par ∉ addrs t) →
  st ≠ sb_tree_state_parent →
  pincrement h (PIter a sb_tree_state_parent) = Some exit →
  walks (pincrement h) (ptour st t) exit.
Proof.
  induction t as [|l IHl a0 n r IHr]; intros par st a exit Hrep Hroot Hnd Hpar Hst Hexit; [done|].
  simpl in Hroot. injection Hroot as ->.
  pose proof Hrep as (Ha & Hp & Hl & Hr & Hrl & Hrr).
  destruct (NoDup_addrs_inv _ _ _ _ Hnd) as (Hndl & Hndr & Hal & Har & Hlr).
  destruct (lookup_fields _ _ _ Ha) as (Hgp & Hgl & Hgr & _).
  assert (∀ c, c ∈ addrs l ++ addrs r → par ≠ c) as Hparc.
  { intros c Hc ->. apply Hpar. cbn [addrs]. apply elem_of_app in Hc as [Hc|Hc].
    - apply elem_of_app. by left.
    - apply elem_of_app. right. by right. }
  set (ap := PIter a sb_tree_state_parent).
  assert (walks (pincrement h) [ap] exit) as Hlast.
  { apply walks_cons; [done|apply walks_nil]. }
  cbn [ptour].
  destruct l as [|ll la ln lr]; [destruct r as [|rl rb rn rr]|].
  - (* no children *)
    apply walks_cons; [|apply walks_nil]. cbn [hd].
    by rewrite (pincrement_childless h a n st Ha Hl Hr).
  - (* a right child only *)
    cbn [ptour app]. fold ap.
    change (PIter rb sb_tree_state_right ::
            match rl, rr with
            | Leaf, Leaf => []
            | _, _ => ptour sb_tree_state_left rl ++
                ptour (match rl with Leaf => sb_tree_state_right
                       | _ => sb_tree_state_sibling end) rr ++
                [PIter rb sb_tree_state_parent]
            end ++ [ap])
      with (ptour sb_tree_state_right (Br rl rb rn rr) ++ [ap]).
    apply walks_cons.
    + unfold pincrement. cbn [pnode pstate]. rewrite decide_True by done.
      rewrite Hgl, Hl. cbn [root_of]. cbv beta iota. rewrite decide_True by done.
      rewrite Hgr, Hr. done.
    + apply walks_app; [|done]. cbn [hd].
      pose proof Hrr as (Hb & Hbp & _).
      apply (IHr a sb_tree_state_right rb ap); try done.
      rewrite (pincrement_up h a n rb rn par Ha Hb Hbp Hp).
      * rewrite Hr. cbn [root_of]. by rewrite decide_False by (by intros H).
      * apply Hparc. apply elem_of_app. right. apply elem_of_addrs_root.
  - (* a left child *)
    set (TL := ptour sb_tree_state_left (Br ll la ln lr)).
    set (TR := ptour sb_tree_state_sibling r).
    change (walks (pincrement h) (PIter a st :: TL ++ TR ++ [ap]) exit).
    pose proof Hrl as (Hla & Hlap & _).
    apply walks_cons.
    + unfold pincrement. cbn [pnode pstate]. rewrite decide_True by done.
      rewrite Hgl, Hl. done.
    + apply walks_app; [|apply walks_app; [|done]].
      * apply (IHl a sb_tree_state_left la); try done.
        rewrite (pincrement_up h a n la ln par Ha Hla Hlap Hp).
        2:{ apply Hparc. apply elem_of_app. left. apply elem_of_addrs_root. }
        rewrite Hr. unfold TR. destruct r as [|rl rb rn rr]; [done|].
        cbn [root_of ptour hd app]. rewrite decide_True; [done|].
        intros ->. apply (Hlr rb); apply elem_of_addrs_root.
      * cbn [hd]. unfold TR. destruct r as [|rl rb rn rr]; [apply walks_nil|].
        pose proof Hrr as (Hb & Hbp & _).
        apply (IHr a sb_tree_state_sibling rb ap); try done.
        rewrite (pincrement_up h a n rb rn par Ha Hb Hbp Hp).
        -- rewrite Hr. cbn [root_of]. by rewrite decide_False by (by intros H).
        -- apply Hparc. apply elem_of_app. right. apply elem_of_addrs_root.
Qed.

(** [pbegin()] is the root, and [operator++] of the primitive iterator
    walks the tree in pre-order, coming back to each node with children
    once they are done: it leads from each position of the walk to the
    next one, and from the last one to the header, which is the node of
    [pend()].  Of an empty container [pbegin()] is [pend()]. *)
Theorem pincrement_walk (s : @sb_tree T) t :
  wf s t →
  pbegin s = Some (nth 0 (ptour sb_tree_state_root t) (pend s)) ∧
  (∀ i it, ptour sb_tree_state_root t !! i = Some it →
     pincrement (mem s) it =
       Some (nth (S i) (ptour sb_tree_state_root t)
               (PIter (header s) sb_tree_state_parent))) ∧
  piter_eqb (PIter (header s) sb_tree_state_parent) (pend s) = true.
Proof.
  intros Hwf. pose proof (wf_root _ _ Hwf) as Hroot.
  destruct Hwf as [(hn & Hh & Hpar & _) Hrep Hnd _ _].
  apply NoDup_cons in Hnd as [Hhdr Hnd].
  split_and!.
  - unfold pbegin, root. rewrite Hroot. by destruct t.
  - destruct t as [|l a n r]; [intros i it Hi; by destruct i|].
    apply (pincrement_subtree (mem s) (Br l a n r) (header s) sb_tree_state_root a); try done.
    pose proof Hrep as (Ha & Hp & _).
    destruct (lookup_fields _ _ _ Ha) as (Hgp & _).
    unfold pincrement. cbn [pnode pstate].
    destruct (decide (sb_tree_state_parent ≠ sb_tree_state_parent)) as [Hn|_]; [done|].
    cbv beta iota. rewrite Hgp, Hp. cbn [nonnull]. cbv beta iota. rewrite Hroot.
    cbn [root_of]. by rewrite decide_False by (by intros H).
  - unfold piter_eqb, pend. cbn [pnode]. by apply bool_decide_eq_true.
Qed.

Lemma pdecrement_childless h a n st :
  h !! a = Some n → left n = None → right n = None →
  pdecrement h (PIter a st) = pdecrement h (PIter a sb_tree_state_parent).
Proof.
  intros Ha Hl Hr. destruct (lookup_fields _ _ _ Ha) as (_ & Hgl & Hgr & _).
  unfold pdecrement. cbn [pnode pstate].
  destruct (decide (sb_tree_state_parent ≠ sb_tree_state_parent)) as [Hn|_]; [done|].
  destruct (decide (st ≠ sb_tree_state_parent)); [|done].
  by rewrite Hgl, Hl, Hgr, Hr.
Qed.

(** Leaving a child [c] of the node [a] backwards: to the left sibling
    if [c] is the right child and there is one, else up to [a]. *)
Lemma pdecrement_up h a n c cn par :
  h !! a = Some n → h !! c = Some cn → parent cn = Some a → parent n = Some par → par ≠ c →
  pdecrement h (PIter c sb_tree_state_parent) =
    Some (match left n with
          | Some r => if decide (c ≠ r) then PIter r sb_tree_state_sibling
                      else PIter a sb_tree_state_parent
          | None => PIter a sb_tree_state_parent
          end).
Proof.
  intros Ha Hc Hcp Hap Hne.
  destruct (lookup_fields _ _ _ Ha) as (Hgp & Hgl & _).
  destruct (lookup_fields _ _ _ Hc) as (Hcgp & _).
  unfold pdecrement. cbn [pnode pstate].
  destruct (decide (sb_tree_state_parent ≠ sb_tree_state_parent)) as [Hn|_]; [done|].
  cbv beta iota. rewrite Hcgp, Hcp. cbn [nonnull]. cbv beta iota. rewrite Hgp, Hap.
  cbv beta iota. rewrite decide_True by congruence. rewrite Hgl.
  destruct (left n) as [r|]; [|done]. by destruct (decide (c ≠ r)).
Qed.

Lemma pdecrement_subtree h t : ∀ par st a exit,
  rep h (Some par) t → root_of t = Some a → NoDup (addrs t) → (par ∉ addrs t) →
  st ≠ sb_tree_state_parent →
  pdecrement h (PIter a sb_tree_state_parent) = Some exit →
  walks (pdecrement h) (ptour_back st t) exit.
Proof.
  induction t as [|l IHl a0 n r IHr]; intros par st a exit Hrep Hroot Hnd Hpar Hst Hexit; [done|].
  simpl in Hroot. injection Hroot as ->.
  pose proof Hrep as (Ha & Hp & Hl & Hr & Hrl & Hrr).
  destruct (NoDup_addrs_inv _ _ _ _ Hnd) as (Hndl & Hndr & Hal & Har & Hlr).
  destruct (lookup_fields _ _ _ Ha) as (Hgp & Hgl & Hgr & _).
  assert (∀ c, c ∈ addrs l ++ addrs r → par ≠ c) as Hparc.
  { intros c Hc ->. apply Hpar. cbn [addrs]. apply elem_of_app in Hc as [Hc|Hc].
    - apply elem_of_app. by left.
    - apply elem_of_app. right. by right. }
  set (ap := PIter a sb_tree_state_parent).
  assert (walks (pdecrement h) [ap] exit) as Hlast.
  { apply walks_cons; [done|apply walks_nil]. }
  cbn [ptour_back].
  destruct r as [|rl rb rn rr]; [destruct l as [|ll la ln lr]|].
  - (* no children *)
    apply walks_cons; [|apply walks_nil]. cbn [hd].
    by rewrite (pdecrement_childless h a n st Ha Hl Hr).
  - (* a left child only *)
    cbn [ptour_back app]. fold ap.
    change (PIter la sb_tree_state_left ::
            match lr, ll with
            | Leaf, Leaf => []
            | _, _ => ptour_back sb_tree_state_right lr ++
                ptour_back (match lr with Leaf => sb_tree_state_left
                            | _ => sb_tree_state_sibling end) ll ++
                [PIter la sb_tree_state_parent]
            end ++ [ap])
      with (ptour_back sb_tree_state_left (Br ll la ln lr) ++ [ap]).
    apply walks_cons.
    + unfold pdecrement. cbn [pnode pstate]. rewrite decide_True by done.
      rewrite Hgr, Hr. cbn [root_of]. cbv beta iota. rewrite decide_True by done.
      rewrite Hgl, Hl. done.
    + apply walks_app; [|done]. cbn [hd].
      pose proof Hrl as (Hb & Hbp & _).
      apply (IHl a sb_tree_state_left la ap); try done.
      rewrite (pdecrement_up h a n la ln par Ha Hb Hbp Hp).
      * rewrite Hl. cbn [root_of]. by rewrite decide_False by (by intros H).
      * apply Hparc. apply elem_of_app. left. apply elem_of_addrs_root.
  - (* a right child *)
    set (TR := ptour_back sb_tree_state_right (Br rl rb rn rr)).
    set (TL := ptour_back sb_tree_state_sibling l).
    change (walks (pdecrement h) (PIter a st :: TR ++ TL ++ [ap]) exit).
    pose proof Hrr as (Hrb & Hrbp & _).
    apply walks_cons.
    + unfold pdecrement. cbn [pnode pstate]. rewrite decide_True by done.
      rewrite Hgr, Hr. done.
    + apply walks_app; [|apply walks_app; [|done]].
      * apply (IHr a sb_tree_state_right rb); try done.
        rewrite (pdecrement_up h a n rb rn par Ha Hrb Hrbp Hp).
        2:{ apply Hparc. apply elem_of_app. right. apply elem_of_addrs_root. }
        rewrite Hl. unfold TL. destruct l as [|ll la ln lr]; [done|].
        cbn [root_of ptour_back hd app]. rewrite decide_True; [done|].
        intros ->. apply (Hlr la); apply elem_of_addrs_root.
      * cbn [hd]. unfold TL. destruct l as [|ll la ln lr]; [apply walks_nil|].
        pose proof Hrl as (Hb & Hbp & _).
        apply (IHl a sb_tree_state_sibling la ap); try done.
        rewrite (pdecrement_up h a n la ln par Ha Hb Hbp Hp).
        -- rewrite Hl. cbn [root_of]. by rewrite decide_False by (by intros H).
        -- apply Hparc. apply elem_of_app. left. apply elem_of_addrs_root.
Qed.

(** [operator--] of the primitive iterator, started at the root, walks
    the tree in mirrored pre-order (right subtree first) and ends at
    the header.  Started at [pend()] it moves to the last node of the
    in-order listing, in state [sb_tree_state_right]; that is the header
    itself in an empty container. *)
Theorem pdecrement_walk (s : @sb_tree T) t :
  wf s t →
  (∀ i it, ptour_back sb_tree_state_root t !! i = Some it →
     pdecrement (mem s) it =
       Some (nth (S i) (ptour_back sb_tree_state_root t)
               (PIter (header s) sb_tree_state_parent))) ∧
  pdecrement (mem s) (pend s) =
    Some (PIter (List.last (addrs t) (header s)) sb_tree_state_right).
Proof.
  intros Hwf. pose proof (wf_root _ _ Hwf) as Hroot.
  destruct Hwf as [(hn & Hh & Hpar & _ & Hright & _) Hrep Hnd _ _].
  apply NoDup_cons in Hnd as [Hhdr Hnd].
  split.
  - destruct t as [|l a n r]; [intros i it Hi; by destruct i|].
    apply (pdecrement_subtree (mem s) (Br l a n r) (header s) sb_tree_state_root a); try done.
    pose proof Hrep as (Ha & Hp & _).
    destruct (lookup_fields _ _ _ Ha) as (Hgp & _).
    unfold pdecrement. cbn [pnode pstate].
    destruct (decide (sb_tree_state_parent ≠ sb_tree_state_parent)) as [Hn|_]; [done|].
    cbv beta iota. rewrite Hgp, Hp. cbn [nonnull]. cbv beta iota. rewrite Hroot.
    cbn [root_of]. by rewrite decide_False by (by intros H).
  - destruct (lookup_fields _ _ _ Hh) as (_ & _ & Hgr & _).
    unfold pdecrement, pend. cbn [pnode pstate]. rewrite decide_True by done.
    by rewrite Hgr, Hright.
Qed.

Lemma running_app c (l1 l2 : list Z) :
  running c (l1 ++ l2) = running c l1 ++ running (c + foldr Z.add 0 l1) l2.
Proof.
  revert c. induction l1 as [|x l1 IH]; intros c; cbn [app running foldr].
  - by rewrite Z.add_0_r.
  - rewrite IH. do 3 f_equal. lia.
Qed.

Lemma foldr_add_app (l1 l2 : list Z) :
  foldr Z.add 0 (l1 ++ l2) = foldr Z.add 0 l1 + foldr Z.add 0 l2.
Proof. induction l1 as [|x l1 IH]; cbn [app foldr]; [done|]. rewrite IH. lia. Qed.

Lemma ptour_inner st (l : tree T) a n r :
  l ≠ Leaf ∨ r ≠ Leaf →
  ptour st (Br l a n r) =
    PIter a st :: ptour sb_tree_state_left l ++
      ptour (match l with Leaf => sb_tree_state_right | _ => sb_tree_state_sibling end) r ++
      [PIter a sb_tree_state_parent].
Proof. destruct l, r; intros [H|H]; done. Qed.

Lemma pdepths_inner d (l : tree T) a n r :
  l ≠ Leaf ∨ r ≠ Leaf →
  pdepths d (Br l a n r) = d :: pdepths (d + 1) l ++ pdepths (d + 1) r ++ [d].
Proof. destruct l, r; intros [H|H]; done. Qed.

Lemma get_depth_subtree (t : tree T) : ∀ st d c,
  c + Z.shiftr st 4 = d →
  running c (get_depth <$> ptour st t) = pdepths d t ∧
  (t ≠ Leaf → c + foldr Z.add 0 (get_depth <$> ptour st t) = d).
Proof.
  induction t as [|l IHl a n r IHr]; intros st d c Hd; [done|].
  assert ((l = Leaf ∧ r = Leaf) ∨ (l ≠ Leaf ∨ r ≠ Leaf)) as [[-> ->]|Hin]
    by (destruct l, r; [by left|right; by right|right; by left|right; by left]).
  { cbn [ptour pdepths fmap list_fmap running foldr]. unfold get_depth. cbn [pstate].
    rewrite Hd. split; [done|]. intros _. lia. }
  rewrite (ptour_inner _ _ _ _ _ Hin), (pdepths_inner _ _ _ _ _ Hin).
  destruct (IHl sb_tree_state_left (d + 1) d eq_refl) as [Ll Sl].
  set (str := match l with Leaf => sb_tree_state_right | _ => sb_tree_state_sibling end).
  assert (d + foldr Z.add 0 (get_depth <$> ptour sb_tree_state_left l) + Z.shiftr str 4 = d + 1)
    as Hr.
  { unfold str. destruct l as [|ll la ln lr].
    - change (Z.shiftr sb_tree_state_right 4) with 1. cbn. lia.
    - rewrite (Sl ltac:(done)). change (Z.shiftr sb_tree_state_sibling 4) with 0. lia. }
  destruct (IHr str (d + 1) _ Hr) as [Lr Sr].
  assert (d + foldr Z.add 0 (get_depth <$> ptour sb_tree_state_left l) +
          foldr Z.add 0 (get_depth <$> ptour str r) = d + 1) as Hafter.
  { destruct r as [|rl rb rn rr].
    - destruct Hin as [Hl|Hr']; [|done]. rewrite (Sl Hl). cbn. lia.
    - by apply Sr. }
  rewrite fmap_cons, !fmap_app. cbn [fmap list_fmap running].
  assert (∀ x y, get_depth (PIter x y) = Z.shiftr y 4) as Hgd by done.
  rewrite !Hgd, Hd, !running_app, Ll, Lr. cbn [running].
  change (Z.shiftr sb_tree_state_parent 4) with (-1).
  split.
  - do 4 f_equal. lia.
  - intros _. cbn [foldr]. rewrite !foldr_add_app. cbn [foldr]. lia.
Qed.

Lemma psteps_walks h L exit :
  walks (pincrement h) L exit →
  ∀ i j it c, L !! j = Some it → (j + i < length L)%nat →
    ∃ it' x, L !! (j + i)%nat = Some it' ∧
             running c (get_depth <$> drop j L) !! i = Some x ∧
             psteps i h it c = Some (it', x).
Proof.
  intros Hw i. induction i as [|i IH]; intros j it c Hj Hlen.
  - exists it, (c + get_depth it). rewrite Nat.add_0_r.
    rewrite (drop_S _ _ _ Hj). by split_and!.
  - destruct (lookup_lt_is_Some_2 L (S j)) as [it1 H1]; [lia|].
    destruct (IH (S j) it1 (c + get_depth it) H1 ltac:(lia)) as (it' & x & Hl & Hr & Hs).
    exists it', x. replace (j + S i)%nat with (S j + i)%nat by lia. split_and!; [done| |].
    + by rewrite (drop_S _ _ _ Hj).
    + cbn [psteps]. rewrite (Hw j it Hj). by rewrite (nth_lookup_Some _ _ _ _ H1).
Qed.

Lemma ptour_nodes (t : tree T) : ∀ st it, it ∈ ptour st t → pnode it ∈ addrs t.
Proof.
  induction t as [|l IHl a n r IHr]; intros st it Hin; [by apply elem_of_nil in Hin|].
  cbn [ptour] in Hin. apply elem_of_cons in Hin as [->|Hin]; [apply elem_of_addrs_root|].
  assert (it ∈ ptour sb_tree_state_left l ++
                 ptour (match l with
                        | Leaf => sb_tree_state_right
                        | _ => sb_tree_state_sibling
                        end) r ++ [PIter a sb_tree_state_parent]) as Hin'.
  { destruct l, r; try done. by apply elem_of_nil in Hin. }
  apply elem_of_app in Hin' as [Hin'|Hin']; [by eapply elem_of_addrs_left, IHl|].
  apply elem_of_app in Hin' as [Hin'|Hin']; [by eapply elem_of_addrs_right, IHr|].
  apply list_elem_of_singleton in Hin' as ->. apply elem_of_addrs_root.
Qed.

Lemma depth_of_outside (t : tree T) : ∀ d a, a ∉ addrs t → depth_of d t a = None.
Proof.
  induction t as [|l IHl b n r IHr]; intros d a Hin; [done|]. cbn [depth_of].
  rewrite decide_False by (intros ->; apply Hin, elem_of_addrs_root).
  rewrite IHl by (intros H; by apply Hin, elem_of_addrs_left).
  apply IHr. intros H. by apply Hin, elem_of_addrs_right.
Qed.

(** The depths listed by [pdepths] are the depths of the nodes that
    the walk visits. *)
Lemma depth_of_tour (t : tree T) : ∀ st d,
  NoDup (addrs t) →
  (λ it, depth_of d t (pnode it)) <$> ptour st t = Some <$> pdepths d t.
Proof.
  induction t as [|l IHl a n r IHr]; intros st d Hnd; [done|].
  cbn [addrs] in Hnd. apply NoDup_app in Hnd as (Hndl & Hlr & Hndr).
  apply NoDup_cons in Hndr as (Har & Hndr).
  assert (depth_of d (Br l a n r) a = Some d) as Ha.
  { cbn [depth_of]. by rewrite decide_True. }
  assert ((λ it, depth_of d (Br l a n r) (pnode it)) <$> ptour sb_tree_state_left l =
          Some <$> pdepths (d + 1) l) as Hl.
  { rewrite <- (IHl sb_tree_state_left (d + 1) Hndl). apply list_fmap_ext.
    intros i it Hi. apply list_elem_of_lookup_2, ptour_nodes in Hi.
    cbn [depth_of]. rewrite decide_False.
    2:{ intros Heq. rewrite Heq in Hi. apply (Hlr a Hi). by left. }
    destruct (depth_of (d + 1) l (pnode it)) eqn:E; [done|].
    exfalso. clear -Hi E. revert d E. induction l as [|ll IHll b m lr IHlr]; intros d E.
    - by apply elem_of_nil in Hi.
    - cbn [depth_of] in E. destruct (decide (pnode it = b)); [done|].
      cbn [addrs] in Hi. apply elem_of_app in Hi as [Hi|Hi].
      + destruct (depth_of (d + 1 + 1) ll (pnode it)) eqn:E'; [done|]. by eapply IHll.
      + apply elem_of_cons in Hi as [Hi|Hi]; [done|].
        destruct (depth_of (d + 1 + 1) ll (pnode it)); [done|]. by eapply IHlr. }
  assert (∀ st', (λ it, depth_of d (Br l a n r) (pnode it)) <$> ptour st' r =
                 Some <$> pdepths (d + 1) r) as Hr.
  { intros st'. rewrite <- (IHr st' (d + 1) Hndr). apply list_fmap_ext.
    intros i it Hi. apply list_elem_of_lookup_2, ptour_nodes in Hi.
    cbn [depth_of]. rewrite decide_False by (intros Heq; by rewrite Heq in Hi).
    rewrite depth_of_outside; [done|]. intros Hin. apply (Hlr _ Hin). by right. }
  cbn [ptour pdepths]. rewrite !fmap_cons. cbn [pnode]. rewrite Ha. f_equal.
  destruct l as [|ll la ln lr]; [destruct r as [|rl rb rn rr]; [done|]|];
    rewrite !fmap_app, Hl, Hr; cbn [fmap list_fmap pnode]; by rewrite Ha.
Qed.

(** The walk of [operator++] from the root, as a fact about the tour. *)
Lemma pincrement_tour (s : @sb_tree T) t :
  wf s t →
  walks (pincrement (mem s)) (ptour sb_tree_state_root t)
    (PIter (header s) sb_tree_state_parent).
Proof.
  intros Hwf. pose proof (wf_root _ _ Hwf) as Hroot.
  destruct Hwf as [(hn & Hh & Hpar & _) Hrep Hnd _ _].
  apply NoDup_cons in Hnd as [Hhdr Hnd].
  destruct t as [|l a n r]; [intros i it Hi; by destruct i|].
  apply (pincrement_subtree (mem s) (Br l a n r) (header s) sb_tree_state_root a); try done.
  pose proof Hrep as (Ha & Hp & _).
  destruct (lookup_fields _ _ _ Ha) as (Hgp & _).
  unfold pincrement. cbn [pnode pstate].
  destruct (decide (sb_tree_state_parent ≠ sb_tree_state_parent)) as [Hn|_]; [done|].
  cbv beta iota. rewrite Hgp, Hp. cbn [nonnull]. cbv beta iota. rewrite Hroot.
  cbn [root_of]. by rewrite decide_False by (by intros H).
Qed.

(** Summing [get_depth()] along the walk of the primitive iterator
    gives the depth of the node reached: [i] applications of
    [operator++] to [pbegin()] return, for every position [i] of the
    walk, the iterator of that position, and the sum of [get_depth()]
    over the iterators passed is the number of [parent] links from its
    node to the root. *)
Theorem get_depth_running_sum (s : @sb_tree T) t i :
  wf s t → (i < length (ptour sb_tree_state_root t))%nat →
  ∃ b it c, pbegin s = Some b ∧ psteps i (mem s) b 0 = Some (it, c) ∧
    ptour sb_tree_state_root t !! i = Some it ∧
    depth_of 0 t (pnode it) = Some c.
Proof.
  intros Hwf Hi. pose proof (pincrement_tour s t Hwf) as Hw.
  destruct (lookup_lt_is_Some_2 (ptour sb_tree_state_root t) 0) as [b Hb]; [lia|].
  destruct (psteps_walks _ _ _ Hw i 0%nat b 0 Hb Hi) as (it & c & Hit & Hrun & Hst).
  change (0 + i)%nat with i in Hit.
  exists b, it, c. split_and!; [|done|done|].
  - unfold pbegin, root. rewrite (wf_root _ _ Hwf). destruct t; [done|].
    cbn in Hb. by simplify_eq.
  - rewrite drop_0 in Hrun.
    destruct (get_depth_subtree t sb_tree_state_root 0 0 eq_refl) as [Hsum _].
    rewrite Hsum in Hrun.
    assert (NoDup (addrs t)) as Hnd.
    { destruct Hwf as [_ _ Hnd _ _]. by apply NoDup_cons in Hnd as [_ Hnd]. }
    pose proof (depth_of_tour t sb_tree_state_root 0 Hnd) as Heq.
    apply (f_equal (λ L, L !! i)) in Heq. rewrite !list_lookup_fmap in Heq.
    rewrite Hit, Hrun in Heq. cbn in Heq. by simplify_eq.
Qed.

(** * Copying *)

Lemma fresh_lt (s : @sb_tree T) q x : fresh s → mem s !! q = Some x → (q < next s)%positive.
Proof.
  intros Hf Hq. destruct (decide (q < next s)%positive) as [|Hge]; [done|].
  rewrite Hf in Hq by lia. done.
Qed.

Lemma copy_cell_spec (s : @sb_tree T) src n (par : gmap ptr (@node T) → option (option ptr)) v :
  fresh s → mem s !! src = Some n →
  par (<[next s := Node None None None 1 (data n)]> (mem s)) = Some v →
  copy_cell s src par =
    Some (Tree (<[next s := Node v None None (size n) (data n)]> (mem s)) (header s)
            (Pos.succ (next s)), next s).
Proof.
  intros Hf Hsrc Hpar. pose proof (fresh_lt s src n Hf Hsrc) as Hlt.
  unfold copy_cell, get_data. rewrite Hsrc. cbn [fmap option_fmap option_map].
  unfold create_node. cbn [mem]. rewrite Hpar.
  rewrite (set_parent_insert _ (next s) (Node None None None 1 (data n)))
    by apply lookup_insert_eq.
  cbv beta iota.
  rewrite (set_left_insert _ (next s) (with_parent (Node None None None 1 (data n)) v))
    by apply lookup_insert_eq.
  cbv beta iota.
  rewrite (set_right_insert _ (next s)
             (with_left (with_parent (Node None None None 1 (data n)) v) None))
    by apply lookup_insert_eq.
  cbv beta iota.
  unfold get_size. rewrite !lookup_insert_ne by lia. rewrite Hsrc.
  cbn [fmap option_fmap option_map].
  rewrite (set_size_insert _ (next s)
             (with_right (with_left (with_parent (Node None None None 1 (data n)) v) None) None))
    by apply lookup_insert_eq.
  f_equal. f_equal. unfold with_mem. cbn [header next]. f_equal.
  apply map_eq. intros q. destruct (decide (q = next s)) as [->|Hq].
  - by rewrite !lookup_insert_eq.
  - by rewrite !lookup_insert_ne by done.
Qed.

Lemma copy_step_left (s : @sb_tree T) a n c cn d dn :
  fresh s → mem s !! a = Some n → left n = Some c → mem s !! c = Some cn →
  mem s !! d = Some dn →
  copy_step s true a d =
    Some (Tree (<[d := with_left dn (Some (next s))]>
                  (<[next s := Node (Some d) None None (size cn) (data cn)]> (mem s)))
            (header s) (Pos.succ (next s)), true, c, Some (next s)).
Proof.
  intros Hf Ha Hl Hc Hd. pose proof (fresh_lt s d dn Hf Hd) as Hlt.
  unfold copy_step. destruct (lookup_fields _ _ _ Ha) as (_ & Hgl & _).
  rewrite Hgl, Hl. cbv beta iota.
  rewrite (copy_cell_spec s c cn _ (Some d) Hf Hc eq_refl). cbv beta iota. cbn [mem].
  rewrite (set_left_insert _ d dn) by (rewrite lookup_insert_ne; [done|lia]).
  done.
Qed.

Lemma copy_step_right (s : @sb_tree T) a n c cn d dn :
  fresh s → mem s !! a = Some n → left n = None → right n = Some c →
  mem s !! c = Some cn → mem s !! d = Some dn →
  copy_step s true a d =
    Some (Tree (<[d := with_right dn (Some (next s))]>
                  (<[next s := Node (Some d) None None (size cn) (data cn)]> (mem s)))
            (header s) (Pos.succ (next s)), true, c, Some (next s)).
Proof.
  intros Hf Ha Hl Hr Hc Hd. pose proof (fresh_lt s d dn Hf Hd) as Hlt.
  unfold copy_step. destruct (lookup_fields _ _ _ Ha) as (_ & Hgl & Hgr & _).
  rewrite Hgl, Hl. cbv beta iota. rewrite Hgr, Hr. cbv beta iota.
  rewrite (copy_cell_spec s c cn _ (Some d) Hf Hc eq_refl). cbv beta iota. cbn [mem].
  rewrite (set_right_insert _ d dn) by (rewrite lookup_insert_ne; [done|lia]).
  done.
Qed.

(** With the flag down, or at a node without children, the loop leaves
    the node: over to the right sibling if there is one ... *)
Lemma copy_step_over (s : @sb_tree T) flag a n p pn c cn d dn dp dpn :
  fresh s → mem s !! a = Some n → (flag = true → left n = None ∧ right n = None) →
  parent n = Some p → mem s !! p = Some pn → right pn = Some c → a ≠ c →
  mem s !! c = Some cn → mem s !! d = Some dn → parent dn = Some dp →
  mem s !! dp = Some dpn →
  copy_step s flag a d =
    Some (Tree (<[dp := with_right dpn (Some (next s))]>
                  (<[next s := Node (Some dp) None None (size cn) (data cn)]> (mem s)))
            (header s) (Pos.succ (next s)), true, c, Some (next s)).
Proof.
  intros Hf Ha Hflag Hp Hpn Hr Hac Hc Hd Hdp Hdpn.
  pose proof (fresh_lt s d dn Hf Hd) as Hlt. pose proof (fresh_lt s dp dpn Hf Hdpn) as Hlt'.
  unfold copy_step. destruct (lookup_fields _ _ _ Ha) as (Hgp & Hgl & Hgr & _).
  destruct (lookup_fields _ _ _ Hpn) as (_ & _ & Hgpr & _).
  destruct (lookup_fields _ _ _ Hd) as (Hgdp & _).
  assert ((if flag then get_left (mem s) a else Some None) = Some None) as ->.
  { destruct flag; [|done]. rewrite Hgl. by destruct (Hflag eq_refl) as [-> _]. }
  assert ((if flag then get_right (mem s) a else Some None) = Some None) as ->.
  { destruct flag; [|done]. rewrite Hgr. by destruct (Hflag eq_refl) as [_ ->]. }
  cbv beta iota. rewrite Hgp, Hp. cbn [nonnull]. cbv beta iota. rewrite Hgpr, Hr.
  rewrite decide_True by done. cbv beta iota.
  rewrite (copy_cell_spec s c cn _ (Some dp) Hf Hc).
  2:{ unfold get_parent. rewrite lookup_insert_ne by lia. rewrite Hd. cbn. by rewrite Hdp. }
  cbv beta iota. cbn [mem]. unfold get_parent. rewrite lookup_insert_ne by lia.
  rewrite Hd. cbn [fmap option_fmap option_map]. rewrite Hdp. cbn [nonnull]. cbv beta iota.
  rewrite (set_right_insert _ dp dpn) by (rewrite lookup_insert_ne; [done|lia]).
  done.
Qed.

(** ... and up to the parent otherwise, with the flag down. *)
Lemma copy_step_up (s : @sb_tree T) flag a n p pn d dn :
  mem s !! a = Some n → (flag = true → left n = None ∧ right n = None) →
  parent n = Some p → mem s !! p = Some pn → (right pn = None ∨ right pn = Some a) →
  mem s !! d = Some dn →
  copy_step s flag a d = Some (s, false, p, parent dn).
Proof.
  intros Ha Hflag Hp Hpn Hr Hd.
  unfold copy_step. destruct (lookup_fields _ _ _ Ha) as (Hgp & Hgl & Hgr & _).
  destruct (lookup_fields _ _ _ Hpn) as (_ & _ & Hgpr & _).
  destruct (lookup_fields _ _ _ Hd) as (Hgdp & _).
  assert ((if flag then get_left (mem s) a else Some None) = Some None) as ->.
  { destruct flag; [|done]. rewrite Hgl. by destruct (Hflag eq_refl) as [-> _]. }
  assert ((if flag then get_right (mem s) a else Some None) = Some None) as ->.
  { destruct flag; [|done]. rewrite Hgr. by destruct (Hflag eq_refl) as [_ ->]. }
  cbv beta iota. rewrite Hgp, Hp. cbn [nonnull]. cbv beta iota. rewrite Hgpr.
  destruct Hr as [->| ->].
  - cbv beta iota. by rewrite Hgdp.
  - rewrite decide_False by (by intros H). cbv beta iota. by rewrite Hgdp.
Qed.

Lemma root_of_copy_at (t : tree T) par d nx :
  root_of (copy_at t par d nx) = match t with Leaf => None | _ => Some d end.
Proof. by destruct t. Qed.

Lemma card_copy_at (t : tree T) : ∀ par d nx, card (copy_at t par d nx) = card t.
Proof.
  induction t as [|l IHl a n r IHr]; intros par d nx; [done|].
  cbn [copy_at card]. by rewrite IHl, IHr.
Qed.

(** The copy occupies [d] and the next [card t - 1] addresses. *)
Lemma addrs_copy_at (t : tree T) : ∀ par d nx q,
  q ∈ addrs (copy_at t par d nx) →
  q = d ∨ ((nx ≤ q)%positive ∧ (q < shift (card t - 1) nx)%positive).
Proof.
  induction t as [|l IHl a n r IHr]; intros par d nx q Hq.
  { by apply elem_of_nil in Hq. }
  cbn [copy_at addrs card] in Hq. apply elem_of_app in Hq as [Hq|Hq].
  - destruct l as [|ll la ln lr]; [by apply elem_of_nil in Hq|]. right.
    apply IHl in Hq. cbn [card] in *. unfold shift in *. lia.
  - apply elem_of_cons in Hq as [->|Hq]; [by left|].
    destruct r as [|rl rb rn rr]; [by apply elem_of_nil in Hq|]. right.
    apply IHr in Hq. cbn [card] in *. unfold shift in *. lia.
Qed.

Lemma rep_frame h h' par (t : tree T) :
  rep h par t → (∀ q, q ∈ addrs t → h' !! q = h !! q) → rep h' par t.
Proof.
  revert par. induction t as [|l IHl a n r IHr]; intros par Hrep Hsame; [done|].
  simpl in Hrep. destruct Hrep as (Ha & Hp & Hl & Hr & Hrl & Hrr). simpl.
  rewrite (Hsame a (elem_of_addrs_root _ _ _ _)). split_and!; try done.
  - apply (IHl _ Hrl). intros q Hq. by apply Hsame, elem_of_addrs_left.
  - apply (IHr _ Hrr). intros q Hq. by apply Hsame, elem_of_addrs_right.
Qed.

Lemma shift_0 p : shift 0 p = p.
Proof. unfold shift. lia. Qed.

Lemma rep_copy_at_node h (par : option ptr) (d : ptr) nx (l r : tree T) a n :
  h !! d = Some (Node par (match l with Leaf => None | _ => Some nx end)
                  (match r with Leaf => None | _ => Some (shift (card l) nx) end)
                  (size n) (data n)) →
  rep h (Some d) (copy_at l (Some d) nx (Pos.succ nx)) →
  rep h (Some d) (copy_at r (Some d) (shift (card l) nx) (Pos.succ (shift (card l) nx))) →
  rep h par (copy_at (Br l a n r) par d nx).
Proof.
  intros Hd Hl Hr. cbn [copy_at rep]. split_and!; try done.
  - rewrite root_of_copy_at. by destruct l.
  - rewrite root_of_copy_at. by destruct r.
Qed.

Lemma copy_step_childless (s : @sb_tree T) a n d :
  mem s !! a = Some n → left n = None → right n = None →
  copy_step s true a d = copy_step s false a d.
Proof.
  intros Ha Hl Hr. unfold copy_step.
  destruct (lookup_fields _ _ _ Ha) as (_ & Hgl & Hgr & _). by rewrite Hgl, Hgr, Hl, Hr.
Qed.

Lemma copy_loop_step f (s s' : @sb_tree T) (t0 : ptr) flag flag' (x x' y y' : ptr) :
  copy_step s flag x y = Some (s', flag', x', Some y') →
  copy_loop (S f) s t0 flag x y =
    if decide (x' = t0) then Some s' else copy_loop f s' t0 flag' x' y'.
Proof. intros H. cbn [copy_loop]. by rewrite H. Qed.

(** The loop enters a child [c] of the source: the copy of its root
    has just been made at [next s] below [d].  Once the loop is back
    from the child, the copy of [c] hangs below [d]. *)
Lemma copy_enter (s : @sb_tree T) d dn' sp cl ca cn cr :
  fresh s → (d < next s)%positive → rep (mem s) sp (Br cl ca cn cr) →
  d ∉ addrs (Br cl ca cn cr) →
  let s1 := Tree (<[d := dn']>
                    (<[next s := Node (Some d) None None (size cn) (data cn)]> (mem s)))
              (header s) (Pos.succ (next s)) in
  (rep (mem s1) sp (Br cl ca cn cr) ∧ fresh s1 ∧ (next s ∉ addrs (Br cl ca cn cr)) ∧
   mem s1 !! next s = Some (Node (Some d) None None (size cn) (data cn))) ∧
  ∀ s2, copied s1 s2 (Br cl ca cn cr) (Some d) (next s) →
    header s2 = header s ∧ next s2 = shift (card (Br cl ca cn cr)) (next s) ∧ fresh s2 ∧
    rep (mem s2) (Some d) (copy_at (Br cl ca cn cr) (Some d) (next s) (Pos.succ (next s))) ∧
    mem s2 !! d = Some dn' ∧
    (∀ q, (q < next s)%positive → q ≠ d → mem s2 !! q = mem s !! q).
Proof.
  intros Hf Hd Hrep Hnin s1.
  assert (∀ q, q ∈ addrs (Br cl ca cn cr) → (q < next s)%positive) as Hsrc.
  { intros q Hq. destruct (rep_lookup _ _ _ _ Hrep Hq) as [x Hx]. by apply (fresh_lt s q x). }
  split; [split_and!|].
  - apply (rep_frame (mem s) _ _ _ Hrep). intros q Hq. subst s1. cbn [mem].
    pose proof (Hsrc q Hq). rewrite !lookup_insert_ne; [done|lia|by intros ->].
  - intros q Hq. subst s1. cbn [mem next] in *.
    rewrite !lookup_insert_ne by lia. apply Hf. lia.
  - intros Hin. apply Hsrc in Hin. lia.
  - subst s1. cbn [mem]. rewrite lookup_insert_ne by lia. apply lookup_insert_eq.
  - intros s2 (Hh & Hn & Hf2 & Hrep2 & F). subst s1. cbn [header next mem] in *.
    split_and!; try done.
    + rewrite Hn. cbn [card]. unfold shift. lia.
    + rewrite F by lia. apply lookup_insert_eq.
    + intros q Hq Hqd. rewrite F by lia. rewrite !lookup_insert_ne; [done|lia|done].
Qed.

(** The loop of [copy_node], started with the flag up at a node of
    the source and at the fresh copy of that node, copies everything
    below the node and comes back to it with the flag down. *)
Lemma copy_loop_subtree (t0 : ptr) (sub : tree T) :
  ∀ (s : @sb_tree T) sp (par : option ptr) (d : ptr) l a n r,
  sub = Br l a n r →
  rep (mem s) sp sub → NoDup (addrs sub) →
  t0 ∉ addrs l → t0 ∉ addrs r → (a = t0 → l ≠ Leaf ∨ r ≠ Leaf) →
  fresh s → d ∉ addrs sub →
  mem s !! d = Some (Node par None None (size n) (data n)) →
  ∃ s', copied s s' sub par d ∧
    ∀ f, copy_loop (copy_iters sub + S f) s t0 true a d =
           (if decide (a = t0) then Some s' else copy_loop (S f) s' t0 false a d).
Proof.
  induction sub as [|l0 IHl a0 n0 r0 IHr];
    intros s sp par d l a n r Heq Hrep Hnd Htl Htr Hat Hf Hd Hdc; [done|].
  injection Heq as -> -> -> ->.
  pose proof Hrep as (Ha & Hp & Hl & Hr & Hrl & Hrr).
  pose proof (fresh_lt s d _ Hf Hdc) as Hdlt.
  cbn [addrs] in Hnd. apply NoDup_app in Hnd as (Hndl & Hlr & Hndr').
  apply NoDup_cons in Hndr' as (Har & Hndr).
  assert (d ∉ addrs l) as Hdl by (intros Hin; by apply Hd, elem_of_addrs_left).
  assert (d ∉ addrs r) as Hdr by (intros Hin; by apply Hd, elem_of_addrs_right).
  assert (d ≠ a) as Hda by (intros ->; apply Hd, elem_of_addrs_root).
  destruct l as [|ll la ln lr]; [destruct r as [|rl rb rn rr]|].
  - (* no child *)
    exists s. split.
    + unfold copied. rewrite shift_0. by split_and!.
    + intros f. cbn [copy_iters]. rewrite Nat.add_0_l.
      rewrite decide_False by (intros ->; by destruct (Hat eq_refl)).
      cbn [copy_loop]. by rewrite (copy_step_childless s a n d Ha Hl Hr).
  - (* a right child only *)
    pose proof Hrr as (Hrb & Hrbp & _).
    assert (rb ≠ t0) as Hrb0 by (intros ->; apply Htr, elem_of_addrs_root).
    assert (rb ≠ a) as Hrba by (intros ->; apply Har, elem_of_addrs_root).
    assert (rb ≠ d) as Hrbd by (intros ->; apply Hdr, elem_of_addrs_root).
    destruct (copy_enter s d (with_right (Node par None None (size n) (data n)) (Some (next s)))
                (Some a) rl rb rn rr Hf Hdlt Hrr Hdr)
      as ((Hrep1 & Hf1 & Hnx1 & Hc1) & Hback).
    apply NoDup_app in Hndr as Hndr2. destruct Hndr2 as (_ & _ & Hndr2).
    apply NoDup_cons in Hndr2 as (_ & Hndrr).
    destruct (IHr _ _ (Some d) (next s) rl rb rn rr eq_refl Hrep1 Hndr) as (s2 & Hcop & Hloop);
      try done.
    { intros Hin. by apply Htr, elem_of_addrs_left. }
    { intros Hin. by apply Htr, elem_of_addrs_right. }
    destruct (Hback s2 Hcop) as (Hh2 & Hn2 & Hf2 & Hrep2 & Hd2 & F2).
    exists s2. split.
    + unfold copied.
      split_and!; try done; try (rewrite Hn2; cbn [card]; unfold shift; lia);
        try (intros q Hq Hqd; by apply F2).
      apply rep_copy_at_node; cbn [card]; rewrite ?shift_0; [exact Hd2|done|exact Hrep2].
    + intros f.
      change (copy_iters (Br Leaf a n (Br rl rb rn rr)))
        with (copy_iters (Br rl rb rn rr) + 2)%nat.
      replace (copy_iters (Br rl rb rn rr) + 2 + S f)%nat
        with (S (copy_iters (Br rl rb rn rr) + S (S f)))%nat by lia.
      rewrite (copy_loop_step _ _ _ _ _ _ _ _ _ _
                 (copy_step_right s a n rb rn d _ Hf Ha Hl Hr Hrb Hdc)).
      rewrite decide_False by done.
      etrans; [exact (Hloop (S f))|]. rewrite decide_False by done.
      pose proof Hrep2 as (Hcr & Hcrp & _).
      apply copy_loop_step.
      refine (copy_step_up s2 false rb rn a n (next s) _ _ _ _ _ _ Hcr).
      * rewrite F2; [done| |done].
        destruct (rep_lookup _ _ _ _ Hrr (elem_of_addrs_root rl rr rb rn)) as [x Hx].
        by apply (fresh_lt s rb x).
      * done.
      * done.
      * rewrite F2; [done| |done]. by apply (fresh_lt s a n).
      * by right.
  - (* a left child *)
    pose proof Hrl as (Hla & Hlap & _).
    assert (la ≠ t0) as Hla0 by (intros ->; apply Htl, elem_of_addrs_root).
    assert (la ≠ d) as Hlad by (intros ->; apply Hdl, elem_of_addrs_root).
    assert (la ≠ a) as Hlaa.
    { intros ->. apply (Hlr a (elem_of_addrs_root _ _ _ _)). by left. }
    destruct (copy_enter s d (with_left (Node par None None (size n) (data n)) (Some (next s)))
                (Some a) ll la ln lr Hf Hdlt Hrl Hdl)
      as ((Hrep1 & Hf1 & Hnx1 & Hc1) & Hback).
    destruct (IHl _ _ (Some d) (next s) ll la ln lr eq_refl Hrep1 Hndl) as (s2 & Hcop & Hloop);
      try done.
    { intros Hin. by apply Htl, elem_of_addrs_left. }
    { intros Hin. by apply Htl, elem_of_addrs_right. }
    destruct (Hback s2 Hcop) as (Hh2 & Hn2 & Hf2 & Hrep2 & Hd2 & F2).
    pose proof Hrep2 as (Hcl & Hclp & _).
    assert (mem s2 !! la = Some ln) as Hla2.
    { rewrite F2; [done| |done]. by apply (fresh_lt s la ln). }
    assert (mem s2 !! a = Some n) as Ha2.
    { rewrite F2; [done| |done]. by apply (fresh_lt s a n). }
    destruct r as [|rl rb rn rr].
    + (* ... and no right child *)
      exists s2. split.
      * unfold copied.
        split_and!; try done; try (rewrite Hn2; cbn [card]; unfold shift; lia);
          try (intros q Hq Hqd; by apply F2).
      * intros f.
        change (copy_iters (Br (Br ll la ln lr) a n Leaf))
          with (copy_iters (Br ll la ln lr) + 2)%nat.
        replace (copy_iters (Br ll la ln lr) + 2 + S f)%nat
          with (S (copy_iters (Br ll la ln lr) + S (S f)))%nat by lia.
        rewrite (copy_loop_step _ _ _ _ _ _ _ _ _ _
                   (copy_step_left s a n la ln d _ Hf Ha Hl Hla Hdc)).
        rewrite decide_False by done.
        etrans; [exact (Hloop (S f))|]. rewrite decide_False by done.
        apply copy_loop_step.
        refine (copy_step_up s2 false la ln a n (next s) _ Hla2 _ _ _ _ Hcl); try done.
        by left.
    + (* ... and a right child *)
      pose proof Hrr as (Hrb & Hrbp & _).
      assert (rb ≠ t0) as Hrb0 by (intros ->; apply Htr, elem_of_addrs_root).
      assert (rb ≠ a) as Hrba by (intros ->; apply Har, elem_of_addrs_root).
      assert (rb ≠ d) as Hrbd by (intros ->; apply Hdr, elem_of_addrs_root).
      assert (la ≠ rb) as Hlarb.
      { intros ->. apply (Hlr rb (elem_of_addrs_root _ _ _ _)). right.
        apply elem_of_addrs_root. }
      assert (∀ q, q ∈ addrs (Br rl rb rn rr) → (q < next s)%positive) as Hsrc.
      { intros q Hq. destruct (rep_lookup _ _ _ _ Hrr Hq) as [x Hx]. by apply (fresh_lt s q x). }
      assert (rep (mem s2) (Some a) (Br rl rb rn rr)) as Hrr2.
      { apply (rep_frame (mem s) _ _ _ Hrr). intros q Hq. apply F2; [by apply Hsrc|].
        intros ->. done. }
      assert (d < next s2)%positive as Hdlt2 by (rewrite Hn2; unfold shift; lia).
      destruct (copy_enter s2 d
                  (with_right (with_left (Node par None None (size n) (data n)) (Some (next s)))
                     (Some (next s2)))
                  (Some a) rl rb rn rr Hf2 Hdlt2 Hrr2 Hdr)
        as ((Hrep3 & Hf3 & Hnx3 & Hc3) & Hback3).
      destruct (IHr _ _ (Some d) (next s2) rl rb rn rr eq_refl Hrep3 Hndr)
        as (s4 & Hcop4 & Hloop4); try done.
      { intros Hin. by apply Htr, elem_of_addrs_left. }
      { intros Hin. by apply Htr, elem_of_addrs_right. }
      destruct (Hback3 s4 Hcop4) as (Hh4 & Hn4 & Hf4 & Hrep4 & Hd4 & F4).
      pose proof Hrep4 as (Hcr & Hcrp & _).
      exists s4. split.
      * unfold copied. split_and!.
        -- congruence.
        -- rewrite Hn4, Hn2. cbn [card]. unfold shift. lia.
        -- done.
        -- rewrite Hn2 in Hd4, Hrep4.
           apply rep_copy_at_node; [exact Hd4| |exact Hrep4].
           apply (rep_frame (mem s2) _ _ _ Hrep2). intros q Hq. apply F4.
           ++ destruct (addrs_copy_at _ _ _ _ _ Hq) as [->|[_ Hlt]].
              ** rewrite Hn2. cbn [card]. unfold shift. lia.
              ** rewrite Hn2. revert Hlt. unfold shift. cbn [card]. lia.
           ++ destruct (addrs_copy_at _ _ _ _ _ Hq) as [->|[Hge _]]; lia.
        -- intros q Hq Hqd. rewrite F4; [by apply F2| |done]. rewrite Hn2. unfold shift. lia.
      * intros f.
        change (copy_iters (Br (Br ll la ln lr) a n (Br rl rb rn rr)))
          with (copy_iters (Br ll la ln lr) + copy_iters (Br rl rb rn rr) + 3)%nat.
        replace (copy_iters (Br ll la ln lr) + copy_iters (Br rl rb rn rr) + 3 + S f)%nat
          with (S (copy_iters (Br ll la ln lr) +
                   S (copy_iters (Br rl rb rn rr) + S (S f))))%nat by lia.
        rewrite (copy_loop_step _ _ _ _ _ _ _ _ _ _
                   (copy_step_left s a n la ln d _ Hf Ha Hl Hla Hdc)).
        rewrite decide_False by done.
        etrans; [exact (Hloop (copy_iters (Br rl rb rn rr) + S (S f))%nat)|].
        rewrite decide_False by done.
        assert (mem s2 !! rb = Some rn) as Hrb2.
        { rewrite F2; [done|by apply Hsrc, elem_of_addrs_root|done]. }
        rewrite (copy_loop_step _ _ _ _ _ _ _ _ _ _
                   (copy_step_over s2 false la ln a n rb rn (next s) _ d _ Hf2 Hla2
                      ltac:(done) Hlap Ha2 Hr Hlarb Hrb2 Hcl Hclp Hd2)).
        rewrite decide_False by done.
        etrans; [exact (Hloop4 (S f))|]. rewrite decide_False by done.
        apply copy_loop_step.
        refine (copy_step_up s4 false rb rn a n (next s2) _ _ _ _ _ _ Hcr).
        -- rewrite F4; [|rewrite Hn2; unfold shift; pose proof (Hsrc rb (elem_of_addrs_root _ _ _ _)); lia|done].
           rewrite F2; [done|by apply Hsrc, elem_of_addrs_root|done].
        -- done.
        -- done.
        -- rewrite F4; [done|rewrite Hn2; unfold shift; pose proof (fresh_lt s a n Hf Ha); lia|done].
        -- by right.
Qed.

Lemma similar_copy_at (t : tree T) : ∀ par d nx, similar t (copy_at t par d nx).
Proof.
  induction t as [|l IHl a n r IHr]; intros par d nx; [done|].
  cbn [copy_at similar size data]. by split_and!.
Qed.

Lemma elems_copy_at (t : tree T) : ∀ par d nx, elems (copy_at t par d nx) = elems t.
Proof.
  induction t as [|l IHl a n r IHr]; intros par d nx; [done|].
  cbn [copy_at elems data]. by rewrite IHl, IHr.
Qed.

Lemma sized_copy_at (t : tree T) : ∀ par d nx, sized t → sized (copy_at t par d nx).
Proof.
  induction t as [|l IHl a n r IHr]; intros par d nx Hs; [done|].
  destruct Hs as (Hs & Hsl & Hsr). cbn [copy_at sized]. split_and!; [|by apply IHl|by apply IHr].
  cbn [size card] in *. by rewrite !card_copy_at.
Qed.

Lemma size_of_copy_at (t : tree T) par d nx : size_of (copy_at t par d nx) = size_of t.
Proof. by destruct t. Qed.

Lemma balanced_copy_at (t : tree T) : ∀ par d nx, balanced t → balanced (copy_at t par d nx).
Proof.
  induction t as [|l IHl a n r IHr]; intros par d nx Hb; [done|].
  destruct Hb as (H1 & H2 & H3 & H4 & Hbl & Hbr). cbn [copy_at balanced].
  rewrite !size_of_copy_at. split_and!; [| | | |by apply IHl|by apply IHr].
  - destruct r; [done|]. cbn [copy_at left_of] in *. by rewrite size_of_copy_at.
  - destruct r; [done|]. cbn [copy_at right_of] in *. by rewrite size_of_copy_at.
  - destruct l; [done|]. cbn [copy_at left_of] in *. by rewrite size_of_copy_at.
  - destruct l; [done|]. cbn [copy_at right_of] in *. by rewrite size_of_copy_at.
Qed.

Lemma ordered_copy_at (comp : T → T → bool) (t : tree T) : ∀ par d nx,
  ordered comp t → ordered comp (copy_at t par d nx).
Proof.
  induction t as [|l IHl a n r IHr]; intros par d nx Ho; [done|].
  destruct Ho as (H1 & H2 & Hol & Hor). cbn [copy_at ordered data].
  rewrite !elems_copy_at. split_and!; [done|done|by apply IHl|by apply IHr].
Qed.

(** A heap whose cells all lie below [next] has every address from
    [next] on free. *)
Lemma fresh_of_cells (s : @sb_tree T) :
  map_Forall (λ q _, (q < next s)%positive) (mem s) → fresh s.
Proof.
  intros H q Hq. destruct (mem s !! q) as [y|] eqn:E; [|done]. apply H in E. lia.
Qed.

Lemma NoDup_copy_at (t : tree T) : ∀ par d nx,
  (d < nx)%positive → NoDup (addrs (copy_at t par d nx)).
Proof.
  induction t as [|l IHl a n r IHr]; intros par d nx Hlt; [constructor|].
  cbn [copy_at addrs]. apply NoDup_app. split_and!.
  - apply IHl. lia.
  - intros q Hq Hin. destruct l as [|ll la ln lr]; [by apply elem_of_nil in Hq|].
    apply addrs_copy_at in Hq. apply elem_of_cons in Hin as [->|Hin].
    + cbn [card] in Hq. unfold shift in Hq. destruct Hq as [?|[? ?]]; lia.
    + destruct r as [|rl rb rn rr]; [by apply elem_of_nil in Hin|].
      apply addrs_copy_at in Hin. cbn [card] in *. unfold shift in *.
      destruct Hq as [?|[? ?]], Hin as [?|[? ?]]; lia.
  - apply NoDup_cons. split; [|apply IHr; unfold shift; lia].
    intros Hin. destruct r as [|rl rb rn rr]; [by apply elem_of_nil in Hin|].
    apply addrs_copy_at in Hin. cbn [card] in *. unfold shift in *.
    destruct Hin as [?|[? ?]]; lia.
Qed.

Lemma copy_iters_le (t : tree T) : (copy_iters t ≤ 2 * card t)%nat.
Proof.
  enough (copy_iters t + 2 ≤ 2 * card t + match t with Leaf => 2 | _ => 0 end)%nat
    by (destruct t; lia).
  induction t as [|l IHl a n r IHr]; [done|].
  destruct l, r; cbn [copy_iters card] in *; lia.
Qed.

(** The whole loop of [copy_node], from the root [t] of the source and
    its copy [d] until [src] is [t] again.  A root without children is
    left through the header of the source and entered again from it. *)
Lemma copy_loop_root (s : @sb_tree T) (oh hdr d : ptr) ohn hn' (w l r : tree T) x n f :
  w = Br l x n r → rep (mem s) (Some oh) w → NoDup (oh :: addrs w) →
  mem s !! oh = Some ohn → header_ok ohn oh w →
  fresh s → d ∉ addrs w →
  mem s !! d = Some (Node (Some hdr) None None (size n) (data n)) →
  mem s !! hdr = Some hn' →
  ∃ s', copied s s' w (Some hdr) d ∧
    copy_loop (copy_iters w + S (S f)) s x true x d = Some s'.
Proof.
  intros -> Hrep Hnd Hoh Hok Hf Hd Hdc Hhdr.
  apply NoDup_cons in Hnd as (Hohw & Hnd).
  pose proof Hrep as (Hx & Hxp & Hl & Hr & Hrl & Hrr).
  pose proof Hnd as Hnd'. cbn [addrs] in Hnd'. apply NoDup_app in Hnd' as (_ & Hlr & Hndr).
  apply NoDup_cons in Hndr as (Hxr & _).
  assert (x ∉ addrs l) as Hxl.
  { intros Hin. apply (Hlr x Hin). by left. }
  assert (oh ≠ x) as Hohx by (intros ->; apply Hohw, elem_of_addrs_root).
  assert ((l = Leaf ∧ r = Leaf) ∨ (l ≠ Leaf ∨ r ≠ Leaf)) as [[-> ->]|Hch].
  { destruct l; [|by right; left]. destruct r; [by left|by right; right]. }
  - exists s. split.
    + unfold copied. rewrite shift_0. by split_and!.
    + cbn [copy_iters]. rewrite Nat.add_0_l.
      destruct Hok as (Hohp & _ & Hohr & _). cbn in Hohp, Hohr.
      rewrite (copy_loop_step _ _ _ _ _ _ _ _ _ _
                 (copy_step_up s true x n oh ohn d _ Hx ltac:(done) Hxp Hoh
                    (or_intror Hohr) Hdc)).
      rewrite decide_False by done.
      cbn [copy_loop].
      rewrite (copy_step_up s false oh ohn x n hdr hn' Hoh ltac:(done) Hohp Hx
                 (or_introl Hr) Hhdr).
      cbv beta iota. by rewrite decide_True.
  - destruct (copy_loop_subtree x (Br l x n r) s (Some oh) (Some hdr) d l x n r eq_refl
                Hrep Hnd Hxl Hxr) as (s' & Hcop & Hloop); try done.
    exists s'. split; [done|]. rewrite (Hloop (S f)). by rewrite decide_True.
Qed.

(** The copy constructor makes a deep copy: it returns, the new
    container is well formed on a header of its own, has the shape, the
    sizes and the payloads of the other one in the same in-order
    sequence (so it is balanced and ordered when the other one is),
    lives in cells that were free before, and every cell of the other
    container is as it was. *)
Theorem copy_construct_deep_copy (dflt : T) (other : @sb_tree T) (w : tree T) :
  wf other w → fresh other →
  ∃ s' w', copy_construct dflt other = Some s' ∧ wf s' w' ∧
    similar w w' ∧ elems w' = elems w ∧ (balanced w → balanced w') ∧
    (∀ comp, ordered comp w → ordered comp w') ∧ header s' = next other ∧
    (∀ q, q ∈ addrs w' → (next other < q)%positive) ∧
    (∀ q, (q < next other)%positive → mem s' !! q = mem other !! q).
Proof.
  intros Hwf Hf. pose proof Hwf as [(ohn & Hoh & Hok) Hrep Hnd Hsz Hfit].
  pose proof (fresh_lt other _ _ Hf Hoh) as Hohlt.
  set (hdr := next other).
  set (hc := Node None (Some hdr) (Some hdr) 0 dflt : @node T).
  set (s0 := Tree (<[hdr := hc]> (mem other)) hdr (Pos.succ hdr)).
  assert (fresh s0) as Hf0.
  { intros q Hq. subst s0. cbn [mem next] in *. rewrite lookup_insert_ne by lia.
    apply Hf. fold hdr. lia. }
  assert (∀ q, q ∈ addrs w → (q < hdr)%positive) as Hsrc.
  { intros q Hq. destruct (rep_lookup _ _ _ _ Hrep Hq) as [y Hy]. by apply (fresh_lt other q y). }
  unfold copy_construct. fold hdr. fold hc. fold s0.
  unfold get_parent. replace (mem s0 !! header other) with (Some ohn).
  2:{ subst s0. cbn [mem]. rewrite lookup_insert_ne by lia. done. }
  cbn [fmap option_fmap option_map mbind option_bind].
  destruct Hok as (Hohp & Hohl & Hohr & Hohs). rewrite Hohp.
  destruct w as [|l x n r].
  - exists s0, Leaf. cbn [root_of]. split_and!; try done.
    + split.
      * exists hc. split; [apply lookup_insert_eq|]. by split_and!.
      * done.
      * apply NoDup_singleton.
      * done.
      * done.
    + intros q Hq. by apply elem_of_nil in Hq.
    + intros q Hq. subst s0. cbn [mem]. rewrite lookup_insert_ne by lia. done.
  - cbn [root_of].
    pose proof Hrep as (Hx & Hxp & _).
    assert (mem s0 !! x = Some n) as Hx0.
    { subst s0. cbn [mem]. rewrite lookup_insert_ne; [done|].
      pose proof (Hsrc x (elem_of_addrs_root _ _ _ _)). lia. }
    set (d := Pos.succ hdr).
    set (dc := Node (Some hdr) None None (size n) (data n) : @node T).
    set (s1 := Tree (<[hdr := with_parent hc (Some d)]> (<[d := dc]> (mem s0)))
                 hdr (Pos.succ d)).
    assert (fresh s1) as Hf1.
    { intros q Hq. subst s1 s0. cbn [mem next] in *. rewrite !lookup_insert_ne by lia.
      apply Hf. fold hdr. lia. }
    assert (∀ q, (q < hdr)%positive → mem s1 !! q = mem other !! q) as F1.
    { intros q Hq. subst s1 s0. cbn [mem]. by rewrite !lookup_insert_ne by lia. }
    assert (rep (mem s1) (Some (header other)) (Br l x n r)) as Hrep1.
    { apply (rep_frame (mem other) _ _ _ Hrep). intros q Hq. by apply F1, Hsrc. }
    assert (d ∉ addrs (Br l x n r)) as Hdw.
    { intros Hin. apply Hsrc in Hin. lia. }
    assert (mem s1 !! d = Some dc) as Hd1.
    { subst s1. cbn [mem]. rewrite lookup_insert_ne by lia. apply lookup_insert_eq. }
    assert (mem s1 !! hdr = Some (with_parent hc (Some d))) as Hh1.
    { subst s1. cbn [mem]. apply lookup_insert_eq. }
    assert (mem s1 !! header other = Some ohn) as Hoh1 by (by rewrite F1).
    pose proof (copy_iters_le (Br l x n r)) as Hit.
    pose proof (wf_card_lt other _ Hwf) as Hcard.
    assert (base.size (mem s0) = S (base.size (mem other))) as Hsize0.
    { subst s0. cbn [mem]. apply map_size_insert_None. apply Hf. fold hdr. lia. }
    destruct (copy_loop_root s1 (header other) hdr d ohn _ (Br l x n r) l r x n
                (2 * base.size (mem s0) - copy_iters (Br l x n r) - 2)
                eq_refl Hrep1 Hnd Hoh1 (conj Hohp (conj Hohl (conj Hohr Hohs))) Hf1 Hdw Hd1 Hh1)
      as (s' & (Hh' & Hn' & Hf' & Hrep' & F') & Hloop).
    replace (copy_iters (Br l x n r) +
             S (S (2 * base.size (mem s0) - copy_iters (Br l x n r) - 2)))%nat
      with (2 * base.size (mem s0))%nat in Hloop by lia.
    change (next s1) with (Pos.succ d) in Hn', Hrep', F'.
    change (header s1) with hdr in Hh'.
    set (w' := copy_at (Br l x n r) (Some hdr) d (Pos.succ d)) in *.
    assert (∀ q, q ∈ addrs w' → (hdr < q)%positive) as Hnew.
    { intros q Hq. destruct (addrs_copy_at _ _ _ _ _ Hq) as [->|[? _]]; lia. }
    assert (NoDup (addrs w')) as Hnd' by (apply NoDup_copy_at; lia).
    assert (root_of w' = Some d) as Hroot' by done.
    assert (addrs w' ≠ []) as Hne' by (by apply addrs_nonempty).
    assert (mem s' !! hdr = Some (with_parent hc (Some d))) as Hh2.
    { rewrite F' by lia. done. }
    set (lm := hd d (addrs w')). set (rm := List.last (addrs w') d).
    set (g1 := <[hdr := with_left (with_parent hc (Some d)) (Some lm)]> (mem s')).
    set (g2 := <[hdr := with_right (with_left (with_parent hc (Some d)) (Some lm)) (Some rm)]> g1).
    assert (∀ q, q ∈ addrs w' → g1 !! q = mem s' !! q) as Fg1.
    { intros q Hq. subst g1. apply Hnew in Hq. rewrite lookup_insert_ne by lia. done. }
    assert (rep g1 (Some hdr) w') as Hrepg1 by (by apply (rep_frame (mem s') _ _ _ Hrep')).
    assert (rep g2 (Some hdr) w') as Hrepg2.
    { apply (rep_frame g1 _ _ _ Hrepg1). intros q Hq. subst g2. apply Hnew in Hq.
      rewrite lookup_insert_ne by lia. done. }
    exists (Tree g2 hdr (next s')), w'. split_and!.
    + unfold copy_node. cbn [header].
      rewrite (copy_cell_spec s0 x n _ (Some hdr) Hf0 Hx0 eq_refl). cbv beta iota.
      cbn [mem header next]. 
      rewrite (set_parent_insert _ hdr hc).
      2:{ subst s0. cbn [mem next]. rewrite lookup_insert_ne by lia. apply lookup_insert_eq. }
      cbv beta iota. unfold with_mem at 1. cbn [header next].
      match goal with
      | |- context [copy_loop ?u ?v ?y ?z ?y' ?z'] =>
          replace (copy_loop u v y z y' z') with (Some s') by (symmetry; exact Hloop)
      end.
      cbv beta iota. change (header s0) with hdr.
      unfold get_parent at 1. rewrite Hh2. cbn [fmap option_fmap option_map with_parent parent].
      cbn [nonnull]. cbv beta iota.
      rewrite (leftmost_spec (mem s') w' (Some hdr) _ d Hrep' Hroot').
      2:{ pose proof (height_le_card w'). pose proof (rep_card_le _ _ _ Hrep' Hnd').
          unfold fuel_of. lia. }
      cbv beta iota. rewrite (set_left_insert _ hdr _ _ Hh2). cbv beta iota. fold lm g1.
      unfold get_parent. rewrite lookup_insert_eq.
      cbn [fmap option_fmap option_map with_parent with_left parent]. cbn [nonnull].
      cbv beta iota.
      rewrite (rightmost_spec g1 w' (Some hdr) _ d Hrepg1 Hroot').
      2:{ apply Nat.le_trans with (card w'); [apply height_le_card|].
          apply Nat.le_trans with (base.size g1); [by apply (rep_card_le _ _ _ Hrepg1)|].
          unfold fuel_of. apply Nat.le_succ_diag_r. }
      cbv beta iota. fold rm.
      rewrite (set_right_insert g1 hdr (with_left (with_parent hc (Some d)) (Some lm)))
        by apply lookup_insert_eq.
      unfold with_mem. by rewrite Hh'.
    + split.
      * exists (with_right (with_left (with_parent hc (Some d)) (Some lm)) (Some rm)).
        split; [apply lookup_insert_eq|]. unfold header_ok. cbn [header]. split_and!.
        -- done.
        -- cbn. f_equal. by apply hd_indep.
        -- cbn. f_equal. by apply last_indep.
        -- done.
      * exact Hrepg2.
      * cbn [header]. apply NoDup_cons. split; [|done].
        intros Hin. apply Hnew in Hin. lia.
      * by apply sized_copy_at.
      * subst w'. by rewrite card_copy_at.
    + apply similar_copy_at.
    + apply elems_copy_at.
    + by apply balanced_copy_at.
    + intros comp. by apply ordered_copy_at.
    + done.
    + exact Hnew.
    + intros q Hq. cbn [mem]. subst g2 g1. rewrite !lookup_insert_ne by lia.
      rewrite F' by lia. by apply F1.
Qed.

(** * Further properties of the queries *)

Section Queries.

Variable comp : T → T → bool.

Hypothesis comp_irrefl : ∀ x, comp x x = false.
Hypothesis comp_trans : ∀ x y z, comp x y = true → comp y z = true → comp x z = true.
Hypothesis comp_neg_trans : ∀ x y z, comp x y = false → comp y z = false → comp x z = false.

Lemma comp_asym x y : comp x y = true → comp y x = false.
Proof.
  intros Hxy. destruct (comp y x) eqn:Hyx; [|done].
  pose proof (comp_trans _ _ _ Hxy Hyx) as H. by rewrite comp_irrefl in H.
Qed.

Lemma count_not_above_app key l1 l2 :
  count_not_above comp key (l1 ++ l2) =
    (count_not_above comp key l1 + count_not_above comp key l2)%nat.
Proof. unfold count_not_above. by rewrite filter_app, length_app. Qed.

Lemma count_not_above_all key l :
  Forall (λ d, comp key d = false) l → count_not_above comp key l = length l.
Proof.
  unfold count_not_above. induction 1 as [|x l Hx _ IH]; [done|].
  rewrite filter_cons_True by done. simpl. by rewrite IH.
Qed.

Lemma count_not_above_none key l :
  Forall (λ d, comp key d = true) l → count_not_above comp key l = O.
Proof.
  unfold count_not_above. induction 1 as [|x l Hx _ IH]; [done|].
  rewrite filter_cons_False by (by rewrite Hx). done.
Qed.

Lemma count_not_above_le key l : (count_not_above comp key l ≤ length l)%nat.
Proof. unfold count_not_above. apply length_filter. Qed.

Lemma upper_bound_loop_spec h key t : ∀ par fuel pre,
  rep h par t → (height t ≤ fuel)%nat →
  upper_bound_loop comp fuel h key pre (root_of t) = Some (upper_bound_of comp key pre t).
Proof.
  induction t as [|l IHl a n r IHr]; intros par fuel pre Hrep Hfuel.
  - by destruct fuel.
  - simpl in Hrep, Hfuel. destruct Hrep as (Ha & _ & Hl & Hr & Hrl & Hrr).
    destruct fuel as [|fuel]; [lia|]. simpl. rewrite Ha.
    destruct (comp key (data n)); simpl.
    + rewrite Hl. eapply IHl; [done|lia].
    + rewrite Hr. eapply IHr; [done|lia].
Qed.

Lemma upper_bound_of_index key t : ∀ pre,
  ordered comp t →
  upper_bound_of comp key pre t = nth (count_not_above comp key (elems t)) (addrs t) pre.
Proof.
  induction t as [|l IHl a n r IHr]; intros pre; simpl; [done|].
  intros (Hl & Hr & Hol & Hor). rewrite count_not_above_app.
  destruct (comp key (data n)) eqn:Hn; simpl.
  - assert (count_not_above comp key (data n :: elems r) = O) as ->.
    { apply count_not_above_none. constructor; [done|].
      eapply Forall_impl; [exact Hr|]. intros d Hd. simpl in Hd.
      exact (comp_above comp comp_neg_trans key d (data n) Hd Hn). }
    rewrite Nat.add_0_r. rewrite IHl by done.
    pose proof (count_not_above_le key (elems l)) as Hle. rewrite length_elems in Hle.
    destruct (decide (count_not_above comp key (elems l) < card l)%nat).
    + rewrite app_nth1 by (rewrite length_addrs; lia).
      apply nth_indep. rewrite length_addrs. lia.
    + rewrite app_nth2 by (rewrite length_addrs; lia).
      rewrite nth_overflow by (rewrite length_addrs; lia).
      rewrite length_addrs.
      by replace (count_not_above comp key (elems l) - card l)%nat with O by lia.
  - rewrite (count_not_above_all key (elems l)).
    2:{ eapply Forall_impl; [exact Hl|]. intros d Hd. simpl in Hd. by eapply comp_neg_trans. }
    unfold count_not_above at 1. rewrite filter_cons_True by done. simpl.
    rewrite app_nth2 by (rewrite length_addrs, length_elems; lia).
    rewrite length_addrs, length_elems.
    replace (card l + S _ - card l)%nat
      with (S (count_not_above comp key (elems r))) by (unfold count_not_above; lia).
    simpl. by apply IHr.
Qed.

(** The payloads the key is not ordered before form a prefix of the
    in-order listing. *)
Lemma non_decreasing_prefix_above key l i x :
  non_decreasing comp l → l !! i = Some x →
  (comp key x = false → (i < count_not_above comp key l)%nat) ∧
  (comp key x = true → (count_not_above comp key l ≤ i)%nat).
Proof.
  intros Hs. revert i. induction Hs as [|z l Hs IH Hz]; intros i Hi; [done|].
  rewrite Forall_forall in Hz. unfold count_not_above in *.
  destruct (comp key z) eqn:Hzk.
  - rewrite filter_cons_False by (by rewrite Hzk).
    assert (Forall (λ d, comp key d = true) l) as Hall.
    { apply Forall_forall. intros y Hy.
      exact (comp_above comp comp_neg_trans key y z (Hz y Hy) Hzk). }
    pose proof (count_not_above_none key l Hall) as Hnil. unfold count_not_above in Hnil.
    apply nil_length_inv in Hnil.
    rewrite Hnil. simpl. split; [|lia].
    intros Hx. destruct i as [|i]; simpl in Hi; simplify_eq; [congruence|].
    rewrite Forall_forall in Hall. rewrite Hall in Hx; [done|].
    by eapply list_elem_of_lookup_2.
  - rewrite filter_cons_True by done. simpl.
    destruct i as [|i]; simpl in Hi; simplify_eq; [split; [lia|congruence]|].
    destruct (IH _ Hi) as [IH1 IH2]. split; intros H; [apply IH1 in H|apply IH2 in H]; lia.
Qed.

Lemma count_less_le_not_above key l :
  (count_less comp key l ≤ count_not_above comp key l)%nat.
Proof.
  unfold count_less, count_not_above. induction l as [|x l IH]; [done|].
  destruct (comp x key) eqn:Hx.
  - rewrite filter_cons_True by done.
    rewrite filter_cons_True by (by apply comp_asym). simpl. lia.
  - rewrite filter_cons_False by (by rewrite Hx).
    destruct (comp key x) eqn:Hk.
    + by rewrite filter_cons_False by (by rewrite Hk).
    + rewrite filter_cons_True by done. simpl. lia.
Qed.

Lemma upper_bound_node_index (s : @sb_tree T) t key :
  wf s t → ordered comp t →
  upper_bound_node comp s key =
    Some (nth (count_not_above comp key (elems t)) (addrs t) (header s)).
Proof.
  intros Hwf Hord. unfold upper_bound_node. rewrite (wf_root _ _ Hwf).
  pose proof (wf_fuel _ _ Hwf). destruct Hwf as [_ Hrep _ _ _].
  rewrite (upper_bound_loop_spec _ _ _ _ _ _ Hrep) by lia.
  by rewrite upper_bound_of_index.
Qed.

Lemma lower_bound_node_index (s : @sb_tree T) t key :
  wf s t → ordered comp t →
  lower_bound_node comp s key =
    Some (nth (count_less comp key (elems t)) (addrs t) (header s)).
Proof.
  intros Hwf Hord. unfold lower_bound_node. rewrite (wf_root _ _ Hwf).
  pose proof (wf_fuel _ _ Hwf). destruct Hwf as [_ Hrep _ _ _].
  rewrite (lower_bound_loop_spec _ _ _ _ _ _ _ Hrep) by lia.
  by rewrite (lower_bound_of_index comp comp_neg_trans).
Qed.

(** [lower_bound(key)] is the position [c] that splits the in-order
    listing into the payloads ordered before the key and the others:
    the node at position [c], or [end()] when every payload is ordered
    before the key. *)
Theorem lower_bound_first_not_below (s : @sb_tree T) t key :
  wf s t → ordered comp t →
  ∃ c, (c ≤ card t)%nat ∧
    lower_bound_node comp s key = Some (nth c (addrs t) (end_ s)) ∧
    (∀ j y, elems t !! j = Some y → (j < c)%nat → comp y key = true) ∧
    (∀ j y, elems t !! j = Some y → (c ≤ j)%nat → comp y key = false).
Proof.
  intros Hwf Hord. exists (count_less comp key (elems t)).
  pose proof (ordered_non_decreasing comp comp_neg_trans _ Hord) as Hnd.
  pose proof (count_less_le comp key (elems t)) as Hle. rewrite length_elems in Hle.
  split_and!; [done|by apply lower_bound_node_index| |].
  - intros j y Hy Hj.
    destruct (non_decreasing_prefix comp comp_neg_trans key _ _ _ Hnd Hy) as [_ H2].
    destruct (comp y key); [done|]. specialize (H2 eq_refl). lia.
  - intros j y Hy Hj.
    destruct (non_decreasing_prefix comp comp_neg_trans key _ _ _ Hnd Hy) as [H1 _].
    destruct (comp y key); [|done]. specialize (H1 eq_refl). lia.
Qed.

(** [upper_bound(key)] is the position that splits the listing into the
    payloads the key is not ordered before and those it is ordered
    before: the first node above the key, or [end()]. *)
Theorem upper_bound_first_above (s : @sb_tree T) t key :
  wf s t → ordered comp t →
  ∃ c, (c ≤ card t)%nat ∧
    upper_bound_node comp s key = Some (nth c (addrs t) (end_ s)) ∧
    (∀ j y, elems t !! j = Some y → (j < c)%nat → comp key y = false) ∧
    (∀ j y, elems t !! j = Some y → (c ≤ j)%nat → comp key y = true).
Proof.
  intros Hwf Hord. exists (count_not_above comp key (elems t)).
  pose proof (ordered_non_decreasing comp comp_neg_trans _ Hord) as Hnd.
  pose proof (count_not_above_le key (elems t)) as Hle. rewrite length_elems in Hle.
  split_and!; [done|by apply upper_bound_node_index| |].
  - intros j y Hy Hj.
    destruct (non_decreasing_prefix_above key _ _ _ Hnd Hy) as [_ H2].
    destruct (comp key y); [|done]. specialize (H2 eq_refl). lia.
  - intros j y Hy Hj.
    destruct (non_decreasing_prefix_above key _ _ _ Hnd Hy) as [H1 _].
    destruct (comp key y); [done|]. specialize (H1 eq_refl). lia.
Qed.

(** The nodes from [lower_bound(key)] up to [upper_bound(key)] are
    exactly the ones whose payload is equivalent to the key. *)
Theorem equal_range_equivalent (s : @sb_tree T) t key :
  wf s t → ordered comp t →
  ∃ lo hi, (lo ≤ hi ≤ card t)%nat ∧
    lower_bound_node comp s key = Some (nth lo (addrs t) (end_ s)) ∧
    upper_bound_node comp s key = Some (nth hi (addrs t) (end_ s)) ∧
    (∀ j y, elems t !! j = Some y → (lo ≤ j < hi)%nat ↔ equiv_under comp y key).
Proof.
  intros Hwf Hord.
  exists (count_less comp key (elems t)), (count_not_above comp key (elems t)).
  pose proof (ordered_non_decreasing comp comp_neg_trans _ Hord) as Hnd.
  pose proof (count_not_above_le key (elems t)) as Hle. rewrite length_elems in Hle.
  pose proof (count_less_le_not_above key (elems t)).
  split_and!; [done|done|by apply lower_bound_node_index|by apply upper_bound_node_index|].
  intros j y Hy.
  destruct (non_decreasing_prefix comp comp_neg_trans key _ _ _ Hnd Hy) as [L1 L2].
  destruct (non_decreasing_prefix_above key _ _ _ Hnd Hy) as [U1 U2].
  unfold equiv_under. destruct (comp y key), (comp key y);
    try specialize (L1 eq_refl); try specialize (L2 eq_refl);
    try specialize (U1 eq_refl); try specialize (U2 eq_refl);
    split; try (intros [? ?]; try done; lia); intros; lia.
Qed.

(** [find(key)] is the first node, in in-order, whose payload is
    equivalent to the key: every payload before it is ordered before the
    key.  When no payload is equivalent to the key it is [end()]. *)
Theorem find_first_equivalent (s : @sb_tree T) t key :
  wf s t → ordered comp t →
  (Exists (λ d, equiv_under comp d key) (elems t) →
     ∃ i a n, find_node comp s key = Some a ∧ addrs t !! i = Some a ∧
       mem s !! a = Some n ∧ elems t !! i = Some (data n) ∧
       equiv_under comp (data n) key ∧
       ∀ j y, elems t !! j = Some y → (j < i)%nat → comp y key = true) ∧
  (Forall (λ d, ¬ equiv_under comp d key) (elems t) →
     find_node comp s key = Some (end_ s)).
Proof.
  intros Hwf Hord.
  destruct (find_node_spec comp comp_irrefl comp_neg_trans s t key Hwf Hord)
    as [(Hex & b & m & Hf & Hb & Hbh & Hm & Heq)|(Hall & Hf)].
  - split.
    2:{ intros Hall. exfalso. apply Exists_exists in Hex as (d & Hd & Hd').
        rewrite Forall_forall in Hall. by eapply Hall. }
    intros _.
    destruct (lower_bound_node_spec comp comp_neg_trans s t key Hwf Hord)
      as [Hlb [(Hc & Hall)|(a & n & Ha & Hn & He & Hge)]].
    + exfalso. apply Exists_exists in Hex as (d & Hd & Hd1 & Hd2).
      rewrite Forall_forall in Hall. rewrite Hall in Hd1; done.
    + pose proof (ordered_non_decreasing comp comp_neg_trans _ Hord) as Hnd.
      assert (find_node comp s key = Some a ∨ find_node comp s key = Some (header s)) as Hfa.
      { unfold lower_bound_node in Hlb. unfold find_node.
        destruct (get_parent (mem s) (header s)) as [root|]; [|done]. rewrite Hlb.
        rewrite (nth_lookup_Some _ _ _ _ Ha). unfold get_data. rewrite Hn. simpl.
        destruct (comp key (data n)); [by right|by left]. }
      destruct Hfa as [Hfa|Hfa]; [|congruence].
      assert (b = a) as -> by congruence. assert (m = n) as -> by congruence.
      exists (count_less comp key (elems t)), a, n. split_and!; try done.
      intros j y Hy Hj.
      destruct (non_decreasing_prefix comp comp_neg_trans key _ _ _ Hnd Hy) as [_ H2].
      destruct (comp y key); [done|]. specialize (H2 eq_refl). lia.
  - split; [|done]. intros Hex. exfalso. apply Exists_exists in Hex as (d & Hd & Hd').
    rewrite Forall_forall in Hall. by eapply Hall.
Qed.

(** [rank] of a key that no stored payload is equivalent to is
    [size_t(-1)]. *)
Theorem rank_missing_key (s : @sb_tree T) t key :
  wf s t → ordered comp t →
  Forall (λ d, ¬ equiv_under comp d key) (elems t) →
  rank_node comp s key = Some size_max.
Proof.
  intros Hwf Hord Hall.
  destruct (lower_bound_node_spec comp comp_neg_trans s t key Hwf Hord)
    as [_ [(Hc & _)|(a & n & Ha & Hn & He & Hge)]].
  - unfold rank_node. rewrite (wf_root _ _ Hwf). pose proof (wf_fuel _ _ Hwf).
    destruct Hwf as [_ Hrep _ Hsz Hfit].
    rewrite (rank_loop_spec comp comp_neg_trans _ _ _ _ _ _ _ Hrep Hsz Hord) by lia.
    rewrite (lower_bound_of_index comp comp_neg_trans) by done.
    rewrite nth_overflow by (rewrite length_addrs; lia). by rewrite decide_True.
  - unfold rank_node. rewrite (wf_root _ _ Hwf). pose proof (wf_fuel _ _ Hwf).
    pose proof (wf_not_header s t a Hwf ltac:(by eapply list_elem_of_lookup_2)) as Hne.
    destruct Hwf as [_ Hrep _ Hsz Hfit].
    rewrite (rank_loop_spec comp comp_neg_trans _ _ _ _ _ _ _ Hrep Hsz Hord) by lia.
    rewrite (lower_bound_of_index comp comp_neg_trans) by done.
    rewrite (nth_lookup_Some _ _ _ _ Ha). rewrite decide_False by done.
    unfold get_data. rewrite Hn. simpl.
    destruct (comp key (data n)) eqn:Hk; [done|]. exfalso.
    rewrite Forall_forall in Hall. apply (Hall (data n)); [|done].
    by eapply list_elem_of_lookup_2.
Qed.

Lemma count_equal_of_absent key (l : list T) :
  non_decreasing comp l → Forall (λ d, ¬ equiv_under comp d key) l →
  count_less comp key l = count_not_above comp key l.
Proof.
  intros Hnd Hall.
  pose proof (count_less_le_not_above key l) as Hle.
  pose proof (count_not_above_le key l) as Hlen.
  destruct (decide (count_less comp key l = count_not_above comp key l)) as [|Hne]; [done|].
  exfalso.
  destruct (lookup_lt_is_Some_2 l (count_less comp key l)) as [y Hy]; [lia|].
  rewrite Forall_forall in Hall.
  pose proof (Hall y (list_elem_of_lookup_2 _ _ _ Hy)) as Hneq.
  destruct (non_decreasing_prefix comp comp_neg_trans key _ _ _ Hnd Hy) as [L1 L2].
  destruct (non_decreasing_prefix_above key _ _ _ Hnd Hy) as [U1 U2].
  unfold equiv_under in Hneq. destruct (comp y key), (comp key y);
    try specialize (L1 eq_refl); try specialize (L2 eq_refl);
    try specialize (U1 eq_refl); try specialize (U2 eq_refl); try lia; by apply Hneq.
Qed.

(** Erasing by a key that no stored payload is equivalent to removes
    nothing: the call returns 0 and the container is unchanged,
    whatever the comparator answers on iterators and however deep the
    calls may nest. *)
Theorem erase_key_absent (s : @sb_tree T) t key
    (cpi : gmap ptr (@node T) → T → ptr → bool) (cip : gmap ptr (@node T) → ptr → T → bool)
    (depth : nat) :
  wf s t → ordered comp t →
  Forall (λ d, ¬ equiv_under comp d key) (elems t) →
  erase_key comp cpi cip depth s key = Some (s, 0).
Proof.
  intros Hwf Hord Hall.
  pose proof (ordered_non_decreasing comp comp_neg_trans _ Hord) as Hnd.
  unfold erase_key.
  rewrite (lower_bound_node_index s t key Hwf Hord), (upper_bound_node_index s t key Hwf Hord).
  rewrite (count_equal_of_absent key _ Hnd Hall).
  cbn. destruct (fuel_of (mem s)); cbn; by rewrite decide_True.
Qed.

End Queries.

(** ** [erase(const KeyType&)] never reaches [erase_node] *)

Lemma erase_key_loop_same (call : @sb_tree T → ptr → option (@sb_tree T * Z)) :
  (∀ s k r, call s k = Some r → r.1 = s) →
  ∀ fuel s first last n r, erase_key_loop call fuel s first last n = Some r → r.1 = s.
Proof.
  intros Hcall fuel. induction fuel as [|f IH]; intros s first last n r Hr.
  - cbn [erase_key_loop] in Hr. destruct (decide (first = last)); [by simplify_eq|done].
  - cbn [erase_key_loop] in Hr. destruct (decide (first = last)); [by simplify_eq|].
    destruct (increment (mem s) first) as [x|]; [|done].
    destruct (call s first) as [[s1 m]|] eqn:Hc; [|done].
    apply Hcall in Hc. cbn in Hc. subst s1. by eapply IH.
Qed.

Lemma erase_key_iter_same (cpi : gmap ptr (@node T) → T → ptr → bool)
    (cip : gmap ptr (@node T) → ptr → T → bool) (depth : nat) :
  ∀ (s : @sb_tree T) k r, erase_key_iter cpi cip depth s k = Some r → r.1 = s.
Proof.
  induction depth as [|depth IH]; intros s k r Hr; [done|].
  cbn [erase_key_iter] in Hr.
  destruct (lower_bound_node_iter cpi s k) as [first|]; [|done].
  destruct (upper_bound_node_iter cip s k) as [last|]; [|done].
  by eapply (erase_key_loop_same _ IH).
Qed.

(** Whenever [erase(const KeyType&)] returns, the container is as it
    was before the call. *)
Lemma erase_key_same (comp : T → T → bool) (cpi : gmap ptr (@node T) → T → ptr → bool)
    (cip : gmap ptr (@node T) → ptr → T → bool) (depth : nat) (s : @sb_tree T) key r :
  erase_key comp cpi cip depth s key = Some r → r.1 = s.
Proof.
  unfold erase_key. intros Hr.
  destruct (lower_bound_node comp s key) as [first|]; [|done].
  destruct (upper_bound_node comp s key) as [last|]; [|done].
  by eapply (erase_key_loop_same _ (erase_key_iter_same cpi cip depth)).
Qed.

Lemma erase_key_loop_call_fails (call : @sb_tree T → ptr → option (@sb_tree T * Z))
    f (s : @sb_tree T) (first last : ptr) n :
  first ≠ last → is_Some (increment (mem s) first) → call s first = None →
  erase_key_loop call (S f) s first last n = None.
Proof.
  intros Hne [x Hx] Hc. cbn [erase_key_loop]. rewrite decide_False by done.
  by rewrite Hx, Hc.
Qed.

(** An iterator that is its own lower bound and not its own upper
    bound: [erase] with this iterator for the key calls itself with the
    same iterator, at every depth. *)
Lemma erase_key_iter_no_return (cpi : gmap ptr (@node T) → T → ptr → bool)
    (cip : gmap ptr (@node T) → ptr → T → bool) (s : @sb_tree T) (k last : ptr) :
  lower_bound_node_iter cpi s k = Some k → upper_bound_node_iter cip s k = Some last →
  k ≠ last → is_Some (increment (mem s) k) →
  ∀ depth, erase_key_iter cpi cip depth s k = None.
Proof.
  intros Hlb Hub Hne Hinc depth. induction depth as [|depth IH]; [done|].
  cbn [erase_key_iter]. rewrite Hlb, Hub. by apply erase_key_loop_call_fails.
Qed.

(** [size()] is the number of stored elements and [empty()] tells
    whether there is none. *)
Theorem size_counts_elements (s : @sb_tree T) t :
  wf s t →
  tree_size s = Some (Z.of_nat (length (elems t))) ∧
  empty s = Some (bool_decide (elems t = [])).
Proof.
  intros Hwf. pose proof (wf_root _ _ Hwf) as Hroot.
  destruct Hwf as [_ Hrep _ Hsz _]. unfold tree_size, empty. rewrite Hroot. cbn.
  rewrite (size_or_zero_rep _ _ _ Hrep), (sized_size_of _ Hsz), length_elems.
  split; [done|]. destruct t as [|l a n r]; [done|]. cbn.
  rewrite bool_decide_eq_false_2; [done|]. by destruct (elems l).
Qed.


End Facts.

(** * The sample containers *)

Module SampleFacts.
Import Samples.

Lemma ltb_irrefl x : (x <? x) = false.
Proof. apply Z.ltb_irrefl. Qed.

Lemma ltb_trans x y z : (x <? y) = true → (y <? z) = true → (x <? z) = true.
Proof. rewrite !Z.ltb_lt. lia. Qed.

Lemma ltb_neg_trans x y z : (x <? y) = false → (y <? z) = false → (x <? z) = false.
Proof. rewrite !Z.ltb_ge. lia. Qed.

(** Well-formedness of a concrete container is settled by evaluation. *)
Ltac solve_wf :=
  constructor;
  [ eexists; split; [vm_compute; reflexivity | repeat split]
  | cbn; repeat split; vm_compute; reflexivity
  | refine (bool_decide_unpack _ _); vm_compute; exact I
  | cbn; repeat split
  | vm_compute; discriminate ].

Ltac solve_ordered := cbn; repeat first [split | constructor].

Lemma seven_wf : wf seven seven_shape.
Proof. solve_wf. Defined.

Lemma seven_ordered : ordered Z.ltb seven_shape.
Proof. solve_ordered. Defined.

Lemma two_one_wf : wf two_one two_one_shape.
Proof. solve_wf. Defined.

Lemma three_wf : wf three three_shape.
Proof. solve_wf. Defined.

Lemma three_ordered : ordered Z.ltb three_shape.
Proof. solve_ordered. Defined.

Lemma twos_wf : wf twos twos_shape.
Proof. solve_wf. Defined.

Lemma twos_ordered : ordered Z.ltb twos_shape.
Proof. solve_ordered. Defined.

Lemma empty_wf : wf (empty_tree 0) Leaf.
Proof. solve_wf. Defined.

(** Scenario 1: the in-order listing and three order-statistic queries. *)
Example seven_queries :
  build_unique [5; 3; 8; 1; 4; 7; 9] = Some seven ∧
  elems seven_shape = [1; 3; 4; 5; 7; 8; 9] ∧
  (select_node seven 0 ≫= get_data (mem seven)) = Some 1 ∧
  (select_node seven 6 ≫= get_data (mem seven)) = Some 9 ∧
  rank_node Z.ltb seven 7 = Some 4.
Proof. by vm_compute. Qed.

Lemma select_node_correct_witness :
  wf seven seven_shape ∧ 0 <= 6 <= size_max ∧
  ((∀ a, addrs seven_shape !! Z.to_nat 6 = Some a → select_node seven 6 = Some a) ∧
   (Z.of_nat (card seven_shape) <= 6 → select_node seven 6 = Some (end_ seven)) ∧
   (seven_shape = Leaf → select_node seven 0 = Some (end_ seven))).
Proof.
  split; [exact seven_wf|]. split; [unfold size_max; lia|].
  apply (select_node_correct seven seven_shape 6); [exact seven_wf|unfold size_max; lia].
Defined.

Lemma seven_distinct : distinct_keys Z.ltb (elems seven_shape).
Proof.
  intros i j x y Hi Hj [Hxy Hyx]. assert (x = y) as -> by lia.
  apply (NoDup_lookup (elems seven_shape) i j y); [|done|done].
  by apply (bool_decide_unpack _).
Defined.

Lemma rank_select_round_trip_witness :
  wf seven seven_shape ∧ ordered Z.ltb seven_shape ∧
  distinct_keys Z.ltb (elems seven_shape) ∧
  (∀ i d, elems seven_shape !! i = Some d →
     ∃ c, rank_node Z.ltb seven d = Some (Z.of_nat c) ∧
          c = count_less Z.ltb d (elems seven_shape) ∧
          (∃ d', elems seven_shape !! c = Some d' ∧ equiv_under Z.ltb d' d) ∧
          (∀ j y, (j < c)%nat → elems seven_shape !! j = Some y → (y <? d) = true)) ∧
  (∀ k, 0 <= k < Z.of_nat (card seven_shape) →
     ∃ a d, select_node seven k = Some a ∧ addrs seven_shape !! Z.to_nat k = Some a ∧
            get_data (mem seven) a = Some d ∧ elems seven_shape !! Z.to_nat k = Some d ∧
            rank_node Z.ltb seven d = Some k).
Proof.
  split; [exact seven_wf|]. split; [exact seven_ordered|]. split; [exact seven_distinct|].
  pose proof (rank_select_round_trip Z.ltb ltb_irrefl ltb_neg_trans seven seven_shape
                seven_wf seven_ordered) as [H1 H2].
  split; [exact H1|exact (H2 seven_distinct)].
Defined.

Lemma seven_holds_7 : Exists (λ d, equiv_under Z.ltb d 7) (elems seven_shape).
Proof. cbn. do 4 apply Exists_cons_tl. apply Exists_cons_hd. split; reflexivity. Defined.

Lemma insert_unique_present_witness :
  wf seven seven_shape ∧ ordered Z.ltb seven_shape ∧
  Exists (λ d, equiv_under Z.ltb d 7) (elems seven_shape) ∧
  (∃ e n, insert_unique_node Z.ltb seven 7 = Some (seven, e, false) ∧
          e ∈ addrs seven_shape ∧ mem seven !! e = Some n ∧ equiv_under Z.ltb (data n) 7).
Proof.
  split; [exact seven_wf|]. split; [exact seven_ordered|]. split; [exact seven_holds_7|].
  apply (insert_unique_present Z.ltb ltb_irrefl ltb_neg_trans 0 seven seven_shape 7);
    [exact seven_wf|exact seven_ordered|exact seven_holds_7].
Defined.

(** C9, at a concrete input.  [at(7)] on the container of 1, 3, 4, 5,
    7, 8, 9 finds the node that holds 7; what it returns is not that
    element but the member [data] of it, which an integer does not
    have. *)
Theorem at_returns_member_of_payload :
  ∃ a, find_node Z.ltb seven 7 = Some a ∧ get_data (mem seven) a = Some 7 ∧
       at_ Z.ltb seven 7 = Some (at_ref (member_data (deref a))) ∧
       at_ Z.ltb seven 7 ≠ Some (at_ref (deref a)).
Proof. eexists. split_and!; [by vm_compute|by vm_compute|by vm_compute|by vm_compute]. Qed.

(** Scenarios 2 and 4 on the empty container. *)
Example empty_queries :
  select_node (empty_tree 0) 0 = Some (end_ (empty_tree 0)) ∧
  rank_node Z.ltb (empty_tree 0) 5 = Some size_max ∧
  at_ Z.ltb (empty_tree 0) 5 = Some domain_error.
Proof. by vm_compute. Qed.

(** C7, at a concrete input.  After unique-inserting 2 and then 1 the
    in-order listing is node 3 (payload 1), node 2 (payload 2), and node
    2 is the root.  The in-order predecessor of node 2 is node 3, but
    [operator--] on node 2 takes the branch meant for the header and
    returns the root's right child, which is the null pointer. *)
Theorem decrement_at_root_two_one :
  build_unique [2; 1] = Some two_one ∧
  addrs two_one_shape = [3; 2]%positive ∧
  root_of two_one_shape = Some 2%positive ∧
  decrement (mem two_one) 2%positive = Some None ∧
  decrement (mem two_one) 2%positive ≠ Some (Some 3%positive).
Proof. by vm_compute. Qed.

(** C1, at a concrete input.  The 103 keys of [skew_prefix], inserted
    one by one into an empty container, give a tree with exact sizes that
    meets the balance inequalities at every node.  Inserting 54 next
    leaves the sizes exact and the in-order listing 0, 1, ..., 103, but
    breaks the balance at node 4 (payload 23): its right child, node 9,
    has size 4, while the right child of its left child, node 46, has
    size 5.  The rebalancing after the insertion produced this node and
    returned without comparing these two subtrees. *)
Theorem insert_unique_breaks_balance :
  build_unique skew_prefix = Some skew_before ∧
  sized (shape skew_before) ∧ balanced (shape skew_before) ∧
  (∃ n, insert_unique_node Z.ltb skew_before skew_last = Some (skew_after, n, true)) ∧
  build_unique (skew_prefix ++ [skew_last]) = Some skew_after ∧
  sized (shape skew_after) ∧
  elems (shape skew_after) = Z.of_nat <$> seq 0 104 ∧
  4%positive ∈ addrs (shape skew_after) ∧
  get_data (mem skew_after) 4%positive = Some 23 ∧
  get_right (mem skew_after) 4%positive = Some (Some 9%positive) ∧
  get_size (mem skew_after) 9%positive = Some 4 ∧
  get_left (mem skew_after) 4%positive = Some (Some 32%positive) ∧
  get_right (mem skew_after) 32%positive = Some (Some 46%positive) ∧
  get_size (mem skew_after) 46%positive = Some 5 ∧
  ¬ balanced (shape skew_after).
Proof.
  split_and!.
  - by vm_compute.
  - apply is_sized_spec. by vm_compute.
  - apply is_balanced_spec. by vm_compute.
  - eexists. by vm_compute.
  - by vm_compute.
  - apply is_sized_spec. by vm_compute.
  - by vm_compute.
  - refine (bool_decide_unpack _ _). by vm_compute.
  - by vm_compute.
  - by vm_compute.
  - by vm_compute.
  - by vm_compute.
  - by vm_compute.
  - by vm_compute.
  - rewrite <- is_balanced_spec. by vm_compute.
Qed.

(** C6 as stated fails.  In the container obtained by inserting 2, 1, 3
    the root (node 2) has the children node 3 (payload 1) and node 4
    (payload 3), both of size 1, so [size(left) >= size(right)]; the
    leftmost node of the right subtree is node 4.  The splice installs
    node 3, the rightmost node of the left subtree, as the new root. *)
Lemma splice_replacement_counterexample :
  let h := mem three in
  let hdr := header three in
  get_left h 2%positive = Some (Some 3%positive) ∧
  get_right h 2%positive = Some (Some 4%positive) ∧
  get_size h 3%positive = Some 1 ∧ get_size h 4%positive = Some 1 ∧
  leftmost (fuel_of h) h 4%positive = Some 4%positive ∧
  rightmost (fuel_of h) h 3%positive = Some 3%positive ∧
  ∃ h' parent flag,
    splice (fuel_of h) hdr h 2%positive 3%positive 4%positive = Some (h', 3%positive, parent, flag) ∧
    get_parent h' hdr = Some (Some 3%positive) ∧
    (erase_node three 2%positive ≫= λ s', get_parent (mem s') hdr) = Some (Some 3%positive).
Proof. vm_compute. repeat split; try reflexivity. eexists _, _, _. repeat split; reflexivity. Qed.

Lemma erase_replacement_witness :
  wf three three_shape ∧ three_shape ∈ subtrees three_shape ∧
  left_of three_shape ≠ Leaf ∧ right_of three_shape ≠ Leaf ∧
  ∃ la ra h' p f,
    get_left (mem three) 2%positive = Some (Some la) ∧
    get_right (mem three) 2%positive = Some (Some ra) ∧
    get_size (mem three) la = Some (size_of (left_of three_shape)) ∧
    get_size (mem three) ra = Some (size_of (right_of three_shape)) ∧
    splice (fuel_of (mem three)) (header three) (mem three) 2%positive la ra =
      Some (h', 3%positive, p, f) ∧
    get_parent h' (header three) = Some (Some 3%positive).
Proof.
  split; [exact three_wf|]. split; [apply subtrees_refl|].
  split; [discriminate|]. split; [discriminate|].
  destruct (erase_replacement three three_shape (left_of three_shape) 2%positive
              (Node (Some 1%positive) (Some 3%positive) (Some 4%positive) 3 2)
              (right_of three_shape) three_wf (subtrees_refl _)
              ltac:(discriminate) ltac:(discriminate))
    as (la & ra & h' & p & f & H1 & H2 & H3 & H4 & H5 & H6 & H7 & _).
  exists la, ra, h', p, f. split_and!; try done. by apply H7.
Defined.

(** C8, at a concrete input: scenario 3, equal-insert 2, 2, 2, then
    erase by key.  With a comparator that takes an iterator for the
    element it points at, [erase(2)] does not return, however deep the
    calls may nest: the first of the three elements is looked up as a
    key and found at its own position, over and over.  With any
    comparator, [erase(2)] either does not return or leaves all three
    elements in place. *)
Theorem twos_erase_key_removes_nothing :
  build_equal [2; 2; 2] = Some twos ∧
  tree_size twos = Some 3 ∧
  (∀ depth, erase_key Z.ltb ltb_payload_iter ltb_iter_payload depth twos 2 = None) ∧
  (∀ cpi cip depth,
     erase_key Z.ltb cpi cip depth twos 2 = None ∨
     ∃ n, erase_key Z.ltb cpi cip depth twos 2 = Some (twos, n)).
Proof.
  split; [by vm_compute|]. split; [by vm_compute|]. split.
  - intros depth. unfold erase_key.
    assert (lower_bound_node Z.ltb twos 2 = Some (nth 0 (addrs twos_shape) (header twos)))
      as -> by (by vm_compute).
    assert (upper_bound_node Z.ltb twos 2 = Some (header twos)) as -> by (by vm_compute).
    apply erase_key_loop_call_fails; [by vm_compute|vm_compute; by eexists|].
    apply (erase_key_iter_no_return _ _ twos _ (header twos));
      [by vm_compute|by vm_compute|by vm_compute|vm_compute; by eexists].
  - intros cpi cip depth.
    destruct (erase_key Z.ltb cpi cip depth twos 2) as [[s' n]|] eqn:E; [|by left].
    right. exists n. apply erase_key_same in E. cbn in E. by subst s'.
Qed.

(** ** The further properties at concrete containers *)

Lemma seven_balanced : balanced seven_shape.
Proof. apply is_balanced_spec. vm_compute. reflexivity. Defined.

Lemma seven_holds_node_3 : 3%positive ∈ addrs seven_shape.
Proof. apply (list_elem_of_lookup_2 (addrs seven_shape) 1%nat 3%positive). reflexivity. Defined.

Lemma seven_lacks_6 : Forall (λ d, ¬ equiv_under Z.ltb d 6) (elems seven_shape).
Proof.
  cbn. repeat (constructor; [intros [H1 H2]; vm_compute in H1, H2; discriminate|]).
  constructor.
Defined.

Lemma lower_bound_first_not_below_witness :
  wf seven seven_shape ∧ ordered Z.ltb seven_shape ∧
  ∃ c, (c ≤ card seven_shape)%nat ∧
    lower_bound_node Z.ltb seven 7 = Some (nth c (addrs seven_shape) (end_ seven)) ∧
    (∀ j y, elems seven_shape !! j = Some y → (j < c)%nat → (y <? 7) = true) ∧
    (∀ j y, elems seven_shape !! j = Some y → (c ≤ j)%nat → (y <? 7) = false).
Proof.
  split; [exact seven_wf|]. split; [exact seven_ordered|].
  apply (lower_bound_first_not_below Z.ltb ltb_neg_trans seven seven_shape 7);
    [exact seven_wf|exact seven_ordered].
Defined.

Lemma upper_bound_first_above_witness :
  wf seven seven_shape ∧ ordered Z.ltb seven_shape ∧
  ∃ c, (c ≤ card seven_shape)%nat ∧
    upper_bound_node Z.ltb seven 7 = Some (nth c (addrs seven_shape) (end_ seven)) ∧
    (∀ j y, elems seven_shape !! j = Some y → (j < c)%nat → (7 <? y) = false) ∧
    (∀ j y, elems seven_shape !! j = Some y → (c ≤ j)%nat → (7 <? y) = true).
Proof.
  split; [exact seven_wf|]. split; [exact seven_ordered|].
  apply (upper_bound_first_above Z.ltb ltb_neg_trans seven seven_shape 7);
    [exact seven_wf|exact seven_ordered].
Defined.

Lemma equal_range_equivalent_witness :
  wf seven seven_shape ∧ ordered Z.ltb seven_shape ∧
  ∃ lo hi, (lo ≤ hi ≤ card seven_shape)%nat ∧
    lower_bound_node Z.ltb seven 7 = Some (nth lo (addrs seven_shape) (end_ seven)) ∧
    upper_bound_node Z.ltb seven 7 = Some (nth hi (addrs seven_shape) (end_ seven)) ∧
    (∀ j y, elems seven_shape !! j = Some y → (lo ≤ j < hi)%nat ↔ equiv_under Z.ltb y 7).
Proof.
  split; [exact seven_wf|]. split; [exact seven_ordered|].
  apply (equal_range_equivalent Z.ltb ltb_irrefl ltb_trans ltb_neg_trans seven seven_shape 7);
    [exact seven_wf|exact seven_ordered].
Defined.

Lemma find_first_equivalent_witness :
  wf seven seven_shape ∧ ordered Z.ltb seven_shape ∧
  Exists (λ d, equiv_under Z.ltb d 7) (elems seven_shape) ∧
  ∃ i a n, find_node Z.ltb seven 7 = Some a ∧ addrs seven_shape !! i = Some a ∧
    mem seven !! a = Some n ∧ elems seven_shape !! i = Some (data n) ∧
    equiv_under Z.ltb (data n) 7 ∧
    ∀ j y, elems seven_shape !! j = Some y → (j < i)%nat → (y <? 7) = true.
Proof.
  split; [exact seven_wf|]. split; [exact seven_ordered|]. split; [exact seven_holds_7|].
  apply (find_first_equivalent Z.ltb ltb_irrefl ltb_neg_trans seven seven_shape 7
           seven_wf seven_ordered).
  exact seven_holds_7.
Defined.

Lemma rank_missing_key_witness :
  wf seven seven_shape ∧ ordered Z.ltb seven_shape ∧
  Forall (λ d, ¬ equiv_under Z.ltb d 6) (elems seven_shape) ∧
  rank_node Z.ltb seven 6 = Some size_max.
Proof.
  split; [exact seven_wf|]. split; [exact seven_ordered|]. split; [exact seven_lacks_6|].
  apply (rank_missing_key Z.ltb ltb_neg_trans seven seven_shape 6);
    [exact seven_wf|exact seven_ordered|exact seven_lacks_6].
Defined.

Lemma erase_key_absent_witness :
  wf seven seven_shape ∧ ordered Z.ltb seven_shape ∧
  Forall (λ d, ¬ equiv_under Z.ltb d 6) (elems seven_shape) ∧
  erase_key Z.ltb ltb_payload_iter ltb_iter_payload 1 seven 6 = Some (seven, 0).
Proof.
  split; [exact seven_wf|]. split; [exact seven_ordered|]. split; [exact seven_lacks_6|].
  apply (erase_key_absent Z.ltb ltb_irrefl ltb_trans ltb_neg_trans seven seven_shape 6
           ltb_payload_iter ltb_iter_payload 1);
    [exact seven_wf|exact seven_ordered|exact seven_lacks_6].
Defined.

Lemma get_depth_running_sum_witness :
  wf seven seven_shape ∧ (4 < length (ptour sb_tree_state_root seven_shape))%nat ∧
  ∃ b it c, pbegin seven = Some b ∧ psteps 4 (mem seven) b 0 = Some (it, c) ∧
    ptour sb_tree_state_root seven_shape !! 4%nat = Some it ∧
    depth_of 0 seven_shape (pnode it) = Some c.
Proof.
  split; [exact seven_wf|]. split; [vm_compute; lia|].
  apply (get_depth_running_sum seven seven_shape 4 seven_wf). vm_compute. lia.
Defined.

Lemma size_counts_elements_witness :
  wf seven seven_shape ∧
  tree_size seven = Some (Z.of_nat (length (elems seven_shape))) ∧
  empty seven = Some (bool_decide (elems seven_shape = [])).
Proof.
  split; [exact seven_wf|]. apply (size_counts_elements seven seven_shape). exact seven_wf.
Defined.

Lemma increment_successor_witness :
  wf seven seven_shape ∧
  begin_ seven = Some (nth 0 (addrs seven_shape) (end_ seven)) ∧
  ∀ i a, addrs seven_shape !! i = Some a →
    increment (mem seven) a = Some (nth (S i) (addrs seven_shape) (end_ seven)).
Proof.
  split; [exact seven_wf|]. apply (increment_successor seven seven_shape). exact seven_wf.
Defined.

Lemma decrement_predecessor_witness :
  wf seven seven_shape ∧
  (∀ i a, addrs seven_shape !! i = Some a → root_of seven_shape ≠ Some a →
     decrement (mem seven) a =
       Some (Some (match i with O => end_ seven
                   | S j => nth j (addrs seven_shape) (end_ seven) end))) ∧
  (seven_shape ≠ Leaf →
     decrement (mem seven) (end_ seven) =
       Some (Some (List.last (addrs seven_shape) (end_ seven)))).
Proof.
  split; [exact seven_wf|]. apply (decrement_predecessor seven seven_shape). exact seven_wf.
Defined.

Lemma left_rotate_preserves_witness :
  wf three three_shape ∧ three_shape ∈ subtrees three_shape ∧
  ∃ h', left_rotate (header three) (mem three) 2%positive = Some (h', 4%positive) ∧
    wf (with_mem three h') (refresh h' (at_node rotate_left_root 2%positive three_shape)) ∧
    elems (refresh h' (at_node rotate_left_root 2%positive three_shape)) = elems three_shape.
Proof.
  split; [exact three_wf|]. split; [apply subtrees_refl|].
  destruct (left_rotate_preserves Z.ltb three three_shape (left_of three_shape) 2%positive
              (Node (Some 1%positive) (Some 3%positive) (Some 4%positive) 3 2)
              Leaf 4%positive (Node (Some 2%positive) None None 1 3) Leaf
              ltb_neg_trans three_wf (subtrees_refl _))
    as (h' & H1 & H2 & _ & H3 & _).
  exists h'. split; [exact H1|]. split; [exact H2|exact H3].
Defined.

Lemma right_rotate_preserves_witness :
  wf three three_shape ∧ three_shape ∈ subtrees three_shape ∧
  ∃ h', right_rotate (header three) (mem three) 2%positive = Some (h', 3%positive) ∧
    wf (with_mem three h') (refresh h' (at_node rotate_right_root 2%positive three_shape)) ∧
    elems (refresh h' (at_node rotate_right_root 2%positive three_shape)) = elems three_shape.
Proof.
  split; [exact three_wf|]. split; [apply subtrees_refl|].
  destruct (right_rotate_preserves Z.ltb three three_shape
              Leaf 3%positive (Node (Some 2%positive) None None 1 1) Leaf 2%positive
              (Node (Some 1%positive) (Some 3%positive) (Some 4%positive) 3 2)
              (right_of three_shape)
              ltb_neg_trans three_wf (subtrees_refl _))
    as (h' & H1 & H2 & _ & H3 & _).
  exists h'. split; [exact H1|]. split; [exact H2|exact H3].
Defined.

Lemma rotate_round_trip_witness :
  wf three three_shape ∧ three_shape ∈ subtrees three_shape ∧
  ∃ h', left_rotate (header three) (mem three) 2%positive = Some (h', 4%positive) ∧
    right_rotate (header three) h' 4%positive = Some (mem three, 2%positive).
Proof.
  split; [exact three_wf|]. split; [apply subtrees_refl|].
  apply (rotate_round_trip three three_shape (left_of three_shape) 2%positive
           (Node (Some 1%positive) (Some 3%positive) (Some 4%positive) 3 2)
           Leaf 4%positive (Node (Some 2%positive) None None 1 3) Leaf
           three_wf (subtrees_refl _)).
Defined.

Lemma rebalance_balanced_noop_witness :
  wf seven seven_shape ∧ balanced seven_shape ∧ 3%positive ∈ addrs seven_shape ∧
  insert_rebalance 1 (header seven) (mem seven) 3%positive true = Some (mem seven, 3%positive) ∧
  erase_rebalance 1 (header seven) (mem seven) 3%positive true = Some (mem seven, 3%positive).
Proof.
  split; [exact seven_wf|]. split; [exact seven_balanced|].
  split; [exact seven_holds_node_3|].
  apply (rebalance_balanced_noop seven seven_shape 3%positive true 0);
    [exact seven_wf|exact seven_balanced|exact seven_holds_node_3].
Defined.

Lemma rebalance_header_noop_witness :
  wf seven seven_shape ∧ balanced seven_shape ∧
  insert_rebalance 1 (header seven) (mem seven) (header seven) true =
    Some (mem seven, header seven) ∧
  erase_rebalance 1 (header seven) (mem seven) (header seven) true =
    Some (mem seven, header seven).
Proof.
  split; [exact seven_wf|]. split; [exact seven_balanced|].
  apply (rebalance_header_noop seven seven_shape true 0);
    [exact seven_wf|exact seven_balanced].
Defined.

Lemma clear_frees_every_node_witness :
  wf seven seven_shape ∧
  ∃ s', clear seven = Some s' ∧
    erase_range seven (nth 0 (addrs seven_shape) (end_ seven)) (end_ seven) =
      Some (s', end_ seven) ∧
    header s' = header seven ∧ wf s' Leaf ∧
    (∀ q, q ∈ addrs seven_shape → mem s' !! q = None) ∧
    (∀ q, q ∉ addrs seven_shape → q ≠ header seven → mem s' !! q = mem seven !! q).
Proof.
  split; [exact seven_wf|]. apply (clear_frees_every_node seven seven_shape). exact seven_wf.
Defined.

Lemma erase_empty_range_witness :
  wf seven seven_shape ∧ erase_range seven 3%positive 3%positive = Some (seven, 3%positive).
Proof.
  split; [exact seven_wf|]. apply (erase_empty_range seven seven_shape). exact seven_wf.
Defined.

Lemma single_wf : wf single single_shape.
Proof. solve_wf. Defined.

Lemma insert_into_empty_witness :
  wf (empty_tree 0) Leaf ∧ mem (empty_tree 0) !! next (empty_tree 0) = None ∧
  ∃ s', insert_equal_node Z.ltb (empty_tree 0) 5 = Some (s', next (empty_tree 0)) ∧
    insert_unique_node Z.ltb (empty_tree 0) 5 = Some (s', next (empty_tree 0), true) ∧
    header s' = header (empty_tree 0) ∧
    wf s' (Br Leaf (next (empty_tree 0))
             (Node (Some (header (empty_tree 0))) None None 1 5) Leaf) ∧
    (∀ q, q ≠ next (empty_tree 0) → q ≠ header (empty_tree 0) →
       mem s' !! q = mem (empty_tree 0) !! q).
Proof.
  split; [exact empty_wf|]. split; [reflexivity|].
  apply (insert_into_empty Z.ltb (empty_tree 0) 5); [exact empty_wf|reflexivity].
Defined.

Lemma erase_only_element_witness :
  wf single single_shape ∧
  ∃ s', erase single 2%positive = Some (s', end_ single) ∧ header s' = header single ∧
    wf s' Leaf ∧ mem s' !! 2%positive = None ∧
    (∀ q, q ≠ 2%positive → q ≠ header single → mem s' !! q = mem single !! q).
Proof.
  split; [exact single_wf|].
  apply (erase_only_element single 2%positive (Node (Some 1%positive) None None 1 5)).
  exact single_wf.
Defined.

Lemma pincrement_walk_witness :
  wf seven seven_shape ∧
  pbegin seven = Some (nth 0 (ptour sb_tree_state_root seven_shape) (pend seven)) ∧
  (∀ i it, ptour sb_tree_state_root seven_shape !! i = Some it →
     pincrement (mem seven) it =
       Some (nth (S i) (ptour sb_tree_state_root seven_shape)
               (PIter (header seven) sb_tree_state_parent))) ∧
  piter_eqb (PIter (header seven) sb_tree_state_parent) (pend seven) = true.
Proof.
  split; [exact seven_wf|]. apply (pincrement_walk seven seven_shape). exact seven_wf.
Defined.

Lemma rebalance_terminates_witness :
  wf seven seven_shape ∧ 3%positive ∈ addrs seven_shape ∧
  (card seven_shape * card seven_shape < 50)%nat ∧
  ∃ h' a' w',
    insert_rebalance 50 (header seven) (mem seven) 3%positive true = Some (h', a') ∧
    erase_rebalance 50 (header seven) (mem seven) 3%positive false = Some (h', a') ∧
    wf (with_mem seven h') w' ∧ addrs w' = addrs seven_shape ∧
    elems w' = elems seven_shape ∧ (ordered Z.ltb seven_shape → ordered Z.ltb w').
Proof.
  split; [exact seven_wf|]. split; [exact seven_holds_node_3|].
  split; [vm_compute; lia|].
  apply (rebalance_terminates Z.ltb seven seven_shape 3%positive true 50 ltb_neg_trans
           seven_wf seven_holds_node_3).
  vm_compute. lia.
Defined.

Lemma pdecrement_walk_witness :
  wf seven seven_shape ∧
  (∀ i it, ptour_back sb_tree_state_root seven_shape !! i = Some it →
     pdecrement (mem seven) it =
       Some (nth (S i) (ptour_back sb_tree_state_root seven_shape)
               (PIter (header seven) sb_tree_state_parent))) ∧
  pdecrement (mem seven) (pend seven) =
    Some (PIter (List.last (addrs seven_shape) (header seven)) sb_tree_state_right).
Proof.
  split; [exact seven_wf|]. apply (pdecrement_walk seven seven_shape). exact seven_wf.
Defined.

Lemma leftmost_rightmost_ends_witness :
  wf three three_shape ∧ three_shape ∈ subtrees three_shape ∧
  leftmost (fuel_of (mem three)) (mem three) 2%positive =
    Some (hd 2%positive (addrs three_shape)) ∧
  rightmost (fuel_of (mem three)) (mem three) 2%positive =
    Some (List.last (addrs three_shape) 2%positive).
Proof.
  split; [exact three_wf|]. split; [apply subtrees_refl|].
  apply (leftmost_rightmost_ends three three_shape (left_of three_shape) 2%positive
           (Node (Some 1%positive) (Some 3%positive) (Some 4%positive) 3 2)
           (right_of three_shape) three_wf (subtrees_refl _)).
Defined.

Lemma three_fresh : fresh three.
Proof. apply fresh_of_cells. apply (bool_decide_unpack _). by vm_compute. Defined.

Lemma copy_construct_deep_copy_witness :
  wf three three_shape ∧ fresh three ∧
  ∃ s' w', copy_construct 0 three = Some s' ∧ wf s' w' ∧
    similar three_shape w' ∧ elems w' = elems three_shape ∧
    (balanced three_shape → balanced w') ∧
    (∀ comp, ordered comp three_shape → ordered comp w') ∧ header s' = next three ∧
    (∀ q, q ∈ addrs w' → (next three < q)%positive) ∧
    (∀ q, (q < next three)%positive → mem s' !! q = mem three !! q).
Proof.
  split; [exact three_wf|]. split; [exact three_fresh|].
  exact (copy_construct_deep_copy 0 three three_shape three_wf three_fresh).
Defined.

End SampleFacts.
